(** * The straight-forward register allocator of Maglev

    A shallow embedding of [src/maglev/maglev-regalloc.cc] and
    [src/maglev/maglev-regalloc-data.h], with the properties of the
    allocator stated against it.

    Conventions of the embedding.
    - Pointers to nodes, blocks and control nodes are natural numbers;
      [nullptr] is [None].  The objects live in stores ([gmap]) that
      are read with a total lookup: every address denotes an object.
    - [int] values are in [Z]; register lists are bit sets in [Z].
    - A computation either returns ([Ok]), halts on a failed assertion
      or [UNREACHABLE()] ([Fatal]), or reaches behaviour the C++
      language leaves undefined, such as indexing outside an array or
      following a null pointer ([Undefined]).
    - [DCHECK]s and [#ifdef DEBUG] bodies are executed when the flag
      [DEBUG] is set and skipped otherwise. *)

From Stdlib Require Import ZArith Lia Bool.
From stdpp Require Import base option list gmap.

Local Open Scope Z_scope.

(** ** Register lists *)

Definition ptr := nat.
Definition Register := Z.
Definition RegList := Z.

Definition no_reg : Register := -1.
Definition kEmptyRegList : RegList := 0.

(** Modelled from the spec: [Register::InsertInto], [Register::RemoveFrom]
    and [RegList] of src/codegen are absent; the free set is "a bitset over
    register indices", so inserting sets the bit of the register and
    removing clears it. *)
Definition InsertInto (r : Register) (l : RegList) : RegList := Z.setbit l r.
Definition RemoveFrom (r : Register) (l : RegList) : RegList := Z.clearbit l r.
Definition has (l : RegList) (r : Register) : bool := Z.testbit l r.

Fixpoint ctz (p : positive) : Z :=
  match p with
  | xO q => Z.succ (ctz q)
  | _ => 0
  end.

(** Modelled from the spec: [Register::TakeAny] is absent ("take any free
    register"); the register taken is the one of the lowest set bit. *)
Definition first_reg (l : RegList) : Register :=
  match l with
  | Zpos p => ctz p
  | _ => no_reg
  end.

Fixpoint pos_bits (p : positive) (k : Z) : list Z :=
  match p with
  | xH => [k]
  | xO q => pos_bits q (Z.succ k)
  | xI q => k :: pos_bits q (Z.succ k)
  end.

(** The registers of a list, lowest first: the order in which repeated
    [TakeAny] calls return them. *)
Definition regs_of (l : RegList) : list Register :=
  match l with
  | Zpos p => pos_bits p 0
  | _ => []
  end.

Definition CountPopulation (l : RegList) : Z := Z.of_nat (length (regs_of l)).

(** ** Operands *)

Inductive Policy :=
| FIXED_SLOT (fixed_slot_index : Z)
| NONE
| REGISTER_OR_SLOT
| REGISTER_OR_SLOT_OR_CONSTANT
| FIXED_REGISTER (fixed_register_index : Z)
| FIXED_FP_REGISTER (fixed_register_index : Z)
| MUST_HAVE_REGISTER
| MUST_HAVE_SLOT
| SAME_AS_INPUT (input_index : nat).

(** [compiler::InstructionOperand]: invalid, unallocated with a policy, or
    allocated to a register or to a stack slot (always [kTagged] here). *)
Inductive Operand :=
| Invalid
| Unallocated (policy : Policy)
| REGISTER (code : Z)
| STACK_SLOT (index : Z).

Definition IsAllocated (o : Operand) : bool :=
  match o with REGISTER _ | STACK_SLOT _ => true | _ => false end.
Definition IsRegister (o : Operand) : bool :=
  match o with REGISTER _ => true | _ => false end.
Definition IsStackSlot (o : Operand) : bool :=
  match o with STACK_SLOT _ => true | _ => false end.

Global Instance Policy_eq_dec : EqDecision Policy.
Proof. solve_decision. Defined.
Global Instance Operand_eq_dec : EqDecision Operand.
Proof. solve_decision. Defined.

(** ** Nodes

    One record holds the fields of [NodeBase], [Node] and [ValueNode] that
    the allocator reads or writes.  The class declarations themselves
    (src/maglev/maglev-ir.h) are absent; the fields are the ones the spec
    lists for a ValueNode and for an Input. *)

Record Input := mkInput {
  input_node : ptr;           (* input.node() *)
  next_use_id : Z;            (* input.next_use_id() *)
  operand : Operand           (* input.operand() *)
}.

Inductive Opcode := kPhi | kInitialValue | kValue | kGapMove | kNonValue.

Record Node := mkNode {
  node_id : Z;                       (* id() *)
  opcode : Opcode;
  inputs : list Input;
  num_temporaries_needed : Z;
  temporaries : RegList;
  is_call : bool;                    (* properties().is_call() *)
  can_deopt : bool;                  (* properties().can_deopt() *)
  next_use : Z;
  end_id : Z;                        (* live_range().end *)
  spill_or_hint : Operand;
  registers_with_result : RegList;
  result : Operand                   (* result().operand() *)
}.

Global Instance Node_inhabited : Inhabited Node :=
  populate (mkNode 0 kNonValue [] 0 0 false false 0 0 Invalid 0 Invalid).

Definition IsValueNode (n : Node) : bool :=
  match opcode n with kPhi | kInitialValue | kValue => true | _ => false end.
Definition IsPhi (n : Node) : bool :=
  match opcode n with kPhi => true | _ => false end.
Definition IsInitialValue (n : Node) : bool :=
  match opcode n with kInitialValue => true | _ => false end.

(** Modelled from the spec: the accessors of [ValueNode] are absent.  A
    node has "an optional spill slot", "a set of registers it currently
    occupies" and "a result operand ... later overwritten with an allocated
    location"; its current allocation is a register it occupies, if any,
    else its spill slot. *)
Definition is_spilled (n : Node) : bool := IsStackSlot (spill_or_hint n).
Definition spill_slot (n : Node) : Operand := spill_or_hint n.
Definition has_register (n : Node) : bool :=
  negb (registers_with_result n =? kEmptyRegList).
Definition allocation (n : Node) : Operand :=
  if has_register n then REGISTER (first_reg (registers_with_result n))
  else spill_or_hint n.

Definition set_next_use (use : Z) (n : Node) : Node :=
  mkNode (node_id n) (opcode n) (inputs n) (num_temporaries_needed n)
    (temporaries n) (is_call n) (can_deopt n) use (end_id n)
    (spill_or_hint n) (registers_with_result n) (result n).
Definition set_spill_or_hint (o : Operand) (n : Node) : Node :=
  mkNode (node_id n) (opcode n) (inputs n) (num_temporaries_needed n)
    (temporaries n) (is_call n) (can_deopt n) (next_use n) (end_id n)
    o (registers_with_result n) (result n).
Definition set_registers (l : RegList) (n : Node) : Node :=
  mkNode (node_id n) (opcode n) (inputs n) (num_temporaries_needed n)
    (temporaries n) (is_call n) (can_deopt n) (next_use n) (end_id n)
    (spill_or_hint n) l (result n).
Definition set_result (o : Operand) (n : Node) : Node :=
  mkNode (node_id n) (opcode n) (inputs n) (num_temporaries_needed n)
    (temporaries n) (is_call n) (can_deopt n) (next_use n) (end_id n)
    (spill_or_hint n) (registers_with_result n) o.
Definition assign_temporaries (l : RegList) (n : Node) : Node :=
  mkNode (node_id n) (opcode n) (inputs n) (num_temporaries_needed n)
    l (is_call n) (can_deopt n) (next_use n) (end_id n)
    (spill_or_hint n) (registers_with_result n) (result n).
Definition set_inputs (l : list Input) (n : Node) : Node :=
  mkNode (node_id n) (opcode n) l (num_temporaries_needed n)
    (temporaries n) (is_call n) (can_deopt n) (next_use n) (end_id n)
    (spill_or_hint n) (registers_with_result n) (result n).

Definition SetNoSpillOrHint : Node → Node := set_spill_or_hint Invalid.
Definition Spill_to (o : Operand) : Node → Node := set_spill_or_hint o.
Definition AddRegister (r : Register) (n : Node) : Node :=
  set_registers (InsertInto r (registers_with_result n)) n.
Definition RemoveRegister (r : Register) (n : Node) : Node :=
  set_registers (RemoveFrom r (registers_with_result n)) n.
Definition ClearRegisters : Node → Node := set_registers kEmptyRegList.
Definition SetAllocated (o : Operand) : Node → Node := set_result o.

(** [input.SetAllocated(o)] / [input.InjectAllocated(o)] on input [k]. *)
Definition input_SetAllocated (k : nat) (o : Operand) (n : Node) : Node :=
  set_inputs
    (alter (λ i, mkInput (input_node i) (next_use_id i) o) k (inputs n)) n.

(** ** Join states ([maglev-regalloc-data.h]) *)

Record RegisterMerge := mkMerge {
  merge_node : option ptr;            (* RegisterMerge::node *)
  operands : list Operand             (* operand(0) .. operand(P-1) *)
}.

(** [RegisterState] is a pointer with a two-bit payload
    [{is_initialized, is_merge}]; the three payloads in use are
    [{false,false}], [initialized_node] and [initialized_merge]. *)
Inductive RegisterState :=
| Uninitialized
| NodeState (node : option ptr)
| MergeState (merge : RegisterMerge).

Definition is_initialized (c : RegisterState) : bool :=
  match c with Uninitialized => false | _ => true end.
Definition is_merge (c : RegisterState) : bool :=
  match c with MergeState _ => true | _ => false end.

(** [RegisterStateFlags] and its two conversions: to the payload bits of a
    [RegisterState] ([explicit operator uintptr_t()]) and back
    ([RegisterStateFlags(uintptr_t state)]). *)
Record RegisterStateFlags := mkFlags {
  flag_is_initialized : bool;
  flag_is_merge : bool
}.

Definition kIsMergeShift : Z := 0.
Definition kIsInitializedShift : Z := 1.

Definition flags_to_uintptr (f : RegisterStateFlags) : Z :=
  Z.lor (if flag_is_initialized f then Z.shiftl 1 kIsInitializedShift else 0)
        (if flag_is_merge f then Z.shiftl 1 kIsMergeShift else 0).

Definition flags_of_uintptr (state : Z) : RegisterStateFlags :=
  mkFlags (negb (Z.land state (Z.shiftl 1 kIsInitializedShift) =? 0))
          (negb (Z.land state (Z.shiftl 1 kIsMergeShift) =? 0)).

(** [operator==] on flags. *)
Definition flags_eqb (left right : RegisterStateFlags) : bool :=
  eqb (flag_is_initialized left) (flag_is_initialized right)
  && eqb (flag_is_merge left) (flag_is_merge right).

Definition initialized_node : RegisterStateFlags := mkFlags true false.
Definition initialized_merge : RegisterStateFlags := mkFlags true true.

(** [state.GetPayload()]. *)
Definition GetPayload (c : RegisterState) : RegisterStateFlags :=
  match c with
  | Uninitialized => mkFlags false false
  | NodeState _ => initialized_node
  | MergeState _ => initialized_merge
  end.

Record BasicBlock := mkBlock {
  first_id : Z;
  FirstNonGapMoveId : Z;
  control_node_id : Z;                (* control_node()->id() *)
  has_state : bool;
  predecessor_count : Z;              (* state()->predecessor_count() *)
  register_state : list RegisterState (* state()->register_state() *)
}.

Global Instance BasicBlock_inhabited : Inhabited BasicBlock :=
  populate (mkBlock 0 0 0 false 0 []).

Definition set_register_state (l : list RegisterState) (b : BasicBlock) :=
  mkBlock (first_id b) (FirstNonGapMoveId b) (control_node_id b)
    (has_state b) (predecessor_count b) l.

(** ** Allocator state *)

Record GapMove := mkGapMove {
  before : option ptr;   (* the node the move is inserted before;
                            [None]: appended, the cursor is at the control node *)
  source : Operand;
  target : Operand
}.

Record State := mkState {
  register_values_ : list (option ptr);
  free_registers_ : RegList;
  top_of_stack_ : Z;
  free_slots_ : list Z;            (* a stack: the head is [back()] *)
  node_it_ : option ptr;           (* [*node_it_] *)
  nodes_ : gmap ptr Node;          (* the node objects *)
  blocks_ : gmap ptr BasicBlock;   (* the block objects *)
  gap_moves_ : list GapMove        (* gap moves created, oldest first *)
}.

Definition with_register_values l (s : State) :=
  mkState l (free_registers_ s) (top_of_stack_ s) (free_slots_ s)
    (node_it_ s) (nodes_ s) (blocks_ s) (gap_moves_ s).
Definition with_free_registers l (s : State) :=
  mkState (register_values_ s) l (top_of_stack_ s) (free_slots_ s)
    (node_it_ s) (nodes_ s) (blocks_ s) (gap_moves_ s).
Definition with_top_of_stack t (s : State) :=
  mkState (register_values_ s) (free_registers_ s) t (free_slots_ s)
    (node_it_ s) (nodes_ s) (blocks_ s) (gap_moves_ s).
Definition with_free_slots l (s : State) :=
  mkState (register_values_ s) (free_registers_ s) (top_of_stack_ s) l
    (node_it_ s) (nodes_ s) (blocks_ s) (gap_moves_ s).
Definition with_nodes m (s : State) :=
  mkState (register_values_ s) (free_registers_ s) (top_of_stack_ s)
    (free_slots_ s) (node_it_ s) m (blocks_ s) (gap_moves_ s).
Definition with_blocks m (s : State) :=
  mkState (register_values_ s) (free_registers_ s) (top_of_stack_ s)
    (free_slots_ s) (node_it_ s) (nodes_ s) m (gap_moves_ s).
Definition with_gap_moves l (s : State) :=
  mkState (register_values_ s) (free_registers_ s) (top_of_stack_ s)
    (free_slots_ s) (node_it_ s) (nodes_ s) (blocks_ s) l.

(** The object at an address. *)
Definition node_at (s : State) (p : ptr) : Node := nodes_ s !!! p.
Definition block_at (s : State) (b : ptr) : BasicBlock := blocks_ s !!! b.

(** ** The monad of allocator steps *)

Inductive Outcome (A : Type) :=
| Ok (a : A)
| Fatal
| Undefined.
Arguments Ok {A} a.
Arguments Fatal {A}.
Arguments Undefined {A}.

Definition M (A : Type) : Type := State → Outcome (A * State).

Definition ret {A} (a : A) : M A := λ s, Ok (a, s).
Definition bind {A B} (m : M A) (f : A → M B) : M B :=
  λ s, match m s with
       | Ok (a, s') => f a s'
       | Fatal => Fatal
       | Undefined => Undefined
       end.

Declare Scope alloc_scope.
Delimit Scope alloc_scope with alloc.
Notation "x <- m ;; f" := (bind m (λ x, f))
  (at level 100, m at next level, f at level 200,
   right associativity) : alloc_scope.
Notation "m ;; f" := (bind m (λ _, f))
  (at level 100, f at level 200, right associativity) : alloc_scope.
Local Open Scope alloc_scope.

Definition fatal {A} : M A := λ _, Fatal.
Definition undefined {A} : M A := λ _, Undefined.
Definition get : M State := λ s, Ok (s, s).
Definition modify (f : State → State) : M unit := λ s, Ok (tt, f s).

Definition when (b : bool) (m : M unit) : M unit := if b then m else ret tt.

Fixpoint for_each {A} (l : list A) (body : A → M unit) : M unit :=
  match l with
  | [] => ret tt
  | x :: l' => body x ;; for_each l' body
  end.

Fixpoint repeat_times (n : nat) (body : M unit) : M unit :=
  match n with
  | O => ret tt
  | S n' => body ;; repeat_times n' body
  end.

(** [node->f(...)]: read or update the object a pointer denotes. *)
Definition node (p : ptr) : M Node := λ s, Ok (node_at s p, s).
Definition update_node (p : ptr) (f : Node → Node) : M unit :=
  modify (λ s, with_nodes (<[p := f (node_at s p)]> (nodes_ s)) s).
Definition basic_block (b : ptr) : M BasicBlock := λ s, Ok (block_at s b, s).
Definition update_block (b : ptr) (f : BasicBlock → BasicBlock) : M unit :=
  modify (λ s, with_blocks (<[b := f (block_at s b)]> (blocks_ s)) s).

(** ** The allocator ([maglev-regalloc.cc]) *)

Section Allocator.

(** [kAllocatableGeneralRegisterCount]: the macro
    [ALLOCATABLE_GENERAL_REGISTERS] that defines it is absent. *)
Variable kAllocatableGeneralRegisterCount : nat.

(** Whether [DCHECK]s and [#ifdef DEBUG] code are compiled in. *)
Variable DEBUG : bool.

(** [ValueNode::is_dead] and [ValueNode::has_valid_live_range] are absent
    (liveness is an external collaborator); the allocator is modelled for
    any such predicates on the node's fields. *)
Variable is_dead : Node → bool.
Variable has_valid_live_range : Node → bool.

Definition allocatable (i : Z) : bool :=
  (0 <=? i) && (i <? Z.of_nat kAllocatableGeneralRegisterCount).

(** Modelled from the spec: the register table is absent; "the allocator
    works in terms of an index in [0, N); a bijection maps index ↔ register
    identity".  A register is identified by its index; outside the table the
    two functions return [255] and [no_reg] as in the source. *)
Definition MapRegisterToIndex (r : Register) : Z :=
  if allocatable r then r else 255.
Definition MapIndexToRegister (i : Z) : Register :=
  if allocatable i then i else no_reg.

(** The loop [for (int i = 0; i < kAllocatableGeneralRegisterCount; i++)]. *)
Definition indices : list Z :=
  Z.of_nat <$> seq 0 kAllocatableGeneralRegisterCount.

Definition DCHECK (b : bool) : M unit :=
  if DEBUG && negb b then fatal else ret tt.
Definition UNREACHABLE {A} : M A := fatal.
(** A checked downcast ([UnallocatedOperand::cast] and the like) applied to
    an operand of another kind. *)
Definition bad_cast {A} : M A := if DEBUG then fatal else undefined.

(** [register_values_[i]], read and written. *)
Definition register_values (i : Z) : M (option ptr) := λ s,
  if 0 <=? i then
    match register_values_ s !! Z.to_nat i with
    | Some v => Ok (v, s)
    | None => Undefined
    end
  else Undefined.
Definition set_register_values (i : Z) (v : option ptr) : M unit := λ s,
  if (0 <=? i) && bool_decide (Z.to_nat i < length (register_values_ s))%nat
  then Ok (tt, with_register_values (<[Z.to_nat i := v]> (register_values_ s)) s)
  else Undefined.

(** [node->input(k)]. *)
Definition input (p : ptr) (k : nat) : M Input :=
  n <- node p ;;
  match inputs n !! k with
  | Some i => ret i
  | None => undefined
  end.

(** [input.AssignedRegister()]. *)
Definition AssignedRegister (i : Input) : M Register :=
  match operand i with
  | REGISTER code => ret code
  | _ => bad_cast
  end.

(** [Register::TakeAny(&free_registers_)]. *)
Definition TakeAny : M Register :=
  s <- get ;;
  let reg := first_reg (free_registers_ s) in
  modify (with_free_registers (RemoveFrom reg (free_registers_ s))) ;;
  ret reg.

Definition AddMoveBeforeCurrentNode (source target : Operand) : M unit :=
  modify (λ s, with_gap_moves
                 (gap_moves_ s ++ [mkGapMove (node_it_ s) source target]) s).

Definition AllocateSpillSlot (v : ptr) : M unit :=
  n <- node v ;;
  DCHECK (negb (is_spilled n)) ;;
  s <- get ;;
  free_slot <-
    match free_slots_ s with
    | [] =>
        modify (with_top_of_stack (top_of_stack_ s + 1)) ;;
        ret (top_of_stack_ s)
    | back :: rest =>
        modify (with_free_slots rest) ;;
        ret back
    end ;;
  update_node v (Spill_to (STACK_SLOT free_slot)).

Definition Spill (v : ptr) : M unit :=
  n <- node v ;;
  if is_spilled n then ret tt else AllocateSpillSlot v.

Definition SetRegister (reg : Register) (v : ptr) : M unit :=
  let index := MapRegisterToIndex reg in
  cur <- register_values index ;;
  DCHECK (implb (negb (bool_decide (cur = Some v))) (bool_decide (cur = None))) ;;
  set_register_values index (Some v) ;;
  update_node v (AddRegister reg).

Definition FreeRegister (i : Z) : M unit :=
  set_register_values i None ;;
  modify (λ s, with_free_registers
                 (InsertInto (MapIndexToRegister i) (free_registers_ s)) s).

(** Modelled from the spec: [FreeRegisters] is declared in the absent
    header; it "free[s] all [the node's] registers": the node's register set
    is cleared and each register that was in it is freed. *)
Definition FreeRegisters (v : ptr) : M unit :=
  n <- node v ;;
  update_node v ClearRegisters ;;
  for_each (regs_of (registers_with_result n))
           (λ reg, FreeRegister (MapRegisterToIndex reg)).

Definition Free (reg : Register) : M unit :=
  let index := MapRegisterToIndex reg in
  cur <- register_values index ;;
  match cur with
  | None => ret tt
  | Some v =>
      set_register_values index None ;;
      update_node v (RemoveRegister reg) ;;
      n <- node v ;;
      if has_register n then ret tt
      else if is_spilled n then ret tt
      else
        s <- get ;;
        if negb (free_registers_ s =? kEmptyRegList) then
          target_reg <- TakeAny ;;
          SetRegister target_reg v ;;
          AddMoveBeforeCurrentNode (REGISTER reg) (REGISTER target_reg)
        else Spill v
  end.

(** The loop of [FreeSomeRegister], from index [i] on. *)
Fixpoint furthest_from (l : list Z) (furthest_use longest : Z) : M Z :=
  match l with
  | [] => ret longest
  | i :: l' =>
      cur <- register_values i ;;
      match cur with
      | None => furthest_from l' furthest_use longest
      | Some v =>
          n <- node v ;;
          let use := next_use n in
          if use >? furthest_use then furthest_from l' use i
          else furthest_from l' furthest_use longest
      end
  end.

Definition FreeSomeRegister : M unit :=
  longest <- furthest_from indices 0 (-1) ;;
  FreeRegister longest.

Definition TryAllocateRegister (v : ptr) : M Operand :=
  s <- get ;;
  if free_registers_ s =? kEmptyRegList then ret Invalid
  else
    reg <- TakeAny ;;
    SetRegister reg v ;;
    ret (REGISTER reg).

Definition AllocateRegister (v : ptr) : M Operand :=
  s <- get ;;
  when (free_registers_ s =? kEmptyRegList) FreeSomeRegister ;;
  allocation <- TryAllocateRegister v ;;
  DCHECK (IsAllocated allocation) ;;
  if IsAllocated allocation then ret allocation else bad_cast.

Definition ForceAllocate (reg : Register) (v : ptr) : M Operand :=
  let finish : M Operand :=
    s <- get ;;
    DCHECK (negb (free_registers_ s =? InsertInto reg (free_registers_ s))) ;;
    SetRegister reg v ;;
    ret (REGISTER reg) in
  cur <- register_values (MapRegisterToIndex reg) ;;
  if bool_decide (cur = None) then
    modify (λ s, with_free_registers (RemoveFrom reg (free_registers_ s)) s) ;;
    finish
  else if bool_decide (cur = Some v) then ret (REGISTER reg)
  else
    Free reg ;;
    cur' <- register_values (MapRegisterToIndex reg) ;;
    DCHECK (bool_decide (cur' = None)) ;;
    finish.

Definition AssignInput (p : ptr) (k : nat) : M unit :=
  i <- input p k ;;
  match operand i with
  | Unallocated policy =>
      let v := input_node i in
      n <- node v ;;
      let location := allocation n in
      match policy with
      | REGISTER_OR_SLOT | REGISTER_OR_SLOT_OR_CONSTANT =>
          update_node p (input_SetAllocated k location)
      | FIXED_REGISTER r =>
          o <- ForceAllocate r v ;;
          update_node p (input_SetAllocated k o)
      | MUST_HAVE_REGISTER =>
          if IsRegister location then
            update_node p (input_SetAllocated k location)
          else
            o <- AllocateRegister v ;;
            update_node p (input_SetAllocated k o)
      | FIXED_FP_REGISTER _ | SAME_AS_INPUT _ | NONE | MUST_HAVE_SLOT =>
          UNREACHABLE
      | FIXED_SLOT _ => bad_cast
      end ;;
      i' <- input p k ;;
      let allocated := operand i' in
      if bool_decide (location ≠ allocated)
      then AddMoveBeforeCurrentNode location allocated
      else ret tt
  | _ => bad_cast
  end.

Definition SpillRegisters : M unit :=
  for_each indices (λ i,
    cur <- register_values i ;;
    match cur with
    | None => ret tt
    | Some v => Spill v
    end).

Definition SpillAndClearRegisters : M unit :=
  for_each indices (λ i,
    cur <- register_values i ;;
    match cur with
    | None => ret tt
    | Some v => Spill v ;; FreeRegisters v
    end).

Definition AssignTemporaries (p : ptr) : M unit :=
  n <- node p ;;
  s <- get ;;
  let num_temporaries_needed := num_temporaries_needed n in
  let num_free_registers := CountPopulation (free_registers_ s) in
  repeat_times (Z.to_nat (num_temporaries_needed - num_free_registers))
               FreeSomeRegister ;;
  s' <- get ;;
  DCHECK (num_temporaries_needed <=? CountPopulation (free_registers_ s')) ;;
  update_node p (assign_temporaries (free_registers_ s')).

Definition UpdateInputUse (use : Z) (i : Input) : M unit :=
  let v := input_node i in
  n <- node v ;;
  if is_dead n then ret tt
  else
    update_node v (set_next_use (next_use_id i)) ;;
    n' <- node v ;;
    if is_dead n' then
      FreeRegisters v ;;
      n'' <- node v ;;
      match spill_or_hint n'' with
      | STACK_SLOT index =>
          when (index >? 0)
               (modify (λ s, with_free_slots (index :: free_slots_ s) s))
      | _ => ret tt
      end
    else ret tt.

Definition AllocateNodeResult (p : ptr) : M unit :=
  n0 <- node p ;;
  DCHECK (negb (IsPhi n0)) ;;
  update_node p SetNoSpillOrHint ;;
  match result n0 with
  | Unallocated (FIXED_SLOT fixed_slot_index) =>
      DCHECK (IsInitialValue n0) ;;
      DCHECK (fixed_slot_index <? 0) ;;
      let location := STACK_SLOT fixed_slot_index in
      update_node p (SetAllocated location) ;;
      update_node p (Spill_to location)
  | Unallocated policy =>
      match policy with
      | FIXED_REGISTER r =>
          o <- ForceAllocate r p ;;
          update_node p (SetAllocated o)
      | MUST_HAVE_REGISTER =>
          o <- AllocateRegister p ;;
          update_node p (SetAllocated o)
      | SAME_AS_INPUT input_index =>
          i <- input p input_index ;;
          r <- AssignedRegister i ;;
          o <- ForceAllocate r p ;;
          update_node p (SetAllocated o)
      | _ => UNREACHABLE
      end ;;
      n <- node p ;;
      if negb (has_valid_live_range n) && IsRegister (result n) then
        DCHECK (has_register n) ;;
        FreeRegisters p ;;
        n' <- node p ;;
        DCHECK (negb (has_register n')) ;;
        DCHECK (is_dead n')
      else ret tt
  | _ => bad_cast
  end.

Definition AllocateNode (p : ptr) : M unit :=
  n <- node p ;;
  for_each (seq 0 (length (inputs n))) (AssignInput p) ;;
  AssignTemporaries p ;;
  n <- node p ;;
  for_each (inputs n) (UpdateInputUse (node_id n)) ;;
  n <- node p ;;
  when (is_call n) SpillAndClearRegisters ;;
  n <- node p ;;
  when (can_deopt n) SpillRegisters ;;
  n <- node p ;;
  when (IsValueNode n) (AllocateNodeResult p).

(** *** Phi placement (the "Activate phis" part of [AllocateRegisters]) *)

Fixpoint TryAllocateToInput_from (phi : ptr) (l : list Input) : M unit :=
  match l with
  | [] => ret tt
  | i :: l' =>
      if IsRegister (operand i) then
        reg <- AssignedRegister i ;;
        let index := MapRegisterToIndex reg in
        cur <- register_values index ;;
        if bool_decide (cur = None) then
          o <- ForceAllocate reg phi ;;
          update_node phi (SetAllocated o)
        else TryAllocateToInput_from phi l'
      else TryAllocateToInput_from phi l'
  end.

Definition TryAllocateToInput (phi : ptr) : M unit :=
  n <- node phi ;;
  TryAllocateToInput_from phi (inputs n).

(** The bodies of the three loops over the phis of a block; the source has
    them inline, under the comments quoted here. *)

(* Firstly, make the phi live, and try to assign it to an input location. *)
Definition phi_to_input (phi : ptr) : M unit :=
  update_node phi SetNoSpillOrHint ;;
  TryAllocateToInput phi.

(* Secondly try to assign the phi to a free register. *)
Definition phi_to_free_register (phi : ptr) : M unit :=
  n <- node phi ;;
  if IsAllocated (result n) then ret tt
  else
    allocation <- TryAllocateRegister phi ;;
    if IsAllocated allocation
    then update_node phi (SetAllocated allocation)
    else ret tt.

(* Finally just use a stack slot. *)
Definition phi_to_stack_slot (phi : ptr) : M unit :=
  n <- node phi ;;
  if IsAllocated (result n) then ret tt
  else
    AllocateSpillSlot phi ;;
    n' <- node phi ;;
    update_node phi (SetAllocated (spill_slot n')).

Definition AllocatePhis (phis : list ptr) : M unit :=
  for_each phis phi_to_input ;;
  for_each phis phi_to_free_register ;;
  for_each phis phi_to_stack_slot.

(** The nodes of a block, after its phis: [node_it_] walks the list. *)
Definition AllocateNodes (nodes : list ptr) : M unit :=
  for_each nodes (λ p,
    modify (λ s, mkState (register_values_ s) (free_registers_ s)
                   (top_of_stack_ s) (free_slots_ s) (Some p)
                   (nodes_ s) (blocks_ s) (gap_moves_ s)) ;;
    AllocateNode p).

(** *** Join states *)

Definition IsLiveAtTarget (v : option ptr) (source target : ptr) : M bool :=
  match v with
  | None => ret false
  | Some p =>
      n <- node p ;;
      if is_dead n then ret false
      else
        src <- node source ;;
        t <- basic_block target ;;
        if control_node_id t <=? node_id src
        then ret (node_id n <? FirstNonGapMoveId t)
        else ret (end_id n >=? first_id t)
  end.

(** [target->state()->register_state()[i]], read and written. *)
Definition target_state (target : ptr) (i : Z) : M RegisterState :=
  t <- basic_block target ;;
  if has_state t && (0 <=? i) then
    match register_state t !! Z.to_nat i with
    | Some c => ret c
    | None => undefined
    end
  else undefined.
Definition set_target_state (target : ptr) (i : Z) (c : RegisterState)
  : M unit :=
  t <- basic_block target ;;
  if has_state t && (0 <=? i)
     && bool_decide (Z.to_nat i < length (register_state t))%nat
  then update_block target
         (λ t, set_register_state (<[Z.to_nat i := c]> (register_state t)) t)
  else undefined.

Definition LoadMergeState (c : RegisterState)
  : M (option ptr * option RegisterMerge) :=
  DCHECK (is_initialized c) ;;
  match c with
  | MergeState m => ret (merge_node m, Some m)
  | NodeState v => ret (v, None)
  | Uninitialized => ret (None, None)
  end.

(** [merge->operand(k) = o] for the merge record of cell [i]. *)
Definition set_merge_operand (target : ptr) (i : Z) (m : RegisterMerge)
    (k : Z) (o : Operand) : M unit :=
  if (0 <=? k) && bool_decide (Z.to_nat k < length (operands m))%nat then
    set_target_state target i
      (MergeState (mkMerge (merge_node m) (<[Z.to_nat k := o]> (operands m))))
  else undefined.

Fixpoint EnsureInRegister_from (target : ptr) (l : list Z) (incoming : ptr)
  : M bool :=
  match l with
  | [] => ret false
  | i :: l' =>
      c <- target_state target i ;;
      nm <- LoadMergeState c ;;
      if bool_decide (nm.1 = Some incoming) then ret true
      else EnsureInRegister_from target l' incoming
  end.

Definition EnsureInRegister (target : ptr) (incoming : ptr) : M unit :=
  if DEBUG then
    found <- EnsureInRegister_from target indices incoming ;;
    if found then ret tt else fatal
  else ret tt.

Definition InitializeBranchTargetRegisterValues (source target : ptr)
  : M unit :=
  (if DEBUG then
     c0 <- target_state target 0 ;;
     DCHECK (negb (is_initialized c0))
   else ret tt) ;;
  for_each indices (λ i,
    cur <- register_values i ;;
    live <- IsLiveAtTarget cur source target ;;
    set_target_state target i (NodeState (if live then cur else None))).

Definition MergeRegister (control target : ptr) (predecessor_id : Z)
    (predecessor_count : Z) (i : Z) : M unit :=
  c <- target_state target i ;;
  nm <- LoadMergeState c ;;
  let node_ := nm.1 in
  let merge := nm.2 in
  let register_info := REGISTER (MapIndexToRegister i) in
  cur <- register_values i ;;
  live <- IsLiveAtTarget cur control target ;;
  let incoming := if live then cur else None in
  if bool_decide (incoming = node_) then
    match merge with
    | Some m => set_merge_operand target i m predecessor_id register_info
    | None => ret tt
    end
  else
    match merge with
    | Some m =>
        match node_ with
        | Some v =>
            n <- node v ;;
            set_merge_operand target i m predecessor_id (allocation n)
        | None => undefined
        end ;;
        match incoming with
        | Some w =>
            nw <- node w ;;
            when (is_spilled nw) (EnsureInRegister target w)
        | None => ret tt
        end
    | None =>
        DCHECK (implb (bool_decide (node_ = None))
                      (negb (bool_decide (incoming = None)))) ;;
        let upgrade (merge_node : ptr) (info_so_far here : Operand) :=
          set_merge_operand target i
            (mkMerge (Some merge_node)
                     (replicate (Z.to_nat predecessor_count) info_so_far))
            predecessor_id here in
        match node_, incoming with
        | None, Some w =>
            nw <- node w ;;
            if negb (is_spilled nw) then EnsureInRegister target w
            else upgrade w (spill_slot nw) register_info
        | None, None => undefined
        | Some v, _ =>
            n <- node v ;;
            upgrade v register_info (allocation n)
        end
    end.

Definition MergeRegisterValues (control target : ptr) (predecessor_id : Z)
  : M unit :=
  c0 <- target_state target 0 ;;
  if negb (is_initialized c0) then
    InitializeBranchTargetRegisterValues control target
  else
    t <- basic_block target ;;
    for_each indices
      (MergeRegister control target predecessor_id (predecessor_count t)).

Definition InitializeRegisterValues (target : ptr) : M unit :=
  for_each indices (λ i,
    cur <- register_values i ;;
    match cur with
    | None => ret tt
    | Some v => update_node v ClearRegisters
    end) ;;
  modify (with_free_registers kEmptyRegList) ;;
  for_each indices (λ i,
    c <- target_state target i ;;
    nm <- LoadMergeState c ;;
    match nm.1 with
    | None => DCHECK (negb (is_merge c)) ;; FreeRegister i
    | Some v => SetRegister (MapIndexToRegister i) v
    end).

End Allocator.

(** ** Blocks and control nodes

    The allocator reads the shape of the graph and never changes it (gap
    moves apart, which the model keeps in [gap_moves_]).  The classes
    [BasicBlock], [ControlNode] and [Graph] are absent (maglev-basic-block.h,
    maglev-ir.h, maglev-graph.h); the records below hold what the allocator
    reads of them.  A control node is a node as well: its inputs, id and
    properties are in the node store. *)

Inductive Control :=
| CJump (target : ptr) (predecessor_id : Z)
| CJumpLoop (target : ptr) (predecessor_id : Z)
| CReturn
| CConditional (if_true if_false : ptr).

Record BlockShape := mkShape {
  is_empty_block : bool;
  block_phis : option (list ptr);   (* [has_phi()], [phis()] *)
  block_nodes : list ptr;           (* [nodes()] *)
  block_control_node : ptr;         (* [control_node()] *)
  block_predecessor_id : Z          (* [predecessor_id()] *)
}.

Global Instance Control_inhabited : Inhabited Control := populate CReturn.
Global Instance BlockShape_inhabited : Inhabited BlockShape :=
  populate (mkShape false None [] 0%nat 0).

Record Graph := mkGraph {
  graph_blocks : list ptr;               (* the blocks, in order *)
  shapes : gmap ptr BlockShape;
  controls : gmap ptr Control
}.

Definition shape_at (g : Graph) (b : ptr) : BlockShape := shapes g !!! b.
Definition control_at (g : Graph) (c : ptr) : Control := controls g !!! c.

(** [node->TryCast<UnconditionalControlNode>()]: the target and the
    predecessor id of a [Jump] or a [JumpLoop]. *)
Definition unconditional (c : Control) : option ptr :=
  match c with
  | CJump target _ | CJumpLoop target _ => Some target
  | _ => None
  end.

Definition set_node_it (p : option ptr) : M unit :=
  modify (λ s, mkState (register_values_ s) (free_registers_ s)
                 (top_of_stack_ s) (free_slots_ s) p
                 (nodes_ s) (blocks_ s) (gap_moves_ s)).

Section ControlFlow.

Variable kAllocatableGeneralRegisterCount : nat.
Variable DEBUG : bool.
Variable is_dead : Node → bool.
Variable has_valid_live_range : Node → bool.
Variable graph : Graph.

Local Abbreviation indices := (indices kAllocatableGeneralRegisterCount).
Local Abbreviation DCHECK := (DCHECK DEBUG).
Local Abbreviation AssignInput := (AssignInput kAllocatableGeneralRegisterCount DEBUG).
Local Abbreviation AssignTemporaries :=
  (AssignTemporaries kAllocatableGeneralRegisterCount DEBUG).
Local Abbreviation UpdateInputUse :=
  (UpdateInputUse kAllocatableGeneralRegisterCount is_dead).
Local Abbreviation SpillRegisters :=
  (SpillRegisters kAllocatableGeneralRegisterCount DEBUG).
Local Abbreviation SpillAndClearRegisters :=
  (SpillAndClearRegisters kAllocatableGeneralRegisterCount DEBUG).
Local Abbreviation FreeRegisters := (FreeRegisters kAllocatableGeneralRegisterCount).
Local Abbreviation IsLiveAtTarget := (IsLiveAtTarget is_dead).
Local Abbreviation MergeRegisterValues :=
  (MergeRegisterValues kAllocatableGeneralRegisterCount DEBUG is_dead).
Local Abbreviation InitializeBranchTargetRegisterValues :=
  (InitializeBranchTargetRegisterValues kAllocatableGeneralRegisterCount DEBUG
     is_dead).
Local Abbreviation InitializeRegisterValues :=
  (InitializeRegisterValues kAllocatableGeneralRegisterCount DEBUG).
Local Abbreviation AllocatePhis := (AllocatePhis kAllocatableGeneralRegisterCount DEBUG).
Local Abbreviation AllocateNodes :=
  (AllocateNodes kAllocatableGeneralRegisterCount DEBUG is_dead
     has_valid_live_range).

Definition InitializeConditionalBranchRegisters (control_node target : ptr)
  : M unit :=
  if is_empty_block (shape_at graph target) then
    (* Jumping over an empty block, so we're in fact merging. *)
    match control_at graph (block_control_node (shape_at graph target)) with
    | CJump target' predecessor_id =>
        MergeRegisterValues control_node target' predecessor_id
    | _ => bad_cast DEBUG
    end
  else
    t <- basic_block target ;;
    if has_state t then
      (* Not a fall-through branch, copy the state over. *)
      InitializeBranchTargetRegisterValues control_node target
    else
      (* Clear dead fall-through registers. *)
      c <- node control_node ;;
      DCHECK (node_id c + 1 =? first_id t) ;;
      for_each indices (λ i,
        cur <- register_values i ;;
        match cur with
        | None => ret tt
        | Some v =>
            live <- IsLiveAtTarget (Some v) control_node target ;;
            if live then ret tt else FreeRegisters v
        end).

(** [phi->input(block->predecessor_id())]. *)
Definition phi_input (phi : ptr) (predecessor_id : Z) : M Input :=
  if 0 <=? predecessor_id then input phi (Z.to_nat predecessor_id)
  else undefined.

(** "Inject allocation into target phis". *)
Definition InjectPhiInputs (phis : list ptr) (predecessor_id : Z) : M unit :=
  for_each phis (λ phi,
    i <- phi_input phi predecessor_id ;;
    n <- node (input_node i) ;;
    update_node phi
      (input_SetAllocated (Z.to_nat predecessor_id) (allocation n))) ;;
  for_each phis (λ phi,
    ph <- node phi ;;
    i <- phi_input phi predecessor_id ;;
    UpdateInputUse (node_id ph) i).

Definition AllocateControlNode (p block : ptr) : M unit :=
  n <- node p ;;
  for_each (seq 0 (length (inputs n))) (AssignInput p) ;;
  AssignTemporaries p ;;
  n <- node p ;;
  for_each (inputs n) (UpdateInputUse (node_id n)) ;;
  n <- node p ;;
  when (is_call n) SpillAndClearRegisters ;;
  (* Inject allocation into target phis. *)
  match unconditional (control_at graph p) with
  | Some target =>
      match block_phis (shape_at graph target) with
      | Some phis =>
          InjectPhiInputs phis (block_predecessor_id (shape_at graph block))
      | None => ret tt
      end
  | None => ret tt
  end ;;
  n <- node p ;;
  when (can_deopt n) SpillRegisters ;;
  (* Merge register values. *)
  match control_at graph p with
  | CJump target _ | CJumpLoop target _ =>
      (* Empty blocks are immediately merged at the control of their
         predecessor. *)
      if negb (is_empty_block (shape_at graph block)) then
        MergeRegisterValues p target
          (block_predecessor_id (shape_at graph block))
      else ret tt
  | CConditional if_true if_false =>
      InitializeConditionalBranchRegisters p if_true ;;
      InitializeConditionalBranchRegisters p if_false
  | CReturn => ret tt
  end.

(** The body of the loop over the blocks in [AllocateRegisters]. *)
Definition AllocateBlock (block : ptr) : M unit :=
  (* Restore mergepoint state. *)
  t <- basic_block block ;;
  when (has_state t) (InitializeRegisterValues block) ;;
  (* Activate phis. *)
  match block_phis (shape_at graph block) with
  | Some phis => AllocatePhis phis
  | None => ret tt
  end ;;
  AllocateNodes (block_nodes (shape_at graph block)) ;;
  set_node_it None ;;
  AllocateControlNode (block_control_node (shape_at graph block)) block.

Definition AllocateRegisters : M unit :=
  for_each (graph_blocks graph) AllocateBlock.

(** The constructor, after [ComputePostDominatingHoles], whose links the
    allocation does not read: the allocation of the graph, and the value
    handed to [graph->set_stack_slots]. *)
Definition StraightForwardRegisterAllocator : M Z :=
  AllocateRegisters ;;
  s <- get ;;
  ret (top_of_stack_ s).

End ControlFlow.

(** ** Post-dominating holes ([ComputePostDominatingHoles]) *)

Module Holes.

Inductive ControlKind :=
| Jump (target : ptr)
| JumpLoop (target : ptr)
| Return
| ConditionalControlNode (if_true if_false : ptr).

Record ControlNode := mkControl {
  id : Z;
  kind : ControlKind;
  next_post_dominating_hole : option ptr
}.

Record BasicBlock := mkBlock {
  first_id : Z;
  control_node : ptr
}.

Global Instance ControlNode_inhabited : Inhabited ControlNode :=
  populate (mkControl 0 Return None).
Global Instance BasicBlock_inhabited : Inhabited BasicBlock :=
  populate (mkBlock 0 0%nat).

(** The graph: its blocks in program order, and the block and control-node
    objects by address. *)
Record Graph := mkGraph {
  blocks : list ptr;
  block_objects : gmap ptr BasicBlock;
  controls : gmap ptr ControlNode
}.

Definition block_at (g : Graph) (b : ptr) : BasicBlock := block_objects g !!! b.
Definition control_at (g : Graph) (c : ptr) : ControlNode := controls g !!! c.

Definition set_next_post_dominating_hole (c : ptr) (h : option ptr)
    (g : Graph) : Graph :=
  mkGraph (blocks g) (block_objects g)
    (<[c := mkControl (id (control_at g c)) (kind (control_at g c)) h]>
       (controls g)).

Definition IsTargetOfNodeFallthrough (g : Graph) (node target : ptr) : bool :=
  id (control_at g node) + 1 =? first_id (block_at g target).

Definition NearestPostDominatingHole (g : Graph) (node : ptr) : option ptr :=
  match kind (control_at g node) with
  | ConditionalControlNode _ _ =>
      next_post_dominating_hole (control_at g node)
  | Jump target =>
      if IsTargetOfNodeFallthrough g node target
      then next_post_dominating_hole (control_at g node)
      else Some node
  | _ => Some node
  end.

Definition is_Return_or_JumpLoop (g : Graph) (c : ptr) : bool :=
  match kind (control_at g c) with
  | Return | JumpLoop _ => true
  | _ => false
  end.

(** How the [while (first != second)] loop ends: it is left with the two
    pointers equal, it is left by [break] (after the link of the
    conditional has been set to [second]), it follows a null pointer, or
    the model runs out of fuel. *)
Inductive LoopExit :=
| Merged (first : option ptr)
| Broke (first second : ptr)
| NullPointer
| OutOfFuel.

Fixpoint merge_point (fuel : nat) (g : Graph) (first second : option ptr)
  : LoopExit :=
  match fuel with
  | O => OutOfFuel
  | S fuel' =>
      if bool_decide (first = second) then Merged first
      else
        match first, second with
        | Some a, Some b =>
            (* if (first->id() > second->id()) std::swap(first, second); *)
            let first' := if id (control_at g a) >? id (control_at g b)
                          then b else a in
            let second' := if id (control_at g a) >? id (control_at g b)
                           then a else b in
            if is_Return_or_JumpLoop g first' then Broke first' second'
            else
              merge_point fuel' g
                (next_post_dominating_hole (control_at g first'))
                (Some second')
        | _, _ => NullPointer
        end
  end.

(** The body of the loop over the blocks, for one block.  [None]: the loop
    did not come to an end in the model ([NullPointer] or [OutOfFuel]). *)
Definition ProcessBlock (fuel : nat) (g : Graph) (b : ptr) : option Graph :=
  let control := control_node (block_at g b) in
  match kind (control_at g control) with
  | Jump target =>
      Some (set_next_post_dominating_hole control
              (NearestPostDominatingHole g (control_node (block_at g target)))
              g)
  | ConditionalControlNode if_true if_false =>
      let first :=
        NearestPostDominatingHole g (control_node (block_at g if_true)) in
      let second :=
        NearestPostDominatingHole g (control_node (block_at g if_false)) in
      match merge_point fuel g first second with
      | Merged first' =>
          Some (set_next_post_dominating_hole control first' g)
      | Broke first' second' =>
          Some (set_next_post_dominating_hole control (Some first')
                  (set_next_post_dominating_hole control (Some second') g))
      | _ => None
      end
  | _ => Some g
  end.

Fixpoint ProcessBlocks (fuel : nat) (g : Graph) (l : list ptr)
  : option Graph :=
  match l with
  | [] => Some g
  | b :: l' =>
      match ProcessBlock fuel g b with
      | Some g' => ProcessBlocks fuel g' l'
      | None => None
      end
  end.

Definition ComputePostDominatingHoles (fuel : nat) (g : Graph)
  : option Graph :=
  ProcessBlocks fuel g (reverse (blocks g)).

(** The walk as the specification words it: "repeatedly advance the one
    with the larger id along its own next-hole chain until a == b; if the
    advancing one is a Return or loop back-edge, terminate the chain at the
    other". *)
Fixpoint spec_merge_point (fuel : nat) (g : Graph) (a b : option ptr)
  : option (option ptr) :=
  match fuel with
  | O => None
  | S fuel' =>
      if bool_decide (a = b) then Some a
      else
        match a, b with
        | Some x, Some y =>
            let larger := if id (control_at g x) >? id (control_at g y)
                          then x else y in
            let other := if id (control_at g x) >? id (control_at g y)
                         then y else x in
            if is_Return_or_JumpLoop g larger then Some (Some other)
            else
              spec_merge_point fuel' g
                (next_post_dominating_hole (control_at g larger))
                (Some other)
        | _, _ => None
        end
  end.

End Holes.

(** * Specification *)

(** ** Invariants of the register file *)

(** The register file and the free set agree, up to the registers [H] that
    are being handed over (empty, and not, or not yet, in the free set);
    every holder of a register has that register in its own set, except
    the node [X] whose set is being cleared. *)
Record Consistent (N : nat) (H : list Z) (X : option ptr) (s : State)
  : Prop := mkConsistent {
  cons_count : (N ≤ 255)%nat;
  cons_length : length (register_values_ s) = N;
  cons_free_nonneg : 0 <= free_registers_ s;
  cons_regs_nonneg : ∀ v, 0 <= registers_with_result (node_at s v);
  cons_free_empty : ∀ r, 0 <= r →
    Z.testbit (free_registers_ s) r = true →
    register_values_ s !! Z.to_nat r = Some None;
  cons_empty_free : ∀ r, 0 <= r →
    register_values_ s !! Z.to_nat r = Some None →
    Z.testbit (free_registers_ s) r = true ∨ r ∈ H;
  cons_held : ∀ r v, 0 <= r →
    register_values_ s !! Z.to_nat r = Some (Some v) →
    Some v = X ∨ Z.testbit (registers_with_result (node_at s v)) r = true
}.

(** A node's register set holds only registers whose entry points to it. *)
Definition Exact (s : State) : Prop :=
  ∀ r v, 0 <= r →
    Z.testbit (registers_with_result (node_at s v)) r = true →
    register_values_ s !! Z.to_nat r = Some (Some v).

(** Register [k], held by [v], is in the register set of no other
    holder. *)
Definition unshared (s : State) (k : nat) (v : ptr) : Prop :=
  ∀ j x, register_values_ s !! j = Some (Some x) → x ≠ v →
    Z.testbit (registers_with_result (node_at s x)) (Z.of_nat k) = false.

(** The register set of [w] is accurate: every register in it holds
    [w]. *)
Definition accurate (s : State) (w : ptr) : Prop :=
  ∀ k, Z.testbit (registers_with_result (node_at s w)) k = true →
       register_values_ s !! Z.to_nat k = Some (Some w).

(** Every occupied register holds [p]. *)
Definition OnlyHolder (p : ptr) (s : State) : Prop :=
  ∀ k v, register_values_ s !! k = Some (Some v) → v = p.

(** Every register is empty and in the free set. *)
Definition AllFree (N : nat) (s : State) : Prop :=
  ∀ k, (k < N)%nat →
    register_values_ s !! k = Some None ∧
    Z.testbit (free_registers_ s) (Z.of_nat k) = true.

(** The fields of a node that the allocator never writes. *)
Definition static (n : Node) :=
  (node_id n, opcode n, num_temporaries_needed n, is_call n, can_deopt n,
   end_id n, (λ i, (input_node i, next_use_id i)) <$> inputs n).

(** What every allocator step leaves alone, or changes in one direction
    only. *)
Record Step (s s' : State) : Prop := mkStep {
  step_static : ∀ p, static (node_at s' p) = static (node_at s p);
  step_length : length (register_values_ s') = length (register_values_ s);
  step_top : top_of_stack_ s <= top_of_stack_ s';
  step_blocks : blocks_ s' = blocks_ s;
  step_moves : gap_moves_ s `prefix_of` gap_moves_ s'
}.

(** Steps below the level of a node: results and the spill slots of
    spilled nodes stay, free slots are only taken. *)
Record LowStep (s s' : State) : Prop := mkLowStep {
  low_step : Step s s';
  low_result : ∀ p, result (node_at s' p) = result (node_at s p);
  low_spilled : ∀ p, is_spilled (node_at s p) = true →
    spill_or_hint (node_at s' p) = spill_or_hint (node_at s p);
  low_slots : free_slots_ s' `suffix_of` free_slots_ s
}.

(** The register file, the free set and the register sets of the nodes are
    the same in both states. *)
Record SameRegisters (s s' : State) : Prop := mkSameRegisters {
  same_values : register_values_ s' = register_values_ s;
  same_free : free_registers_ s' = free_registers_ s;
  same_sets : ∀ v, registers_with_result (node_at s' v) =
                    registers_with_result (node_at s v)
}.

(** [Keeps I]: if [I] holds before, it holds after. *)
Definition Keeps (I : State → Prop) : relation State := λ s s', I s → I s'.

(** The part of [AllocateNode] before the call and deopt effects: inputs,
    temporaries, input uses. *)
Definition AllocateNode_inputs (N : nat) (D : bool) (is_dead : Node → bool)
    (p : ptr) : M unit :=
  n <- node p ;;
  for_each (seq 0 (length (inputs n))) (AssignInput N D p) ;;
  AssignTemporaries N D p ;;
  n <- node p ;;
  for_each (inputs n) (UpdateInputUse N is_dead (node_id n)).

(** Spilled nodes, other than those of [E], keep their spill slot. *)
Definition SpillsStay (E : ptr → Prop) : relation State := λ s s',
  ∀ q, ¬ E q → is_spilled (node_at s q) = true →
    spill_or_hint (node_at s' q) = spill_or_hint (node_at s q).

(** No slot is pushed on the free-slot list. *)
Definition SlotsTaken : relation State := λ s s',
  free_slots_ s' `suffix_of` free_slots_ s.

(** Results that are allocated stay allocated. *)
Definition ResultsStay : relation State := λ s s',
  ∀ q, IsAllocated (result (node_at s q)) = true →
       IsAllocated (result (node_at s' q)) = true.

(** ** Join states *)

(** The value a register cell stands for. *)
Definition cell_node (c : RegisterState) : option ptr :=
  match c with
  | MergeState m => merge_node m
  | NodeState v => v
  | Uninitialized => None
  end.

(** [IsLiveAtTarget] as a function of the state. *)
Definition live_at_target (is_dead : Node → bool) (s : State)
    (v : option ptr) (source target : ptr) : bool :=
  match v with
  | None => false
  | Some p =>
      if is_dead (node_at s p) then false
      else if control_node_id (block_at s target)
              <=? node_id (node_at s source)
      then node_id (node_at s p) <? FirstNonGapMoveId (block_at s target)
      else end_id (node_at s p) >=? first_id (block_at s target)
  end.

(** [incoming] in [MergeRegisterValues]: the holder of register [i] if it
    is live at the target, else null. *)
Definition incoming (is_dead : Node → bool) (s : State)
    (control target : ptr) (i : nat) : option ptr :=
  match register_values_ s !! i with
  | Some cur => if live_at_target is_dead s cur control target
                then cur else None
  | None => None
  end.

(** What a merge leaves alone: the nodes, the register file, and of the
    target block everything but the contents of its register cells, whose
    values, once set, stay. *)
Record MergeFrame (target : ptr) (s s' : State) : Prop := mkMergeFrame {
  mf_nodes : nodes_ s' = nodes_ s;
  mf_values : register_values_ s' = register_values_ s;
  mf_block :
    set_register_state [] (block_at s' target) =
    set_register_state [] (block_at s target);
  mf_length :
    length (register_state (block_at s' target)) =
    length (register_state (block_at s target));
  mf_cells : ∀ j c w,
    register_state (block_at s target) !! j = Some c →
    cell_node c = Some w →
    ∃ c', register_state (block_at s' target) !! j = Some c' ∧
          cell_node c' = Some w
}.

(** ** Post-dominating holes *)

(** The walk the loop of [ComputePostDominatingHoles] takes when it ends
    with the two branches merged: the control node with the smaller id is
    advanced along its next-hole link until both are the same node. *)
Inductive meets (g : Holes.Graph) : option ptr → option ptr → option ptr → Prop :=
| meets_here x : meets g x x x
| meets_advance a b c :
    a ≠ b →
    Holes.is_Return_or_JumpLoop g
      (if Holes.id (Holes.control_at g a) >? Holes.id (Holes.control_at g b)
       then b else a) = false →
    meets g
      (Holes.next_post_dominating_hole
         (Holes.control_at g
            (if Holes.id (Holes.control_at g a)
                >? Holes.id (Holes.control_at g b) then b else a)))
      (Some (if Holes.id (Holes.control_at g a)
                >? Holes.id (Holes.control_at g b) then a else b))
      c →
    meets g (Some a) (Some b) c.

(** [c] is on the next-hole chain that starts at [a]. *)
Inductive on_chain (g : Holes.Graph) : option ptr → option ptr → Prop :=
| on_chain_here x : on_chain g x x
| on_chain_next a c :
    on_chain g (Holes.next_post_dominating_hole (Holes.control_at g a)) c →
    on_chain g (Some a) c.

(** ** The allocator at work on small graphs *)

(** Modelled from the spec: [ValueNode::is_dead] is absent; "a flag is_dead
    (true when next-use is past end)". *)
Definition is_dead_past_end (n : Node) : bool := end_id n <? next_use n.

(** Modelled from the spec: [ValueNode::has_valid_live_range] is absent; a
    value "produced-but-dead" has no valid live range: its range has no end. *)
Definition has_live_range_end (n : Node) : bool := negb (end_id n =? 0).

(** Modelled from the spec: the allocator starts with every register in the
    free set, no stack slot in use and no free slot. *)
Definition initial_state (N : nat) (nodes : gmap ptr Node)
    (blocks : gmap ptr BasicBlock) : State :=
  mkState (replicate N None) (Z.ones (Z.of_nat N)) 0 [] None nodes blocks [].

Definition value_node (id next_use end_id : Z) (ins : list Input)
    (call : bool) (result : Policy) : Node :=
  mkNode id kValue ins 0 0 call false next_use end_id Invalid 0
    (Unallocated result).

Definition state_after (m : M unit) (s : State) : State :=
  match m s with
  | Ok (_, s') => s'
  | _ => s
  end.

(** Three values and two registers: [v0] (at 10) and [v1] (at 11) fill the
    registers, and are next used at 5 and at 9; [v_new] (at 12) needs a
    register. *)
Definition eviction_nodes : gmap ptr Node :=
  <[10%nat := value_node 1 5 5 [] false MUST_HAVE_REGISTER]>
    (<[11%nat := value_node 2 9 9 [] false MUST_HAVE_REGISTER]>
       (<[12%nat := value_node 3 7 7 [] false MUST_HAVE_REGISTER]> ∅)).
Definition eviction_start : State := initial_state 2 eviction_nodes ∅.

(** A value [A] (at 10) that is live across a call [B] (at 13); the call
    reads [A] and returns its result in register 0. *)
Definition call_nodes : gmap ptr Node :=
  <[10%nat := value_node 1 2 3 [] false MUST_HAVE_REGISTER]>
    (<[13%nat := value_node 2 3 3
                   [mkInput 10%nat 3 (Unallocated REGISTER_OR_SLOT)]
                   true (FIXED_REGISTER 0)]> ∅).
Definition call_start : State := initial_state 2 call_nodes ∅.
Definition before_call : State :=
  state_after
    (AllocateNodes 2 true is_dead_past_end has_live_range_end [10%nat])
    call_start.

(** The same example once the inputs of the call are assigned and used. *)
Definition call_inputs_assigned : State :=
  state_after (AllocateNode_inputs 2 true is_dead_past_end 13%nat) before_call.

(** A register file with nothing in it, and one whose only holder has
    next-use id 0. *)
Definition nothing_held : State := initial_state 2 ∅ ∅.
Definition unused_holder : State :=
  mkState [Some 10%nat; None] 2 0 [] None
    (<[10%nat := mkNode 1 kPhi [] 0 0 false false 0 0 Invalid 1 (REGISTER 0)]> ∅)
    ∅ [].

(** Three phis and two registers; the first phi has an input in register 1. *)
Definition phi_node (id : Z) (ins : list Input) : Node :=
  mkNode id kPhi ins 0 0 false false 9 9 Invalid 0 (Unallocated NONE).
Definition phi_nodes : gmap ptr Node :=
  <[20%nat := phi_node 1 [mkInput 10%nat 0 (STACK_SLOT 3); mkInput 11%nat 0 (REGISTER 1)]]>
    (<[21%nat := phi_node 2 [mkInput 10%nat 0 (STACK_SLOT 3)]]>
       (<[22%nat := phi_node 3 []]> ∅)).
Definition phi_start : State := initial_state 2 phi_nodes ∅.

(** A block with two phis that nothing uses (next-use id 0) and a value
    (at 10) that needs a register, on two registers; and the state once the
    phis are placed: they fill the register file. *)
Definition unused_phi (id : Z) : Node :=
  mkNode id kPhi [] 0 0 false false 0 0 Invalid 0 (Unallocated NONE).
Definition unused_phi_nodes : gmap ptr Node :=
  <[20%nat := unused_phi 1]>
    (<[21%nat := unused_phi 2]>
       (<[10%nat := value_node 3 5 5 [] false MUST_HAVE_REGISTER]> ∅)).
Definition unused_phi_start : State := initial_state 2 unused_phi_nodes ∅.
Definition unused_phis_placed : State :=
  state_after (AllocatePhis 2 true [20; 21]%nat) unused_phi_start.

(** A dead producer (its next use, 9, is past the end of its range, 5). *)
Definition dead_producer : State :=
  initial_state 2
    (<[10%nat := mkNode 1 kValue [] 0 0 false false 9 5 (STACK_SLOT 4) 0
                   (STACK_SLOT 4)]> ∅) ∅.

(** A join (block 5) reached a second time, from the control node at 30:
    its cell 0 is a merge cell for the value at 10, its cell 1 a node cell
    for the value at 11; on this edge the two values sit in each other's
    register, and the value at 11 is spilled. *)
Definition merge_state : State :=
  mkState [Some 11%nat; Some 10%nat] 0 1 [] None
    (<[10%nat := mkNode 1 kValue [] 0 0 false false 30 30 Invalid 2 (REGISTER 0)]>
       (<[11%nat := mkNode 2 kValue [] 0 0 false false 30 30 (STACK_SLOT 0) 1
                      (REGISTER 1)]>
          (<[30%nat := mkNode 15 kNonValue [] 0 0 false false 0 0 Invalid 0
                         Invalid]> ∅)))
    (<[5%nat := mkBlock 20 20 25 true 2
                  [MergeState (mkMerge (Some 10%nat) [REGISTER 0; REGISTER 0]);
                   NodeState (Some 11%nat)]]> ∅)
    [].

(** A diamond: block 0 branches to blocks 1 and 2, which both jump to
    block 3; block 2 falls through into block 3. *)
Definition diamond : Holes.Graph :=
  Holes.mkGraph [0; 1; 2; 3]%nat
    (<[0%nat := Holes.mkBlock 0 100%nat]>
       (<[1%nat := Holes.mkBlock 2 101%nat]>
          (<[2%nat := Holes.mkBlock 4 102%nat]>
             (<[3%nat := Holes.mkBlock 6 103%nat]> ∅))))
    (<[100%nat := Holes.mkControl 1 (Holes.ConditionalControlNode 1%nat 2%nat) None]>
       (<[101%nat := Holes.mkControl 3 (Holes.Jump 3%nat) None]>
          (<[102%nat := Holes.mkControl 5 (Holes.Jump 3%nat) None]>
             (<[103%nat := Holes.mkControl 7 Holes.Return None]> ∅)))).

(** The diamond once the blocks after block 0 have been processed. *)
Definition diamond_below : Holes.Graph :=
  default diamond (Holes.ProcessBlocks 10 diamond [3; 2; 1]%nat).

(** ** The claims that the code does not meet, as they are stated *)

(** "Advance the one with the larger id": the link of a conditional is the
    result of [spec_merge_point]. *)
Definition advances_larger_id : Prop :=
  ∀ fuel g b if_true if_false r,
    Holes.kind (Holes.control_at g (Holes.control_node (Holes.block_at g b)))
      = Holes.ConditionalControlNode if_true if_false →
    Holes.spec_merge_point fuel g
      (Holes.NearestPostDominatingHole g
         (Holes.control_node (Holes.block_at g if_true)))
      (Holes.NearestPostDominatingHole g
         (Holes.control_node (Holes.block_at g if_false))) = Some r →
    Holes.ProcessBlock fuel g b =
    Some (Holes.set_next_post_dominating_hole
            (Holes.control_node (Holes.block_at g b)) r g).

(** "Under the precondition that at least one register is occupied,
    eviction selects a valid register index". *)
Definition selects_valid_index_when_occupied (N : nat) : Prop :=
  ∀ s, length (register_values_ s) = N →
    (∃ k v, register_values_ s !! k = Some (Some v)) →
    ∃ x, furthest_from (indices N) 0 (-1) s = Ok (x, s) ∧
         0 <= x < Z.of_nat N.

(** "When no register is occupied the allocator asserts (fails)". *)
Definition asserts_when_nothing_occupied (N : nat) : Prop :=
  ∀ s, length (register_values_ s) = N →
    (∀ k v, register_values_ s !! k ≠ Some (Some v)) →
    FreeSomeRegister N s = Fatal.


(** "The register file is empty immediately after the call node". *)
Definition register_file_empty_after_call (N : nat) (D : bool)
    (is_dead has_valid_live_range : Node → bool) : Prop :=
  ∀ p s s', Consistent N [] None s →
    is_call (node_at s p) = true →
    AllocateNode N D is_dead has_valid_live_range p s = Ok (tt, s') →
    AllFree N s'.

(** [preserves R m]: every successful run of [m] relates the state before
    to the state after. *)
Definition preserves {A} (R : relation State) (m : M A) : Prop :=
  ∀ s a s', m s = Ok (a, s') → R s s'.

(** A write to cell [i] of the target that keeps the value of the cell. *)
Definition cell_written (target : ptr) (i : Z) (c' : RegisterState)
    (s s' : State) : Prop :=
  has_state (block_at s target) = true ∧ 0 <= i ∧
  (Z.to_nat i < length (register_state (block_at s target)))%nat ∧
  s' = with_blocks
         (<[target := set_register_state
                        (<[Z.to_nat i := c']> (register_state (block_at s target)))
                        (block_at s target)]> (blocks_ s)) s.


(** ** Further properties of the allocator: relations and examples *)

(** A hole: a control node that [NearestPostDominatingHole] returns as
    it is. *)
Definition is_hole (g : Holes.Graph) (c : ptr) : bool :=
  match Holes.kind (Holes.control_at g c) with
  | Holes.Return | Holes.JumpLoop _ => true
  | Holes.Jump target => negb (Holes.IsTargetOfNodeFallthrough g c target)
  | Holes.ConditionalControlNode _ _ => false
  end.

(** Every link that is set points to a hole. *)
Definition links_to_holes (g : Holes.Graph) : Prop :=
  ∀ c h, Holes.next_post_dominating_hole (Holes.control_at g c) = Some h →
         is_hole g h = true.

(** What the pass leaves alone. *)
Record HolesFrame (g g' : Holes.Graph) : Prop := mkHolesFrame {
  hf_blocks : Holes.blocks g' = Holes.blocks g;
  hf_block_objects : Holes.block_objects g' = Holes.block_objects g;
  hf_id : ∀ c, Holes.id (Holes.control_at g' c) = Holes.id (Holes.control_at g c);
  hf_kind : ∀ c, Holes.kind (Holes.control_at g' c) = Holes.kind (Holes.control_at g c);
  hf_exits : ∀ c, Holes.is_Return_or_JumpLoop g c = true →
    Holes.next_post_dominating_hole (Holes.control_at g' c) =
    Holes.next_post_dominating_hole (Holes.control_at g c)
}.

(** Null, or a hole. *)
Definition hole_or_null (g : Holes.Graph) (x : option ptr) : Prop :=
  ∀ h, x = Some h → is_hole g h = true.

(** The control node of a block. *)
Definition control_of (g : Holes.Graph) (b : ptr) : ptr :=
  Holes.control_node (Holes.block_at g b).

(** Every branch goes to a block that comes later in the graph. *)
Definition forward (g : Holes.Graph) : Prop :=
  ∀ k b, Holes.blocks g !! k = Some b →
    match Holes.kind (Holes.control_at g (control_of g b)) with
    | Holes.Jump t => ∃ j, (k < j)%nat ∧ Holes.blocks g !! j = Some t
    | Holes.ConditionalControlNode t f =>
        (∃ j, (k < j)%nat ∧ Holes.blocks g !! j = Some t) ∧
        (∃ j, (k < j)%nat ∧ Holes.blocks g !! j = Some f)
    | _ => True
    end.

(** The kinds of control node whose link the pass writes. *)
Definition writes_link (k : Holes.ControlKind) : bool :=
  match k with
  | Holes.Jump _ | Holes.ConditionalControlNode _ _ => true
  | _ => false
  end.

(** [h] is a hole, and the control node of a block at position [k] or
    later. *)
Definition hole_from (g : Holes.Graph) (k : nat) (h : ptr) : Prop :=
  ∃ j bh, (k ≤ j)%nat ∧ Holes.blocks g !! j = Some bh ∧
          control_of g bh = h ∧ is_hole g h = true.

(** The blocks from position [i] on have been processed: the link of each
    jump and of each conditional among them is a hole further down. *)
Definition processed (g : Holes.Graph) (i : nat) (g' : Holes.Graph) : Prop :=
  HolesFrame g g' ∧
  ∀ k b, (i ≤ k)%nat → Holes.blocks g !! k = Some b →
    writes_link (Holes.kind (Holes.control_at g (control_of g b))) = true →
    ∃ h, Holes.next_post_dominating_hole (Holes.control_at g' (control_of g b))
           = Some h ∧ hole_from g (S k) h.

(** A conditional (block 0) whose true branch returns at once (block 1)
    and whose false branch (block 2) jumps over block 3 to the exit
    (block 4). *)
Definition early_return : Holes.Graph :=
  Holes.mkGraph [0; 1; 2; 3; 4]%nat
    (<[0%nat := Holes.mkBlock 0 100%nat]>
       (<[1%nat := Holes.mkBlock 2 101%nat]>
          (<[2%nat := Holes.mkBlock 4 102%nat]>
             (<[3%nat := Holes.mkBlock 6 103%nat]>
                (<[4%nat := Holes.mkBlock 8 104%nat]> ∅)))))
    (<[100%nat := Holes.mkControl 1 (Holes.ConditionalControlNode 1%nat 2%nat) None]>
       (<[101%nat := Holes.mkControl 3 Holes.Return None]>
          (<[102%nat := Holes.mkControl 5 (Holes.Jump 4%nat) None]>
             (<[103%nat := Holes.mkControl 7 (Holes.Jump 4%nat) None]>
                (<[104%nat := Holes.mkControl 9 Holes.Return None]> ∅))))).

(** The same graph once the blocks after block 0 have been processed. *)
Definition early_return_below : Holes.Graph :=
  default early_return (Holes.ProcessBlocks 10 early_return [4; 3; 2; 1]%nat).

(** The eviction example before [v_new] is allocated: [v0] (at 10) holds
    register 0 and [v1] (at 11) holds register 1. *)
Definition two_held : State :=
  state_after
    (AllocateNodes 2 true is_dead_past_end has_live_range_end [10; 11]%nat)
    eviction_start.

(** Registers are emptied at most: every holder after was the holder
    before. *)
Definition Emptied : relation State := λ s s',
  ∀ k v, register_values_ s' !! k = Some (Some v) →
         register_values_ s !! k = Some (Some v).

(** The eviction example with a node (at 14) that needs two temporaries. *)
Definition temporaries_nodes : gmap ptr Node :=
  <[14%nat := mkNode 4 kNonValue [] 2 0 false false 0 0 Invalid 0 Invalid]>
    eviction_nodes.
Definition temporaries_start : State := initial_state 2 temporaries_nodes ∅.

(** Nothing changes but the contents of the register cells of the block
    [target]. *)
Record CellsOnly (target : ptr) (s s' : State) : Prop := mkCellsOnly {
  co_state : with_blocks ∅ s' = with_blocks ∅ s;
  co_others : ∀ b, b ≠ target → block_at s' b = block_at s b;
  co_block :
    set_register_state [] (block_at s' target) =
    set_register_state [] (block_at s target);
  co_length :
    length (register_state (block_at s' target)) =
    length (register_state (block_at s target))
}.

(** A join (block 5) that no edge has reached yet, seen from the control
    node at 30: register 0 holds the value at 10, which lives on, and
    register 1 the value at 11, whose range ends before the join. *)
Definition first_edge : State :=
  mkState [Some 10%nat; Some 11%nat] 0 0 [] None
    (<[10%nat := mkNode 1 kValue [] 0 0 false false 30 30 Invalid 1 (REGISTER 0)]>
       (<[11%nat := mkNode 2 kValue [] 0 0 false false 15 15 Invalid 2
                      (REGISTER 1)]>
          (<[30%nat := mkNode 15 kNonValue [] 0 0 false false 0 0 Invalid 0
                         Invalid]> ∅)))
    (<[5%nat := mkBlock 20 20 25 true 2 [Uninitialized; Uninitialized]]> ∅)
    [].

(** A join (block 5) that one edge has reached, seen from the control node
    at 30 on a second edge: cell 0 expects the value at 10 and cell 1
    nothing; on this edge register 0 holds the value at 11 and register 1
    the value at 10. *)
Definition second_edge : State :=
  mkState [Some 11%nat; Some 10%nat] 0 1 [] None
    (<[10%nat := mkNode 1 kValue [] 0 0 false false 30 30 Invalid 2 (REGISTER 0)]>
       (<[11%nat := mkNode 2 kValue [] 0 0 false false 30 30 (STACK_SLOT 0) 1
                      (REGISTER 1)]>
          (<[30%nat := mkNode 15 kNonValue [] 0 0 false false 0 0 Invalid 0
                         Invalid]> ∅)))
    (<[5%nat := mkBlock 20 20 25 true 2
                  [NodeState (Some 10%nat); NodeState None]]> ∅)
    [].

(** Register sets are cleared at most, and neither the register file nor
    the blocks change. *)
Definition Cleared : relation State := λ s t,
  register_values_ t = register_values_ s ∧
  blocks_ t = blocks_ s ∧
  ∀ v, registers_with_result (node_at t v) = registers_with_result (node_at s v)
       ∨ registers_with_result (node_at t v) = 0.

(** The register file at the end of a block, when the next block (block 5)
    is a join that expects the value at 10 in register 1 and nothing in
    register 0. *)
Definition at_join : State :=
  mkState [Some 10%nat; None] 2 0 [] None
    (<[10%nat := mkNode 1 kValue [] 0 0 false false 30 30 Invalid 1 (REGISTER 0)]> ∅)
    (<[5%nat := mkBlock 20 20 25 true 2
                  [NodeState None; NodeState (Some 10%nat)]]> ∅)
    [].

(** The same, when the join expects the value at 11 in register 0, which
    holds the value at 10. *)
Definition at_join_other : State :=
  mkState [Some 10%nat; None] 2 0 [] None
    (<[10%nat := mkNode 1 kValue [] 0 0 false false 30 30 Invalid 1 (REGISTER 0)]>
       (<[11%nat := mkNode 2 kValue [] 0 0 false false 30 30 Invalid 0
                      (REGISTER 0)]> ∅))
    (<[5%nat := mkBlock 20 20 25 true 2
                  [NodeState (Some 11%nat); NodeState None]]> ∅)
    [].

(** A node is as it was, or its register set has been cleared and it holds
    no register. *)
Definition kept_or_cleared (s t : State) : Prop :=
  ∀ p, node_at t p = node_at s p ∨
       (node_at t p = ClearRegisters (node_at s p) ∧
        ∀ k, register_values_ t !! k ≠ Some (Some p)).

(** The inputs of every node are as they were. *)
Definition InputsSame : relation State := λ s t,
  ∀ p, inputs (node_at t p) = inputs (node_at s p).


(** A branch and a join.  Block 0 computes [A] (at 10) and branches on it
    (at 100); block 1, the fall-through, computes [B] (at 11) from [A] and
    jumps (at 101) to block 3; block 2 computes [C] (at 12) from [A] and
    jumps (at 102) to block 3; block 3 has the phi (at 20) of [B] and [C]
    and returns it (at 103). *)
Definition branch_nodes : gmap ptr Node :=
  <[10%nat := value_node 1 2 5 [] false MUST_HAVE_REGISTER]>
  (<[100%nat := mkNode 2 kNonValue
                  [mkInput 10%nat 3 (Unallocated REGISTER_OR_SLOT)]
                  0 0 false false 0 0 Invalid 0 Invalid]>
  (<[11%nat := value_node 3 7 7
                 [mkInput 10%nat 5 (Unallocated MUST_HAVE_REGISTER)]
                 false MUST_HAVE_REGISTER]>
  (<[101%nat := mkNode 4 kNonValue [] 0 0 false false 0 0 Invalid 0 Invalid]>
  (<[12%nat := value_node 5 7 7
                 [mkInput 10%nat 6 (Unallocated MUST_HAVE_REGISTER)]
                 false MUST_HAVE_REGISTER]>
  (<[102%nat := mkNode 6 kNonValue [] 0 0 false false 0 0 Invalid 0 Invalid]>
  (<[20%nat := mkNode 7 kPhi
                 [mkInput 11%nat 8 (Unallocated NONE);
                  mkInput 12%nat 8 (Unallocated NONE)]
                 0 0 false false 8 8 Invalid 0 (Unallocated NONE)]>
  (<[103%nat := mkNode 8 kNonValue
                  [mkInput 20%nat 9 (Unallocated (FIXED_REGISTER 0))]
                  0 0 false false 0 0 Invalid 0 Invalid]> ∅))))))).

Definition branch_blocks : gmap ptr BasicBlock :=
  <[0%nat := mkBlock 1 1 2 false 0 []]>
  (<[1%nat := mkBlock 3 3 4 false 1 []]>
  (<[2%nat := mkBlock 5 5 6 true 1 [Uninitialized; Uninitialized]]>
  (<[3%nat := mkBlock 7 7 8 true 2 [Uninitialized; Uninitialized]]> ∅))).

Definition branch_graph : Graph :=
  mkGraph [0; 1; 2; 3]%nat
    (<[0%nat := mkShape false None [10%nat] 100%nat 0]>
    (<[1%nat := mkShape false None [11%nat] 101%nat 0]>
    (<[2%nat := mkShape false None [12%nat] 102%nat 1]>
    (<[3%nat := mkShape false (Some [20%nat]) [] 103%nat 0]> ∅))))
    (<[100%nat := CConditional 1%nat 2%nat]>
    (<[101%nat := CJump 3%nat 0]>
    (<[102%nat := CJump 3%nat 1]>
    (<[103%nat := CReturn]> ∅)))).

Definition branch_start : State := initial_state 2 branch_nodes branch_blocks.

(** The branch example after block 0, before its control node. *)
Definition before_branch : State :=
  state_after
    (AllocateNodes 2 true is_dead_past_end has_live_range_end [10%nat])
    branch_start.


(** What the allocation of a graph leaves alone, or changes in one
    direction only: the fields of the nodes that it only reads, the size of
    the register file, the top of the stack, the gap moves, and of a block
    everything but the contents of its register cells. *)
Record Progress (s s' : State) : Prop := mkProgress {
  pr_static : ∀ p, static (node_at s' p) = static (node_at s p);
  pr_length : length (register_values_ s') = length (register_values_ s);
  pr_top : top_of_stack_ s <= top_of_stack_ s';
  pr_moves : gap_moves_ s `prefix_of` gap_moves_ s';
  pr_blocks : ∀ b,
    set_register_state [] (block_at s' b) = set_register_state [] (block_at s b);
  pr_cells : ∀ b,
    length (register_state (block_at s' b)) =
    length (register_state (block_at s b))
}.

(** The branch example at the end of the allocation. *)
Definition branch_end : State :=
  state_after
    (AllocateRegisters 2 true is_dead_past_end has_live_range_end branch_graph)
    branch_start.

(** Every stack slot in use lies below the top of the stack: the free
    slots, the spill slots of the nodes and the results that are stack
    slots; and a fixed slot that a result asks for has a negative index (the
    slots of the parameters, which [AllocateNodeResult] asserts). *)
Record Below (s : State) : Prop := mkBelow {
  below_top : 0 <= top_of_stack_ s;
  below_free : ∀ x, x ∈ free_slots_ s → x < top_of_stack_ s;
  below_spill : ∀ p index,
    spill_or_hint (node_at s p) = STACK_SLOT index → index < top_of_stack_ s;
  below_result : ∀ p index,
    result (node_at s p) = STACK_SLOT index → index < top_of_stack_ s;
  below_fixed : ∀ p index,
    result (node_at s p) = Unallocated (FIXED_SLOT index) → index < 0
}.

(** A node as the graph builder leaves it: no stack slot yet, and a
    negative index where the result asks for a fixed slot. *)
Definition no_slot (n : Node) : bool :=
  negb (IsStackSlot (spill_or_hint n)) &&
  match result n with
  | STACK_SLOT _ => false
  | Unallocated (FIXED_SLOT index) => index <? 0
  | _ => true
  end.

(** The call example as a graph of one block that returns (at 100): the
    value [A] is live across the call, which spills it. *)
Definition spill_nodes : gmap ptr Node :=
  <[100%nat := mkNode 4 kNonValue [] 0 0 false false 0 0 Invalid 0 Invalid]>
    call_nodes.
Definition spill_graph : Graph :=
  mkGraph [0%nat]
    (<[0%nat := mkShape false None [10; 13]%nat 100%nat 0]> ∅)
    (<[100%nat := CReturn]> ∅).
Definition spill_start : State :=
  initial_state 2 spill_nodes (<[0%nat := mkBlock 1 1 4 false 0 []]> ∅).

(** The example at the end of the allocation. *)
Definition spill_end : State :=
  state_after
    (AllocateRegisters 2 true is_dead_past_end has_live_range_end spill_graph)
    spill_start.

(** The inputs of every node and the current node are as they were. *)
Definition Quiet : relation State := λ s t,
  InputsSame s t ∧ node_it_ t = node_it_ s.

(** What [AssignInput] leaves in input [k] of [p], by the policy of the
    input: [location] is where the producer was, [o] the operand the input
    gets, [moves] the gap moves of evictions on the way. *)
Definition assigned (policy : Policy) (location o : Operand)
    (moves : list GapMove) : Prop :=
  match policy with
  | REGISTER_OR_SLOT | REGISTER_OR_SLOT_OR_CONSTANT =>
      o = location ∧ moves = []
  | FIXED_REGISTER r => o = REGISTER r
  | MUST_HAVE_REGISTER =>
      IsRegister o = true ∧
      (IsRegister location = true → o = location ∧ moves = [])
  | _ => False
  end.

(** The result of [p] is the register [r], and [p] holds it, unless [p]
    has no valid live range: then its registers have been freed at once and
    no register holds it. *)
Definition placed (N : nat) (has_valid_live_range : Node → bool) (p : ptr)
    (r : Register) (s' : State) : Prop :=
  result (node_at s' p) = REGISTER r ∧ 0 <= r < Z.of_nat N ∧
  ((register_values_ s' !! Z.to_nat r = Some (Some p) ∧
    Z.testbit (registers_with_result (node_at s' p)) r = true ∧
    has_valid_live_range (node_at s' p) = true) ∨
   (∃ n, has_valid_live_range n = false ∧
         node_at s' p = ClearRegisters n ∧
         ∀ k, register_values_ s' !! k ≠ Some (Some p))).

(** What [AllocateNodeResult] leaves, by the policy of the result. *)
Definition result_placed (N : nat) (D : bool)
    (has_valid_live_range : Node → bool) (p : ptr) (policy : Policy)
    (s s' : State) : Prop :=
  match policy with
  | FIXED_SLOT index =>
      result (node_at s' p) = STACK_SLOT index ∧
      spill_or_hint (node_at s' p) = STACK_SLOT index ∧
      register_values_ s' = register_values_ s ∧
      free_registers_ s' = free_registers_ s ∧
      (D = true → index < 0 ∧ IsInitialValue (node_at s p) = true)
  | FIXED_REGISTER r => placed N has_valid_live_range p r s'
  | MUST_HAVE_REGISTER => ∃ r, placed N has_valid_live_range p r s'
  | SAME_AS_INPUT k =>
      ∃ i r, inputs (node_at s p) !! k = Some i ∧ operand i = REGISTER r ∧
             placed N has_valid_live_range p r s'
  | _ => False
  end.

(** The phis and the value nodes of block [b] have an allocated result. *)
Definition block_allocated (g : Graph) (s0 s : State) (b : ptr) : Prop :=
  (∀ phis phi, block_phis (shape_at g b) = Some phis → phi ∈ phis →
     IsAllocated (result (node_at s phi)) = true) ∧
  (∀ p, p ∈ block_nodes (shape_at g b) →
     IsValueNode (node_at s0 p) = true →
     IsAllocated (result (node_at s p)) = true).

(** * Proofs *)

(** * Reasoning about steps *)

Lemma bind_Ok {A B} (m : M A) (f : A → M B) s b s' :
  bind m f s = Ok (b, s') ↔ ∃ a s1, m s = Ok (a, s1) ∧ f a s1 = Ok (b, s').
Proof.
  unfold bind. split.
  - destruct (m s) as [[a s1]| |]; [eauto | done | done].
  - intros (a & s1 & -> & H). done.
Qed.

Lemma ret_Ok {A} (a b : A) s s' : ret a s = Ok (b, s') ↔ b = a ∧ s' = s.
Proof. unfold ret. split; [intros [= -> ->] | intros [-> ->]]; done. Qed.

Lemma get_Ok s a s' : get s = Ok (a, s') ↔ a = s ∧ s' = s.
Proof. unfold get. split; [intros [= -> ->] | intros [-> ->]]; done. Qed.

Lemma modify_Ok f s a s' : modify f s = Ok (a, s') ↔ s' = f s.
Proof. unfold modify. destruct a. split; [intros [= ->] | intros ->]; done. Qed.

Lemma node_Ok p s n s' : node p s = Ok (n, s') ↔ n = node_at s p ∧ s' = s.
Proof. unfold node. split; [intros [= -> ->] | intros [-> ->]]; done. Qed.

Lemma basic_block_Ok b s t s' : basic_block b s = Ok (t, s') ↔ t = block_at s b ∧ s' = s.
Proof. unfold basic_block. split; [intros [= -> ->] | intros [-> ->]]; done. Qed.

Lemma update_node_Ok p f s a s' :
  update_node p f s = Ok (a, s') ↔
  s' = with_nodes (<[p := f (node_at s p)]> (nodes_ s)) s.
Proof.
  unfold update_node, modify. destruct a.
  split; [intros [= <-] | intros ->]; done.
Qed.

Lemma DCHECK_Ok D b s a s' : DCHECK D b s = Ok (a, s') → s' = s ∧ (D = true → b = true).
Proof.
  unfold DCHECK. destruct D, b; simpl; try done; intros [= <-]; done.
Qed.

Lemma register_values_Ok i s v s' :
  register_values i s = Ok (v, s') ↔
  0 <= i ∧ register_values_ s !! Z.to_nat i = Some v ∧ s' = s.
Proof.
  unfold register_values. destruct (Z.leb_spec 0 i).
  - destruct (register_values_ s !! Z.to_nat i) eqn:E.
    + split; [intros [= -> ->] | intros (_ & [= ->] & ->)]; done.
    + split; [done | intros (_ & [=] & _)].
  - split; [done | lia].
Qed.

Lemma set_register_values_Ok i v s a s' :
  set_register_values i v s = Ok (a, s') ↔
  0 <= i ∧ (Z.to_nat i < length (register_values_ s))%nat ∧
  s' = with_register_values (<[Z.to_nat i := v]> (register_values_ s)) s.
Proof.
  unfold set_register_values. destruct a. destruct (Z.leb_spec 0 i); simpl.
  - case_bool_decide.
    + split; [intros [= <-] | intros (_ & _ & ->)]; done.
    + split; [done | intros (_ & ? & _); done].
  - split; [done | lia].
Qed.

(** Decompose a successful run along the structure of the program. *)
Ltac run1 :=
  match goal with
  | H : bind _ _ _ = Ok _ |- _ =>
      apply bind_Ok in H; destruct H as (? & ? & H & ?)
  | H : ret _ _ = Ok _ |- _ => apply ret_Ok in H; destruct H as [? ?]; subst
  | H : get _ = Ok _ |- _ => apply get_Ok in H; destruct H as [? ?]; subst
  | H : node _ _ = Ok _ |- _ => apply node_Ok in H; destruct H as [? ?]; subst
  | H : basic_block _ _ = Ok _ |- _ => apply basic_block_Ok in H; destruct H as [? ?]; subst
  | H : modify _ _ = Ok _ |- _ => apply modify_Ok in H; subst
  | H : update_node _ _ _ = Ok _ |- _ => apply update_node_Ok in H; subst
  | H : fatal _ = Ok _ |- _ => discriminate H
  | H : undefined _ = Ok _ |- _ => discriminate H
  | H : UNREACHABLE _ = Ok _ |- _ => discriminate H
  | H : Fatal = Ok _ |- _ => discriminate H
  | H : Undefined = Ok _ |- _ => discriminate H
  | H : Ok _ = Ok _ |- _ => injection H as ? ?; subst
  | H : DCHECK _ _ _ = Ok _ |- _ =>
      apply DCHECK_Ok in H; destruct H as [? ?]; subst
  | H : register_values _ _ = Ok _ |- _ =>
      apply register_values_Ok in H; destruct H as (? & ? & ?); subst
  | H : set_register_values _ _ _ = Ok _ |- _ =>
      apply set_register_values_Ok in H; destruct H as (? & ? & ?); subst
  | H : when ?b _ _ = Ok _ |- _ => unfold when in H
  | H : bad_cast ?D _ = Ok _ |- _ => unfold bad_cast in H; destruct D
  end.

Ltac split1 :=
  match goal with
  | H : (if ?b then _ else _) _ = Ok _ |- _ => destruct b eqn:?
  | H : (match ?x with _ => _ end) _ = Ok _ |- _ => destruct x eqn:?
  end.

Ltac run := repeat run1.
Ltac runs := repeat (run1 || split1).

(** Bit sets *)
Lemma ctz_nonneg p : 0 <= ctz p.
Proof. induction p; simpl; lia. Qed.

Lemma testbit_ctz p : Z.testbit (Zpos p) (ctz p) = true.
Proof.
  induction p; simpl ctz; try reflexivity.
  change (Zpos p~0) with (2 * Zpos p).
  rewrite Z.testbit_even_succ; [exact IHp | apply ctz_nonneg].
Qed.

Lemma first_reg_spec l :
  0 <= l → l ≠ 0 → 0 <= first_reg l ∧ Z.testbit l (first_reg l) = true.
Proof.
  destruct l; try lia; try done. intros _ _.
  split; [apply ctz_nonneg | apply testbit_ctz].
Qed.

Lemma pos_bits_spec p k r :
  r ∈ pos_bits p k ↔ k <= r ∧ Z.testbit (Zpos p) (r - k) = true.
Proof.
  revert k. induction p; intros k; simpl pos_bits.
  - rewrite elem_of_cons, IHp. change (Zpos p~1) with (2 * Zpos p + 1).
    split.
    + intros [->|[Hk Hb]].
      * split; [lia|]. replace (k - k) with 0 by lia. apply Z.testbit_odd_0.
      * split; [lia|]. replace (r - k) with (Z.succ (r - Z.succ k)) by lia.
        rewrite Z.testbit_odd_succ; [done|lia].
    + intros [Hk Hb]. destruct (decide (r = k)) as [->|Hne]; [by left|right].
      split; [lia|]. replace (r - k) with (Z.succ (r - Z.succ k)) in Hb by lia.
      rewrite Z.testbit_odd_succ in Hb; [done|lia].
  - rewrite IHp. change (Zpos p~0) with (2 * Zpos p).
    split.
    + intros [Hk Hb]. split; [lia|].
      replace (r - k) with (Z.succ (r - Z.succ k)) by lia.
      rewrite Z.testbit_even_succ; [done|lia].
    + intros [Hk Hb]. destruct (decide (r = k)) as [->|Hne].
      * replace (k - k) with 0 in Hb by lia.
        rewrite Z.testbit_even_0 in Hb. done.
      * split; [lia|].
        replace (r - k) with (Z.succ (r - Z.succ k)) in Hb by lia.
        rewrite Z.testbit_even_succ in Hb; [done|lia].
  - rewrite list_elem_of_singleton. split.
    + intros ->. split; [lia|]. by replace (k - k) with 0 by lia.
    + intros [Hk Hb]. destruct (decide (r = k)) as [->|Hne]; [done|].
      exfalso. replace (r - k) with (Z.succ (r - Z.succ k)) in Hb by lia.
      change 1 with (2 * 0 + 1) in Hb.
      rewrite Z.testbit_odd_succ in Hb by lia. by rewrite Z.testbit_0_l in Hb.
Qed.

Lemma regs_of_spec l r :
  0 <= l → r ∈ regs_of l ↔ 0 <= r ∧ Z.testbit l r = true.
Proof.
  intros Hl. destruct l; simpl; try lia.
  - rewrite Z.testbit_0_l. split; [by intros ?%elem_of_nil | by intros [_ ?]].
  - rewrite pos_bits_spec. by replace (r - 0) with r by lia.
Qed.

Lemma testbit_InsertInto r l i :
  0 <= r → Z.testbit (InsertInto r l) i = (Z.eqb r i || Z.testbit l i).
Proof. intros. unfold InsertInto. by apply Z.setbit_eqb. Qed.

Lemma testbit_RemoveFrom r l i :
  Z.testbit (RemoveFrom r l) i = (Z.testbit l i && negb (Z.eqb r i)).
Proof. unfold RemoveFrom. by apply Z.clearbit_eqb. Qed.

Lemma InsertInto_nonneg r l : 0 <= l → 0 <= InsertInto r l.
Proof.
  intros. unfold InsertInto, Z.setbit. apply Z.lor_nonneg. split; [done|].
  apply Z.shiftl_nonneg. lia.
Qed.

Lemma RemoveFrom_nonneg r l : 0 <= l → 0 <= RemoveFrom r l.
Proof.
  intros. unfold RemoveFrom, Z.clearbit. apply Z.ldiff_nonneg. by left.
Qed.

(** * Frame properties *)

Lemma node_at_insert s s0 p n q :
  node_at (with_nodes (<[p := n]> (nodes_ s0)) s) q =
  if decide (p = q) then n else node_at s0 q.
Proof.
  unfold node_at. simpl. case_decide.
  - subst. apply lookup_total_insert_eq.
  - by apply lookup_total_insert_ne.
Qed.

Lemma node_at_with_register_values l s q :
  node_at (with_register_values l s) q = node_at s q.
Proof. done. Qed.
Lemma node_at_with_free_registers l s q :
  node_at (with_free_registers l s) q = node_at s q.
Proof. done. Qed.
Lemma node_at_with_top_of_stack l s q :
  node_at (with_top_of_stack l s) q = node_at s q.
Proof. done. Qed.
Lemma node_at_with_free_slots l s q :
  node_at (with_free_slots l s) q = node_at s q.
Proof. done. Qed.
Lemma node_at_with_gap_moves l s q :
  node_at (with_gap_moves l s) q = node_at s q.
Proof. done. Qed.
Lemma node_at_with_blocks l s q : node_at (with_blocks l s) q = node_at s q.
Proof. done. Qed.

(** Bring the node lookups of a goal to the state they come from. *)
Ltac norm :=
  rewrite ?node_at_insert, ?node_at_with_register_values,
    ?node_at_with_free_registers, ?node_at_with_top_of_stack,
    ?node_at_with_free_slots, ?node_at_with_gap_moves, ?node_at_with_blocks.

Global Instance Step_preorder : PreOrder Step.
Proof.
  split.
  - intros s. by split.
  - intros s1 s2 s3 [A12 B12 C12 D12 E12] [A23 B23 C23 D23 E23].
    split; intros; try congruence; try lia.
    by etrans.
Qed.

Global Instance LowStep_preorder : PreOrder LowStep.
Proof.
  split.
  - intros s. by split.
  - intros s1 s2 s3 [H12 R12 S12 T12] [H23 R23 S23 T23].
    split; intros; try congruence; try (by etrans).
    rewrite S23, S12; try done.
    unfold is_spilled. by rewrite S12.
Qed.

(** Updating a node by a function that keeps the fields concerned. *)
Lemma update_node_low s p f :
  (∀ n, static (f n) = static n) →
  (∀ n, result (f n) = result n) →
  (∀ n, is_spilled n = true → spill_or_hint (f n) = spill_or_hint n) →
  LowStep s (with_nodes (<[p := f (node_at s p)]> (nodes_ s)) s).
Proof.
  intros Hs Hr Hsp. split; [split|..]; simpl; try done;
    intros q; try intros Hq; rewrite node_at_insert; case_decide; subst; auto.
Qed.

Lemma update_node_step s p f :
  (∀ n, static (f n) = static n) →
  Step s (with_nodes (<[p := f (node_at s p)]> (nodes_ s)) s).
Proof.
  intros Hs. split; simpl; try done.
  intros q. rewrite node_at_insert; case_decide; subst; auto.
Qed.

Lemma static_set_registers l n : static (set_registers l n) = static n.
Proof. done. Qed.
Lemma static_set_spill_or_hint o n : static (set_spill_or_hint o n) = static n.
Proof. done. Qed.
Lemma static_set_next_use u n : static (set_next_use u n) = static n.
Proof. done. Qed.
Lemma static_set_result o n : static (set_result o n) = static n.
Proof. done. Qed.
Lemma static_assign_temporaries l n : static (assign_temporaries l n) = static n.
Proof. done. Qed.
Lemma static_input_SetAllocated k o n :
  static (input_SetAllocated k o n) = static n.
Proof.
  unfold static, input_SetAllocated. simpl. f_equal.
  apply list_eq. intros j. rewrite !list_lookup_fmap.
  destruct (decide (j = k)) as [->|Hne].
  - rewrite list_lookup_alter_eq. by destruct (inputs n !! k).
  - by rewrite list_lookup_alter_ne.
Qed.

Lemma with_register_values_low s l :
  length l = length (register_values_ s) → LowStep s (with_register_values l s).
Proof. intros. by split; [split|..]. Qed.
Lemma with_free_registers_low s l : LowStep s (with_free_registers l s).
Proof. by split; [split|..]. Qed.
Lemma with_gap_moves_low s l :
  gap_moves_ s `prefix_of` l → LowStep s (with_gap_moves l s).
Proof. intros. by split; [split|..]. Qed.
Lemma with_top_of_stack_low s t :
  top_of_stack_ s <= t → LowStep s (with_top_of_stack t s).
Proof. intros. by split; [split|..]. Qed.
Lemma with_free_slots_low s l :
  l `suffix_of` free_slots_ s → LowStep s (with_free_slots l s).
Proof. intros. by split; [split|..]. Qed.

Lemma LowStep_Step s s' : LowStep s s' → Step s s'.
Proof. by intros []. Qed.

Section Preserves.
Context (R : relation State) `{!PreOrder R}.

Lemma preserves_ret {A} (a : A) : preserves R (ret a).
Proof. intros s b s' H. run. reflexivity. Qed.
Lemma preserves_bind {A B} (m : M A) (f : A → M B) :
  preserves R m → (∀ a, preserves R (f a)) → preserves R (bind m f).
Proof. intros Hm Hf s b s' H. run. etrans; [by eapply Hm | by eapply Hf]. Qed.
Lemma preserves_get : preserves R get.
Proof. intros s b s' H. run. reflexivity. Qed.
Lemma preserves_node p : preserves R (node p).
Proof. intros s b s' H. run. reflexivity. Qed.
Lemma preserves_basic_block p : preserves R (basic_block p).
Proof. intros s b s' H. run. reflexivity. Qed.
Lemma preserves_fatal {A} : preserves R (@fatal A).
Proof. intros s b s' H. run. Qed.
Lemma preserves_undefined {A} : preserves R (@undefined A).
Proof. intros s b s' H. run. Qed.
Lemma preserves_UNREACHABLE {A} : preserves R (@UNREACHABLE A).
Proof. intros s b s' H. run. Qed.
Lemma preserves_bad_cast {A} D : preserves R (@bad_cast D A).
Proof. intros s b s' H. run; run. Qed.
Lemma preserves_DCHECK D b : preserves R (DCHECK D b).
Proof. intros s a s' H. run. reflexivity. Qed.
Lemma preserves_register_values i : preserves R (register_values i).
Proof. intros s a s' H. run. reflexivity. Qed.
Lemma preserves_when b m : preserves R m → preserves R (when b m).
Proof. intros. destruct b; simpl; [done | apply preserves_ret]. Qed.
Lemma preserves_for_each {A} (l : list A) body :
  (∀ x, x ∈ l → preserves R (body x)) → preserves R (for_each l body).
Proof.
  intros Hb. induction l as [|x l IH]; simpl; [apply preserves_ret|].
  apply preserves_bind; [apply Hb; by left|].
  intros _. apply IH. intros y Hy. apply Hb. by right.
Qed.
Lemma preserves_repeat_times n m :
  preserves R m → preserves R (repeat_times n m).
Proof.
  intros Hb. induction n; simpl; [apply preserves_ret|].
  apply preserves_bind; [apply Hb | done].
Qed.
Lemma preserves_modify f : (∀ s, R s (f s)) → preserves R (modify f).
Proof. intros Hf s a s' H. run. apply Hf. Qed.
End Preserves.

Lemma preserves_update_node_low p f :
  (∀ n, static (f n) = static n) →
  (∀ n, result (f n) = result n) →
  (∀ n, is_spilled n = true → spill_or_hint (f n) = spill_or_hint n) →
  preserves LowStep (update_node p f).
Proof. intros ??? s a s' H. run. by apply update_node_low. Qed.
Lemma preserves_update_node_step p f :
  (∀ n, static (f n) = static n) → preserves Step (update_node p f).
Proof. intros ? s a s' H. run. by apply update_node_step. Qed.
Lemma preserves_set_register_values i v :
  preserves LowStep (set_register_values i v).
Proof.
  intros s a s' H. run. apply with_register_values_low. apply length_insert.
Qed.
Lemma preserves_LowStep_Step {A} (m : M A) :
  preserves LowStep m → preserves Step m.
Proof. intros H s a s' Hm. by apply LowStep_Step, (H s a). Qed.

Create HintDb frame discriminated.
Global Hint Resolve preserves_set_register_values : frame.

(** One step of a frame proof, along the structure of the program. *)
Ltac frame1 :=
  lazymatch goal with
  | |- preserves _ (bind _ _) => apply preserves_bind; [apply _| |intros ?]
  | |- preserves _ (ret _) => apply preserves_ret; apply _
  | |- preserves _ get => apply preserves_get; apply _
  | |- preserves _ (node _) => apply preserves_node; apply _
  | |- preserves _ (basic_block _) => apply preserves_basic_block; apply _
  | |- preserves _ fatal => apply preserves_fatal
  | |- preserves _ undefined => apply preserves_undefined
  | |- preserves _ UNREACHABLE => apply preserves_UNREACHABLE
  | |- preserves _ (bad_cast _) => apply preserves_bad_cast
  | |- preserves _ (DCHECK _ _) => apply preserves_DCHECK; apply _
  | |- preserves _ (register_values _) =>
      apply preserves_register_values; apply _
  | |- preserves _ (when _ _) => apply preserves_when; [apply _|]
  | |- preserves _ (for_each _ _) =>
      apply preserves_for_each; [apply _|intros ? ?]
  | |- preserves _ (repeat_times _ _) =>
      apply preserves_repeat_times; [apply _|]
  | |- preserves _ (if ?b then _ else _) => destruct b
  | |- preserves _ (match ?x with _ => _ end) => destruct x
  | |- preserves LowStep (update_node _ _) =>
      apply preserves_update_node_low; intros; done
  | |- preserves Step (update_node _ _) =>
      apply preserves_update_node_step; intros;
      first [done | apply static_input_SetAllocated]
  | |- preserves LowStep (modify _) =>
      apply preserves_modify; intros ?;
      first [ apply with_free_registers_low
            | apply with_gap_moves_low; simpl; by apply prefix_app_r
            | apply with_top_of_stack_low; simpl; lia
            | apply with_free_slots_low; simpl; by apply suffix_cons_r ]
  | |- preserves Step (modify _) =>
      apply preserves_modify; intros ?; split; simpl; try done; lia
  | |- preserves LowStep _ => solve [eauto 2 with frame]
  | |- preserves Step _ =>
      first [ solve [eauto 2 with frame]
            | apply preserves_LowStep_Step; solve [eauto 2 with frame] ]
  | |- preserves _ _ => solve [eauto 3 with frame]
  end.
Ltac frame := repeat frame1.

Global Instance SameRegisters_preorder : PreOrder SameRegisters.
Proof.
  split.
  - intros s. by split.
  - intros s1 s2 s3 [] []. split; intros; congruence.
Qed.

Global Instance Keeps_preorder I : PreOrder (Keeps I).
Proof. split; unfold Keeps; [intros s; auto | intros s1 s2 s3; auto]. Qed.

Lemma preserves_update_node_same p f :
  (∀ n, registers_with_result (f n) = registers_with_result n) →
  preserves SameRegisters (update_node p f).
Proof.
  intros Hf s a s' H. run. split; simpl; try done.
  intros q. rewrite node_at_insert. case_decide; subst; auto.
Qed.
Lemma preserves_modify_same f :
  (∀ s, register_values_ (f s) = register_values_ s) →
  (∀ s, free_registers_ (f s) = free_registers_ s) →
  (∀ s, nodes_ (f s) = nodes_ s) →
  preserves SameRegisters (modify f).
Proof.
  intros H1 H2 H3 s a s' H. run. split; auto.
  intros q. unfold node_at. by rewrite H3.
Qed.
Global Hint Resolve preserves_update_node_same preserves_modify_same : frame.

Section Frames.
Variables (N : nat) (D : bool).
Implicit Types (v p : ptr) (r : Register).

Lemma TakeAny_low : preserves LowStep TakeAny.
Proof. unfold TakeAny. frame. Qed.
Hint Resolve TakeAny_low : frame.

Lemma AddMoveBeforeCurrentNode_low a b :
  preserves LowStep (AddMoveBeforeCurrentNode a b).
Proof. unfold AddMoveBeforeCurrentNode. frame. Qed.
Hint Resolve AddMoveBeforeCurrentNode_low : frame.

Lemma Spill_to_low s v o :
  is_spilled (node_at s v) = false →
  LowStep s (with_nodes (<[v := Spill_to o (node_at s v)]> (nodes_ s)) s).
Proof.
  intros Hv. split; [split|..]; simpl; try done; intros q; try intros Hq;
    rewrite node_at_insert; case_decide; subst; try done.
  congruence.
Qed.

Lemma AllocateSpillSlot_low v s s' :
  is_spilled (node_at s v) = false →
  AllocateSpillSlot D v s = Ok (tt, s') → LowStep s s'.
Proof.
  unfold AllocateSpillSlot. intros Hv H. runs.
  - trans (with_top_of_stack (top_of_stack_ s + 1) s);
      [apply with_top_of_stack_low; lia|].
    by apply Spill_to_low.
  - trans (with_free_slots l s);
      [apply with_free_slots_low; rewrite Heql; by apply suffix_cons_r|].
    by apply Spill_to_low.
Qed.

Lemma Spill_low v : preserves LowStep (Spill D v).
Proof.
  unfold Spill. intros s a s' H. runs; [reflexivity|].
  destruct a. by eapply AllocateSpillSlot_low.
Qed.
Hint Resolve Spill_low : frame.

Lemma AddMoveBeforeCurrentNode_same a b :
  preserves SameRegisters (AddMoveBeforeCurrentNode a b).
Proof. unfold AddMoveBeforeCurrentNode. frame. Qed.
Hint Resolve AddMoveBeforeCurrentNode_same : frame.

Lemma AllocateSpillSlot_same v : preserves SameRegisters (AllocateSpillSlot D v).
Proof. unfold AllocateSpillSlot. frame. Qed.
Hint Resolve AllocateSpillSlot_same : frame.

Lemma Spill_same v : preserves SameRegisters (Spill D v).
Proof. unfold Spill. frame. Qed.
Hint Resolve Spill_same : frame.

Lemma SpillRegisters_same : preserves SameRegisters (SpillRegisters N D).
Proof. unfold SpillRegisters. frame. Qed.

Lemma SetRegister_low r v : preserves LowStep (SetRegister N D r v).
Proof. unfold SetRegister. frame. Qed.
Hint Resolve SetRegister_low : frame.

Lemma FreeRegister_low i : preserves LowStep (FreeRegister N i).
Proof. unfold FreeRegister. frame. Qed.
Hint Resolve FreeRegister_low : frame.

Lemma FreeRegisters_low v : preserves LowStep (FreeRegisters N v).
Proof. unfold FreeRegisters. frame. Qed.
Hint Resolve FreeRegisters_low : frame.

Lemma Free_low r : preserves LowStep (Free N D r).
Proof. unfold Free. frame. Qed.
Hint Resolve Free_low : frame.

Lemma furthest_from_low l u i : preserves LowStep (furthest_from l u i).
Proof. revert u i. induction l; intros; simpl; frame. Qed.
Hint Resolve furthest_from_low : frame.

Lemma FreeSomeRegister_low : preserves LowStep (FreeSomeRegister N).
Proof. unfold FreeSomeRegister. frame. Qed.
Hint Resolve FreeSomeRegister_low : frame.

Lemma TryAllocateRegister_low v : preserves LowStep (TryAllocateRegister N D v).
Proof. unfold TryAllocateRegister. frame. Qed.
Hint Resolve TryAllocateRegister_low : frame.

Lemma AllocateRegister_low v : preserves LowStep (AllocateRegister N D v).
Proof. unfold AllocateRegister. frame. Qed.
Hint Resolve AllocateRegister_low : frame.

Lemma ForceAllocate_low r v : preserves LowStep (ForceAllocate N D r v).
Proof. unfold ForceAllocate. frame. Qed.
Hint Resolve ForceAllocate_low : frame.

Lemma SpillRegisters_low : preserves LowStep (SpillRegisters N D).
Proof. unfold SpillRegisters. frame. Qed.
Hint Resolve SpillRegisters_low : frame.

Lemma SpillAndClearRegisters_low : preserves LowStep (SpillAndClearRegisters N D).
Proof. unfold SpillAndClearRegisters. frame. Qed.
Hint Resolve SpillAndClearRegisters_low : frame.

Lemma input_step p k : preserves Step (input p k).
Proof. unfold input. frame. Qed.
Hint Resolve input_step : frame.

Lemma AssignedRegister_step i : preserves Step (AssignedRegister D i).
Proof. unfold AssignedRegister. frame. Qed.
Hint Resolve AssignedRegister_step : frame.

Lemma AssignInput_step p k : preserves Step (AssignInput N D p k).
Proof. unfold AssignInput. frame. Qed.
Hint Resolve AssignInput_step : frame.

Lemma AssignTemporaries_step p : preserves Step (AssignTemporaries N D p).
Proof. unfold AssignTemporaries. frame. Qed.
Hint Resolve AssignTemporaries_step : frame.

Section Liveness.
Variables (is_dead has_valid_live_range : Node → bool).

Lemma UpdateInputUse_step u i : preserves Step (UpdateInputUse N is_dead u i).
Proof. unfold UpdateInputUse. frame. Qed.
Hint Resolve UpdateInputUse_step : frame.

Lemma AllocateNodeResult_step p :
  preserves Step (AllocateNodeResult N D is_dead has_valid_live_range p).
Proof. unfold AllocateNodeResult. frame. Qed.
Hint Resolve AllocateNodeResult_step : frame.

Lemma AllocateNode_step p :
  preserves Step (AllocateNode N D is_dead has_valid_live_range p).
Proof. unfold AllocateNode. frame. Qed.

End Liveness.
End Frames.

Global Hint Resolve TakeAny_low AddMoveBeforeCurrentNode_low Spill_low
  SetRegister_low FreeRegister_low FreeRegisters_low Free_low
  furthest_from_low FreeSomeRegister_low TryAllocateRegister_low
  AllocateRegister_low ForceAllocate_low SpillRegisters_low
  SpillAndClearRegisters_low input_step AssignedRegister_step
  AssignInput_step AssignTemporaries_step UpdateInputUse_step
  AllocateNodeResult_step AddMoveBeforeCurrentNode_same
  AllocateSpillSlot_same Spill_same : frame.

(** * The register file stays consistent *)

Lemma MapRegisterToIndex_valid N r (l : list (option ptr)) x :
  (N ≤ 255)%nat → length l = N →
  l !! Z.to_nat (MapRegisterToIndex N r) = Some x →
  MapRegisterToIndex N r = r ∧ 0 <= r < Z.of_nat N.
Proof.
  intros HN Hl Hx. apply lookup_lt_Some in Hx.
  unfold MapRegisterToIndex, allocatable in *.
  destruct (Z.leb_spec 0 r), (Z.ltb_spec r (Z.of_nat N)); simpl in *; lia.
Qed.

Lemma MapIndexToRegister_valid N i (l : list (option ptr)) x :
  length l = N → 0 <= i → l !! Z.to_nat i = Some x →
  MapIndexToRegister N i = i ∧ i < Z.of_nat N.
Proof.
  intros Hl Hi Hx. apply lookup_lt_Some in Hx.
  unfold MapIndexToRegister, allocatable in *.
  destruct (Z.leb_spec 0 i), (Z.ltb_spec i (Z.of_nat N)); simpl in *; lia.
Qed.

Lemma Consistent_weaken N H H' X s :
  (∀ j, j ∈ H → j ∈ H') → Consistent N H X s → Consistent N H' X s.
Proof.
  intros HH [cons_count cons_length cons_free_nonneg cons_regs_nonneg
              cons_free_empty cons_empty_free cons_held].
  split; try done.
  intros r Hr Hl. destruct (cons_empty_free r Hr Hl); auto.
Qed.

Lemma lookup_insert_Z {A} (l : list A) i r x y :
  0 <= i → 0 <= r →
  <[Z.to_nat i := x]> l !! Z.to_nat r = Some y →
  (r = i ∧ y = x) ∨ (r ≠ i ∧ l !! Z.to_nat r = Some y).
Proof.
  intros Hi Hr Hy. destruct (decide (r = i)) as [->|Hne].
  - left. split; [done|].
    rewrite list_lookup_insert_eq in Hy; [congruence|].
    apply lookup_lt_Some in Hy. by rewrite length_insert in Hy.
  - right. split; [done|]. rewrite list_lookup_insert_ne in Hy; [done|lia].
Qed.

Section Consistency.
Variables (N : nat) (D : bool).
Implicit Types (v p : ptr) (r : Register) (H : list Z) (X : option ptr).

(** Writing [None] into entry [i] opens a hole at [i]. *)
Lemma set_None_cons H X i s s' :
  Consistent N H X s →
  set_register_values i None s = Ok (tt, s') →
  Consistent N (i :: H) X s' ∧ 0 <= i < Z.of_nat N ∧
  register_values_ s' !! Z.to_nat i = Some None.
Proof.
  intros HC Hs. run. destruct HC as [cons_count cons_length cons_free_nonneg cons_regs_nonneg
              cons_free_empty cons_empty_free cons_held].
  split; [split|]; simpl; try done.
  - by rewrite length_insert.
  - intros r Hr Hb. destruct (decide (r = i)) as [->|].
    + by apply list_lookup_insert_eq.
    + rewrite list_lookup_insert_ne by lia. auto.
  - intros r Hr [[-> _]|[? Hl]]%lookup_insert_Z; try done.
    + right. by left.
    + destruct (cons_empty_free r Hr Hl); [by left|right; by right].
  - intros r v Hr [[-> ?]|[? Hl]]%lookup_insert_Z; try done. auto.
  - split; [lia|]. by apply list_lookup_insert_eq.
Qed.

Lemma FreeRegister_cons H H' X i s s' :
  (∀ j, j ∈ H → j = i ∨ j ∈ H') →
  Consistent N H X s →
  FreeRegister N i s = Ok (tt, s') →
  Consistent N H' X s' ∧ 0 <= i < Z.of_nat N ∧
  register_values_ s' = <[Z.to_nat i := None]> (register_values_ s) ∧
  nodes_ s' = nodes_ s.
Proof.
  intros HH HC Hs. unfold FreeRegister in Hs. run.
  destruct (lookup_lt_is_Some_2 (register_values_ s) (Z.to_nat i))
    as [old Hold]; [done|].
  destruct HC as [cons_count cons_length cons_free_nonneg cons_regs_nonneg
              cons_free_empty cons_empty_free cons_held].
  destruct (MapIndexToRegister_valid N i _ old cons_length) as [-> ?];
    try done.
  split; [split|]; simpl; try done.
  - by rewrite length_insert.
  - by apply InsertInto_nonneg.
  - intros r Hr Hb. rewrite testbit_InsertInto in Hb by done.
    destruct (decide (r = i)) as [->|].
    + by apply list_lookup_insert_eq.
    + rewrite list_lookup_insert_ne by lia. apply cons_free_empty; [done|].
      destruct (Z.eqb_spec i r); [congruence|done].
  - intros r Hr Hl. rewrite testbit_InsertInto by done.
    apply lookup_insert_Z in Hl as [[-> _]|[? Hl]]; try done.
    + left. by rewrite Z.eqb_refl.
    + destruct (cons_empty_free r Hr Hl) as [->|Hin].
      * left. by rewrite orb_true_r.
      * destruct (HH r Hin); [done|by right].
  - intros r v Hr [[-> ?]|[? Hl]]%lookup_insert_Z; try done. auto.
Qed.

Lemma Consistent_same H X s s' :
  SameRegisters s s' → Consistent N H X s → Consistent N H X s'.
Proof.
  intros [Hv Hf Hs] [cons_count cons_length cons_free_nonneg cons_regs_nonneg
              cons_free_empty cons_empty_free cons_held].
  split; rewrite ?Hv, ?Hf; try done.
  - intros v. by rewrite Hs.
  - intros r v Hr Hl. rewrite Hs. auto.
Qed.

Lemma Spill_cons H X v s s' :
  Consistent N H X s → Spill D v s = Ok (tt, s') → Consistent N H X s'.
Proof. intros HC Hs. eapply Consistent_same; [by eapply Spill_same|done]. Qed.

Lemma AddMove_cons H X a b s s' :
  Consistent N H X s → AddMoveBeforeCurrentNode a b s = Ok (tt, s') →
  Consistent N H X s'.
Proof.
  intros HC Hs.
  eapply Consistent_same; [by eapply AddMoveBeforeCurrentNode_same|done].
Qed.

Lemma TakeAny_cons H X s r s' :
  Consistent N H X s → free_registers_ s ≠ 0 →
  TakeAny s = Ok (r, s') →
  Consistent N (r :: H) X s' ∧ 0 <= r < Z.of_nat N ∧
  Z.testbit (free_registers_ s) r = true ∧
  free_registers_ s' = RemoveFrom r (free_registers_ s) ∧
  register_values_ s' = register_values_ s ∧ nodes_ s' = nodes_ s.
Proof.
  intros HC Hne Hs. unfold TakeAny in Hs. run.
  destruct HC as [cons_count cons_length cons_free_nonneg cons_regs_nonneg
              cons_free_empty cons_empty_free cons_held].
  destruct (first_reg_spec (free_registers_ s)) as [Hr Hb]; try done.
  pose proof (cons_free_empty _ Hr Hb) as Hl.
  split; [split|]; simpl; try done.
  - by apply RemoveFrom_nonneg.
  - intros j Hj. rewrite testbit_RemoveFrom.
    intros [? _]%andb_prop. auto.
  - intros j Hj Hjl. rewrite testbit_RemoveFrom.
    destruct (decide (j = first_reg (free_registers_ s))) as [->|Hjr].
    + right. by left.
    + destruct (cons_empty_free j Hj Hjl) as [->|?].
      * left. simpl. destruct (Z.eqb_spec (first_reg (free_registers_ s)) j);
          [congruence|done].
      * right. by right.
  - apply lookup_lt_Some in Hl. repeat split; try done; lia.
Qed.

Lemma SetRegister_cons H H' X r v s s' :
  (∀ j, j ∈ H → j = r ∨ j ∈ H') →
  Z.testbit (free_registers_ s) r = false →
  Consistent N H X s →
  SetRegister N D r v s = Ok (tt, s') →
  Consistent N H' X s' ∧ free_registers_ s' = free_registers_ s ∧
  0 <= r < Z.of_nat N ∧
  register_values_ s' = <[Z.to_nat r := Some v]> (register_values_ s).
Proof.
  intros HH Hb HC Hs. unfold SetRegister in Hs.
  apply bind_Ok in Hs as (cur & s0 & Hcur & Hs). run.
  match goal with Hl : _ !! _ = Some _ |- _ =>
    destruct (MapRegisterToIndex_valid _ _ _ _ (cons_count _ _ _ _ HC)
                (cons_length _ _ _ _ HC) Hl) as [Hm Hr] end.
  rewrite Hm in *. run.
  destruct HC as [cons_count cons_length cons_free_nonneg cons_regs_nonneg
              cons_free_empty cons_empty_free cons_held].
  split; [split|]; simpl; try done.
  - by rewrite length_insert.
  - intros q. norm.
    destruct (decide (v = q)) as [<-|]; simpl; [|done]. norm.
    by apply InsertInto_nonneg.
  - intros j Hj Hjb. destruct (decide (j = r)) as [->|]; [congruence|].
    rewrite list_lookup_insert_ne by lia. auto.
  - intros j Hj [[-> ?]|[? Hl]]%lookup_insert_Z; try done; try lia.
    destruct (cons_empty_free j Hj Hl) as [|Hin]; [by left|].
    destruct (HH j Hin); [done|by right].
  - intros j w Hj Hl. norm.
    apply lookup_insert_Z in Hl as [[-> [= ->]]|[? Hl]]; try done; try lia.
    + right. rewrite decide_True by done. simpl.
      rewrite testbit_InsertInto by lia. by rewrite Z.eqb_refl.
    + destruct (cons_held j w Hj Hl) as [|Hw]; [by left|right].
      destruct (decide (v = w)) as [<-|]; [|done]. simpl. norm.
      rewrite testbit_InsertInto by lia. by rewrite Hw, orb_true_r.
Qed.

Lemma RemoveFrom_free_cons H X r s :
  Consistent N H X s →
  Consistent N (r :: H) X
    (with_free_registers (RemoveFrom r (free_registers_ s)) s).
Proof.
  intros [cons_count cons_length cons_free_nonneg cons_regs_nonneg
              cons_free_empty cons_empty_free cons_held].
  split; simpl; try done.
  - by apply RemoveFrom_nonneg.
  - intros j Hj. rewrite testbit_RemoveFrom. intros [? _]%andb_prop. auto.
  - intros j Hj Hl. rewrite testbit_RemoveFrom.
    destruct (decide (j = r)) as [->|]; [right; by left|].
    destruct (cons_empty_free j Hj Hl) as [->|]; [left|right; by right].
    destruct (Z.eqb_spec r j); [congruence|done].
Qed.

Lemma RemoveRegister_cons H X r w s :
  0 <= r → register_values_ s !! Z.to_nat r = Some None →
  Consistent N H X s →
  Consistent N H X
    (with_nodes (<[w := RemoveRegister r (node_at s w)]> (nodes_ s)) s).
Proof.
  intros Hr Hl [cons_count cons_length cons_free_nonneg cons_regs_nonneg
              cons_free_empty cons_empty_free cons_held].
  split; simpl; try done.
  - intros q. rewrite node_at_insert.
    destruct (decide (w = q)) as [<-|]; simpl; [|done].
    by apply RemoveFrom_nonneg.
  - intros j v Hj Hjl. rewrite node_at_insert.
    destruct (cons_held j v Hj Hjl) as [|Hv]; [by left|right].
    destruct (decide (w = v)) as [<-|]; [|done].
    simpl. rewrite testbit_RemoveFrom, Hv.
    destruct (Z.eqb_spec r j) as [->|]; [congruence|done].
Qed.

Lemma Free_cons H X r w s s' :
  Consistent N H X s →
  register_values_ s !! Z.to_nat (MapRegisterToIndex N r) = Some (Some w) →
  Free N D r s = Ok (tt, s') →
  Consistent N (r :: H) X s' ∧ Z.testbit (free_registers_ s') r = false ∧
  register_values_ s' !! Z.to_nat r = Some None.
Proof.
  intros HC Hw Hs. unfold Free in Hs.
  destruct (MapRegisterToIndex_valid _ _ _ _ (cons_count _ _ _ _ HC)
              (cons_length _ _ _ _ HC) Hw) as [Hm Hr].
  rewrite Hm in *.
  assert (Z.testbit (free_registers_ s) r = false) as Hfree.
  { destruct (Z.testbit (free_registers_ s) r) eqn:E; [|done].
    apply (cons_free_empty _ _ _ _ HC) in E; [congruence|lia]. }
  apply bind_Ok in Hs as (cur & s0 & Hcur & Hs).
  apply register_values_Ok in Hcur as (_ & Hcur & ->).
  assert (cur = Some w) as -> by congruence.
  apply bind_Ok in Hs as ([] & s1 & Hset & Hs).
  destruct (set_None_cons _ _ _ _ _ HC Hset) as (HC1 & _ & Hl1).
  assert (free_registers_ s1 = free_registers_ s) as Hf1.
  { apply set_register_values_Ok in Hset as (_ & _ & ->). done. }
  clear Hset.
  apply bind_Ok in Hs as ([] & s2 & Hrem & Hs).
  apply update_node_Ok in Hrem.
  pose proof (RemoveRegister_cons _ _ r w _ (proj1 Hr) Hl1 HC1) as HC2.
  rewrite <- Hrem in HC2.
  assert (free_registers_ s2 = free_registers_ s) as Hf2
    by (by rewrite Hrem).
  assert (register_values_ s2 !! Z.to_nat r = Some None) as Hl2
    by (by rewrite Hrem).
  clear Hrem HC1 Hl1 Hf1.
  apply bind_Ok in Hs as (n & s3 & Hn & Hs).
  apply node_Ok in Hn as [-> ->].
  destruct (has_register (node_at s2 w)); [run; by rewrite Hf2|].
  destruct (is_spilled (node_at s2 w)); [run; by rewrite Hf2|].
  apply bind_Ok in Hs as (? & s4 & Hg & Hs). apply get_Ok in Hg as [-> ->].
  destruct (Z.eqb_spec (free_registers_ s2) kEmptyRegList) as [He|Hne];
    simpl in *.
  - split; [by eapply Spill_cons|].
    match goal with Hsp : Spill _ _ _ = Ok _ |- _ =>
      apply Spill_same in Hsp as [Hv' Hf' _] end.
    by rewrite Hf', Hv', Hf2.
  - apply bind_Ok in Hs as (x & s3 & Ht & Hs).
    destruct (TakeAny_cons _ _ _ _ _ HC2 Hne Ht)
      as (HC3 & Hx & Hb3 & Hf3 & Hv3 & _).
    apply bind_Ok in Hs as ([] & s4 & Hset & Hmove).
    destruct (SetRegister_cons (x :: r :: H) (r :: H) X x w s3 s4)
      as (HC4 & Hf4 & _ & Hv4); try done.
    { intros j [->|Hj]%elem_of_cons; [by left|right; done]. }
    { rewrite Hf3, testbit_RemoveFrom, Z.eqb_refl. apply andb_false_r. }
    pose proof Hmove as [Hv5 Hf5 _]%AddMoveBeforeCurrentNode_same.
    split; [by eapply AddMove_cons|].
    rewrite Hf5, Hf4, Hv5, Hv4, Hf3, Hv3, testbit_RemoveFrom, Hf2, Hfree.
    split; [done|].
    rewrite list_lookup_insert_ne; [done|].
    intros Heq. assert (r = x) as -> by lia. congruence.
Qed.

Lemma MapRegisterToIndex_small r :
  (N ≤ 255)%nat → MapRegisterToIndex N r < Z.of_nat N →
  MapRegisterToIndex N r = r.
Proof.
  unfold MapRegisterToIndex. destruct (allocatable N r); [done|lia].
Qed.

(** Freeing the registers of a list, one after the other. *)
Lemma FreeRegister_each l : ∀ X s s',
  Consistent N [] X s →
  for_each l (λ reg, FreeRegister N (MapRegisterToIndex N reg)) s
    = Ok (tt, s') →
  Consistent N [] X s' ∧ nodes_ s' = nodes_ s ∧
  (∀ k, register_values_ s !! k = Some None →
        register_values_ s' !! k = Some None) ∧
  (∀ k x, register_values_ s' !! k = Some (Some x) →
          register_values_ s !! k = Some (Some x) ∧ Z.of_nat k ∉ l) ∧
  (∀ k x, register_values_ s !! k = Some (Some x) → Z.of_nat k ∉ l →
          register_values_ s' !! k = Some (Some x)).
Proof.
  induction l as [|reg l IH]; intros X s s' HC Hs; simpl in Hs.
  - run. split; [done|]. split; [done|]. split; [done|]. split; [|done].
    intros k x Hk. split; [done|apply not_elem_of_nil].
  - apply bind_Ok in Hs as ([] & s1 & Hfree & Hs).
    destruct (FreeRegister_cons [] [] X _ _ _ (λ j Hj, or_intror Hj) HC Hfree)
      as (HC1 & Hi & Hv1 & Hn1).
    rewrite (MapRegisterToIndex_small reg (cons_count _ _ _ _ HC)) in *
      by lia.
    destruct (IH X s1 s' HC1 Hs) as (HC' & Hn' & Hnone & Hsome & Hkeep).
    split; [done|]. split; [congruence|]. rewrite Hv1 in *.
    split; [|split].
    + intros k Hk. apply Hnone.
      destruct (decide (k = Z.to_nat reg)) as [->|].
      * apply list_lookup_insert_eq. by apply lookup_lt_Some in Hk.
      * by rewrite list_lookup_insert_ne.
    + intros k x Hk. destruct (Hsome k x Hk) as [Hl Hnin].
      destruct (decide (k = Z.to_nat reg)) as [->|Hne].
      * rewrite list_lookup_insert_eq in Hl; [done|].
        apply lookup_lt_Some in Hl. by rewrite length_insert in Hl.
      * rewrite list_lookup_insert_ne in Hl by done. split; [done|].
        intros [<-|?]%elem_of_cons; [|done]. by rewrite Nat2Z.id in Hne.
    + intros k x Hk Hnin. apply Hkeep.
      * rewrite list_lookup_insert_ne; [done|].
        intros <-. apply Hnin. rewrite Z2Nat.id by lia. by left.
      * intros ?. apply Hnin. by right.
Qed.

Lemma FreeRegisters_cons v s s' :
  Consistent N [] None s →
  FreeRegisters N v s = Ok (tt, s') →
  Consistent N [] None s' ∧
  nodes_ s' = <[v := ClearRegisters (node_at s v)]> (nodes_ s) ∧
  (∀ k, register_values_ s' !! k ≠ Some (Some v)) ∧
  (∀ k, register_values_ s !! k = Some None →
        register_values_ s' !! k = Some None) ∧
  (∀ k x, register_values_ s' !! k = Some (Some x) →
          register_values_ s !! k = Some (Some x)) ∧
  (∀ k x, register_values_ s !! k = Some (Some x) →
          Z.testbit (registers_with_result (node_at s v)) (Z.of_nat k) = false →
          register_values_ s' !! k = Some (Some x)).
Proof.
  intros HC Hs. unfold FreeRegisters in Hs.
  apply bind_Ok in Hs as (n & s0 & Hn & Hs). apply node_Ok in Hn as [-> ->].
  apply bind_Ok in Hs as ([] & s1 & Hclear & Hs).
  apply update_node_Ok in Hclear.
  assert (Consistent N [] (Some v) s1) as HC1.
  { rewrite Hclear.
    destruct HC as [cons_count cons_length cons_free_nonneg cons_regs_nonneg
              cons_free_empty cons_empty_free cons_held].
    split; simpl; try done.
    - intros q. norm. destruct (decide (v = q)); [done|auto].
    - intros r w Hr Hl. norm. destruct (decide (v = w)) as [->|]; [by left|].
      destruct (cons_held r w Hr Hl); [done|by right]. }
  destruct (FreeRegister_each _ _ _ _ HC1 Hs) as (HC' & Hn' & Hnone & Hsome & Hkeep).
  assert (register_values_ s1 = register_values_ s) as Hv1 by (by rewrite Hclear).
  rewrite Hv1 in *.
  pose proof (cons_regs_nonneg _ _ _ _ HC v) as Hnn.
  assert (∀ k, register_values_ s' !! k ≠ Some (Some v)) as Hno.
  { intros k Hk. destruct (Hsome k v Hk) as [Hl Hnin]. apply Hnin.
    apply regs_of_spec; [done|]. split; [lia|].
    destruct (cons_held _ _ _ _ HC (Z.of_nat k) v) as [|Hb]; try done; [lia|].
    by rewrite Nat2Z.id. }
  repeat split; try done.
  - apply (cons_count _ _ _ _ HC').
  - apply (cons_length _ _ _ _ HC').
  - apply (cons_free_nonneg _ _ _ _ HC').
  - apply (cons_regs_nonneg _ _ _ _ HC').
  - apply (cons_free_empty _ _ _ _ HC').
  - apply (cons_empty_free _ _ _ _ HC').
  - intros r w Hr Hl. right.
    destruct (cons_held _ _ _ _ HC' r w Hr Hl) as [[= ->]|]; [|done].
    by apply Hno in Hl.
  - rewrite Hn', Hclear. done.
  - intros k x Hk. by destruct (Hsome k x Hk).
  - intros k x Hk Hb. apply Hkeep; [done|].
    intros [_ Hin]%regs_of_spec; [congruence|done].
Qed.

Lemma furthest_from_state l : ∀ u i s x s',
  furthest_from l u i s = Ok (x, s') → s' = s.
Proof.
  induction l as [|j l IH]; intros u i s x s' Hs; simpl in Hs.
  - by run.
  - apply bind_Ok in Hs as (cur & s0 & Hcur & Hs).
    apply register_values_Ok in Hcur as (_ & _ & ->).
    destruct cur; [|by eapply IH].
    apply bind_Ok in Hs as (n & s1 & Hn & Hs). apply node_Ok in Hn as [-> ->].
    destruct (_ >? _); by eapply IH.
Qed.

Local Abbreviation Inv := (Consistent N [] None).

Lemma FreeSomeRegister_inv : preserves (Keeps Inv) (FreeSomeRegister N).
Proof.
  intros s [] s' Hs HC. unfold FreeSomeRegister in Hs.
  apply bind_Ok in Hs as (i & s0 & Hi & Hs).
  apply furthest_from_state in Hi as ->.
  by destruct (FreeRegister_cons [] [] None _ _ _ (λ j Hj, or_intror Hj) HC Hs).
Qed.

Lemma TryAllocateRegister_inv v : preserves (Keeps Inv) (TryAllocateRegister N D v).
Proof.
  intros s o s' Hs HC. unfold TryAllocateRegister in Hs.
  apply bind_Ok in Hs as (? & s0 & Hg & Hs). apply get_Ok in Hg as [-> ->].
  destruct (Z.eqb_spec (free_registers_ s) kEmptyRegList); [by run|].
  apply bind_Ok in Hs as (r & s1 & Ht & Hs).
  destruct (TakeAny_cons _ _ _ _ _ HC n Ht) as (HC1 & Hr & Hb & Hf & Hv & _).
  apply bind_Ok in Hs as ([] & s2 & Hset & Hs).
  apply ret_Ok in Hs as [_ ->].
  destruct (SetRegister_cons [r] [] None r v s1 s2) as (HC2 & _); try done.
  - intros j ->%list_elem_of_singleton. by left.
  - rewrite Hf, testbit_RemoveFrom, Z.eqb_refl. apply andb_false_r.
Qed.

Lemma AllocateRegister_inv v : preserves (Keeps Inv) (AllocateRegister N D v).
Proof.
  unfold AllocateRegister.
  pose proof FreeSomeRegister_inv. pose proof (TryAllocateRegister_inv v).
  frame.
Qed.

Lemma ForceAllocate_inv r v : preserves (Keeps Inv) (ForceAllocate N D r v).
Proof.
  intros s o s' Hs HC. unfold ForceAllocate in Hs.
  apply bind_Ok in Hs as (cur & s0 & Hcur & Hs).
  apply register_values_Ok in Hcur as (_ & Hcur & ->).
  destruct (MapRegisterToIndex_valid _ _ _ _ (cons_count _ _ _ _ HC)
              (cons_length _ _ _ _ HC) Hcur) as [Hm Hr].
  rewrite Hm in *.
  assert (∀ s1 s2 o', Consistent N [r] None s1 →
            Z.testbit (free_registers_ s1) r = false →
            (s <- get ;;
             DCHECK D (negb (free_registers_ s =? InsertInto r (free_registers_ s))) ;;
             SetRegister N D r v ;; ret (REGISTER r)) s1 = Ok (o', s2) →
            Inv s2) as Hfinish.
  { intros s1 s2 o' HC1 Hb Hf.
    apply bind_Ok in Hf as (? & ? & Hg & Hf). apply get_Ok in Hg as [-> ->].
    apply bind_Ok in Hf as (? & ? & Hd & Hf). apply DCHECK_Ok in Hd as [-> _].
    apply bind_Ok in Hf as ([] & s3 & Hset & Hf).
    apply ret_Ok in Hf as [_ ->].
    destruct (SetRegister_cons [r] [] None r v s1 s3) as (HC2 & _); try done.
    intros j ->%list_elem_of_singleton. by left. }
  case_bool_decide as Hnone.
  - apply bind_Ok in Hs as ([] & s1 & Hmod & Hs). apply modify_Ok in Hmod.
    eapply Hfinish; [| |exact Hs]; rewrite Hmod.
    + by apply RemoveFrom_free_cons.
    + simpl. rewrite testbit_RemoveFrom, Z.eqb_refl. apply andb_false_r.
  - case_bool_decide as Hsame; [by run|].
    destruct cur as [w|]; [|done].
    apply bind_Ok in Hs as ([] & s1 & Hfree & Hs).
    destruct (Free_cons [] None r w s s1) as (HC1 & Hb & _); try done.
    { by rewrite Hm. }
    apply bind_Ok in Hs as (cur' & ? & Hcur' & Hs).
    apply register_values_Ok in Hcur' as (_ & _ & ->).
    apply bind_Ok in Hs as (? & ? & Hd & Hs). apply DCHECK_Ok in Hd as [-> _].
    by eapply Hfinish.
Qed.

Lemma preserves_same_keeps {A} (m : M A) H X :
  preserves SameRegisters m → preserves (Keeps (Consistent N H X)) m.
Proof. intros Hm s a s' Hs HC. eapply Consistent_same; [by eapply Hm|done]. Qed.

Lemma update_node_inv p f :
  (∀ n, registers_with_result (f n) = registers_with_result n) →
  preserves (Keeps Inv) (update_node p f).
Proof. intros. by apply preserves_same_keeps, preserves_update_node_same. Qed.

Lemma input_inv p k : preserves (Keeps Inv) (input p k).
Proof. unfold input. frame. Qed.

Lemma AssignInput_inv p k : preserves (Keeps Inv) (AssignInput N D p k).
Proof.
  unfold AssignInput.
  pose proof ForceAllocate_inv. pose proof AllocateRegister_inv.
  pose proof input_inv. pose proof update_node_inv.
  pose proof (λ a b, preserves_same_keeps _ [] None
                (AddMoveBeforeCurrentNode_same a b)).
  frame.
Qed.

Lemma AssignTemporaries_inv p : preserves (Keeps Inv) (AssignTemporaries N D p).
Proof.
  unfold AssignTemporaries.
  pose proof FreeSomeRegister_inv. pose proof update_node_inv.
  frame.
Qed.

Lemma FreeRegisters_inv v : preserves (Keeps Inv) (FreeRegisters N v).
Proof. intros s [] s' Hs HC. by destruct (FreeRegisters_cons v s s'). Qed.

Lemma UpdateInputUse_inv is_dead u i :
  preserves (Keeps Inv) (UpdateInputUse N is_dead u i).
Proof.
  unfold UpdateInputUse.
  pose proof FreeRegisters_inv. pose proof update_node_inv.
  assert (∀ index, preserves (Keeps Inv)
            (modify (λ s, with_free_slots (index :: free_slots_ s) s))).
  { intros index. apply preserves_same_keeps, preserves_modify_same; done. }
  frame.
Qed.

End Consistency.

(** * Calls: spilling and clearing the register file *)

Lemma for_each_inv {A} (I : list A → State → Prop) (body : A → M unit) :
  (∀ x rest s s', I (x :: rest) s → body x s = Ok (tt, s') → I rest s') →
  ∀ l s s', I l s → for_each l body s = Ok (tt, s') → I [] s'.
Proof.
  intros Hstep l. induction l as [|x l IH]; intros s s' HI Hs; simpl in Hs.
  - by run.
  - apply bind_Ok in Hs as ([] & s1 & Hx & Hs). eauto.
Qed.

Lemma elem_of_indices N k : Z.of_nat k ∈ indices N ↔ (k < N)%nat.
Proof.
  unfold indices. rewrite list_elem_of_fmap. split.
  - intros (j & Hj & Hin). apply elem_of_seq in Hin. lia.
  - intros Hk. exists k. split; [done|]. apply elem_of_seq. lia.
Qed.

Lemma indices_nonneg N i : i ∈ indices N → 0 <= i.
Proof. unfold indices. intros (j & -> & _)%list_elem_of_fmap. lia. Qed.

Section Calls.
Variables (N : nat) (D : bool).
Local Abbreviation Inv := (Consistent N [] None).

Lemma Spill_spilled v s s' :
  Spill D v s = Ok (tt, s') → is_spilled (node_at s' v) = true.
Proof.
  intros Hs. unfold Spill in Hs.
  apply bind_Ok in Hs as (n & s0 & Hn & Hs). apply node_Ok in Hn as [-> ->].
  destruct (is_spilled (node_at s v)) eqn:E; [by run|].
  unfold AllocateSpillSlot in Hs. runs; norm; by rewrite decide_True.
Qed.

Lemma spilled_stays s s' v :
  LowStep s s' → is_spilled (node_at s v) = true →
  is_spilled (node_at s' v) = true.
Proof.
  intros [_ _ Hsp _] Hv. unfold is_spilled in *. by rewrite Hsp.
Qed.

Lemma Exact_same s s' : SameRegisters s s' → Exact s → Exact s'.
Proof.
  intros [Hv _ Hs] HE r v Hr Hb. rewrite Hv. apply HE; [done|].
  by rewrite <- Hs.
Qed.

Lemma FreeRegisters_exact v s s' :
  Inv s → Exact s → FreeRegisters N v s = Ok (tt, s') → Exact s'.
Proof.
  intros HC HE Hs.
  destruct (FreeRegisters_cons N v s s' HC Hs)
    as (HC' & Hn & Hno & Hnone & Hsome & Hkeep).
  intros r w Hr Hb. unfold node_at in Hb. rewrite Hn in Hb.
  destruct (decide (v = w)) as [<-|Hne].
  - rewrite lookup_total_insert_eq in Hb. simpl in Hb.
    by rewrite Z.testbit_0_l in Hb.
  - rewrite lookup_total_insert_ne in Hb by done.
    apply Hkeep; [by apply HE|].
    destruct (Z.testbit (registers_with_result (node_at s v))
                (Z.of_nat (Z.to_nat r))) eqn:E; [|done].
    rewrite Z2Nat.id in E by done.
    apply HE in E; [|done]. apply HE in Hb; [|done]. congruence.
Qed.

(** The loop of [SpillAndClearRegisters]: once index [i] has been visited,
    entry [i] is empty, and stays so. *)
Lemma SpillAndClearRegisters_spec s s' :
  Inv s →
  SpillAndClearRegisters N D s = Ok (tt, s') →
  Inv s' ∧ AllFree N s' ∧
  (Exact s → ∀ k v, register_values_ s !! k = Some (Some v) →
     is_spilled (node_at s' v) = true).
Proof.
  intros HC Hs. unfold SpillAndClearRegisters in Hs.
  set (I := λ (rest : list Z) (t : State),
    Inv t ∧
    (∀ k, (k < N)%nat → Z.of_nat k ∉ rest →
          register_values_ t !! k = Some None) ∧
    (Exact s → Exact t ∧
       ∀ k v, register_values_ s !! k = Some (Some v) →
         (Z.of_nat k ∈ rest ∧ register_values_ t !! k = Some (Some v)) ∨
         is_spilled (node_at t v) = true)).
  eapply (for_each_inv I) in Hs.
  - destruct Hs as (HC' & Hnone & Hsp). split; [done|]. split.
    + intros k Hk.
      pose proof (Hnone k Hk (not_elem_of_nil _)) as Hl. split; [done|].
      destruct (cons_empty_free _ _ _ _ HC' (Z.of_nat k)) as [|[]%elem_of_nil];
        [lia|by rewrite Nat2Z.id|done].
    + intros HE k v Hk. destruct (Hsp HE) as [_ Hall].
      destruct (Hall k v Hk) as [[[]%elem_of_nil _]|]; done.
  - clear Hs s'. intros i rest t t' (HCt & Hnone & Hsp) Hbody.
    apply bind_Ok in Hbody as (cur & t0 & Hcur & Hbody).
    apply register_values_Ok in Hcur as (Hi & Hcur & ->).
    destruct cur as [v|].
    + apply bind_Ok in Hbody as ([] & t1 & Hspill & Hfree).
      pose proof (Spill_same _ _ _ _ _ Hspill) as Hsame.
      pose proof (Spill_low _ _ _ _ _ Hspill) as Hlow1.
      pose proof (FreeRegisters_low _ _ _ _ _ Hfree) as Hlow2.
      pose proof (Spill_spilled _ _ _ Hspill) as Hv1.
      pose proof (Consistent_same _ _ _ _ _ Hsame HCt) as HC1.
      destruct (FreeRegisters_cons N v t1 t' HC1 Hfree)
        as (HC' & Hn & Hno & Hkeepnone & Hsome & Hkeep).
      pose proof Hsame as [Hrv _ Hsets]. rewrite Hrv in *.
      split; [done|]. split.
      * intros k Hk Hnin.
        destruct (decide (Z.of_nat k = i)) as [<-|Hne].
        -- rewrite Nat2Z.id in Hcur.
           destruct (lookup_lt_is_Some_2 (register_values_ t') k)
             as [[x|] Hx]; [by rewrite (cons_length _ _ _ _ HC')| |done].
           pose proof (Hsome k x Hx) as Hx'.
           assert (x = v) as -> by congruence. by apply Hno in Hx.
        -- apply Hkeepnone, Hnone; [done|].
           intros [?|?]%elem_of_cons; done.
      * intros HE. destruct (Hsp HE) as [HEt Hall].
        assert (Exact t1) as HE1 by (by eapply Exact_same).
        split; [exact (FreeRegisters_exact v t1 t' HC1 HE1 Hfree)|].
        intros k w Hk. destruct (Hall k w Hk) as [[Hin Hl]|Hw].
        -- destruct (decide (w = v)) as [->|Hne].
           ++ right. by eapply spilled_stays.
           ++ left. apply elem_of_cons in Hin as [<-|Hin].
              { rewrite Nat2Z.id in Hcur. congruence. }
              split; [done|]. apply Hkeep; [done|].
              destruct (Z.testbit (registers_with_result (node_at t1 v))
                          (Z.of_nat k)) eqn:E; [|done].
              apply HE1 in E; [|lia]. rewrite Nat2Z.id, Hrv in E. congruence.
        -- right. eapply spilled_stays; [|done]. by etrans.
    + run. split; [done|]. split.
      * intros k Hk Hnin.
        destruct (decide (Z.of_nat k = i)) as [<-|Hne].
        -- by rewrite Nat2Z.id in Hcur.
        -- apply Hnone; [done|]. intros [?|?]%elem_of_cons; done.
      * intros HE. destruct (Hsp HE) as [HEt Hall]. split; [done|].
        intros k w Hk. destruct (Hall k w Hk) as [[Hin Hl]|Hw]; [|by right].
        left. split; [|done]. apply elem_of_cons in Hin as [<-|Hin]; [|done].
        rewrite Nat2Z.id in Hcur. congruence.
  - split; [done|]. split.
    + intros k Hk Hnin. by apply elem_of_indices in Hk.
    + intros HE. split; [done|]. intros k v Hk. left. split; [|done].
      apply elem_of_indices. apply lookup_lt_Some in Hk.
      by rewrite (cons_length _ _ _ _ HC) in Hk.
Qed.

(** The loop of [SpillAndClearRegisters] spills the holder of a register
    before it frees the registers of that holder's set: the holder of a
    register that no other holder has in its set is reached while it still
    holds the register, and is spilled. *)
Lemma SpillAndClearRegisters_spills s s' :
  Inv s →
  SpillAndClearRegisters N D s = Ok (tt, s') →
  ∀ k v, register_values_ s !! k = Some (Some v) → unshared s k v →
    is_spilled (node_at s' v) = true.
Proof.
  intros HC Hs. unfold SpillAndClearRegisters in Hs.
  set (I := λ (rest : list Z) (t : State),
    Inv t ∧
    (∀ x, registers_with_result (node_at t x) =
            registers_with_result (node_at s x) ∨
          registers_with_result (node_at t x) = 0) ∧
    (∀ k x, register_values_ t !! k = Some (Some x) →
            register_values_ s !! k = Some (Some x)) ∧
    (∀ k v, register_values_ s !! k = Some (Some v) → unshared s k v →
       (Z.of_nat k ∈ rest ∧ register_values_ t !! k = Some (Some v)) ∨
       is_spilled (node_at t v) = true)).
  eapply (for_each_inv I) in Hs.
  - destruct Hs as (_ & _ & _ & Hall). intros k v Hk Hun.
    destruct (Hall k v Hk Hun) as [[[]%elem_of_nil _]|]; done.
  - clear Hs s'. intros i rest t t' (HCt & Hsets & Hheld & Hall) Hbody.
    apply bind_Ok in Hbody as (cur & t0 & Hcur & Hbody).
    apply register_values_Ok in Hcur as (Hi & Hcur & ->).
    destruct cur as [v|].
    + apply bind_Ok in Hbody as ([] & t1 & Hspill & Hfree).
      pose proof (Spill_same _ _ _ _ _ Hspill) as Hsame.
      pose proof (Spill_low _ _ _ _ _ Hspill) as Hlow1.
      pose proof (FreeRegisters_low _ _ _ _ _ Hfree) as Hlow2.
      pose proof (Spill_spilled _ _ _ Hspill) as Hv1.
      pose proof (Consistent_same _ _ _ _ _ Hsame HCt) as HC1.
      destruct (FreeRegisters_cons N v t1 t' HC1 Hfree)
        as (HC' & Hn & Hno & Hkeepnone & Hsome & Hkeep).
      pose proof Hsame as [Hrv _ Hregs]. rewrite Hrv in *.
      split; [done|]. split; [|split].
      * intros x. unfold node_at at 1 3. rewrite Hn.
        destruct (decide (v = x)) as [<-|Hne].
        -- right. by rewrite lookup_total_insert_eq.
        -- rewrite lookup_total_insert_ne by done.
           fold (node_at t1 x). rewrite Hregs. apply Hsets.
      * intros k x Hk. by apply Hheld, Hsome.
      * intros k w Hk Hun. destruct (Hall k w Hk Hun) as [[Hin Hl]|Hw].
        -- destruct (decide (w = v)) as [->|Hne].
           ++ right. by eapply spilled_stays.
           ++ left. apply elem_of_cons in Hin as [<-|Hin].
              { rewrite Nat2Z.id in Hcur. congruence. }
              split; [done|]. apply Hkeep; [done|]. rewrite Hregs.
              destruct (Hsets v) as [->| ->]; [|apply Z.testbit_0_l].
              apply (Hun (Z.to_nat i) v); [by apply Hheld|done].
        -- right. eapply spilled_stays; [|done]. by etrans.
    + run. split; [done|]. split; [done|]. split; [done|].
      intros k w Hk Hun. destruct (Hall k w Hk Hun) as [[Hin Hl]|Hw]; [|by right].
      left. split; [|done]. apply elem_of_cons in Hin as [<-|Hin]; [|done].
      rewrite Nat2Z.id in Hcur. congruence.
  - split; [done|]. split; [by left|]. split; [done|].
    intros k v Hk Hun. left. split; [|done].
    apply elem_of_indices. apply lookup_lt_Some in Hk.
    by rewrite (cons_length _ _ _ _ HC) in Hk.
Qed.

(** After the call, only the node's own result can occupy a register. *)
Lemma preserves_values_only {A} (m : M A) p :
  (∀ s a s', m s = Ok (a, s') → register_values_ s' = register_values_ s) →
  preserves (Keeps (OnlyHolder p)) m.
Proof. intros Hm s a s' Hs HO k v. rewrite (Hm _ _ _ Hs). apply HO. Qed.

Lemma update_node_only p q f : preserves (Keeps (OnlyHolder p)) (update_node q f).
Proof. apply preserves_values_only. intros s a s' Hs. by run. Qed.

Lemma modify_free_only p f :
  preserves (Keeps (OnlyHolder p))
    (modify (λ s, with_free_registers (f s) s)).
Proof. apply preserves_values_only. intros s a s' Hs. by run. Qed.

Lemma set_register_values_only p i x :
  x = None ∨ x = Some p →
  preserves (Keeps (OnlyHolder p)) (set_register_values i x).
Proof.
  intros Hx s a s' Hs HO k v Hk. run. simpl in Hk.
  destruct (decide (k = Z.to_nat i)) as [->|].
  - rewrite list_lookup_insert_eq in Hk by done.
    destruct Hx; congruence.
  - rewrite list_lookup_insert_ne in Hk by done. by eapply HO.
Qed.

Lemma same_only {A} (m : M A) p :
  preserves SameRegisters m → preserves (Keeps (OnlyHolder p)) m.
Proof.
  intros Hm. apply preserves_values_only. intros s a s' Hs.
  by destruct (Hm _ _ _ Hs).
Qed.

Lemma FreeRegister_only p i : preserves (Keeps (OnlyHolder p)) (FreeRegister N i).
Proof.
  unfold FreeRegister.
  pose proof (set_register_values_only p i None (or_introl eq_refl)).
  pose proof (modify_free_only p). frame.
Qed.

Lemma FreeRegisters_only p v : preserves (Keeps (OnlyHolder p)) (FreeRegisters N v).
Proof.
  unfold FreeRegisters.
  pose proof (FreeRegister_only p). pose proof (update_node_only p). frame.
Qed.

Lemma FreeSomeRegister_only p : preserves (Keeps (OnlyHolder p)) (FreeSomeRegister N).
Proof.
  intros s [] s' Hs. unfold FreeSomeRegister in Hs.
  apply bind_Ok in Hs as (i & s0 & Hi & Hs).
  apply furthest_from_state in Hi as ->. by eapply FreeRegister_only.
Qed.

Lemma SetRegister_only p r : preserves (Keeps (OnlyHolder p)) (SetRegister N D r p).
Proof.
  unfold SetRegister.
  pose proof (λ i, set_register_values_only p i (Some p) (or_intror eq_refl)).
  pose proof (update_node_only p). frame.
Qed.

Lemma TakeAny_only p : preserves (Keeps (OnlyHolder p)) TakeAny.
Proof. apply preserves_values_only. unfold TakeAny. intros s a s' Hs. by run. Qed.

Lemma TryAllocateRegister_only p :
  preserves (Keeps (OnlyHolder p)) (TryAllocateRegister N D p).
Proof.
  unfold TryAllocateRegister.
  pose proof (TakeAny_only p). pose proof (SetRegister_only p). frame.
Qed.

Lemma AllocateRegister_only p :
  preserves (Keeps (OnlyHolder p)) (AllocateRegister N D p).
Proof.
  unfold AllocateRegister.
  pose proof (FreeSomeRegister_only p). pose proof (TryAllocateRegister_only p).
  frame.
Qed.

Lemma ForceAllocate_only p r :
  preserves (Keeps (OnlyHolder p)) (ForceAllocate N D r p).
Proof.
  intros s o s' Hs HO. unfold ForceAllocate in Hs.
  apply bind_Ok in Hs as (cur & s0 & Hcur & Hs).
  apply register_values_Ok in Hcur as (_ & Hcur & ->).
  pose proof (SetRegister_only p r) as Hset.
  pose proof (modify_free_only p) as Hmod.
  case_bool_decide.
  - match type of Hs with ?m _ = _ =>
      assert (preserves (Keeps (OnlyHolder p)) m) as Hp by frame end.
    exact (Hp s o s' Hs HO).
  - case_bool_decide; [by run|]. destruct cur as [w|]; [|done].
    apply HO in Hcur. congruence.
Qed.

Section Liveness.
Variables (is_dead has_valid_live_range : Node → bool).

Lemma AllocateNodeResult_only p :
  preserves (Keeps (OnlyHolder p))
    (AllocateNodeResult N D is_dead has_valid_live_range p).
Proof.
  unfold AllocateNodeResult.
  pose proof (update_node_only p). pose proof (ForceAllocate_only p).
  pose proof (AllocateRegister_only p). pose proof (FreeRegisters_only p).
  assert (∀ q k, preserves (Keeps (OnlyHolder p)) (input q k)).
  { intros. unfold input. frame. }
  assert (∀ i, preserves (Keeps (OnlyHolder p)) (AssignedRegister D i)).
  { intros. unfold AssignedRegister. frame. }
  frame.
Qed.

Lemma AllocateNode_inputs_inv p :
  preserves (Keeps Inv) (AllocateNode_inputs N D is_dead p).
Proof.
  unfold AllocateNode_inputs.
  pose proof (AssignInput_inv N D). pose proof (AssignTemporaries_inv N D).
  pose proof (UpdateInputUse_inv N is_dead).
  frame.
Qed.

Lemma AllocateNode_inputs_step p :
  preserves Step (AllocateNode_inputs N D is_dead p).
Proof.
  unfold AllocateNode_inputs.
  pose proof (AssignInput_step N D). pose proof (AssignTemporaries_step N D).
  pose proof (UpdateInputUse_step N is_dead).
  frame.
Qed.

Lemma AllocateNode_phases p s :
  AllocateNode N D is_dead has_valid_live_range p s =
  (AllocateNode_inputs N D is_dead p ;;
   n <- node p ;;
   when (is_call n) (SpillAndClearRegisters N D) ;;
   n <- node p ;;
   when (can_deopt n) (SpillRegisters N D) ;;
   n <- node p ;;
   when (IsValueNode n) (AllocateNodeResult N D is_dead has_valid_live_range p))
  s.
Proof.
  unfold AllocateNode, AllocateNode_inputs, bind. simpl.
  repeat match goal with
         | |- context [match ?x with _ => _ end] =>
             match x with
             | for_each _ _ _ => destruct x as [[[] ?]| |] eqn:?
             | AssignTemporaries _ _ _ _ => destruct x as [[[] ?]| |] eqn:?
             end
         end; try done.
Qed.

Lemma AllFree_only p s : AllFree N s → length (register_values_ s) = N → OnlyHolder p s.
Proof.
  intros HA Hlen k v Hk. pose proof Hk as Hlt%lookup_lt_Some.
  rewrite Hlen in Hlt. destruct (HA k Hlt). congruence.
Qed.

Lemma AllFree_same s s' : SameRegisters s s' → AllFree N s → AllFree N s'.
Proof. intros [Hv Hf _] HA k Hk. rewrite Hv, Hf. by apply HA. Qed.

Lemma static_is_call n n' : static n = static n' → is_call n = is_call n'.
Proof. unfold static. by intros [= _ _ _ ? _ _ _]. Qed.
Lemma static_can_deopt n n' : static n = static n' → can_deopt n = can_deopt n'.
Proof. unfold static. by intros [= _ _ _ _ ? _ _]. Qed.
Lemma static_IsValueNode n n' :
  static n = static n' → IsValueNode n = IsValueNode n'.
Proof. unfold static, IsValueNode. by intros [= _ -> _ _ _ _ _]. Qed.

(** C6 (amended).  The allocation step of a call node, started in a
    consistent state: once the inputs are assigned and used,
    [SpillAndClearRegisters] runs and leaves every register empty and in
    the free set; every value that held a register which no other holder
    had in its register set is spilled, and so is every holder when the
    register sets were exact.  After the whole step a register can only
    hold the call node itself (its result), and none is occupied when the
    node produces no value. *)
Theorem call_clears_registers p s s' :
  Consistent N [] None s →
  is_call (node_at s p) = true →
  AllocateNode N D is_dead has_valid_live_range p s = Ok (tt, s') →
  ∃ s1 s2,
    AllocateNode_inputs N D is_dead p s = Ok (tt, s1) ∧
    SpillAndClearRegisters N D s1 = Ok (tt, s2) ∧
    AllFree N s2 ∧
    (∀ k v, register_values_ s1 !! k = Some (Some v) → unshared s1 k v →
       is_spilled (node_at s2 v) = true) ∧
    (Exact s1 → ∀ k v, register_values_ s1 !! k = Some (Some v) →
       is_spilled (node_at s2 v) = true) ∧
    OnlyHolder p s' ∧
    (IsValueNode (node_at s p) = false → AllFree N s').
Proof.
  intros HC Hcall Hs. rewrite AllocateNode_phases in Hs.
  apply bind_Ok in Hs as ([] & s1 & Hin & Hs).
  pose proof (AllocateNode_inputs_inv p _ _ _ Hin HC) as HC1.
  pose proof (AllocateNode_inputs_step p _ _ _ Hin) as Hstep1.
  apply bind_Ok in Hs as (n & ? & Hn & Hs). apply node_Ok in Hn as [-> ->].
  rewrite (static_is_call _ _ (step_static _ _ Hstep1 p)), Hcall in Hs.
  apply bind_Ok in Hs as ([] & s2 & Hclear & Hs). simpl in Hclear.
  destruct (SpillAndClearRegisters_spec _ _ HC1 Hclear) as (HC2 & Hfree & Hsp).
  pose proof (SpillAndClearRegisters_low _ _ _ _ _ Hclear) as Hstep2.
  exists s1, s2. split; [done|]. split; [done|]. split; [done|].
  split; [exact (SpillAndClearRegisters_spills _ _ HC1 Hclear)|].
  split; [done|].
  apply bind_Ok in Hs as (n & ? & Hn & Hs). apply node_Ok in Hn as [-> ->].
  apply bind_Ok in Hs as ([] & s3 & Hdeopt & Hs).
  assert (SameRegisters s2 s3) as Hsame.
  { destruct (can_deopt (node_at s2 p)); simpl in Hdeopt.
    - by eapply SpillRegisters_same.
    - by run. }
  assert (Step s2 s3) as Hstep3.
  { destruct (can_deopt (node_at s2 p)); simpl in Hdeopt.
    - by eapply LowStep_Step, SpillRegisters_low.
    - by run. }
  apply bind_Ok in Hs as (n & ? & Hn & Hs). apply node_Ok in Hn as [-> ->].
  assert (AllFree N s3) as Hfree3 by (by eapply AllFree_same).
  assert (OnlyHolder p s3) as Hon3.
  { apply AllFree_only; [done|]. destruct Hsame as [-> _ _].
    apply (cons_length _ _ _ _ HC2). }
  assert (IsValueNode (node_at s3 p) = IsValueNode (node_at s p)) as Hval.
  { apply static_IsValueNode.
    rewrite (step_static _ _ Hstep3), (step_static _ _ (LowStep_Step _ _ Hstep2)).
    apply (step_static _ _ Hstep1). }
  rewrite Hval in Hs. destruct (IsValueNode (node_at s p)); simpl in Hs.
  - split; [|done]. by eapply AllocateNodeResult_only.
  - run. done.
Qed.

End Liveness.
End Calls.

(** * Deopt spills, spill slots, dead inputs *)

Global Instance SpillsStay_preorder E : PreOrder (SpillsStay E).
Proof.
  split.
  - by intros s q.
  - intros s1 s2 s3 H12 H23 q Hq Hsp.
    rewrite H23, H12; try done. unfold is_spilled. by rewrite H12.
Qed.

Global Instance SlotsTaken_preorder : PreOrder SlotsTaken.
Proof.
  split; unfold SlotsTaken.
  - by intros s.
  - intros s1 s2 s3 ??. by etrans.
Qed.

Lemma preserves_low_stay {A} (m : M A) E :
  preserves LowStep m → preserves (SpillsStay E) m.
Proof. intros Hm s a s' Hs q _ Hq. by apply (Hm _ _ _ Hs). Qed.

Lemma preserves_low_taken {A} (m : M A) :
  preserves LowStep m → preserves SlotsTaken m.
Proof. intros Hm s a s' Hs. by apply (Hm _ _ _ Hs). Qed.

Lemma update_node_stay_exempt (E : ptr → Prop) q f :
  E q → preserves (SpillsStay E) (update_node q f).
Proof.
  intros Hq s a s' Hs x Hx Hsp. run. norm.
  destruct (decide (q = x)) as [->|]; done.
Qed.

Lemma update_node_stay_keep E q f :
  (∀ n, spill_or_hint (f n) = spill_or_hint n) →
  preserves (SpillsStay E) (update_node q f).
Proof.
  intros Hf s a s' Hs x Hx Hsp. run. norm.
  destruct (decide (q = x)) as [->|]; [apply Hf|done].
Qed.

Lemma modify_stay E f :
  (∀ s, nodes_ (f s) = nodes_ s) → preserves (SpillsStay E) (modify f).
Proof.
  intros Hf s a s' Hs x Hx Hsp. run. unfold node_at. by rewrite Hf.
Qed.

Lemma update_node_taken q f : preserves SlotsTaken (update_node q f).
Proof. intros s a s' Hs. run. by unfold SlotsTaken. Qed.

Lemma modify_taken f :
  (∀ s, free_slots_ (f s) `suffix_of` free_slots_ s) →
  preserves SlotsTaken (modify f).
Proof. intros Hf s a s' Hs. run. apply Hf. Qed.

Global Hint Resolve update_node_stay_exempt update_node_stay_keep
  update_node_taken : frame.

Section Spills.
Variables (N : nat) (D : bool).

Lemma Spill_total v s : ∃ s', Spill D v s = Ok (tt, s').
Proof.
  unfold Spill, AllocateSpillSlot, bind, node, DCHECK, get, modify, ret,
    update_node.
  destruct (is_spilled (node_at s v)) eqn:E; simpl; [by eexists|].
  rewrite E. destruct D; simpl; destruct (free_slots_ s); simpl; by eexists.
Qed.

Lemma SpillRegisters_loop l : ∀ s,
  (∀ i, i ∈ l → 0 <= i ∧ (Z.to_nat i < length (register_values_ s))%nat) →
  ∃ s',
    for_each l (λ i, cur <- register_values i ;;
                     match cur with
                     | None => ret tt
                     | Some v => Spill D v
                     end) s = Ok (tt, s') ∧
    ∀ i v, i ∈ l → register_values_ s !! Z.to_nat i = Some (Some v) →
      is_spilled (node_at s' v) = true.
Proof.
  induction l as [|i l IH]; intros s Hl; simpl.
  - eexists. split; [done|]. by intros ?? ?%elem_of_nil.
  - destruct (Hl i) as [Hi Hlt]; [by left|].
    destruct (lookup_lt_is_Some_2 _ _ Hlt) as [cur Hcur].
    assert (register_values i s = Ok (cur, s)) as Hread.
    { apply register_values_Ok. done. }
    unfold bind at 1. unfold bind at 1. rewrite Hread.
    assert (∃ s1, match cur with Some v => Spill D v | None => ret tt end s
                  = Ok (tt, s1)) as [s1 Hs1].
    { destruct cur; [apply Spill_total | by eexists]. }
    rewrite Hs1.
    assert (SameRegisters s s1 ∧ LowStep s s1) as [Hsame Hlow].
    { destruct cur.
      - split; [by eapply Spill_same | by eapply Spill_low].
      - run. done. }
    destruct (IH s1) as (s' & Hs' & Hsp).
    { intros j Hj. rewrite (same_values _ _ Hsame). apply Hl. by right. }
    exists s'. split; [done|].
    assert (LowStep s1 s') as Hlow'.
    { match type of Hs' with ?m _ = _ =>
        assert (preserves LowStep m) as Hp
          by (pose proof (Spill_low D); frame) end.
      by eapply Hp. }
    intros j v [->|Hj]%elem_of_cons Hv.
    + eapply spilled_stays; [exact Hlow'|].
      assert (cur = Some v) as -> by congruence. by eapply Spill_spilled.
    + apply (Hsp j v Hj). by rewrite (same_values _ _ Hsame).
Qed.

(** C7.  The deopt spill step [SpillRegisters] always runs to its end; it
    leaves the register file and the free set as they were, and every
    holder of a register is spilled afterwards. *)
Theorem SpillRegisters_keeps_registers s :
  length (register_values_ s) = N →
  ∃ s', SpillRegisters N D s = Ok (tt, s') ∧
    register_values_ s' = register_values_ s ∧
    free_registers_ s' = free_registers_ s ∧
    ∀ k v, register_values_ s !! k = Some (Some v) →
      is_spilled (node_at s' v) = true.
Proof.
  intros Hlen. destruct (SpillRegisters_loop (indices N) s) as (s' & Hs & Hsp).
  { intros i Hi. pose proof (indices_nonneg _ _ Hi). split; [done|].
    rewrite <- (Z2Nat.id i) in Hi by done. apply elem_of_indices in Hi. lia. }
  exists s'. split; [done|].
  destruct (SpillRegisters_same N D _ _ _ Hs) as [Hv Hf _].
  repeat split; try done.
  intros k v Hk. apply (Hsp (Z.of_nat k)).
  - apply elem_of_indices. apply lookup_lt_Some in Hk. lia.
  - by rewrite Nat2Z.id.
Qed.

(** C10.  [UpdateInputUse] on an input whose producer is already dead
    returns at once: the whole allocator state is as it was. *)
Theorem UpdateInputUse_dead is_dead use i s :
  is_dead (node_at s (input_node i)) = true →
  UpdateInputUse N is_dead use i s = Ok (tt, s).
Proof.
  intros Hdead. unfold UpdateInputUse, bind, node. by rewrite Hdead.
Qed.

(** ** Spill slots *)

Lemma AllocateSpillSlot_spec v s :
  is_spilled (node_at s v) = false →
  ∃ s', AllocateSpillSlot D v s = Ok (tt, s') ∧
    match free_slots_ s with
    | [] =>
        top_of_stack_ s' = top_of_stack_ s + 1 ∧ free_slots_ s' = [] ∧
        spill_or_hint (node_at s' v) = STACK_SLOT (top_of_stack_ s)
    | back :: rest =>
        top_of_stack_ s' = top_of_stack_ s ∧ free_slots_ s' = rest ∧
        spill_or_hint (node_at s' v) = STACK_SLOT back
    end.
Proof.
  intros Hv.
  unfold AllocateSpillSlot, bind, node, DCHECK, get, modify, ret, update_node.
  rewrite Hv. destruct D; simpl; destruct (free_slots_ s) eqn:E; simpl;
    eexists; (split; [done|]); simpl; norm; rewrite ?E;
    by rewrite decide_True.
Qed.

Lemma Spill_spilled_noop v s :
  is_spilled (node_at s v) = true → Spill D v s = Ok (tt, s).
Proof. intros Hv. unfold Spill, bind, node. by rewrite Hv. Qed.

Lemma AllocateSpillSlot_step v : preserves Step (AllocateSpillSlot D v).
Proof.
  unfold AllocateSpillSlot. intros s a s' Hs. runs.
  - trans (with_top_of_stack (top_of_stack_ s + 1) s);
      [apply LowStep_Step, with_top_of_stack_low; lia|].
    by apply update_node_step.
  - trans (with_free_slots l s);
      [apply LowStep_Step, with_free_slots_low; rewrite Heql;
       by apply suffix_cons_r|].
    by apply update_node_step.
Qed.

Lemma AllocateSpillSlot_taken v : preserves SlotsTaken (AllocateSpillSlot D v).
Proof.
  unfold AllocateSpillSlot.
  assert (∀ t, preserves SlotsTaken (modify (with_top_of_stack t))).
  { intros. by apply modify_taken. }
  intros s a s' Hs. runs; unfold SlotsTaken; simpl.
  - done.
  - rewrite Heql. by apply suffix_cons_r.
Qed.

Lemma AllocateSpillSlot_stay (E : ptr → Prop) v :
  E v → preserves (SpillsStay E) (AllocateSpillSlot D v).
Proof.
  intros Hv. unfold AllocateSpillSlot.
  assert (∀ t, preserves (SpillsStay E) (modify (with_top_of_stack t))).
  { intros. by apply modify_stay. }
  assert (∀ t, preserves (SpillsStay E) (modify (with_free_slots t))).
  { intros. by apply modify_stay. }
  frame.
Qed.

Section Liveness.
Variables (is_dead has_valid_live_range : Node → bool).

Lemma AllocateNode_stay p :
  preserves (SpillsStay (eq p))
    (AllocateNode N D is_dead has_valid_live_range p).
Proof.
  unfold AllocateNode, AllocateNodeResult, UpdateInputUse, AssignTemporaries,
    AssignInput, AssignedRegister, input.
  pose proof (λ r v, preserves_low_stay _ (eq p) (ForceAllocate_low N D r v)).
  pose proof (λ v, preserves_low_stay _ (eq p) (AllocateRegister_low N D v)).
  pose proof (preserves_low_stay _ (eq p) (FreeSomeRegister_low N)).
  pose proof (λ v, preserves_low_stay _ (eq p) (FreeRegisters_low N v)).
  pose proof (preserves_low_stay _ (eq p) (SpillRegisters_low N D)).
  pose proof (preserves_low_stay _ (eq p) (SpillAndClearRegisters_low N D)).
  pose proof (λ a b, preserves_low_stay _ (eq p)
                       (AddMoveBeforeCurrentNode_low a b)).
  assert (∀ f, preserves (SpillsStay (eq p))
                 (modify (λ s, with_free_slots (f s) s))).
  { intros. by apply modify_stay. }
  frame.
Qed.

Lemma UpdateInputUse_slots use i s s' :
  UpdateInputUse N is_dead use i s = Ok (tt, s') →
  free_slots_ s' `suffix_of` free_slots_ s ∨
  ∃ index rest,
    free_slots_ s' = index :: rest ∧ rest `suffix_of` free_slots_ s ∧
    0 < index ∧
    spill_or_hint (node_at s (input_node i)) = STACK_SLOT index ∧
    is_dead (node_at s (input_node i)) = false ∧
    is_dead (set_next_use (next_use_id i) (node_at s (input_node i))) = true.
Proof.
  intros Hs. unfold UpdateInputUse in Hs.
  apply bind_Ok in Hs as (n & ? & Hn & Hs). apply node_Ok in Hn as [-> ->].
  destruct (is_dead (node_at s (input_node i))) eqn:Hdead; [left; by run|].
  apply bind_Ok in Hs as ([] & s1 & Hup & Hs). apply update_node_Ok in Hup.
  apply bind_Ok in Hs as (n & ? & Hn & Hs). apply node_Ok in Hn as [-> ->].
  assert (node_at s1 (input_node i) =
          set_next_use (next_use_id i) (node_at s (input_node i))) as Hn1.
  { rewrite Hup. norm. by rewrite decide_True. }
  rewrite Hn1 in Hs.
  destruct (is_dead (set_next_use _ _)) eqn:Hdead'; [|left; run; done].
  apply bind_Ok in Hs as ([] & s2 & Hfree & Hs).
  pose proof (FreeRegisters_low _ _ _ _ _ Hfree) as Hlow.
  apply bind_Ok in Hs as (n & ? & Hn & Hs). apply node_Ok in Hn as [-> ->].
  assert (free_slots_ s2 `suffix_of` free_slots_ s) as Hsuf.
  { pose proof (low_slots _ _ Hlow) as Hsl. by rewrite Hup in Hsl. }
  destruct (spill_or_hint (node_at s2 (input_node i))) eqn:Hslot;
    try (left; run; done).
  destruct (Z.gtb_spec index 0); simpl in Hs; [|left; run; done].
  apply modify_Ok in Hs. right. exists index, (free_slots_ s2).
  rewrite Hs. simpl. split; [done|]. split; [done|]. split; [lia|].
  split; [|done]. clear Hs.
  unfold FreeRegisters in Hfree.
  apply bind_Ok in Hfree as (n & ? & Hn & Hfree). apply node_Ok in Hn as [-> ->].
  apply bind_Ok in Hfree as ([] & s3 & Hclear & Hfree).
  apply update_node_Ok in Hclear.
  assert (nodes_ s2 = nodes_ s3) as Hnodes.
  { match type of Hfree with ?m _ = _ =>
      assert (preserves (λ a b, nodes_ b = nodes_ a) m) as Hp end.
    { assert (PreOrder (λ a b : State, nodes_ b = nodes_ a)).
      { split; [by intros ?|intros ??? ??; congruence]. }
      apply preserves_for_each; [done|]. intros r _.
      unfold FreeRegister. intros ? ? ? Hr. by run. }
    by eapply Hp. }
  unfold node_at in Hslot. rewrite Hnodes, Hclear in Hslot.
  change (nodes_ (with_nodes ?m _)) with m in Hslot.
  rewrite lookup_total_insert_eq in Hslot. simpl in Hslot.
  by rewrite Hn1 in Hslot.
Qed.

End Liveness.

End Spills.

(** * Phi placement *)

Global Instance ResultsStay_preorder : PreOrder ResultsStay.
Proof.
  split; unfold ResultsStay.
  - by intros s.
  - intros s1 s2 s3 H12 H23 q Hq. auto.
Qed.

Lemma preserves_low_results {A} (m : M A) :
  preserves LowStep m → preserves ResultsStay m.
Proof.
  intros Hm s a s' Hs q Hq. by rewrite (low_result _ _ (Hm _ _ _ Hs)).
Qed.

Lemma update_node_results q f :
  (∀ n, result (f n) = result n) → preserves ResultsStay (update_node q f).
Proof.
  intros Hf s a s' Hs x Hx. run. norm.
  destruct (decide (q = x)) as [->|]; [by rewrite Hf|done].
Qed.

Lemma SetAllocated_results q o :
  IsAllocated o = true → preserves ResultsStay (update_node q (SetAllocated o)).
Proof.
  intros Ho s a s' Hs x Hx. run. norm.
  destruct (decide (q = x)) as [->|]; done.
Qed.

Lemma SetAllocated_result q o s a s' :
  update_node q (SetAllocated o) s = Ok (a, s') → result (node_at s' q) = o.
Proof. intros Hs. run. norm. by rewrite decide_True. Qed.

Lemma for_each_all {A} (R : relation State) `{!PreOrder R}
    (Q : A → State → Prop) (body : A → M unit) :
  (∀ x s s', body x s = Ok (tt, s') → R s s' ∧ Q x s') →
  (∀ x s s', R s s' → Q x s → Q x s') →
  ∀ l s s', for_each l body s = Ok (tt, s') →
    R s s' ∧ ∀ x, x ∈ l → Q x s'.
Proof.
  intros Hbody Hstay l. induction l as [|x l IH]; intros s s' Hs; simpl in Hs.
  - run. split; [done|]. by intros ? ?%elem_of_nil.
  - apply bind_Ok in Hs as ([] & s1 & Hx & Hs).
    destruct (Hbody _ _ _ Hx) as [HR HQ]. destruct (IH _ _ Hs) as [HR' HQ'].
    split; [by etrans|].
    intros y [->|Hy]%elem_of_cons; [by eapply Hstay|by apply HQ'].
Qed.

Section Phis.
Variables (N : nat) (D : bool).

Lemma AllocateSpillSlot_results v : preserves ResultsStay (AllocateSpillSlot D v).
Proof.
  unfold AllocateSpillSlot.
  assert (∀ f, preserves ResultsStay (modify f) ↔
               ∀ s, ResultsStay s (f s)) as Hmod.
  { intros f. split; [|apply preserves_modify].
    intros Hp s. by apply (Hp s tt). }
  pose proof update_node_results.
  assert (∀ t, preserves ResultsStay (modify (with_top_of_stack t))).
  { intros. apply Hmod. by intros x q Hq. }
  assert (∀ t, preserves ResultsStay (modify (with_free_slots t))).
  { intros. apply Hmod. by intros x q Hq. }
  frame.
Qed.

Lemma AllocateSpillSlot_spilled v s s' :
  AllocateSpillSlot D v s = Ok (tt, s') →
  IsAllocated (spill_slot (node_at s' v)) = true.
Proof.
  unfold AllocateSpillSlot. intros Hs. runs; norm; by rewrite decide_True.
Qed.

Lemma ForceAllocate_register r v s o s' :
  ForceAllocate N D r v s = Ok (o, s') → o = REGISTER r.
Proof. unfold ForceAllocate. intros Hs. runs; done. Qed.

Lemma ForceAllocate_empty r v s o s' :
  register_values_ s !! Z.to_nat (MapRegisterToIndex N r) = Some None →
  ForceAllocate N D r v s = Ok (o, s') →
  o = REGISTER r ∧
  register_values_ s' =
    <[Z.to_nat (MapRegisterToIndex N r) := Some v]> (register_values_ s).
Proof.
  intros Hempty Hs. split; [by eapply ForceAllocate_register|].
  unfold ForceAllocate in Hs.
  apply bind_Ok in Hs as (cur & ? & Hcur & Hs).
  apply register_values_Ok in Hcur as (_ & Hcur & ->).
  assert (cur = None) as -> by congruence.
  rewrite bool_decide_eq_true_2 in Hs by done.
  unfold SetRegister in Hs. by run.
Qed.

Lemma TryAllocateRegister_spec v s o s' :
  TryAllocateRegister N D v s = Ok (o, s') →
  (free_registers_ s = kEmptyRegList ∧ o = Invalid ∧ s' = s) ∨
  (free_registers_ s ≠ kEmptyRegList ∧
   o = REGISTER (first_reg (free_registers_ s)) ∧
   register_values_ s' =
     <[Z.to_nat (MapRegisterToIndex N (first_reg (free_registers_ s)))
       := Some v]> (register_values_ s)).
Proof.
  intros Hs. unfold TryAllocateRegister in Hs.
  apply bind_Ok in Hs as (? & ? & Hg & Hs). apply get_Ok in Hg as [-> ->].
  destruct (Z.eqb_spec (free_registers_ s) kEmptyRegList) as [He|Hne].
  - left. by run.
  - right. unfold TakeAny, SetRegister in Hs. by run.
Qed.

Lemma TryAllocateToInput_from_spec phi l : ∀ s s',
  TryAllocateToInput_from N D phi l s = Ok (tt, s') →
  (∃ i r, i ∈ l ∧ operand i = REGISTER r ∧
     register_values_ s !! Z.to_nat (MapRegisterToIndex N r) = Some None ∧
     register_values_ s' !! Z.to_nat (MapRegisterToIndex N r)
       = Some (Some phi) ∧
     result (node_at s' phi) = REGISTER r) ∨
  (s' = s ∧
   ∀ i r, i ∈ l → operand i = REGISTER r →
     register_values_ s !! Z.to_nat (MapRegisterToIndex N r) ≠ Some None).
Proof.
  induction l as [|i l IH]; intros s s' Hs; simpl in Hs.
  - run. right. split; [done|]. by intros ?? ?%elem_of_nil.
  - assert (∀ t t', TryAllocateToInput_from N D phi l t = Ok (tt, t') →
              (∀ r, operand i = REGISTER r →
                 register_values_ t !! Z.to_nat (MapRegisterToIndex N r)
                 ≠ Some None) →
              (∃ i0 r, i0 ∈ i :: l ∧ operand i0 = REGISTER r ∧
                 register_values_ t !! Z.to_nat (MapRegisterToIndex N r)
                   = Some None ∧
                 register_values_ t' !! Z.to_nat (MapRegisterToIndex N r)
                   = Some (Some phi) ∧
                 result (node_at t' phi) = REGISTER r) ∨
              (t' = t ∧
               ∀ i0 r, i0 ∈ i :: l → operand i0 = REGISTER r →
                 register_values_ t !! Z.to_nat (MapRegisterToIndex N r)
                 ≠ Some None)) as Hrest.
    { intros t t' Ht Hi.
      destruct (IH _ _ Ht) as [(i0 & r & Hin & ?)|[-> Hall]].
      - left. exists i0, r. split; [by right|done].
      - right. split; [done|].
        intros i0 r [->|Hin]%elem_of_cons; [apply Hi|by apply Hall]. }
    destruct (operand i) as [| |code|] eqn:Hop; simpl in Hs;
      try (apply Hrest; [done|by intros r]).
    unfold AssignedRegister in Hs. rewrite Hop in Hs.
    apply bind_Ok in Hs as (reg & ? & Hreg & Hs).
    apply ret_Ok in Hreg as [-> ->].
    apply bind_Ok in Hs as (cur & ? & Hcur & Hs).
    apply register_values_Ok in Hcur as (_ & Hcur & ->).
    case_bool_decide as Hnone.
    + subst cur. left.
      apply bind_Ok in Hs as (o & s1 & Hf & Hs).
      destruct (ForceAllocate_empty _ _ _ _ _ Hcur Hf) as [-> Hrv].
      exists i, code. split; [by left|]. split; [done|]. split; [done|].
      run. split.
      * simpl. rewrite Hrv. apply list_lookup_insert_eq.
        by apply lookup_lt_Some in Hcur.
      * norm. by rewrite decide_True.
    + apply Hrest; [done|]. intros r [= <-]. congruence.
Qed.

Lemma AllocatePhis_all_allocated phis s s' :
  AllocatePhis N D phis s = Ok (tt, s') →
  ∀ phi, phi ∈ phis → IsAllocated (result (node_at s' phi)) = true.
Proof.
  intros Hs. unfold AllocatePhis in Hs.
  unfold phi_to_input, phi_to_free_register, phi_to_stack_slot in Hs.
  apply bind_Ok in Hs as ([] & s1 & _ & Hs).
  apply bind_Ok in Hs as ([] & s2 & _ & Hs).
  apply (for_each_all ResultsStay
           (λ phi t, IsAllocated (result (node_at t phi)) = true)) in Hs.
  - by destruct Hs.
  - clear. intros phi s s' Hs.
    apply bind_Ok in Hs as (n & ? & Hn & Hs). apply node_Ok in Hn as [-> ->].
    destruct (IsAllocated (result (node_at s phi))) eqn:E; [by run|].
    apply bind_Ok in Hs as ([] & s1 & Hsp & Hs).
    apply bind_Ok in Hs as (n & ? & Hn & Hs). apply node_Ok in Hn as [-> ->].
    pose proof (AllocateSpillSlot_spilled _ _ _ Hsp) as Hslot.
    split.
    + etrans; [exact (AllocateSpillSlot_results _ _ _ _ Hsp)|].
      exact (SetAllocated_results _ _ Hslot _ _ _ Hs).
    + by rewrite (SetAllocated_result _ _ _ _ _ Hs).
  - intros phi t t' HR. apply HR.
Qed.

Lemma phi_to_stack_slot_spec phi s s' :
  phi_to_stack_slot D phi s = Ok (tt, s') →
  (IsAllocated (result (node_at s phi)) = true ∧ s' = s) ∨
  (IsAllocated (result (node_at s phi)) = false ∧
   ∃ slot, result (node_at s' phi) = STACK_SLOT slot ∧
           spill_slot (node_at s' phi) = STACK_SLOT slot ∧
           match free_slots_ s with
           | [] => slot = top_of_stack_ s ∧
                   top_of_stack_ s' = top_of_stack_ s + 1
           | back :: rest => slot = back ∧ free_slots_ s' = rest
           end).
Proof.
  unfold phi_to_stack_slot, AllocateSpillSlot. intros Hs.
  apply bind_Ok in Hs as (n & ? & Hn & Hs). apply node_Ok in Hn as [-> ->].
  destruct (IsAllocated (result (node_at s phi))) eqn:E.
  - left. split; [done|]. by run.
  - right. split; [done|].
    runs; unfold spill_slot; norm; rewrite ?decide_True by done; simpl.
    all: eexists; split; [reflexivity|]; split; [reflexivity|].
    all: rewrite <- ?Heql; simpl; norm; done.
Qed.

(** C8.  Phi placement.  A block places its phis, after the state of a
    join is restored and before any of its nodes is allocated, by three
    loops over the phis, one after the other.  First loop, for one phi: the
    phi is made live; then either some input of the phi is in a register
    [r] whose entry is empty, and the phi gets [r] as its result and as its
    register, or no input is in such a register and nothing else changes.
    Second loop: a phi that is not allocated yet takes a free register if
    there is one, and nothing changes if there is none or if the phi is
    allocated.  Third loop: a phi whose result is still unallocated gets a
    spill slot (the slot on top of the free-slot list, else [top_of_stack],
    which is bumped) as its result operand; an allocated phi is left alone.
    After the three loops the result operand of every phi of the list is
    allocated. *)
Theorem AllocatePhis_allocates :
  (∀ phi s s',
     TryAllocateToInput N D phi s = Ok (tt, s') →
     (∃ i r, i ∈ inputs (node_at s phi) ∧ operand i = REGISTER r ∧
        register_values_ s !! Z.to_nat (MapRegisterToIndex N r) = Some None ∧
        register_values_ s' !! Z.to_nat (MapRegisterToIndex N r)
          = Some (Some phi) ∧
        result (node_at s' phi) = REGISTER r) ∨
     (s' = s ∧
      ∀ i r, i ∈ inputs (node_at s phi) → operand i = REGISTER r →
        register_values_ s !! Z.to_nat (MapRegisterToIndex N r)
        ≠ Some None)) ∧
  (∀ phi s o s',
     TryAllocateRegister N D phi s = Ok (o, s') →
     (free_registers_ s = kEmptyRegList ∧ o = Invalid ∧ s' = s) ∨
     (free_registers_ s ≠ kEmptyRegList ∧
      o = REGISTER (first_reg (free_registers_ s)) ∧
      register_values_ s' =
        <[Z.to_nat (MapRegisterToIndex N (first_reg (free_registers_ s)))
          := Some phi]> (register_values_ s))) ∧
  (∀ phi s s',
     phi_to_stack_slot D phi s = Ok (tt, s') →
     (IsAllocated (result (node_at s phi)) = true ∧ s' = s) ∨
     (IsAllocated (result (node_at s phi)) = false ∧
      ∃ slot, result (node_at s' phi) = STACK_SLOT slot ∧
              spill_slot (node_at s' phi) = STACK_SLOT slot ∧
              match free_slots_ s with
              | [] => slot = top_of_stack_ s ∧
                      top_of_stack_ s' = top_of_stack_ s + 1
              | back :: rest => slot = back ∧ free_slots_ s' = rest
              end)) ∧
  (∀ phis s s',
     AllocatePhis N D phis s = Ok (tt, s') →
     ∀ phi, phi ∈ phis → IsAllocated (result (node_at s' phi)) = true) ∧
  (∀ phi s s',
     phi_to_input N D phi s = Ok (tt, s') →
     (∃ i r, i ∈ inputs (node_at s phi) ∧ operand i = REGISTER r ∧
        register_values_ s !! Z.to_nat (MapRegisterToIndex N r) = Some None ∧
        register_values_ s' !! Z.to_nat (MapRegisterToIndex N r)
          = Some (Some phi) ∧
        result (node_at s' phi) = REGISTER r) ∨
     (s' = with_nodes
             (<[phi := SetNoSpillOrHint (node_at s phi)]> (nodes_ s)) s ∧
      ∀ i r, i ∈ inputs (node_at s phi) → operand i = REGISTER r →
        register_values_ s !! Z.to_nat (MapRegisterToIndex N r)
        ≠ Some None)) ∧
  (∀ phi s s',
     phi_to_free_register N D phi s = Ok (tt, s') →
     (IsAllocated (result (node_at s phi)) = true ∧ s' = s) ∨
     (IsAllocated (result (node_at s phi)) = false ∧
      free_registers_ s = kEmptyRegList ∧ s' = s) ∨
     (IsAllocated (result (node_at s phi)) = false ∧
      free_registers_ s ≠ kEmptyRegList ∧
      result (node_at s' phi) = REGISTER (first_reg (free_registers_ s)) ∧
      register_values_ s' =
        <[Z.to_nat (MapRegisterToIndex N (first_reg (free_registers_ s)))
          := Some phi]> (register_values_ s))) ∧
  (∀ phis s s',
     AllocatePhis N D phis s = Ok (tt, s') →
     ∃ s1 s2,
       for_each phis (phi_to_input N D) s = Ok (tt, s1) ∧
       for_each phis (phi_to_free_register N D) s1 = Ok (tt, s2) ∧
       for_each phis (phi_to_stack_slot D) s2 = Ok (tt, s')) ∧
  (∀ is_dead has_valid_live_range g block phis s s',
     block_phis (shape_at g block) = Some phis →
     AllocateBlock N D is_dead has_valid_live_range g block s = Ok (tt, s') →
     ∃ s1 s2 s3,
       when (has_state (block_at s block))
            (InitializeRegisterValues N D block) s = Ok (tt, s1) ∧
       AllocatePhis N D phis s1 = Ok (tt, s2) ∧
       (∀ phi, phi ∈ phis → IsAllocated (result (node_at s2 phi)) = true) ∧
       AllocateNodes N D is_dead has_valid_live_range
         (block_nodes (shape_at g block)) s2 = Ok (tt, s3)).
Proof.
  split; [|split; [|split; [|split; [|split; [|split; [|split]]]]]].
  - intros phi s s' Hs. unfold TryAllocateToInput in Hs.
    apply bind_Ok in Hs as (n & ? & Hn & Hs). apply node_Ok in Hn as [-> ->].
    by apply TryAllocateToInput_from_spec.
  - apply TryAllocateRegister_spec.
  - apply phi_to_stack_slot_spec.
  - apply AllocatePhis_all_allocated.
  - intros phi s s' Hs. unfold phi_to_input in Hs.
    apply bind_Ok in Hs as ([] & s0 & Hup & Hs). apply update_node_Ok in Hup.
    assert (inputs (node_at s0 phi) = inputs (node_at s phi) ∧
            register_values_ s0 = register_values_ s) as [Hin Hrv].
    { rewrite Hup. norm. by rewrite decide_True. }
    unfold TryAllocateToInput in Hs.
    apply bind_Ok in Hs as (n & ? & Hn & Hs). apply node_Ok in Hn as [-> ->].
    apply TryAllocateToInput_from_spec in Hs. rewrite Hin, Hrv in Hs.
    destruct Hs as [?|[-> ?]]; [by left|right]. by rewrite Hup.
  - intros phi s s' Hs. unfold phi_to_free_register in Hs.
    apply bind_Ok in Hs as (n & ? & Hn & Hs). apply node_Ok in Hn as [-> ->].
    destruct (IsAllocated (result (node_at s phi))) eqn:E.
    { left. split; [done|]. by apply ret_Ok in Hs as [_ ->]. }
    right. apply bind_Ok in Hs as (o & s1 & Hto & Hs).
    destruct (TryAllocateRegister_spec _ _ _ _ Hto)
      as [(He & Ho & Hs1)|(Hne & Ho & Hrv)]; rewrite Ho in Hs; simpl in Hs.
    + left. split; [done|]. split; [done|].
      apply ret_Ok in Hs as [_ ->]. done.
    + right. split; [done|]. split; [done|].
      apply update_node_Ok in Hs. rewrite Hs. norm.
      rewrite decide_True by done. split; [done|]. simpl. done.
  - intros phis s s' Hs. unfold AllocatePhis in Hs.
    apply bind_Ok in Hs as ([] & s1 & H1 & Hs).
    apply bind_Ok in Hs as ([] & s2 & H2 & H3).
    by exists s1, s2.
  - intros is_dead has_valid_live_range g block phis s s' Hphis Hs.
    unfold AllocateBlock in Hs.
    apply bind_Ok in Hs as (t & ? & Ht & Hs).
    apply basic_block_Ok in Ht as [-> ->].
    apply bind_Ok in Hs as ([] & s1 & Hinit & Hs).
    rewrite Hphis in Hs.
    apply bind_Ok in Hs as ([] & s2 & Hplace & Hs).
    apply bind_Ok in Hs as ([] & s3 & Hnodes & Hs).
    exists s1, s2, s3. split; [done|]. split; [done|]. split; [|done].
    by apply (AllocatePhis_all_allocated _ _ _ Hplace).
Qed.

End Phis.

(** * Merging register values into a join *)

Global Instance MergeFrame_preorder target : PreOrder (MergeFrame target).
Proof.
  split.
  - intros s. split; eauto.
  - intros s1 s2 s3 [? ? ? ? Hc12] [? ? ? ? Hc23]. split; try congruence.
    intros j c w Hc Hw.
    destruct (Hc12 j c w Hc Hw) as (c' & Hc' & Hw'). eauto.
Qed.

Lemma block_at_insert s s0 b t q :
  block_at (with_blocks (<[b := t]> (blocks_ s0)) s) q =
  if decide (b = q) then t else block_at s0 q.
Proof.
  unfold block_at. simpl. case_decide.
  - subst. apply lookup_total_insert_eq.
  - by apply lookup_total_insert_ne.
Qed.

Lemma target_state_Ok target i s c s' :
  target_state target i s = Ok (c, s') ↔
  has_state (block_at s target) = true ∧ 0 <= i ∧
  register_state (block_at s target) !! Z.to_nat i = Some c ∧ s' = s.
Proof.
  unfold target_state, bind, basic_block.
  destruct (has_state (block_at s target)); simpl.
  2:{ split; [done|]. by intros [? _]. }
  destruct (Z.leb_spec 0 i).
  2:{ split; [done|]. intros (_ & ? & _). lia. }
  destruct (register_state (block_at s target) !! Z.to_nat i) eqn:E.
  - unfold ret. split; [intros [= -> ->]; done|].
    by intros (_ & _ & [= ->] & ->).
  - split; [done|]. by intros (_ & _ & ? & _).
Qed.

Lemma set_target_state_Ok target i c s a s' :
  set_target_state target i c s = Ok (a, s') ↔
  has_state (block_at s target) = true ∧ 0 <= i ∧
  (Z.to_nat i < length (register_state (block_at s target)))%nat ∧
  s' = with_blocks
         (<[target := set_register_state
                        (<[Z.to_nat i := c]> (register_state (block_at s target)))
                        (block_at s target)]> (blocks_ s)) s.
Proof.
  unfold set_target_state, bind, basic_block, update_block, modify.
  destruct a.
  destruct (has_state (block_at s target)); simpl.
  2:{ split; [done|]. by intros [? _]. }
  destruct (Z.leb_spec 0 i); simpl.
  2:{ split; [done|]. intros (_ & ? & _). lia. }
  case_bool_decide.
  - split; [intros [= <-]; done|]. by intros (_ & _ & _ & ->).
  - split; [done|]. by intros (_ & _ & ? & _).
Qed.

Lemma LoadMergeState_Ok D c x s' s :
  LoadMergeState D c s = Ok (x, s') →
  s' = s ∧ x.1 = cell_node c ∧
  x.2 = match c with MergeState m => Some m | _ => None end.
Proof.
  unfold LoadMergeState. intros Hs.
  apply bind_Ok in Hs as (? & ? & Hd & Hs). apply DCHECK_Ok in Hd as [-> _].
  destruct c; run; done.
Qed.

Lemma EnsureInRegister_from_spec D target w l : ∀ s found s',
  EnsureInRegister_from D target l w s = Ok (found, s') →
  s' = s ∧
  (found = true →
   ∃ j c, j ∈ l ∧ 0 <= j ∧
     register_state (block_at s target) !! Z.to_nat j = Some c ∧
     cell_node c = Some w).
Proof.
  induction l as [|i l IH]; intros s found s' Hs; simpl in Hs.
  - run. done.
  - apply bind_Ok in Hs as (c & ? & Hc & Hs).
    apply target_state_Ok in Hc as (_ & Hi & Hc & ->).
    apply bind_Ok in Hs as (nm & ? & Hnm & Hs).
    apply LoadMergeState_Ok in Hnm as (-> & Hnode & _).
    case_bool_decide as Hw.
    + run. split; [done|]. intros _. exists i, c.
      repeat split; try done; [by left|congruence].
    + destruct (IH _ _ _ Hs) as [-> Hfound]. split; [done|].
      intros Ht. destruct (Hfound Ht) as (j & c' & Hj & ?).
      exists j, c'. split; [by right|done].
Qed.

Section Merge.
Variables (N : nat) (D : bool) (is_dead : Node → bool).

Lemma IsLiveAtTarget_Ok v source target s :
  IsLiveAtTarget is_dead v source target s =
  Ok (live_at_target is_dead s v source target, s).
Proof.
  unfold IsLiveAtTarget, live_at_target, bind, node, basic_block, ret.
  destruct v; [|done]. destruct (is_dead _); [done|].
  by destruct (_ <=? _).
Qed.

Lemma EnsureInRegister_spec target w s s' :
  EnsureInRegister N D target w s = Ok (tt, s') →
  s' = s ∧
  (D = true →
   ∃ j c, register_state (block_at s target) !! j = Some c ∧
          cell_node c = Some w).
Proof.
  unfold EnsureInRegister. intros Hs. destruct D; [|by run].
  apply bind_Ok in Hs as (found & s1 & Hf & Hs).
  apply EnsureInRegister_from_spec in Hf as [-> Hfound].
  destruct found; [|by run]. run. split; [done|]. intros _.
  destruct Hfound as (j & c & _ & _ & Hc & Hw); [done|]. eauto.
Qed.

Lemma set_merge_operand_Ok target i m k o s s' :
  set_merge_operand target i m k o s = Ok (tt, s') →
  0 <= k ∧ (Z.to_nat k < length (operands m))%nat ∧
  cell_written target i
    (MergeState (mkMerge (merge_node m) (<[Z.to_nat k := o]> (operands m))))
    s s'.
Proof.
  unfold set_merge_operand. intros Hs.
  destruct (Z.leb_spec 0 k); simpl in Hs; [|done].
  case_bool_decide; [|done].
  apply set_target_state_Ok in Hs. done.
Qed.

Lemma cell_written_frame target i c c' s s' :
  register_state (block_at s target) !! Z.to_nat i = Some c →
  (∀ w, cell_node c = Some w → cell_node c' = Some w) →
  cell_written target i c' s s' →
  MergeFrame target s s' ∧
  (∀ j, j ≠ Z.to_nat i →
     register_state (block_at s' target) !! j =
     register_state (block_at s target) !! j) ∧
  register_state (block_at s' target) !! Z.to_nat i = Some c'.
Proof.
  intros Hc Hnode (Hst & Hi & Hlt & ->).
  split; [split|split]; simpl; try done.
  - rewrite block_at_insert, decide_True by done. done.
  - rewrite block_at_insert, decide_True by done. simpl.
    by rewrite length_insert.
  - intros j c0 w Hj Hw. rewrite block_at_insert, decide_True by done.
    simpl. destruct (decide (j = Z.to_nat i)) as [->|].
    + rewrite list_lookup_insert_eq by done. exists c'. split; [done|].
      apply Hnode. congruence.
    + rewrite list_lookup_insert_ne by done. eauto.
  - intros j Hj. rewrite block_at_insert, decide_True by done. simpl.
    by rewrite list_lookup_insert_ne.
  - rewrite block_at_insert, decide_True by done. simpl.
    by rewrite list_lookup_insert_eq.
Qed.

Lemma incoming_eq control target i s cur :
  0 <= i → register_values_ s !! Z.to_nat i = Some cur →
  (if live_at_target is_dead s cur control target then cur else None) =
  incoming is_dead s control target (Z.to_nat i).
Proof. intros _ Hcur. unfold incoming. by rewrite Hcur. Qed.

(** One iteration of the loop of [MergeRegisterValues]. *)
Lemma MergeRegister_spec control target pid P i s s' :
  MergeRegister N D is_dead control target pid P i s = Ok (tt, s') →
  ∃ c, 0 <= i ∧
    register_state (block_at s target) !! Z.to_nat i = Some c ∧
    MergeFrame target s s' ∧
    (∀ j, j ≠ Z.to_nat i →
       register_state (block_at s' target) !! j =
       register_state (block_at s target) !! j) ∧
    (∀ m v, c = MergeState m → merge_node m = Some v →
       incoming is_dead s control target (Z.to_nat i) ≠ Some v →
       register_state (block_at s' target) !! Z.to_nat i =
         Some (MergeState
                 (mkMerge (Some v)
                    (<[Z.to_nat pid := allocation (node_at s v)]>
                       (operands m)))) ∧
       (D = true → ∀ w,
          incoming is_dead s control target (Z.to_nat i) = Some w →
          is_spilled (node_at s w) = true →
          ∃ j c', register_state (block_at s' target) !! j = Some c' ∧
                  cell_node c' = Some w)).
Proof.
  intros Hs. unfold MergeRegister in Hs.
  apply bind_Ok in Hs as (c & ? & Hc & Hs).
  apply target_state_Ok in Hc as (Hst & Hi & Hc & ->).
  apply bind_Ok in Hs as (nm & ? & Hnm & Hs).
  apply LoadMergeState_Ok in Hnm as (-> & Hnode & Hmerge).
  apply bind_Ok in Hs as (cur & ? & Hcur & Hs).
  apply register_values_Ok in Hcur as (_ & Hcur & ->).
  apply bind_Ok in Hs as (live & ? & Hlive & Hs).
  rewrite IsLiveAtTarget_Ok in Hlive. injection Hlive as <- <-.
  rewrite (incoming_eq control target i s cur Hi Hcur) in Hs.
  set (inc := incoming is_dead s control target (Z.to_nat i)) in *.
  rewrite Hnode, Hmerge in Hs. clear nm Hnode Hmerge.
  exists c. split; [done|]. split; [done|].
  assert (∀ c', (∀ w, cell_node c = Some w → cell_node c' = Some w) →
            cell_written target i c' s s' →
            MergeFrame target s s' ∧
            (∀ j, j ≠ Z.to_nat i →
               register_state (block_at s' target) !! j =
               register_state (block_at s target) !! j)) as Hwrite.
  { intros c' Hn Hw.
    destruct (cell_written_frame target i c c' s s' Hc Hn Hw) as (? & ? & _).
    done. }
  case_bool_decide as Hsame.
  - (* the register already holds the value of the cell *)
    destruct c as [|v|m]; simpl in Hs.
    + run. split; [reflexivity|]. split; done.
    + run. split; [reflexivity|]. split; done.
    + apply set_merge_operand_Ok in Hs as (_ & _ & Hw).
      destruct (λ Hn, Hwrite _ Hn Hw) as [? ?]; [by intros w|].
      split; [done|]. split; [done|].
      intros m' v [= <-] Hv Hne. simpl in Hsame. congruence.
  - destruct c as [|v0|m]; simpl in Hs.
    + (* uninitialized cell *)
      apply bind_Ok in Hs as (? & ? & Hd & Hs). apply DCHECK_Ok in Hd as [-> _].
      destruct inc as [w|] eqn:Hinc; [|done].
      apply bind_Ok in Hs as (n & ? & Hn & Hs). apply node_Ok in Hn as [-> ->].
      destruct (is_spilled (node_at s w)); simpl in Hs.
      * apply set_merge_operand_Ok in Hs as (_ & _ & Hw).
        destruct (λ Hn, Hwrite _ Hn Hw) as [? ?]; [by intros w0|].
        split; [done|]. split; done.
      * apply EnsureInRegister_spec in Hs as [-> _].
        split; [reflexivity|]. split; done.
    + (* node cell *)
      apply bind_Ok in Hs as (? & ? & Hd & Hs). apply DCHECK_Ok in Hd as [-> _].
      destruct v0 as [v|].
      * apply bind_Ok in Hs as (n & ? & Hn & Hs). apply node_Ok in Hn as [-> ->].
        apply set_merge_operand_Ok in Hs as (_ & _ & Hw).
        destruct (λ Hn, Hwrite _ Hn Hw) as [? ?]; [by intros w0|].
        split; [done|]. split; done.
      * destruct inc as [w|] eqn:Hinc; [|done].
        apply bind_Ok in Hs as (n & ? & Hn & Hs). apply node_Ok in Hn as [-> ->].
        destruct (is_spilled (node_at s w)); simpl in Hs.
        -- apply set_merge_operand_Ok in Hs as (_ & _ & Hw).
           destruct (λ Hn, Hwrite _ Hn Hw) as [? ?]; [by intros w0|].
           split; [done|]. split; done.
        -- apply EnsureInRegister_spec in Hs as [-> _].
           split; [reflexivity|]. split; done.
    + (* merge cell holding another value *)
      apply bind_Ok in Hs as ([] & s1 & Hset & Hs).
      destruct (merge_node m) as [v|] eqn:Hv; [|done].
      apply bind_Ok in Hset as (n & ? & Hn & Hset).
      apply node_Ok in Hn as [-> ->].
      apply set_merge_operand_Ok in Hset as (_ & _ & Hw).
      destruct (λ Hn, cell_written_frame target i (MergeState m) _ s s1 Hc
                  Hn Hw) as (Hfr & Hother & Hcell); [by intros w0|].
      assert (s' = s1 ∧
              (D = true → ∀ w, inc = Some w →
                 is_spilled (node_at s w) = true →
                 ∃ j c', register_state (block_at s1 target) !! j = Some c' ∧
                         cell_node c' = Some w)) as [-> Hens].
      { destruct inc as [w|] eqn:Hinc; [|by run].
        apply bind_Ok in Hs as (n & ? & Hn & Hs). apply node_Ok in Hn as [-> ->].
        assert (node_at s1 w = node_at s w) as Hnw.
        { unfold node_at. by rewrite (mf_nodes _ _ _ Hfr). }
        rewrite Hnw in Hs.
        destruct (is_spilled (node_at s w)) eqn:Hsp; simpl in Hs.
        - apply EnsureInRegister_spec in Hs as [-> Hfound]. split; [done|].
          intros HD w' [= <-] _. by apply Hfound.
        - run. split; [done|]. intros _ w' [= <-] ?. congruence. }
      split; [done|]. split; [done|].
      intros m' v' [= <-] Hv' _. rewrite Hv' in Hv. injection Hv as ->.
      split; [|done]. rewrite Hcell. by rewrite Hv'.
Qed.



Lemma NoDup_indices : NoDup (indices N).
Proof.
  unfold indices. apply NoDup_fmap_2; [apply Nat2Z.inj'|apply NoDup_seq].
Qed.


End Merge.

(** * Eviction *)

Lemma furthest_from_spec l : ∀ u i0 s x s',
  furthest_from l u i0 s = Ok (x, s') →
  (x = i0 ∧
   ∀ j v, j ∈ l → register_values_ s !! Z.to_nat j = Some (Some v) →
          next_use (node_at s v) <= u) ∨
  (∃ v, x ∈ l ∧ 0 <= x ∧
     register_values_ s !! Z.to_nat x = Some (Some v) ∧
     u < next_use (node_at s v) ∧
     ∀ j w, j ∈ l → register_values_ s !! Z.to_nat j = Some (Some w) →
            next_use (node_at s w) <= next_use (node_at s v)).
Proof.
  induction l as [|i l IH]; intros u i0 s x s' Hs; simpl in Hs.
  - run. left. split; [done|]. by intros ?? ?%elem_of_nil.
  - apply bind_Ok in Hs as (cur & ? & Hcur & Hs).
    apply register_values_Ok in Hcur as (Hi & Hcur & ->).
    destruct cur as [v|].
    + apply bind_Ok in Hs as (n & ? & Hn & Hs). apply node_Ok in Hn as [-> ->].
      destruct (Z.gtb_spec (next_use (node_at s v)) u) as [Hgt|Hle].
      * right. destruct (IH _ _ _ _ _ Hs) as [[-> Hall]|(v' & Hx & Hx0 & Hv' & Hlt & Hall)].
        -- exists v. split; [by left|]. repeat split; try done.
           intros j w [->|Hj]%elem_of_cons Hw; [|by eapply Hall].
           assert (w = v) as -> by congruence. lia.
        -- exists v'. split; [by right|]. repeat split; try done; [lia|].
           intros j w [->|Hj]%elem_of_cons Hw; [|by eapply Hall].
           assert (w = v) as -> by congruence. lia.
      * destruct (IH _ _ _ _ _ Hs) as [[-> Hall]|(v' & Hx & Hx0 & Hv' & Hlt & Hall)].
        -- left. split; [done|].
           intros j w [->|Hj]%elem_of_cons Hw; [|by eapply Hall].
           assert (w = v) as -> by congruence. lia.
        -- right. exists v'. split; [by right|]. repeat split; try done.
           intros j w [->|Hj]%elem_of_cons Hw; [|by eapply Hall].
           assert (w = v) as -> by congruence. lia.
    + destruct (IH _ _ _ _ _ Hs) as [[-> Hall]|(v' & Hx & Hx0 & Hv' & Hlt & Hall)].
      * left. split; [done|].
        intros j w [->|Hj]%elem_of_cons Hw; [congruence|by eapply Hall].
      * right. exists v'. split; [by right|]. repeat split; try done.
        intros j w [->|Hj]%elem_of_cons Hw; [congruence|by eapply Hall].
Qed.

Lemma furthest_from_total l : ∀ u i0 s,
  (∀ j, j ∈ l → 0 <= j ∧ (Z.to_nat j < length (register_values_ s))%nat) →
  ∃ x, furthest_from l u i0 s = Ok (x, s).
Proof.
  induction l as [|i l IH]; intros u i0 s Hl; simpl.
  - by eexists.
  - destruct (Hl i) as [Hi Hlt]; [by left|].
    destruct (lookup_lt_is_Some_2 _ _ Hlt) as [cur Hcur].
    assert (register_values i s = Ok (cur, s)) as Hread
      by (by apply register_values_Ok).
    unfold bind at 1. rewrite Hread.
    assert (∀ j, j ∈ l →
              0 <= j ∧ (Z.to_nat j < length (register_values_ s))%nat) as Hl'.
    { intros j Hj. apply Hl. by right. }
    destruct cur as [v|]; [|by apply IH].
    unfold bind, node. destruct (_ >? _); by apply IH.
Qed.

(** When some register is held by a value whose next-use
    id is greater than 0, the loop of [FreeSomeRegister] ends with the
    index of an occupied register, within the register file, whose holder
    has the greatest next-use id of all holders; that is the register
    [FreeSomeRegister] frees. *)
Theorem FreeSomeRegister_selects N s :
  length (register_values_ s) = N →
  (∃ k v, register_values_ s !! k = Some (Some v) ∧
          0 < next_use (node_at s v)) →
  ∃ x v,
    furthest_from (indices N) 0 (-1) s = Ok (x, s) ∧
    0 <= x < Z.of_nat N ∧
    register_values_ s !! Z.to_nat x = Some (Some v) ∧
    (∀ k w, register_values_ s !! k = Some (Some w) →
            next_use (node_at s w) <= next_use (node_at s v)) ∧
    FreeSomeRegister N s = FreeRegister N x s.
Proof.
  intros Hlen (k & v & Hk & Hv).
  destruct (furthest_from_total (indices N) 0 (-1) s) as [x Hx].
  { intros i Hi. pose proof (indices_nonneg _ _ Hi). split; [done|].
    rewrite <- (Z2Nat.id i) in Hi by done. apply elem_of_indices in Hi. lia. }
  assert (Z.of_nat k ∈ indices N) as Hkin.
  { apply elem_of_indices. apply lookup_lt_Some in Hk. lia. }
  destruct (furthest_from_spec _ _ _ _ _ _ Hx)
    as [[-> Hall]|(v' & Hin & Hx0 & Hv' & Hlt & Hall)].
  - specialize (Hall (Z.of_nat k) v Hkin). rewrite Nat2Z.id in Hall.
    specialize (Hall Hk). lia.
  - exists x, v'. split; [done|]. split.
    { rewrite <- (Z2Nat.id x) in Hin by done.
      apply elem_of_indices in Hin. lia. }
    split; [done|]. split.
    + intros j w Hj. apply (Hall (Z.of_nat j)).
      * apply elem_of_indices. apply lookup_lt_Some in Hj. lia.
      * by rewrite Nat2Z.id.
    + unfold FreeSomeRegister, bind. by rewrite Hx.
Qed.

(** * Post-dominating holes *)



Lemma meets_merge_point g a b c :
  meets g a b c → ∃ fuel0, ∀ fuel, (fuel0 ≤ fuel)%nat →
    Holes.merge_point fuel g a b = Holes.Merged c.
Proof.
  induction 1 as [x|a b c Hne Hret _ [fuel0 IH]].
  - exists 1%nat. intros [|fuel] Hle; [lia|]. simpl.
    by rewrite bool_decide_eq_true_2.
  - exists (S fuel0). intros [|fuel] Hle; [lia|]. simpl.
    rewrite bool_decide_eq_false_2 by congruence.
    rewrite Hret. apply IH. lia.
Qed.

Lemma meets_on_chain g a b c : meets g a b c → on_chain g a c ∧ on_chain g b c.
Proof.
  induction 1 as [x|a b c Hne Hret _ [IHa IHb]].
  - split; constructor.
  - destruct (_ >? _).
    + split; [done|]. by constructor.
    + split; [|done]. by constructor.
Qed.

(** C4 (amended).  For a block that ends in a conditional control node,
    let [a] and [b] be the nearest post-dominating holes of the two branch
    targets.  If advancing, each time, the one with the smaller id along
    its next-hole link brings the two to the same node [c] before the one
    advanced is a Return or a JumpLoop, then, with enough fuel, the pass
    sets the next-hole link of the conditional to [c]; and [c] is on the
    next-hole chains of both [a] and [b]. *)
Theorem conditional_next_hole g b if_true if_false c :
  Holes.kind (Holes.control_at g (Holes.control_node (Holes.block_at g b))) =
    Holes.ConditionalControlNode if_true if_false →
  meets g
    (Holes.NearestPostDominatingHole g (Holes.control_node (Holes.block_at g if_true)))
    (Holes.NearestPostDominatingHole g (Holes.control_node (Holes.block_at g if_false)))
    c →
  (∃ fuel0, ∀ fuel, (fuel0 ≤ fuel)%nat →
     Holes.ProcessBlock fuel g b =
     Some (Holes.set_next_post_dominating_hole (Holes.control_node (Holes.block_at g b)) c g)) ∧
  on_chain g
    (Holes.NearestPostDominatingHole g (Holes.control_node (Holes.block_at g if_true))) c ∧
  on_chain g
    (Holes.NearestPostDominatingHole g (Holes.control_node (Holes.block_at g if_false))) c.
Proof.
  intros Hkind Hmeets. split; [|by apply meets_on_chain].
  destruct (meets_merge_point _ _ _ _ Hmeets) as [fuel0 Hfuel].
  exists fuel0. intros fuel Hle. unfold Holes.ProcessBlock.
  by rewrite Hkind, (Hfuel fuel Hle).
Qed.

(** * Whole steps *)

Section Steps.
Variables (N : nat) (D : bool) (is_dead has_valid_live_range : Node → bool).
Local Abbreviation Inv := (Consistent N [] None).

Lemma SpillAndClearRegisters_inv : preserves (Keeps Inv) (SpillAndClearRegisters N D).
Proof. intros s [] s' Hs HC. by destruct (SpillAndClearRegisters_spec N D s s'). Qed.

Lemma AllocateNodeResult_inv p :
  preserves (Keeps Inv) (AllocateNodeResult N D is_dead has_valid_live_range p).
Proof.
  unfold AllocateNodeResult.
  pose proof (ForceAllocate_inv N D). pose proof (AllocateRegister_inv N D).
  pose proof (FreeRegisters_inv N). pose proof (update_node_inv N).
  pose proof (input_inv N).
  assert (∀ i, preserves (Keeps Inv) (AssignedRegister D i)).
  { intros. unfold AssignedRegister. frame. }
  frame.
Qed.

Lemma AllocateNode_inv p :
  preserves (Keeps Inv) (AllocateNode N D is_dead has_valid_live_range p).
Proof.
  unfold AllocateNode.
  pose proof (AssignInput_inv N D). pose proof (AssignTemporaries_inv N D).
  pose proof (UpdateInputUse_inv N is_dead).
  pose proof SpillAndClearRegisters_inv.
  pose proof (preserves_same_keeps N _ [] None (SpillRegisters_same N D)).
  pose proof AllocateNodeResult_inv.
  frame.
Qed.

Lemma AllocateNodes_inv l :
  preserves (Keeps Inv) (AllocateNodes N D is_dead has_valid_live_range l).
Proof.
  unfold AllocateNodes. pose proof AllocateNode_inv.
  assert (∀ p, preserves (Keeps Inv)
            (modify (λ s, mkState (register_values_ s) (free_registers_ s)
                            (top_of_stack_ s) (free_slots_ s) (Some p)
                            (nodes_ s) (blocks_ s) (gap_moves_ s)))).
  { intros p. apply preserves_same_keeps, preserves_modify_same; done. }
  frame.
Qed.

Lemma TryAllocateToInput_inv phi : preserves (Keeps Inv) (TryAllocateToInput N D phi).
Proof.
  unfold TryAllocateToInput.
  apply preserves_bind; [apply _|frame|]. intros n.
  induction (inputs n) as [|i l IH]; simpl; [frame|].
  pose proof (ForceAllocate_inv N D). pose proof (update_node_inv N).
  assert (∀ i, preserves (Keeps Inv) (AssignedRegister D i)).
  { intros. unfold AssignedRegister. frame. }
  frame.
Qed.

Lemma AllocatePhis_inv phis : preserves (Keeps Inv) (AllocatePhis N D phis).
Proof.
  unfold AllocatePhis, phi_to_input, phi_to_free_register, phi_to_stack_slot.
  pose proof TryAllocateToInput_inv. pose proof (update_node_inv N).
  pose proof (TryAllocateRegister_inv N D).
  pose proof (λ v, preserves_same_keeps N _ [] None (AllocateSpillSlot_same D v)).
  frame.
Qed.

(** Phi placement and spill slots. *)
Lemma TryAllocateToInput_low_parts phi l :
  preserves Step (TryAllocateToInput_from N D phi l) ∧
  preserves SlotsTaken (TryAllocateToInput_from N D phi l) ∧
  preserves (SpillsStay (λ _, False)) (TryAllocateToInput_from N D phi l).
Proof.
  pose proof (λ r v, preserves_low_taken _ (ForceAllocate_low N D r v)).
  pose proof (λ r v, preserves_low_stay _ (λ _, False) (ForceAllocate_low N D r v)).
  assert (∀ i, preserves SlotsTaken (AssignedRegister D i)).
  { intros. unfold AssignedRegister. frame. }
  assert (∀ i, preserves (SpillsStay (λ _, False)) (AssignedRegister D i)).
  { intros. unfold AssignedRegister. frame. }
  induction l as [|i l (IH1 & IH2 & IH3)]; simpl; (split; [|split]); frame.
Qed.

Lemma AllocatePhis_step phis : preserves Step (AllocatePhis N D phis).
Proof.
  unfold AllocatePhis, phi_to_input, phi_to_free_register, phi_to_stack_slot,
    TryAllocateToInput.
  pose proof (λ phi l, proj1 (TryAllocateToInput_low_parts phi l)).
  pose proof (AllocateSpillSlot_step D).
  frame.
Qed.

Lemma AllocatePhis_taken phis : preserves SlotsTaken (AllocatePhis N D phis).
Proof.
  unfold AllocatePhis, phi_to_input, phi_to_free_register, phi_to_stack_slot,
    TryAllocateToInput.
  pose proof (λ phi l, proj1 (proj2 (TryAllocateToInput_low_parts phi l))).
  pose proof (AllocateSpillSlot_taken D).
  pose proof (λ v, preserves_low_taken _ (TryAllocateRegister_low N D v)).
  frame.
Qed.

Lemma AllocateNode_parts_taken p :
  (∀ k, preserves SlotsTaken (AssignInput N D p k)) ∧
  preserves SlotsTaken (AssignTemporaries N D p) ∧
  preserves SlotsTaken (SpillAndClearRegisters N D) ∧
  preserves SlotsTaken (SpillRegisters N D) ∧
  preserves SlotsTaken (AllocateNodeResult N D is_dead has_valid_live_range p).
Proof.
  pose proof (λ r v, preserves_low_taken _ (ForceAllocate_low N D r v)).
  pose proof (λ v, preserves_low_taken _ (AllocateRegister_low N D v)).
  pose proof (preserves_low_taken _ (FreeSomeRegister_low N)).
  pose proof (λ v, preserves_low_taken _ (FreeRegisters_low N v)).
  pose proof (λ a b, preserves_low_taken _ (AddMoveBeforeCurrentNode_low a b)).
  pose proof (preserves_low_taken _ (SpillRegisters_low N D)).
  pose proof (preserves_low_taken _ (SpillAndClearRegisters_low N D)).
  repeat split; try done.
  - intros k. unfold AssignInput, input. frame.
  - unfold AssignTemporaries. frame.
  - unfold AllocateNodeResult, input, AssignedRegister. frame.
Qed.

End Steps.

(** * The initial state *)

Lemma initial_state_consistent N nodes blocks :
  (N ≤ 255)%nat →
  forallb (λ kn, registers_with_result kn.2 =? 0) (map_to_list nodes) = true →
  Consistent N [] None (initial_state N nodes blocks) ∧
  Exact (initial_state N nodes blocks).
Proof.
  intros HN Hnodes.
  assert (∀ v, registers_with_result
                 (node_at (initial_state N nodes blocks) v) = 0) as Hregs.
  { intros v. unfold node_at. simpl. rewrite lookup_total_alt.
    destruct (nodes !! v) as [n|] eqn:Hv; [|done]. simpl.
    rewrite forallb_forall in Hnodes.
    specialize (Hnodes (v, n)). simpl in Hnodes. apply Z.eqb_eq, Hnodes.
    apply list_elem_of_In. by apply elem_of_map_to_list. }
  split; [split|]; simpl; try done.
  - apply length_replicate.
  - rewrite Z.ones_equiv. pose proof (Z.pow_pos_nonneg 2 (Z.of_nat N)). lia.
  - intros v. rewrite Hregs. done.
  - intros r Hr Hb. apply Z.ones_spec_iff in Hb; [|lia].
    apply lookup_replicate_2. lia.
  - intros r Hr Hl. left. apply lookup_replicate in Hl as [_ Hl].
    apply Z.ones_spec_iff; lia.
  - intros r v Hr Hl. by apply lookup_replicate in Hl as [? _].
  - intros r v Hr Hb. rewrite Hregs in Hb. by rewrite Z.testbit_0_l in Hb.
Qed.

(** * Eviction leaves the evicted value where it was *)

(** C1.  Eviction as the code has it.  Two registers hold [v0] (next use
    5) and [v1] (next use 9); allocating a register for [v_new] picks the
    register of [v1], the holder with the furthest next use, but frees it
    with [FreeRegister], not with [Free]: afterwards the register holds
    [v_new], while [v1] still has it in its own register set, has no spill
    slot, and still reports it as its allocation.  No slot was taken and no
    gap move was emitted. *)
Lemma eviction_skips_Free :
  ∃ s',
    AllocateNodes 2 true is_dead_past_end has_live_range_end
      [10; 11; 12]%nat eviction_start = Ok (tt, s') ∧
    register_values_ s' = [Some 10%nat; Some 12%nat] ∧
    registers_with_result (node_at s' 11%nat) = 2 ∧
    is_spilled (node_at s' 11%nat) = false ∧
    allocation (node_at s' 11%nat) = REGISTER 1 ∧
    result (node_at s' 12%nat) = REGISTER 1 ∧
    top_of_stack_ s' = 0 ∧ gap_moves_ s' = [].
Proof. eexists. split; [vm_compute; reflexivity|]. by vm_compute. Qed.

(** C3.  The state the allocator starts from is consistent, and every
    register set is exact; after the three node steps of the eviction
    example the register set of [v1] contains register 1, whose entry in
    the register file points to [v_new]: the register sets are no longer
    the sets of indices that point to their node. *)
Lemma eviction_breaks_register_sets :
  Consistent 2 [] None eviction_start ∧ Exact eviction_start ∧
  ∃ s',
    AllocateNodes 2 true is_dead_past_end has_live_range_end
      [10; 11; 12]%nat eviction_start = Ok (tt, s') ∧
    Z.testbit (registers_with_result (node_at s' 11%nat)) 1 = true ∧
    register_values_ s' !! 1%nat = Some (Some 12%nat) ∧
    ¬ Exact s'.
Proof.
  destruct (initial_state_consistent 2 eviction_nodes ∅) as [HC HE];
    [lia|done|].
  split; [done|]. split; [done|].
  eexists. split; [vm_compute; reflexivity|].
  split; [done|]. split; [done|].
  intros HE'. pose proof (HE' 1 11%nat ltac:(lia) eq_refl) as Hbad.
  by vm_compute in Hbad.
Qed.

(** C5.  Eviction when no holder has a next use.  The two phis of the
    block are placed in the two registers; nothing uses them, so their
    next-use id is 0.  The register file is full, and the loop of
    [FreeSomeRegister], which starts from [longest = -1] and looks for a
    next-use id greater than 0, selects no register and ends with -1.
    [FreeRegister(-1)] then writes [register_values_[-1]]: there is no
    assertion on the way, with assertions on or off, and the step of the
    value that needs a register does not halt on one.  The same happens
    when no register is occupied at all. *)
Lemma eviction_selects_no_register :
  AllocatePhis 2 true [20; 21]%nat unused_phi_start
    = Ok (tt, unused_phis_placed) ∧
  register_values_ unused_phis_placed = [Some 20%nat; Some 21%nat] ∧
  free_registers_ unused_phis_placed = kEmptyRegList ∧
  furthest_from (indices 2) 0 (-1) unused_phis_placed
    = Ok (-1, unused_phis_placed) ∧
  FreeSomeRegister 2 unused_phis_placed = Undefined ∧
  (∀ D, AllocateNodes 2 D is_dead_past_end has_live_range_end [10%nat]
          unused_phis_placed = Undefined) ∧
  FreeSomeRegister 2 nothing_held = Undefined.
Proof.
  split; [vm_compute; reflexivity|]. split; [vm_compute; reflexivity|].
  split; [vm_compute; reflexivity|]. split; [vm_compute; reflexivity|].
  split; [vm_compute; reflexivity|]. split; [|vm_compute; reflexivity].
  intros []; vm_compute; reflexivity.
Qed.

(** * Spill slots *)

Section SpillSlots.
Variables (N : nat) (D : bool) (is_dead has_valid_live_range : Node → bool).

(** C9.  Spill slots.  [AllocateSpillSlot] on an unspilled node takes the
    slot on top of the free-slot list if there is one and else the slot
    [top_of_stack], which it bumps; [top_of_stack] does not decrease over
    a node step or over phi placement; spilling a spilled node does
    nothing, and a spilled node keeps its slot over the step of any other
    node; [UpdateInputUse] pushes a slot on the free-slot list only when
    the producer dies by this use, it is the producer's slot, and its index
    is greater than 0; no other part of a node step, nor phi placement,
    pushes a slot. *)
Theorem spill_slot_management :
  (∀ v s, is_spilled (node_at s v) = false →
     ∃ s', AllocateSpillSlot D v s = Ok (tt, s') ∧
       match free_slots_ s with
       | [] =>
           top_of_stack_ s' = top_of_stack_ s + 1 ∧ free_slots_ s' = [] ∧
           spill_or_hint (node_at s' v) = STACK_SLOT (top_of_stack_ s)
       | back :: rest =>
           top_of_stack_ s' = top_of_stack_ s ∧ free_slots_ s' = rest ∧
           spill_or_hint (node_at s' v) = STACK_SLOT back
       end) ∧
  (∀ p s s',
     AllocateNode N D is_dead has_valid_live_range p s = Ok (tt, s') →
     top_of_stack_ s <= top_of_stack_ s') ∧
  (∀ phis s s', AllocatePhis N D phis s = Ok (tt, s') →
     top_of_stack_ s <= top_of_stack_ s') ∧
  (∀ v s, is_spilled (node_at s v) = true → Spill D v s = Ok (tt, s)) ∧
  (∀ p q s s',
     AllocateNode N D is_dead has_valid_live_range p s = Ok (tt, s') →
     q ≠ p → is_spilled (node_at s q) = true →
     spill_or_hint (node_at s' q) = spill_or_hint (node_at s q)) ∧
  (∀ use i s s', UpdateInputUse N is_dead use i s = Ok (tt, s') →
     free_slots_ s' `suffix_of` free_slots_ s ∨
     ∃ index rest,
       free_slots_ s' = index :: rest ∧ rest `suffix_of` free_slots_ s ∧
       0 < index ∧
       spill_or_hint (node_at s (input_node i)) = STACK_SLOT index ∧
       is_dead (node_at s (input_node i)) = false ∧
       is_dead (set_next_use (next_use_id i) (node_at s (input_node i)))
         = true) ∧
  (∀ p k s s', AssignInput N D p k s = Ok (tt, s') →
     free_slots_ s' `suffix_of` free_slots_ s) ∧
  (∀ p s s', AssignTemporaries N D p s = Ok (tt, s') →
     free_slots_ s' `suffix_of` free_slots_ s) ∧
  (∀ s s', SpillAndClearRegisters N D s = Ok (tt, s') →
     free_slots_ s' `suffix_of` free_slots_ s) ∧
  (∀ s s', SpillRegisters N D s = Ok (tt, s') →
     free_slots_ s' `suffix_of` free_slots_ s) ∧
  (∀ p s s',
     AllocateNodeResult N D is_dead has_valid_live_range p s = Ok (tt, s') →
     free_slots_ s' `suffix_of` free_slots_ s) ∧
  (∀ phis s s', AllocatePhis N D phis s = Ok (tt, s') →
     free_slots_ s' `suffix_of` free_slots_ s).
Proof.
  split; [apply AllocateSpillSlot_spec|].
  split.
  { intros p s s' Hs.
    apply (step_top _ _ (AllocateNode_step N D _ _ p _ _ _ Hs)). }
  split.
  { intros phis s s' Hs. apply (step_top _ _ (AllocatePhis_step N D _ _ _ _ Hs)). }
  split; [apply Spill_spilled_noop|].
  split.
  { intros p q s s' Hs Hq Hsp.
    by apply (AllocateNode_stay N D is_dead has_valid_live_range p _ _ _ Hs). }
  split; [apply UpdateInputUse_slots|].
  split.
  { intros p k s s' Hs.
    by eapply (proj1 (AllocateNode_parts_taken N D is_dead
                        has_valid_live_range p)). }
  split.
  { intros p s s' Hs.
    by eapply (proj1 (proj2 (AllocateNode_parts_taken N D is_dead
                               has_valid_live_range p))). }
  split.
  { intros s s' Hs.
    by eapply (preserves_low_taken _ (SpillAndClearRegisters_low N D)). }
  split.
  { intros s s' Hs. by eapply (preserves_low_taken _ (SpillRegisters_low N D)). }
  split.
  { intros p s s' Hs.
    by eapply (proj2 (proj2 (proj2 (proj2 (AllocateNode_parts_taken N D
                 is_dead has_valid_live_range p))))). }
  intros phis s s' Hs. by eapply AllocatePhis_taken.
Qed.

End SpillSlots.

(** * The theorems at work *)

Lemma before_call_consistent : Consistent 2 [] None before_call.
Proof.
  destruct (initial_state_consistent 2 call_nodes ∅) as [HC _]; [lia|done|].
  apply (AllocateNodes_inv 2 true is_dead_past_end has_live_range_end
           [10%nat] call_start tt before_call); [|exact HC].
  vm_compute. reflexivity.
Defined.


Lemma conditional_next_hole_witness :
  (∃ fuel0, ∀ fuel, (fuel0 ≤ fuel)%nat →
     Holes.ProcessBlock fuel diamond_below 0%nat =
     Some (Holes.set_next_post_dominating_hole 100%nat (Some 103%nat)
             diamond_below)) ∧
  on_chain diamond_below (Some 101%nat) (Some 103%nat) ∧
  on_chain diamond_below (Some 103%nat) (Some 103%nat).
Proof.
  apply (conditional_next_hole diamond_below 0%nat 1%nat 2%nat
           (Some 103%nat)).
  - vm_compute. reflexivity.
  - change (meets diamond_below (Some 101%nat) (Some 103%nat) (Some 103%nat)).
    apply meets_advance.
    + discriminate.
    + vm_compute. reflexivity.
    + change (meets diamond_below (Some 103%nat) (Some 103%nat)
                (Some 103%nat)).
      apply meets_here.
Defined.

Lemma FreeSomeRegister_selects_witness :
  ∃ x v,
    furthest_from (indices 2) 0 (-1) before_call = Ok (x, before_call) ∧
    0 <= x < 2 ∧
    register_values_ before_call !! Z.to_nat x = Some (Some v) ∧
    (∀ k w, register_values_ before_call !! k = Some (Some w) →
            next_use (node_at before_call w)
            <= next_use (node_at before_call v)) ∧
    FreeSomeRegister 2 before_call = FreeRegister 2 x before_call.
Proof.
  apply (FreeSomeRegister_selects 2 before_call).
  - vm_compute. reflexivity.
  - exists 0%nat, 10%nat. split; [vm_compute; reflexivity|].
    vm_compute. reflexivity.
Defined.

Lemma call_clears_registers_witness :
  ∃ s' s1 s2,
    AllocateNode 2 true is_dead_past_end has_live_range_end 13%nat before_call
      = Ok (tt, s') ∧
    AllocateNode_inputs 2 true is_dead_past_end 13%nat before_call
      = Ok (tt, s1) ∧
    SpillAndClearRegisters 2 true s1 = Ok (tt, s2) ∧
    AllFree 2 s2 ∧
    register_values_ s1 !! 0%nat = Some (Some 10%nat) ∧
    is_spilled (node_at s2 10%nat) = true ∧
    OnlyHolder 13%nat s'.
Proof.
  exists (state_after
            (AllocateNode 2 true is_dead_past_end has_live_range_end 13%nat)
            before_call).
  assert (AllocateNode 2 true is_dead_past_end has_live_range_end 13%nat
            before_call =
          Ok (tt, state_after
                    (AllocateNode 2 true is_dead_past_end has_live_range_end
                       13%nat) before_call)) as Hrun
    by (vm_compute; reflexivity).
  destruct (call_clears_registers 2 true is_dead_past_end has_live_range_end
              13%nat before_call _ before_call_consistent eq_refl Hrun)
    as (s1 & s2 & Hin & Hclear & Hfree & Hspilled & _ & Honly & _).
  exists s1, s2.
  assert (s1 = call_inputs_assigned) as Hs1.
  { vm_compute in Hin. injection Hin as <-. vm_compute. reflexivity. }
  assert (register_values_ s1 !! 0%nat = Some (Some 10%nat)) as Hheld
    by (rewrite Hs1; vm_compute; reflexivity).
  assert (unshared s1 0 10%nat) as Hun.
  { rewrite Hs1. intros j x Hj Hne.
    destruct j as [|[|j]]; vm_compute in Hj; try discriminate Hj.
    injection Hj as <-. done. }
  exact (conj Hrun (conj Hin (conj Hclear (conj Hfree
           (conj Hheld (conj (Hspilled 0%nat 10%nat Hheld Hun) Honly)))))).
Defined.

Lemma SpillRegisters_keeps_registers_witness :
  ∃ s', SpillRegisters 2 true before_call = Ok (tt, s') ∧
    register_values_ s' = register_values_ before_call ∧
    free_registers_ s' = free_registers_ before_call ∧
    ∀ k v, register_values_ before_call !! k = Some (Some v) →
      is_spilled (node_at s' v) = true.
Proof.
  apply (SpillRegisters_keeps_registers 2 true before_call).
  vm_compute. reflexivity.
Defined.

Lemma AllocatePhis_allocates_witness :
  ∃ s' s1 s2,
    AllocatePhis 2 true [20; 21; 22]%nat phi_start = Ok (tt, s') ∧
    for_each [20; 21; 22]%nat (phi_to_input 2 true) phi_start = Ok (tt, s1) ∧
    for_each [20; 21; 22]%nat (phi_to_free_register 2 true) s1 = Ok (tt, s2) ∧
    for_each [20; 21; 22]%nat (phi_to_stack_slot true) s2 = Ok (tt, s') ∧
    IsAllocated (result (node_at s' 22%nat)) = true.
Proof.
  exists (state_after (AllocatePhis 2 true [20; 21; 22]%nat) phi_start).
  assert (AllocatePhis 2 true [20; 21; 22]%nat phi_start =
          Ok (tt, state_after (AllocatePhis 2 true [20; 21; 22]%nat)
                    phi_start)) as Hrun
    by (vm_compute; reflexivity).
  destruct (proj1 (proj2 (proj2 (proj2 (proj2 (proj2 (proj2
              (AllocatePhis_allocates 2 true)))))))
              [20; 21; 22]%nat phi_start _ Hrun) as (s1 & s2 & H1 & H2 & H3).
  exists s1, s2. split; [exact Hrun|]. split; [exact H1|].
  split; [exact H2|]. split; [exact H3|].
  apply (proj1 (proj2 (proj2 (proj2 (AllocatePhis_allocates 2 true))))
           [20; 21; 22]%nat phi_start _ Hrun).
  apply list_elem_of_In. simpl. auto.
Defined.

Lemma spill_slot_management_witness :
  is_spilled (node_at phi_start 22%nat) = false ∧
  ∃ s', AllocateSpillSlot true 22%nat phi_start = Ok (tt, s') ∧
    top_of_stack_ s' = top_of_stack_ phi_start + 1 ∧ free_slots_ s' = [] ∧
    spill_or_hint (node_at s' 22%nat) = STACK_SLOT (top_of_stack_ phi_start).
Proof.
  split; [reflexivity|].
  apply (proj1 (spill_slot_management 2 true is_dead_past_end
                  has_live_range_end) 22%nat phi_start).
  reflexivity.
Defined.

Lemma UpdateInputUse_dead_witness :
  is_dead_past_end (node_at dead_producer 10%nat) = true ∧
  UpdateInputUse 2 is_dead_past_end 7 (mkInput 10%nat 0 (REGISTER 0))
    dead_producer = Ok (tt, dead_producer).
Proof.
  split; [reflexivity|].
  apply (UpdateInputUse_dead 2 is_dead_past_end 7
           (mkInput 10%nat 0 (REGISTER 0)) dead_producer).
  reflexivity.
Defined.

(** * Where the code parts from the claims *)


(** C4, as stated, fails on the diamond: the loop advances the control
    node with the smaller id (the jump of block 1) and reaches the Return,
    where advancing the larger id would stop at once at the jump. *)
Lemma advances_smaller_id : ¬ advances_larger_id.
Proof.
  intros H.
  specialize (H 10%nat diamond_below 0%nat 1%nat 2%nat (Some 101%nat)).
  pose proof (f_equal
    (λ og, match og with
           | Some g =>
               Holes.next_post_dominating_hole (Holes.control_at g 100%nat)
           | None => None
           end) (H ltac:(vm_compute; reflexivity)
                   ltac:(vm_compute; reflexivity))) as Hlink.
  vm_compute in Hlink. discriminate.
Qed.

(** Eviction selects nothing: a register held by a value with next-use
    id 0 is occupied, yet the index selected is -1; and with no register
    occupied [FreeSomeRegister] does not halt on an assertion, it writes to
    [register_values_[-1]]. *)
Lemma eviction_without_assertion :
  ¬ selects_valid_index_when_occupied 2 ∧ ¬ asserts_when_nothing_occupied 2.
Proof.
  split.
  - intros H. destruct (H unused_holder eq_refl) as (x & Hx & Hr).
    + exists 0%nat, 10%nat. reflexivity.
    + vm_compute in Hx. injection Hx as <-. lia.
  - intros H. assert (FreeSomeRegister 2 nothing_held = Fatal) as Hf.
    { apply H; [reflexivity|].
      intros [|[|k]] v Hk; vm_compute in Hk; discriminate. }
    vm_compute in Hf. discriminate.
Qed.

(** C6, as stated, fails for a call that produces a value: after the step
    of the call [B], register 0 holds [B]. *)
Lemma call_result_occupies_register :
  ¬ register_file_empty_after_call 2 true is_dead_past_end has_live_range_end.
Proof.
  intros H.
  assert (AllocateNode 2 true is_dead_past_end has_live_range_end 13%nat
            before_call =
          Ok (tt, state_after
                    (AllocateNode 2 true is_dead_past_end has_live_range_end
                       13%nat) before_call)) as Hrun
    by (vm_compute; reflexivity).
  destruct (H 13%nat before_call _ before_call_consistent eq_refl Hrun 0%nat)
    as [Hl _]; [lia|].
  vm_compute in Hl. discriminate.
Qed.

Lemma control_at_set c h g x :
  Holes.control_at (Holes.set_next_post_dominating_hole c h g) x =
  if decide (c = x)
  then Holes.mkControl (Holes.id (Holes.control_at g c))
         (Holes.kind (Holes.control_at g c)) h
  else Holes.control_at g x.
Proof.
  unfold Holes.control_at, Holes.set_next_post_dominating_hole. simpl.
  destruct (decide (c = x)) as [->|Hne].
  - by rewrite lookup_total_insert_eq.
  - by rewrite lookup_total_insert_ne.
Qed.

Lemma id_set c h g x :
  Holes.id (Holes.control_at (Holes.set_next_post_dominating_hole c h g) x) =
  Holes.id (Holes.control_at g x).
Proof. rewrite control_at_set. by destruct (decide (c = x)) as [->|]. Qed.

Lemma kind_set c h g x :
  Holes.kind (Holes.control_at (Holes.set_next_post_dominating_hole c h g) x) =
  Holes.kind (Holes.control_at g x).
Proof. rewrite control_at_set. by destruct (decide (c = x)) as [->|]. Qed.

Lemma link_set c h g x :
  Holes.next_post_dominating_hole
    (Holes.control_at (Holes.set_next_post_dominating_hole c h g) x) =
  if decide (c = x) then h
  else Holes.next_post_dominating_hole (Holes.control_at g x).
Proof. rewrite control_at_set. by destruct (decide (c = x)). Qed.

Global Instance HolesFrame_preorder : PreOrder HolesFrame.
Proof.
  split.
  - intros g. by split.
  - intros g1 g2 g3 [Hb1 Ho1 Hi1 Hk1 He1] [Hb2 Ho2 Hi2 Hk2 He2].
    split; try congruence.
    intros c Hc. rewrite He2, He1; [done|done|].
    unfold Holes.is_Return_or_JumpLoop in *. by rewrite Hk1.
Qed.

Lemma set_frame c h g :
  Holes.is_Return_or_JumpLoop g c = false →
  HolesFrame g (Holes.set_next_post_dominating_hole c h g).
Proof.
  intros Hc. split; try done.
  - intros x. apply id_set.
  - intros x. apply kind_set.
  - intros x Hx. rewrite link_set. destruct (decide (c = x)) as [->|]; [|done].
    congruence.
Qed.

Lemma is_hole_frame g g' c : HolesFrame g g' → is_hole g' c = is_hole g c.
Proof.
  intros [Hb Ho Hi Hk He]. unfold is_hole, Holes.IsTargetOfNodeFallthrough,
    Holes.block_at. by rewrite Hk, Hi, Ho.
Qed.

Lemma ProcessBlock_frame fuel g b g' :
  Holes.ProcessBlock fuel g b = Some g' → HolesFrame g g'.
Proof.
  unfold Holes.ProcessBlock. intros H.
  destruct (Holes.kind (Holes.control_at g (Holes.control_node (Holes.block_at g b))))
    as [target|target| |if_true if_false] eqn:Hk.
  - injection H as <-. apply set_frame. unfold Holes.is_Return_or_JumpLoop.
    by rewrite Hk.
  - by injection H as <-.
  - by injection H as <-.
  - assert (Holes.is_Return_or_JumpLoop g
              (Holes.control_node (Holes.block_at g b)) = false) as Hc.
    { unfold Holes.is_Return_or_JumpLoop. by rewrite Hk. }
    destruct (Holes.merge_point _ _ _ _); try done; injection H as <-.
    + by apply set_frame.
    + etrans; [by apply set_frame|]. apply set_frame.
      unfold Holes.is_Return_or_JumpLoop. rewrite kind_set. by rewrite Hk.
Qed.

Lemma ProcessBlocks_frame fuel l : ∀ g g',
  Holes.ProcessBlocks fuel g l = Some g' → HolesFrame g g'.
Proof.
  induction l as [|b l IH]; intros g g' H; simpl in H.
  - injection H as <-. reflexivity.
  - destruct (Holes.ProcessBlock fuel g b) as [g1|] eqn:Hb; [|done].
    etrans; [by eapply ProcessBlock_frame|by apply IH].
Qed.

(** The nearest hole of a node is a hole. *)
Lemma Nearest_is_hole g c h :
  links_to_holes g →
  Holes.NearestPostDominatingHole g c = Some h → is_hole g h = true.
Proof.
  intros Hl. unfold Holes.NearestPostDominatingHole.
  destruct (Holes.kind (Holes.control_at g c)) as [t|t| |t f] eqn:Hk.
  - destruct (Holes.IsTargetOfNodeFallthrough g c t) eqn:Hf.
    + apply Hl.
    + intros [= <-]. unfold is_hole. by rewrite Hk, Hf.
  - intros [= <-]. unfold is_hole. by rewrite Hk.
  - intros [= <-]. unfold is_hole. by rewrite Hk.
  - apply Hl.
Qed.

Lemma merge_point_holes g fuel : ∀ a b,
  links_to_holes g → hole_or_null g a → hole_or_null g b →
  match Holes.merge_point fuel g a b with
  | Holes.Merged c => hole_or_null g c
  | Holes.Broke f s => is_hole g f = true ∧ is_hole g s = true
  | _ => True
  end.
Proof.
  induction fuel as [|fuel IH]; intros a b Hl Ha Hb; simpl; [done|].
  case_bool_decide; [done|].
  destruct a as [a|]; [|done]. destruct b as [b|]; [|done].
  set (sw := Holes.id (Holes.control_at g a) >? Holes.id (Holes.control_at g b)).
  assert (is_hole g (if sw then b else a) = true) as Hf
    by (destruct sw; [by apply Hb|by apply Ha]).
  assert (is_hole g (if sw then a else b) = true) as Hs
    by (destruct sw; [by apply Ha|by apply Hb]).
  destruct (Holes.is_Return_or_JumpLoop g (if sw then b else a)); [done|].
  apply IH; [done| |].
  - intros h Hh. by eapply Hl.
  - by intros h [= <-].
Qed.

Lemma set_links g c h :
  links_to_holes g → hole_or_null g h →
  links_to_holes (Holes.set_next_post_dominating_hole c h g).
Proof.
  intros Hl Hh x y. rewrite link_set.
  assert (∀ z, is_hole (Holes.set_next_post_dominating_hole c h g) z
               = is_hole g z) as E.
  { intros z. unfold is_hole, Holes.IsTargetOfNodeFallthrough.
    by rewrite kind_set, id_set. }
  rewrite E. destruct (decide (c = x)); [apply Hh|apply Hl].
Qed.

Lemma ProcessBlock_links fuel g b g' :
  links_to_holes g → Holes.ProcessBlock fuel g b = Some g' → links_to_holes g'.
Proof.
  intros Hl. unfold Holes.ProcessBlock.
  destruct (Holes.kind (Holes.control_at g (Holes.control_node (Holes.block_at g b))))
    as [target|target| |if_true if_false] eqn:Hk; try (by intros [= <-]).
  - intros [= <-]. apply set_links; [done|].
    intros h. by apply Nearest_is_hole.
  - pose proof (merge_point_holes g fuel
      (Holes.NearestPostDominatingHole g
         (Holes.control_node (Holes.block_at g if_true)))
      (Holes.NearestPostDominatingHole g
         (Holes.control_node (Holes.block_at g if_false))) Hl) as Hm.
    destruct (Holes.merge_point _ _ _ _) as [c|f s| |]; try done;
      intros [= <-].
    + apply set_links; [done|]. apply Hm; intros h; by apply Nearest_is_hole.
    + destruct Hm as [Hf Hs]; try (intros h; by apply Nearest_is_hole).
      apply set_links.
      * apply set_links; [done|]. by intros h [= <-].
      * intros h [= <-]. unfold is_hole, Holes.IsTargetOfNodeFallthrough in *.
        by rewrite kind_set, id_set.
Qed.

Lemma ProcessBlocks_links fuel l : ∀ g g',
  links_to_holes g → Holes.ProcessBlocks fuel g l = Some g' → links_to_holes g'.
Proof.
  induction l as [|b l IH]; intros g g' Hl H; simpl in H.
  - by injection H as <-.
  - destruct (Holes.ProcessBlock fuel g b) as [g1|] eqn:Hb; [|done].
    eapply IH; [|done]. by eapply ProcessBlock_links.
Qed.

Lemma ProcessBlocks_app fuel l1 : ∀ l2 g,
  Holes.ProcessBlocks fuel g (l1 ++ l2) =
  match Holes.ProcessBlocks fuel g l1 with
  | Some g1 => Holes.ProcessBlocks fuel g1 l2
  | None => None
  end.
Proof.
  induction l1 as [|b l1 IH]; intros l2 g; simpl; [done|].
  destruct (Holes.ProcessBlock fuel g b); [apply IH|done].
Qed.

Lemma hole_from_mono g k k' h : (k' ≤ k)%nat → hole_from g k h → hole_from g k' h.
Proof. intros Hk (j & bh & ? & ? & ? & ?). exists j, bh. split; [lia|done]. Qed.

Lemma IsTargetOfNodeFallthrough_frame g g' c t :
  HolesFrame g g' →
  Holes.IsTargetOfNodeFallthrough g' c t = Holes.IsTargetOfNodeFallthrough g c t.
Proof.
  intros Hf. unfold Holes.IsTargetOfNodeFallthrough, Holes.block_at.
  by rewrite (hf_id _ _ Hf), (hf_block_objects _ _ Hf).
Qed.

Lemma is_Return_or_JumpLoop_frame g g' c :
  HolesFrame g g' →
  Holes.is_Return_or_JumpLoop g' c = Holes.is_Return_or_JumpLoop g c.
Proof. intros Hf. unfold Holes.is_Return_or_JumpLoop. by rewrite (hf_kind _ _ Hf). Qed.

Section Forward.
Variable g : Holes.Graph.
Hypothesis Hnd : NoDup (control_of g <$> Holes.blocks g).
Hypothesis Hfw : forward g.

Lemma Nearest_from i g' k t :
  processed g i g' → (i ≤ k)%nat → Holes.blocks g !! k = Some t →
  ∃ x, Holes.NearestPostDominatingHole g' (control_of g t) = Some x ∧
       hole_from g k x.
Proof.
  intros [Hf Hp] Hk Ht. unfold Holes.NearestPostDominatingHole.
  pose proof (Hp k t Hk Ht) as Hlink.
  rewrite (hf_kind _ _ Hf).
  assert (∀ x, x = control_of g t → is_hole g x = true → hole_from g k x) as Hself.
  { intros x -> Hx. exists k, t. done. }
  destruct (Holes.kind (Holes.control_at g (control_of g t)))
    as [target|target| |if_true if_false] eqn:E.
  - rewrite (IsTargetOfNodeFallthrough_frame _ _ _ _ Hf).
    destruct (Holes.IsTargetOfNodeFallthrough g (control_of g t) target) eqn:Ef.
    + destruct Hlink as (h & -> & Hh); [done|].
      eexists. split; [done|]. eapply hole_from_mono; [|done]. lia.
    + eexists. split; [done|]. apply Hself; [done|].
      unfold is_hole. by rewrite E, Ef.
  - eexists. split; [done|]. apply Hself; [done|]. unfold is_hole. by rewrite E.
  - eexists. split; [done|]. apply Hself; [done|]. unfold is_hole. by rewrite E.
  - destruct Hlink as (h & -> & Hh); [done|].
    eexists. split; [done|]. eapply hole_from_mono; [|done]. lia.
Qed.

Lemma merge_point_forward i g' :
  processed g i g' →
  ∀ fuel a b pa pb,
    hole_from g pa a → hole_from g pb b → (i ≤ pa)%nat → (i ≤ pb)%nat →
    (2 * length (Holes.blocks g) < fuel + pa + pb)%nat →
    match Holes.merge_point fuel g' (Some a) (Some b) with
    | Holes.Merged c => ∃ x, c = Some x ∧ hole_from g i x
    | Holes.Broke f s => hole_from g i f
    | _ => False
    end.
Proof.
  intros [Hf Hp]. induction fuel as [|fuel IH]; intros a b pa pb Ha Hb Hia Hib Hfuel.
  - destruct Ha as (ja & ba & Hja & Hla%lookup_lt_Some & _).
    destruct Hb as (jb & bb & Hjb & Hlb%lookup_lt_Some & _). lia.
  - simpl. case_bool_decide as Hab.
    { eexists. split; [done|]. eapply hole_from_mono; [|done]. done. }
    set (sw := Holes.id (Holes.control_at g' a) >? Holes.id (Holes.control_at g' b)).
    assert (∃ pf ps, hole_from g pf (if sw then b else a) ∧
                     hole_from g ps (if sw then a else b) ∧
                     (i ≤ pf)%nat ∧ (i ≤ ps)%nat ∧
                     (2 * length (Holes.blocks g) < S fuel + pf + ps)%nat)
      as (pf & ps & Hfst & Hsnd & Hif & His & Hm).
    { destruct sw; [exists pb, pa|exists pa, pb]; repeat split; try done; lia. }
    clearbody sw. clear Ha Hb Hia Hib Hfuel Hab.
    rewrite (is_Return_or_JumpLoop_frame _ _ _ Hf).
    destruct (Holes.is_Return_or_JumpLoop g (if sw then b else a)) eqn:Er.
    { eapply hole_from_mono; [|done]. done. }
    destruct Hfst as (j & bf & Hj & Hbf & Hcf & Hhole).
    destruct (Hp j bf) as (h & Hh & Hafter); [lia|done| |].
    { rewrite Hcf. unfold is_hole in Hhole.
      unfold Holes.is_Return_or_JumpLoop in Er.
      by destruct (Holes.kind (Holes.control_at g (if sw then b else a))). }
    rewrite Hcf in Hh. rewrite Hh.
    apply (IH _ _ (S j) ps); [done|done|lia|done|lia].
Qed.

Lemma control_of_inj k k' b b' :
  Holes.blocks g !! k = Some b → Holes.blocks g !! k' = Some b' →
  control_of g b = control_of g b' → k = k'.
Proof.
  intros Hb Hb' E.
  eapply (NoDup_lookup _ _ _ _ Hnd); rewrite list_lookup_fmap.
  - by rewrite Hb.
  - rewrite Hb'. simpl. by rewrite E.
Qed.

Lemma set_processed i g' b x :
  processed g (S i) g' → Holes.blocks g !! i = Some b →
  writes_link (Holes.kind (Holes.control_at g (control_of g b))) = true →
  hole_from g (S i) x →
  processed g i (Holes.set_next_post_dominating_hole (control_of g b) (Some x) g').
Proof.
  intros [Hf Hp] Hb Hw Hx. split.
  - etrans; [done|]. apply set_frame.
    rewrite (is_Return_or_JumpLoop_frame _ _ _ Hf).
    unfold Holes.is_Return_or_JumpLoop.
    by destruct (Holes.kind (Holes.control_at g (control_of g b))).
  - intros k b' Hk Hb' Hw'. rewrite link_set.
    destruct (decide (control_of g b = control_of g b')) as [E|E].
    + assert (i = k) as <- by (by eapply control_of_inj). eauto.
    + apply Hp; [|done|done].
      destruct (decide (k = i)) as [->|]; [|lia]. congruence.
Qed.

Lemma ProcessBlock_forward fuel i g' b :
  (2 * length (Holes.blocks g) < fuel)%nat →
  processed g (S i) g' → Holes.blocks g !! i = Some b →
  ∃ g'', Holes.ProcessBlock fuel g' b = Some g'' ∧ processed g i g''.
Proof.
  intros Hfuel Hp Hb. pose proof Hp as [Hf Hp'].
  unfold Holes.ProcessBlock.
  assert (∀ t, Holes.control_node (Holes.block_at g' t) = control_of g t) as Ect.
  { intros t. unfold control_of, Holes.block_at.
    by rewrite (hf_block_objects _ _ Hf). }
  rewrite !Ect.
  rewrite (hf_kind _ _ Hf). pose proof (Hfw i b Hb) as Ht.
  destruct (Holes.kind (Holes.control_at g (control_of g b)))
    as [target|target| |if_true if_false] eqn:E.
  - destruct Ht as (j & Hj & Ht). rewrite Ect.
    destruct (Nearest_from (S i) g' j target Hp) as (x & -> & Hx); [lia|done|].
    eexists. split; [done|]. apply set_processed; [done|done|by rewrite E|].
    eapply hole_from_mono; [|done]. lia.
  - eexists. split; [done|]. split; [done|].
    intros k b' Hk Hb' Hw. destruct (decide (k = i)) as [->|].
    + assert (b' = b) as -> by congruence. by rewrite E in Hw.
    + apply Hp'; [lia|done|done].
  - eexists. split; [done|]. split; [done|].
    intros k b' Hk Hb' Hw. destruct (decide (k = i)) as [->|].
    + assert (b' = b) as -> by congruence. by rewrite E in Hw.
    + apply Hp'; [lia|done|done].
  - destruct Ht as [(jt & Hjt & Ht) (jf & Hjf & Hff)]. rewrite !Ect.
    destruct (Nearest_from (S i) g' jt if_true Hp) as (a & -> & Ha); [lia|done|].
    destruct (Nearest_from (S i) g' jf if_false Hp) as (c & -> & Hc); [lia|done|].
    pose proof (merge_point_forward (S i) g' Hp fuel a c jt jf Ha Hc) as Hm.
    destruct (Holes.merge_point fuel g' (Some a) (Some c)) as [m|f s| |].
    + destruct Hm as (x & -> & Hx); [lia|lia|lia|].
      eexists. split; [done|]. apply set_processed; try done. by rewrite E.
    + eexists. split; [done|].
      assert (hole_from g (S i) f) as Hfh by (apply Hm; lia).
      assert (writes_link
                (Holes.kind (Holes.control_at g (control_of g b))) = true) as Hw
        by (by rewrite E).
      split.
      * etrans; [done|].
        assert (Holes.is_Return_or_JumpLoop g' (control_of g b) = false) as Hr.
        { rewrite (is_Return_or_JumpLoop_frame _ _ _ Hf).
          unfold Holes.is_Return_or_JumpLoop. by rewrite E. }
        etrans; [by apply set_frame|]. apply set_frame.
        unfold Holes.is_Return_or_JumpLoop in *. by rewrite kind_set.
      * intros k b' Hk Hb' Hw'. rewrite !link_set.
        destruct (decide (control_of g b = control_of g b')) as [Eq|Eq].
        -- assert (i = k) as <- by (by eapply control_of_inj). eauto.
        -- apply Hp'; [|done|done].
           destruct (decide (k = i)) as [->|]; [|lia]. congruence.
    + exfalso. apply Hm; lia.
    + exfalso. apply Hm; lia.
Qed.

Lemma ProcessBlocks_forward fuel :
  (2 * length (Holes.blocks g) < fuel)%nat →
  ∀ d i, (i + d = length (Holes.blocks g))%nat →
    ∃ g', Holes.ProcessBlocks fuel g (reverse (drop i (Holes.blocks g))) = Some g' ∧
          processed g i g'.
Proof.
  intros Hfuel. induction d as [|d IH]; intros i Hi.
  - rewrite drop_ge by lia. exists g. split; [done|]. split; [done|].
    intros k b Hk Hb%lookup_lt_Some. lia.
  - destruct (lookup_lt_is_Some_2 (Holes.blocks g) i) as [b Hb]; [lia|].
    rewrite (drop_S _ _ _ Hb), reverse_cons, ProcessBlocks_app.
    destruct (IH (S i)) as (g' & -> & Hp); [lia|].
    destruct (ProcessBlock_forward fuel i g' b Hfuel Hp Hb) as (g'' & Hg'' & Hp').
    exists g''. simpl. by rewrite Hg''.
Qed.

End Forward.

(** * The post-dominating holes of a whole graph *)

Lemma is_hole_Nearest g h :
  is_hole g h = true → Holes.NearestPostDominatingHole g h = Some h.
Proof.
  unfold is_hole, Holes.NearestPostDominatingHole.
  destruct (Holes.kind (Holes.control_at g h)) as [target|target| |if_true if_false];
    try done.
  by destruct (Holes.IsTargetOfNodeFallthrough g h target).
Qed.

(** In a graph whose branches all go forward, and whose blocks have a
    control node each, [ComputePostDominatingHoles] comes to an end (fuel
    for two steps per block is enough), and it leaves every jump and every
    conditional with a link to a hole that is the control node of a later
    block. *)
Theorem ComputePostDominatingHoles_forward g fuel :
  NoDup (control_of g <$> Holes.blocks g) →
  forward g →
  (2 * length (Holes.blocks g) < fuel)%nat →
  ∃ g', Holes.ComputePostDominatingHoles fuel g = Some g' ∧
    ∀ k b, Holes.blocks g !! k = Some b →
      writes_link (Holes.kind (Holes.control_at g (control_of g b))) = true →
      ∃ h, Holes.next_post_dominating_hole
             (Holes.control_at g' (control_of g b)) = Some h ∧
           hole_from g (S k) h.
Proof.
  intros Hnd Hfw Hfuel. unfold Holes.ComputePostDominatingHoles.
  destruct (ProcessBlocks_forward g Hnd Hfw fuel Hfuel
              (length (Holes.blocks g)) 0%nat) as (g' & Hg' & _ & Hp); [lia|].
  rewrite drop_0 in Hg'. exists g'. split; [done|].
  intros k b Hb Hw. apply Hp; [lia|done|done].
Qed.

Lemma diamond_control c :
  Holes.next_post_dominating_hole (Holes.control_at diamond c) = None.
Proof.
  unfold Holes.control_at, diamond. simpl.
  repeat (match goal with
          | |- context [<[?k := _]> _ !!! c] =>
              destruct (decide (k = c)) as [<-|];
              [by rewrite lookup_total_insert_eq
              |rewrite lookup_total_insert_ne by done]
          end).
  by rewrite lookup_total_empty.
Defined.

Lemma diamond_forward : forward diamond.
Proof.
  intros k b Hb.
  destruct k as [|[|[|[|k]]]]; simpl in Hb; try done; injection Hb as <-.
  - split; [exists 1%nat|exists 2%nat]; (split; [lia|done]).
  - exists 3%nat. split; [lia|done].
  - exists 3%nat. split; [lia|done].
  - done.
Defined.

Lemma diamond_NoDup : NoDup (control_of diamond <$> Holes.blocks diamond).
Proof.
  change (NoDup [100; 101; 102; 103]%nat).
  apply (bool_decide_unpack _). by vm_compute.
Defined.

Lemma ComputePostDominatingHoles_forward_witness :
  ∃ g', Holes.ComputePostDominatingHoles 9 diamond = Some g' ∧
    ∀ k b, Holes.blocks diamond !! k = Some b →
      writes_link
        (Holes.kind (Holes.control_at diamond (control_of diamond b))) = true →
      ∃ h, Holes.next_post_dominating_hole
             (Holes.control_at g' (control_of diamond b)) = Some h ∧
           hole_from diamond (S k) h.
Proof.
  apply (ComputePostDominatingHoles_forward diamond 9);
    [exact diamond_NoDup|exact diamond_forward|simpl; lia].
Defined.

(** If every link of a graph is null or points to a hole (a Return, a
    JumpLoop, or a Jump whose target is not its fall-through), the same
    holds after [ComputePostDominatingHoles]; the nearest post-dominating
    hole of any control node is then such a hole, and a hole is its own
    nearest hole. *)
Theorem post_dominating_links_are_holes fuel g g' :
  links_to_holes g →
  Holes.ComputePostDominatingHoles fuel g = Some g' →
  links_to_holes g' ∧
  ∀ c h, Holes.NearestPostDominatingHole g' c = Some h →
    is_hole g' h = true ∧ Holes.NearestPostDominatingHole g' h = Some h.
Proof.
  intros Hl Hg. unfold Holes.ComputePostDominatingHoles in Hg.
  pose proof (ProcessBlocks_links _ _ _ _ Hl Hg) as Hl'.
  split; [done|]. intros c h Hh.
  pose proof (Nearest_is_hole _ _ _ Hl' Hh) as Hhole.
  split; [done|]. by apply is_hole_Nearest.
Qed.

Lemma diamond_links : links_to_holes diamond.
Proof. intros c h. by rewrite diamond_control. Defined.

Lemma post_dominating_links_are_holes_witness :
  links_to_holes
    (default diamond (Holes.ComputePostDominatingHoles 9 diamond)) ∧
  ∀ c h,
    Holes.NearestPostDominatingHole
      (default diamond (Holes.ComputePostDominatingHoles 9 diamond)) c
      = Some h →
    is_hole (default diamond (Holes.ComputePostDominatingHoles 9 diamond)) h
      = true ∧
    Holes.NearestPostDominatingHole
      (default diamond (Holes.ComputePostDominatingHoles 9 diamond)) h
      = Some h.
Proof.
  apply (post_dominating_links_are_holes 9 diamond); [exact diamond_links|].
  by vm_compute.
Defined.

(** [ComputePostDominatingHoles] writes next-hole links and nothing else:
    the blocks, and the id and the kind of every control node, are as they
    were, and the link of a Return or of a JumpLoop is never written. *)
Theorem ComputePostDominatingHoles_frame fuel g g' :
  Holes.ComputePostDominatingHoles fuel g = Some g' →
  Holes.blocks g' = Holes.blocks g ∧
  Holes.block_objects g' = Holes.block_objects g ∧
  (∀ c, Holes.id (Holes.control_at g' c) = Holes.id (Holes.control_at g c)) ∧
  (∀ c, Holes.kind (Holes.control_at g' c) = Holes.kind (Holes.control_at g c)) ∧
  (∀ c, Holes.is_Return_or_JumpLoop g c = true →
     Holes.next_post_dominating_hole (Holes.control_at g' c) =
     Holes.next_post_dominating_hole (Holes.control_at g c)).
Proof.
  intros Hg. unfold Holes.ComputePostDominatingHoles in Hg.
  by destruct (ProcessBlocks_frame _ _ _ _ Hg).
Qed.

Lemma ComputePostDominatingHoles_frame_witness :
  ∃ g', Holes.ComputePostDominatingHoles 9 early_return = Some g' ∧
    Holes.blocks g' = Holes.blocks early_return ∧
    Holes.block_objects g' = Holes.block_objects early_return ∧
    (∀ c, Holes.id (Holes.control_at g' c)
          = Holes.id (Holes.control_at early_return c)) ∧
    (∀ c, Holes.kind (Holes.control_at g' c)
          = Holes.kind (Holes.control_at early_return c)) ∧
    (∀ c, Holes.is_Return_or_JumpLoop early_return c = true →
       Holes.next_post_dominating_hole (Holes.control_at g' c) =
       Holes.next_post_dominating_hole (Holes.control_at early_return c)).
Proof.
  eexists. split; [by vm_compute|].
  apply (ComputePostDominatingHoles_frame 9 early_return). by vm_compute.
Defined.

(** When the two branches of a conditional lead to different holes and the
    one with the smaller id is a Return or a JumpLoop, the loop is left by
    [break]; the link of the conditional is then that Return or JumpLoop:
    the link to the other hole, set just before the [break], is overwritten
    after the loop. *)
Theorem conditional_break_link fuel g b if_true if_false x y :
  Holes.kind (Holes.control_at g (Holes.control_node (Holes.block_at g b)))
    = Holes.ConditionalControlNode if_true if_false →
  Holes.NearestPostDominatingHole g
    (Holes.control_node (Holes.block_at g if_true)) = Some x →
  Holes.NearestPostDominatingHole g
    (Holes.control_node (Holes.block_at g if_false)) = Some y →
  x ≠ y →
  Holes.is_Return_or_JumpLoop g
    (if Holes.id (Holes.control_at g x) >? Holes.id (Holes.control_at g y)
     then y else x) = true →
  ∃ g', Holes.ProcessBlock (S fuel) g b = Some g' ∧
    Holes.next_post_dominating_hole
      (Holes.control_at g' (Holes.control_node (Holes.block_at g b)))
    = Some (if Holes.id (Holes.control_at g x) >? Holes.id (Holes.control_at g y)
            then y else x).
Proof.
  intros Hk Hx Hy Hne Hr. unfold Holes.ProcessBlock. rewrite Hk, Hx, Hy.
  simpl. rewrite bool_decide_eq_false_2 by congruence. rewrite Hr.
  eexists. split; [done|]. rewrite link_set. by rewrite decide_True.
Qed.

Lemma conditional_break_link_witness :
  ∃ g', Holes.ProcessBlock 1 early_return_below 0%nat = Some g' ∧
    Holes.next_post_dominating_hole (Holes.control_at g' 100%nat)
    = Some 101%nat.
Proof.
  apply (conditional_break_link 0 early_return_below 0%nat 1%nat 2%nat
           101%nat 102%nat); by vm_compute.
Defined.

(** * The flags of a register state *)

Lemma land_bit x k :
  0 <= k → Z.land x (Z.shiftl 1 k) = if Z.testbit x k then Z.shiftl 1 k else 0.
Proof.
  intros Hk. apply Z.bits_inj'. intros n Hn.
  rewrite Z.land_spec, Z.shiftl_spec by done.
  destruct (decide (n = k)) as [->|Hne].
  - rewrite Z.sub_diag. change (Z.testbit 1 0) with true. rewrite andb_true_r.
    destruct (Z.testbit x k) eqn:E.
    + rewrite Z.shiftl_spec, Z.sub_diag by done. done.
    + by rewrite Z.bits_0.
  - assert (Z.testbit 1 (n - k) = false) as E1.
    { destruct (decide (n < k)).
      - apply Z.testbit_neg_r. lia.
      - change 1 with (2 ^ 0). apply Z.pow2_bits_false. lia. }
    rewrite E1, andb_false_r.
    destruct (Z.testbit x k).
    + by rewrite Z.shiftl_spec, E1 by done.
    + by rewrite Z.bits_0.
Qed.

(** The two conversions of [RegisterStateFlags] are inverse to each other
    on the two payload bits: decoding the encoded flags gives the flags
    back, the code of any flags fits in two bits, and encoding the flags
    decoded from a word gives the two low bits of the word; [operator==]
    is equality; and the payload of a cell says whether the cell is
    initialized and whether it is a merge cell. *)
Theorem RegisterStateFlags_roundtrip :
  (∀ f, flags_of_uintptr (flags_to_uintptr f) = f) ∧
  (∀ f, 0 <= flags_to_uintptr f < 4) ∧
  (∀ x, flags_to_uintptr (flags_of_uintptr x) = Z.land x 3) ∧
  (∀ f f', flags_eqb f f' = true ↔ f = f') ∧
  (∀ c, flag_is_initialized (GetPayload c) = is_initialized c ∧
        flag_is_merge (GetPayload c) = is_merge c).
Proof.
  split; [|split; [|split; [|split]]].
  - by intros [[] []].
  - intros [[] []]; by vm_compute.
  - intros x. unfold flags_to_uintptr, flags_of_uintptr. simpl.
    rewrite !land_bit by (unfold kIsInitializedShift, kIsMergeShift; lia).
    unfold kIsInitializedShift, kIsMergeShift.
    assert (∀ c n, 0 <= c < 4 → 2 <= n → Z.testbit c n = false) as Hsmall.
    { intros c n Hc Hn. destruct (decide (c = 0)) as [->|]; [apply Z.bits_0|].
      apply Z.bits_above_log2; [lia|].
      assert (Z.log2 c < 2) by (apply Z.log2_lt_pow2; simpl; lia). lia. }
    apply Z.bits_inj'. intros n Hn. rewrite Z.land_spec.
    destruct (decide (n = 0)) as [->|H0];
      [by destruct (Z.testbit x 1), (Z.testbit x 0)|].
    destruct (decide (n = 1)) as [->|H1];
      [by destruct (Z.testbit x 1), (Z.testbit x 0)|].
    rewrite (Hsmall 3 n) by lia. rewrite andb_false_r.
    apply Hsmall; [|lia].
    destruct (Z.testbit x 1), (Z.testbit x 0); vm_compute; split; congruence.
  - intros [a b] [a' b']. unfold flags_eqb. simpl.
    rewrite andb_true_iff, !eqb_true_iff. split; [by intros [-> ->]|].
    by intros [= -> ->].
  - by intros [].
Qed.

(** * The eviction path [Free] and the operations built on it *)

Lemma has_register_testbit n r :
  Z.testbit (registers_with_result n) r = true → has_register n = true.
Proof.
  unfold has_register. intros Hb.
  destruct (Z.eqb_spec (registers_with_result n) kEmptyRegList) as [E|]; [|done].
  rewrite E in Hb. by rewrite Z.bits_0 in Hb.
Qed.

Section FreePath.
Variables (N : nat) (D : bool).

Lemma Free_spec H X r w s s' :
  Consistent N H X s →
  register_values_ s !! Z.to_nat (MapRegisterToIndex N r) = Some (Some w) →
  Free N D r s = Ok (tt, s') →
  Z.testbit (registers_with_result (node_at s' w)) r = false ∧
  (has_register (node_at s' w) = true ∨ is_spilled (node_at s' w) = true) ∧
  (gap_moves_ s' = gap_moves_ s ∨
   ∃ t, t ≠ r ∧ Z.testbit (free_registers_ s) t = true ∧
        register_values_ s' !! Z.to_nat t = Some (Some w) ∧
        gap_moves_ s' =
          gap_moves_ s ++ [mkGapMove (node_it_ s) (REGISTER r) (REGISTER t)]).
Proof.
  intros HC Hw Hs. unfold Free in Hs.
  destruct (MapRegisterToIndex_valid _ _ _ _ (cons_count _ _ _ _ HC)
              (cons_length _ _ _ _ HC) Hw) as [Hm Hr].
  rewrite Hm in *.
  apply bind_Ok in Hs as (cur & s0 & Hcur & Hs).
  apply register_values_Ok in Hcur as (_ & Hcur & ->).
  assert (cur = Some w) as -> by congruence.
  apply bind_Ok in Hs as ([] & s1 & Hset & Hs).
  destruct (set_None_cons _ _ _ _ _ _ HC Hset) as (HC1 & _ & Hl1).
  apply set_register_values_Ok in Hset as (_ & _ & ->).
  apply bind_Ok in Hs as ([] & s2 & Hrem & Hs).
  pose proof (RemoveRegister_cons _ _ _ r w _ (proj1 Hr) Hl1 HC1) as HC2.
  apply update_node_Ok in Hrem. rewrite <- Hrem in HC2.
  assert (Z.testbit (registers_with_result (node_at s2 w)) r = false) as Hbit.
  { rewrite Hrem. norm. rewrite decide_True by done. simpl.
    rewrite testbit_RemoveFrom, Z.eqb_refl. apply andb_false_r. }
  assert (gap_moves_ s2 = gap_moves_ s ∧ node_it_ s2 = node_it_ s ∧
          free_registers_ s2 = free_registers_ s) as (Hg2 & Hn2 & Hf2)
    by (by rewrite Hrem).
  clear Hrem HC1 Hl1.
  apply bind_Ok in Hs as (n & s3 & Hn & Hs).
  apply node_Ok in Hn as [-> ->].
  destruct (has_register (node_at s2 w)) eqn:Ereg.
  { run. split; [done|]. split; [by left|by left]. }
  destruct (is_spilled (node_at s2 w)) eqn:Esp.
  { run. split; [done|]. split; [by right|by left]. }
  apply bind_Ok in Hs as (? & s4 & Hg & Hs). apply get_Ok in Hg as [-> ->].
  destruct (Z.eqb_spec (free_registers_ s2) kEmptyRegList) as [He|Hne];
    simpl in *.
  - pose proof (Spill_spilled D _ _ _ Hs) as Hsp.
    pose proof (Spill_same D _ _ _ _ Hs) as [_ _ Hsets].
    pose proof (Spill_low D _ _ _ _ Hs) as Hlow.
    split; [by rewrite Hsets|]. split; [by right|]. left.
    unfold Spill in Hs.
    apply bind_Ok in Hs as (n & ? & Hn & Hs). apply node_Ok in Hn as [-> ->].
    rewrite Esp in Hs. unfold AllocateSpillSlot in Hs. runs; simpl; done.
  - apply bind_Ok in Hs as (x & s3 & Ht & Hs).
    destruct (TakeAny_cons N _ _ _ _ _ HC2 Hne Ht)
      as (HC3 & Hx & Hb3 & Hf3 & Hv3 & Hn3).
    assert (gap_moves_ s3 = gap_moves_ s2 ∧ node_it_ s3 = node_it_ s2)
      as [Hg3 Hi3] by (unfold TakeAny in Ht; by run).
    apply bind_Ok in Hs as ([] & s4 & Hset & Hmove).
    destruct (SetRegister_cons N D (x :: r :: H) (r :: H) X x w s3 s4)
      as (HC4 & Hf4 & _ & Hv4); try done.
    { intros j [->|Hj]%elem_of_cons; [by left|right; done]. }
    { rewrite Hf3, testbit_RemoveFrom, Z.eqb_refl. apply andb_false_r. }
    assert (x ≠ r) as Hxr.
    { intros ->. rewrite Hf2 in Hb3.
      apply (cons_free_empty _ _ _ _ HC) in Hb3; [congruence|lia]. }
    assert (gap_moves_ s4 = gap_moves_ s3 ∧ node_it_ s4 = node_it_ s3 ∧
            registers_with_result (node_at s4 w) =
              InsertInto x (registers_with_result (node_at s3 w)))
      as (Hg4 & Hi4 & Hr4).
    { unfold SetRegister in Hset. run. simpl. norm.
      by rewrite decide_True. }
    unfold AddMoveBeforeCurrentNode in Hmove. apply modify_Ok in Hmove.
    subst s'. norm. simpl.
    assert (node_at s3 w = node_at s2 w) as Hw3
      by (unfold node_at; by rewrite Hn3).
    rewrite Hr4, Hw3.
    split; [|split].
    + rewrite testbit_InsertInto by lia. rewrite Hbit, orb_false_r.
      apply Z.eqb_neq. done.
    + left. apply (has_register_testbit _ x). rewrite Hr4.
      rewrite testbit_InsertInto by lia. by rewrite Z.eqb_refl.
    + right. exists x. split; [done|]. split; [by rewrite <- Hf2|].
      split.
      * rewrite Hv4. by rewrite list_lookup_insert_eq
          by (rewrite Hv3; destruct HC2 as [_ Hlen _ _ _ _ _]; lia).
      * by rewrite Hg4, Hg3, Hg2, Hi4, Hi3, Hn2.
Qed.


(** Where the value that [Free] displaces is afterwards, when its register
    set was accurate: in another register, or in its spill slot. *)
Lemma Free_found H X r w s s' :
  Consistent N H X s →
  register_values_ s !! Z.to_nat (MapRegisterToIndex N r) = Some (Some w) →
  accurate s w →
  Free N D r s = Ok (tt, s') →
  (∃ t, t ≠ r ∧ 0 <= t ∧
        register_values_ s' !! Z.to_nat t = Some (Some w)) ∨
  is_spilled (node_at s' w) = true.
Proof.
  intros HC Hw Hacc Hs. unfold Free in Hs.
  destruct (MapRegisterToIndex_valid _ _ _ _ (cons_count _ _ _ _ HC)
              (cons_length _ _ _ _ HC) Hw) as [Hm Hr].
  rewrite Hm in *.
  apply bind_Ok in Hs as (cur & s0 & Hcur & Hs).
  apply register_values_Ok in Hcur as (_ & Hcur & ->).
  assert (cur = Some w) as -> by congruence.
  apply bind_Ok in Hs as ([] & s1 & Hset & Hs).
  destruct (set_None_cons _ _ _ _ _ _ HC Hset) as (HC1 & _ & Hl1).
  apply set_register_values_Ok in Hset as (_ & _ & Hs1).
  apply bind_Ok in Hs as ([] & s2 & Hrem & Hs).
  pose proof (RemoveRegister_cons _ _ _ r w _ (proj1 Hr) Hl1 HC1) as HC2.
  apply update_node_Ok in Hrem. rewrite <- Hrem in HC2.
  assert (register_values_ s2 =
            <[Z.to_nat r := None]> (register_values_ s)) as Hrv2
    by (by rewrite Hrem, Hs1).
  assert (registers_with_result (node_at s2 w) =
            RemoveFrom r (registers_with_result (node_at s w))) as Hregs2.
  { rewrite Hrem. norm. rewrite decide_True by done. by rewrite Hs1. }
  assert (free_registers_ s2 = free_registers_ s) as Hf2
    by (by rewrite Hrem, Hs1).
  clear Hrem Hs1 HC1 Hl1.
  apply bind_Ok in Hs as (n & s3 & Hn & Hs).
  apply node_Ok in Hn as [-> ->].
  destruct (has_register (node_at s2 w)) eqn:Ereg.
  { apply ret_Ok in Hs as [_ ->]. left.
    unfold has_register in Ereg. apply negb_true_iff, Z.eqb_neq in Ereg.
    destruct (first_reg_spec _ (cons_regs_nonneg _ _ _ _ HC2 w) Ereg)
      as [Ht Hb].
    set (t := first_reg (registers_with_result (node_at s2 w))) in *.
    rewrite Hregs2, testbit_RemoveFrom in Hb.
    apply andb_true_iff in Hb as [Hb Hne].
    apply negb_true_iff, Z.eqb_neq in Hne.
    exists t. split; [done|]. split; [done|].
    rewrite Hrv2, list_lookup_insert_ne by lia. by apply Hacc. }
  destruct (is_spilled (node_at s2 w)) eqn:Esp.
  { apply ret_Ok in Hs as [_ ->]. by right. }
  apply bind_Ok in Hs as (? & s4 & Hg & Hs). apply get_Ok in Hg as [-> ->].
  destruct (Z.eqb_spec (free_registers_ s2) kEmptyRegList) as [He|Hne];
    simpl in Hs.
  - right. by eapply Spill_spilled.
  - left. apply bind_Ok in Hs as (x & s3 & Ht & Hs).
    destruct (TakeAny_cons N _ _ _ _ _ HC2 Hne Ht)
      as (HC3 & Hx & Hb3 & Hf3 & Hv3 & Hn3).
    apply bind_Ok in Hs as ([] & s4 & Hset & Hmove).
    destruct (SetRegister_cons N D (x :: r :: H) (r :: H) X x w s3 s4)
      as (HC4 & Hf4 & _ & Hv4); try done.
    { intros j [->|Hj]%elem_of_cons; [by left|right; done]. }
    { rewrite Hf3, testbit_RemoveFrom, Z.eqb_refl. apply andb_false_r. }
    assert (x ≠ r) as Hxr.
    { intros ->. rewrite Hf2 in Hb3.
      pose proof (cons_free_empty _ _ _ _ HC r (proj1 Hr) Hb3). congruence. }
    unfold AddMoveBeforeCurrentNode in Hmove. apply modify_Ok in Hmove.
    exists x. split; [done|]. split; [lia|].
    rewrite Hmove. simpl. rewrite Hv4. apply list_lookup_insert_eq.
    rewrite Hv3. rewrite (cons_length _ _ _ _ HC2). lia.
Qed.

(** The tail of [ForceAllocate]: the register is handed to [v]. *)
Lemma SetRegister_entry r v s s' :
  SetRegister N D r v s = Ok (tt, s') →
  register_values_ s' !! Z.to_nat (MapRegisterToIndex N r) = Some (Some v) ∧
  gap_moves_ s' = gap_moves_ s ∧
  ∀ w, w ≠ v → node_at s' w = node_at s w.
Proof.
  unfold SetRegister. intros Hs. run. simpl. split; [|split; [done|]].
  - by rewrite list_lookup_insert_eq.
  - intros w Hw. norm. by rewrite decide_False.
Qed.

Lemma ForceAllocate_spec r v s o s' :
  Consistent N [] None s →
  ForceAllocate N D r v s = Ok (o, s') →
  register_values_ s' !! Z.to_nat (MapRegisterToIndex N r) = Some (Some v) ∧
  ∀ w, register_values_ s !! Z.to_nat (MapRegisterToIndex N r) = Some (Some w) →
       w ≠ v →
       has_register (node_at s' w) = true ∨ is_spilled (node_at s' w) = true.
Proof.
  intros HC Hs. unfold ForceAllocate in Hs.
  apply bind_Ok in Hs as (cur & s0 & Hcur & Hs).
  apply register_values_Ok in Hcur as (_ & Hcur & ->).
  assert (∀ s1 s2 o',
            (s <- get ;;
             DCHECK D (negb (free_registers_ s =? InsertInto r (free_registers_ s))) ;;
             SetRegister N D r v ;; ret (REGISTER r)) s1 = Ok (o', s2) →
            register_values_ s2 !! Z.to_nat (MapRegisterToIndex N r)
              = Some (Some v) ∧
            ∀ w, w ≠ v → node_at s2 w = node_at s1 w) as Hfinish.
  { intros s1 s2 o' Hf.
    apply bind_Ok in Hf as (? & ? & Hg & Hf). apply get_Ok in Hg as [-> ->].
    apply bind_Ok in Hf as (? & ? & Hd & Hf). apply DCHECK_Ok in Hd as [-> _].
    apply bind_Ok in Hf as ([] & s3 & Hset & Hf).
    apply ret_Ok in Hf as [_ ->].
    by destruct (SetRegister_entry _ _ _ _ Hset) as (? & _ & ?). }
  case_bool_decide as Hnone.
  - apply bind_Ok in Hs as ([] & s1 & Hmod & Hs). apply modify_Ok in Hmod.
    destruct (Hfinish _ _ _ Hs) as [He _]. split; [done|].
    intros w Hw. congruence.
  - case_bool_decide as Hsame.
    { run. split; [congruence|]. intros w Hw. congruence. }
    destruct cur as [w|]; [|done].
    apply bind_Ok in Hs as ([] & s1 & Hfree & Hs).
    destruct (Free_spec [] None r w s s1 HC Hcur Hfree) as (_ & Hloc & _).
    apply bind_Ok in Hs as (cur' & ? & Hcur' & Hs).
    apply register_values_Ok in Hcur' as (_ & _ & ->).
    apply bind_Ok in Hs as (? & ? & Hd & Hs). apply DCHECK_Ok in Hd as [-> _].
    destruct (Hfinish _ _ _ Hs) as [He Hn]. split; [done|].
    intros w' Hw' Hne. assert (w' = w) as -> by congruence.
    by rewrite Hn.
Qed.

Lemma SetRegister_others r v s s' :
  SetRegister N D r v s = Ok (tt, s') →
  ∀ k, k ≠ Z.to_nat (MapRegisterToIndex N r) →
       register_values_ s' !! k = register_values_ s !! k.
Proof.
  unfold SetRegister. intros Hs k Hk. run. simpl.
  by rewrite list_lookup_insert_ne.
Qed.

(** Where the value that [ForceAllocate] displaces is afterwards, when its
    register set was accurate. *)
Lemma ForceAllocate_found r v s o s' :
  Consistent N [] None s →
  ForceAllocate N D r v s = Ok (o, s') →
  ∀ w, register_values_ s !! Z.to_nat (MapRegisterToIndex N r)
         = Some (Some w) →
       w ≠ v → accurate s w →
       (∃ t, t ≠ r ∧ 0 <= t ∧
             register_values_ s' !! Z.to_nat t = Some (Some w)) ∨
       is_spilled (node_at s' w) = true.
Proof.
  intros HC Hs w Hw Hne Hacc. unfold ForceAllocate in Hs.
  destruct (MapRegisterToIndex_valid _ _ _ _ (cons_count _ _ _ _ HC)
              (cons_length _ _ _ _ HC) Hw) as [Hm Hr].
  apply bind_Ok in Hs as (cur & s0 & Hcur & Hs).
  apply register_values_Ok in Hcur as (_ & Hcur & ->).
  assert (cur = Some w) as -> by congruence.
  rewrite bool_decide_eq_false_2 in Hs by done.
  rewrite bool_decide_eq_false_2 in Hs by congruence.
  apply bind_Ok in Hs as ([] & s1 & Hfree & Hs).
  pose proof (Free_found [] None r w s s1 HC Hw Hacc Hfree) as Hfound.
  apply bind_Ok in Hs as (cur' & ? & Hcur' & Hs).
  apply register_values_Ok in Hcur' as (_ & _ & ->).
  apply bind_Ok in Hs as (? & ? & Hd & Hs). apply DCHECK_Ok in Hd as [-> _].
  apply bind_Ok in Hs as (? & ? & Hg & Hs). apply get_Ok in Hg as [-> ->].
  apply bind_Ok in Hs as (? & ? & Hd & Hs). apply DCHECK_Ok in Hd as [-> _].
  apply bind_Ok in Hs as ([] & s2 & Hset & Hs).
  apply ret_Ok in Hs as [_ ->].
  destruct Hfound as [(t & Htr & Ht & Hl)|Hsp].
  - left. exists t. split; [done|]. split; [done|].
    rewrite (SetRegister_others _ _ _ _ Hset); [done|]. rewrite Hm. lia.
  - right. destruct (SetRegister_entry _ _ _ _ Hset) as (_ & _ & Hn).
    by rewrite Hn.
Qed.

End FreePath.

Lemma two_held_consistent : Consistent 2 [] None two_held.
Proof.
  destruct (initial_state_consistent 2 eviction_nodes ∅) as [HC _]; [lia|done|].
  apply (AllocateNodes_inv 2 true is_dead_past_end has_live_range_end
           [10; 11]%nat eviction_start tt two_held); [|exact HC].
  vm_compute. reflexivity.
Defined.

Lemma two_held_accurate : accurate two_held 11%nat.
Proof.
  intros k Hk.
  assert (registers_with_result (node_at two_held 11%nat) = 2 ^ 1) as E
    by (vm_compute; reflexivity).
  rewrite E, Z.pow2_bits_eqb in Hk by lia. apply Z.eqb_eq in Hk. subst k.
  vm_compute. reflexivity.
Defined.

(** [Free(reg)] on a register that holds [w], in a consistent register
    file: afterwards the register is empty but not in the free set (the
    caller takes it), and [w] no longer has it in its register set.  When
    the register set of [w] was accurate (every register in it held [w]),
    [w] can still be found: another register of the file holds it, or it is
    spilled.  A gap move is emitted only when [w] is moved to a register
    [t] that was free, and it goes from [reg] to [t], before the current
    node. *)
Theorem Free_keeps_holder N D r w s s' :
  Consistent N [] None s →
  register_values_ s !! Z.to_nat (MapRegisterToIndex N r) = Some (Some w) →
  Free N D r s = Ok (tt, s') →
  register_values_ s' !! Z.to_nat r = Some None ∧
  Z.testbit (free_registers_ s') r = false ∧
  Z.testbit (registers_with_result (node_at s' w)) r = false ∧
  (accurate s w →
   (∃ t, t ≠ r ∧ 0 <= t ∧
         register_values_ s' !! Z.to_nat t = Some (Some w)) ∨
   is_spilled (node_at s' w) = true) ∧
  (gap_moves_ s' = gap_moves_ s ∨
   ∃ t, t ≠ r ∧ Z.testbit (free_registers_ s) t = true ∧
        register_values_ s' !! Z.to_nat t = Some (Some w) ∧
        gap_moves_ s' =
          gap_moves_ s ++ [mkGapMove (node_it_ s) (REGISTER r) (REGISTER t)]).
Proof.
  intros HC Hw Hs.
  destruct (Free_cons N D [] None r w s s' HC Hw Hs) as (_ & Hfree & Hempty).
  destruct (Free_spec N D [] None r w s s' HC Hw Hs) as (Hbit & _ & Hmove).
  split; [done|]. split; [done|]. split; [done|]. split; [|done].
  intros Hacc. exact (Free_found N D [] None r w s s' HC Hw Hacc Hs).
Qed.

Lemma Free_keeps_holder_witness :
  Free 2 true 1 two_held = Ok (tt, state_after (Free 2 true 1) two_held) ∧
  register_values_ two_held = [Some 10%nat; Some 11%nat] ∧
  register_values_ (state_after (Free 2 true 1) two_held) !! Z.to_nat 1
    = Some None ∧
  Z.testbit (registers_with_result
               (node_at (state_after (Free 2 true 1) two_held) 11%nat)) 1
    = false ∧
  ((∃ t, t ≠ 1 ∧ 0 <= t ∧
         register_values_ (state_after (Free 2 true 1) two_held) !! Z.to_nat t
           = Some (Some 11%nat)) ∨
   is_spilled (node_at (state_after (Free 2 true 1) two_held) 11%nat) = true) ∧
  is_spilled (node_at (state_after (Free 2 true 1) two_held) 11%nat) = true.
Proof.
  assert (Free 2 true 1 two_held = Ok (tt, state_after (Free 2 true 1) two_held))
    as Hrun by (vm_compute; reflexivity).
  destruct (Free_keeps_holder 2 true 1 11%nat two_held _ two_held_consistent
              eq_refl Hrun) as (He & _ & Hbit & Hfound & _).
  split; [exact Hrun|]. split; [vm_compute; reflexivity|].
  split; [exact He|]. split; [exact Hbit|].
  split; [exact (Hfound two_held_accurate)|]. vm_compute. reflexivity.
Defined.

(** [ForceAllocate(reg, node)] in a consistent register file: the result
    is the operand of [reg]; afterwards [reg] holds [node], [node] has it in
    its register set, and it is not in the free set; the register file is
    still consistent; and a different value that held [reg] before, if its
    register set was accurate, can still be found: another register of the
    file holds it, or it is spilled. *)
Theorem ForceAllocate_takes N D r v s o s' :
  Consistent N [] None s →
  ForceAllocate N D r v s = Ok (o, s') →
  o = REGISTER r ∧ 0 <= r < Z.of_nat N ∧
  register_values_ s' !! Z.to_nat r = Some (Some v) ∧
  Z.testbit (registers_with_result (node_at s' v)) r = true ∧
  Z.testbit (free_registers_ s') r = false ∧
  Consistent N [] None s' ∧
  ∀ w, register_values_ s !! Z.to_nat r = Some (Some w) → w ≠ v →
       accurate s w →
       (∃ t, t ≠ r ∧ 0 <= t ∧
             register_values_ s' !! Z.to_nat t = Some (Some w)) ∨
       is_spilled (node_at s' w) = true.
Proof.
  intros HC Hs.
  pose proof (ForceAllocate_register N D _ _ _ _ _ Hs) as ->.
  pose proof (ForceAllocate_inv N D r v _ _ _ Hs HC) as HC'.
  destruct (ForceAllocate_spec N D r v s _ s' HC Hs) as [He _].
  pose proof (ForceAllocate_found N D r v s _ s' HC Hs) as Hfound.
  destruct (MapRegisterToIndex_valid _ _ _ _ (cons_count _ _ _ _ HC')
              (cons_length _ _ _ _ HC') He) as [Hm Hr].
  rewrite Hm in *.
  split; [done|]. split; [done|]. split; [done|]. split.
  { by destruct (cons_held _ _ _ _ HC' r v (proj1 Hr) He). }
  split.
  { destruct (Z.testbit (free_registers_ s') r) eqn:E; [|done].
    apply (cons_free_empty _ _ _ _ HC') in E; [congruence|lia]. }
  done.
Qed.

Lemma ForceAllocate_takes_witness :
  ForceAllocate 2 true 1 12%nat two_held
    = Ok (REGISTER 1, state_after (x <- ForceAllocate 2 true 1 12%nat ;; ret tt)
                        two_held) ∧
  register_values_ two_held = [Some 10%nat; Some 11%nat] ∧
  register_values_
    (state_after (x <- ForceAllocate 2 true 1 12%nat ;; ret tt) two_held)
    = [Some 10%nat; Some 12%nat] ∧
  ((∃ t, t ≠ 1 ∧ 0 <= t ∧
         register_values_
           (state_after (x <- ForceAllocate 2 true 1 12%nat ;; ret tt)
              two_held) !! Z.to_nat t = Some (Some 11%nat)) ∨
   is_spilled
     (node_at (state_after (x <- ForceAllocate 2 true 1 12%nat ;; ret tt)
                 two_held) 11%nat) = true) ∧
  is_spilled
    (node_at (state_after (x <- ForceAllocate 2 true 1 12%nat ;; ret tt)
                two_held) 11%nat) = true.
Proof.
  assert (ForceAllocate 2 true 1 12%nat two_held
          = Ok (REGISTER 1,
                state_after (x <- ForceAllocate 2 true 1 12%nat ;; ret tt)
                  two_held)) as Hrun by (vm_compute; reflexivity).
  destruct (ForceAllocate_takes 2 true 1 12%nat two_held _ _
              two_held_consistent Hrun)
    as (_ & _ & _ & _ & _ & _ & Hfound).
  split; [exact Hrun|]. split; [vm_compute; reflexivity|].
  split; [vm_compute; reflexivity|].
  split; [|vm_compute; reflexivity].
  apply (Hfound 11%nat); [vm_compute; reflexivity|done|].
  exact two_held_accurate.
Defined.

Section Allocation.
Variables (N : nat) (D : bool).

(** When a register is free, [AllocateRegister(node)] returns without
    evicting anything: it takes the free register with the lowest index,
    which is a register of the file, removes it from the free set, makes
    [node] its holder and adds it to the register set of [node]; nothing
    else changes. *)
Theorem AllocateRegister_free v s :
  Consistent N [] None s →
  free_registers_ s ≠ kEmptyRegList →
  0 <= first_reg (free_registers_ s) < Z.of_nat N ∧
  AllocateRegister N D v s =
  Ok (REGISTER (first_reg (free_registers_ s)),
      with_nodes
        (<[v := AddRegister (first_reg (free_registers_ s)) (node_at s v)]>
           (nodes_ s))
        (with_register_values
           (<[Z.to_nat (first_reg (free_registers_ s)) := Some v]>
              (register_values_ s))
           (with_free_registers
              (RemoveFrom (first_reg (free_registers_ s)) (free_registers_ s))
              s))).
Proof.
  intros HC Hne.
  destruct (first_reg_spec (free_registers_ s)
              (cons_free_nonneg _ _ _ _ HC) Hne) as [Hx Hb].
  pose proof (cons_free_empty _ _ _ _ HC _ Hx Hb) as Hl.
  pose proof Hl as Hlt%lookup_lt_Some.
  rewrite (cons_length _ _ _ _ HC) in Hlt.
  split; [lia|].
  set (x := first_reg (free_registers_ s)) in *.
  assert (MapRegisterToIndex N x = x) as Hm.
  { unfold MapRegisterToIndex, allocatable.
    rewrite (proj2 (Z.leb_le 0 x)), (proj2 (Z.ltb_lt x (Z.of_nat N))); [done|lia|lia]. }
  assert ((free_registers_ s =? kEmptyRegList) = false) as E
    by (by apply Z.eqb_neq).
  assert (SetRegister N D x v
            (with_free_registers (RemoveFrom x (free_registers_ s)) s) =
          Ok (tt, with_nodes (<[v := AddRegister x (node_at s v)]> (nodes_ s))
                    (with_register_values
                       (<[Z.to_nat x := Some v]> (register_values_ s))
                       (with_free_registers
                          (RemoveFrom x (free_registers_ s)) s)))) as Hset.
  { unfold SetRegister, bind. rewrite Hm.
    unfold register_values. rewrite (proj2 (Z.leb_le 0 x)) by lia. simpl.
    rewrite Hl. unfold DCHECK. simpl.
    rewrite andb_false_r. unfold ret, set_register_values. simpl.
    rewrite (proj2 (Z.leb_le 0 x)) by lia.
    rewrite bool_decide_eq_true_2
      by (rewrite (cons_length _ _ _ _ HC); lia).
    done. }
  unfold AllocateRegister, TryAllocateRegister, bind, get, when, TakeAny.
  rewrite E. unfold bind, get, modify, ret. rewrite E. fold x.
  rewrite Hset. unfold DCHECK. simpl. by rewrite andb_false_r.
Qed.

End Allocation.

Lemma AllocateRegister_free_witness :
  0 <= first_reg (free_registers_ before_call) < Z.of_nat 2 ∧
  AllocateRegister 2 true 13%nat before_call =
  Ok (REGISTER (first_reg (free_registers_ before_call)),
      with_nodes
        (<[13%nat := AddRegister (first_reg (free_registers_ before_call))
                       (node_at before_call 13%nat)]>
           (nodes_ before_call))
        (with_register_values
           (<[Z.to_nat (first_reg (free_registers_ before_call)) := Some 13%nat]>
              (register_values_ before_call))
           (with_free_registers
              (RemoveFrom (first_reg (free_registers_ before_call))
                 (free_registers_ before_call))
              before_call))).
Proof.
  apply (AllocateRegister_free 2 true 13%nat before_call);
    [exact before_call_consistent|by vm_compute].
Defined.

(** * Temporaries *)

Global Instance Emptied_preorder : PreOrder Emptied.
Proof.
  split.
  - by intros s k v.
  - intros s1 s2 s3 H12 H23 k v Hk. by apply H12, H23.
Qed.

Lemma FreeSomeRegister_emptied N : preserves Emptied (FreeSomeRegister N).
Proof.
  intros s [] s' Hs. unfold FreeSomeRegister in Hs.
  apply bind_Ok in Hs as (i & s0 & Hi & Hs).
  apply furthest_from_state in Hi as ->.
  unfold FreeRegister in Hs. run. intros k v. simpl.
  destruct (decide (k = Z.to_nat i)) as [->|].
  - by rewrite list_lookup_insert_eq.
  - by rewrite list_lookup_insert_ne.
Qed.

(** [AssignTemporaries(node)]: the temporaries of the node are the free set
    as it is in the end; with assertions on, that set has at least the
    number of registers the node needs; registers are only ever emptied;
    and when the free set was large enough from the start, no register is
    evicted: the register file and the free set are as they were. *)
Theorem AssignTemporaries_spec N D p s s' :
  AssignTemporaries N D p s = Ok (tt, s') →
  temporaries (node_at s' p) = free_registers_ s' ∧
  (D = true →
   num_temporaries_needed (node_at s p)
     <= CountPopulation (temporaries (node_at s' p))) ∧
  (∀ k v, register_values_ s' !! k = Some (Some v) →
          register_values_ s !! k = Some (Some v)) ∧
  (num_temporaries_needed (node_at s p) <= CountPopulation (free_registers_ s) →
   register_values_ s' = register_values_ s ∧
   free_registers_ s' = free_registers_ s).
Proof.
  intros Hs. unfold AssignTemporaries in Hs.
  apply bind_Ok in Hs as (n & ? & Hn & Hs). apply node_Ok in Hn as [-> ->].
  apply bind_Ok in Hs as (? & ? & Hg & Hs). apply get_Ok in Hg as [-> ->].
  apply bind_Ok in Hs as ([] & s1 & Hrep & Hs).
  apply bind_Ok in Hs as (? & ? & Hg & Hs). apply get_Ok in Hg as [-> ->].
  apply bind_Ok in Hs as (? & ? & Hd & Hs). apply DCHECK_Ok in Hd as [-> Hd].
  apply update_node_Ok in Hs. subst s'. norm. rewrite decide_True by done.
  simpl. split; [done|]. split.
  { intros HD. apply Z.leb_le. by apply Hd. }
  split.
  { pose proof (preserves_repeat_times Emptied _ _
                  (FreeSomeRegister_emptied N) _ _ _ Hrep) as He.
    apply He. }
  intros Hle.
  replace (Z.to_nat (num_temporaries_needed (node_at s p)
                     - CountPopulation (free_registers_ s))) with 0%nat in Hrep
    by lia.
  simpl in Hrep. by run.
Qed.

Lemma AssignTemporaries_spec_witness :
  ∃ s', AssignTemporaries 2 true 14%nat temporaries_start = Ok (tt, s') ∧
    temporaries (node_at s' 14%nat) = 3 ∧
    register_values_ s' = register_values_ temporaries_start.
Proof.
  assert (∃ s', AssignTemporaries 2 true 14%nat temporaries_start = Ok (tt, s'))
    as [s' Hrun] by (eexists; by vm_compute).
  exists s'. split; [exact Hrun|].
  destruct (AssignTemporaries_spec 2 true 14%nat temporaries_start s' Hrun)
    as (Ht & _ & _ & Hsame).
  destruct Hsame as [Hv Hf]; [by vm_compute|].
  split; [|exact Hv]. rewrite Ht, Hf. reflexivity.
Defined.

(** * Join states: what a merge writes *)

Global Instance CellsOnly_preorder target : PreOrder (CellsOnly target).
Proof.
  split.
  - intros s. by split.
  - intros s1 s2 s3 [H1 O1 B1 L1] [H2 O2 B2 L2]. split; try congruence.
    intros b Hb. by rewrite O2, O1.
Qed.

Lemma CellsOnly_fields target s s' :
  CellsOnly target s s' →
  register_values_ s' = register_values_ s ∧
  free_registers_ s' = free_registers_ s ∧
  top_of_stack_ s' = top_of_stack_ s ∧
  free_slots_ s' = free_slots_ s ∧
  node_it_ s' = node_it_ s ∧
  nodes_ s' = nodes_ s ∧
  gap_moves_ s' = gap_moves_ s.
Proof.
  intros [Hst _ _ _]. unfold with_blocks in Hst.
  by injection Hst as -> -> -> -> -> -> ->.
Qed.

Lemma set_target_state_cells target i c :
  preserves (CellsOnly target) (set_target_state target i c).
Proof.
  intros s a s' Hs. apply set_target_state_Ok in Hs as (_ & _ & _ & ->).
  split; simpl; try done.
  - intros b Hb. rewrite block_at_insert. by rewrite decide_False.
  - rewrite block_at_insert. by rewrite decide_True.
  - rewrite block_at_insert, decide_True by done. simpl.
    by rewrite length_insert.
Qed.

Lemma target_state_rel R `{!PreOrder R} target i :
  preserves R (target_state target i).
Proof. unfold target_state. frame. Qed.

Lemma LoadMergeState_rel R `{!PreOrder R} D c :
  preserves R (LoadMergeState D c).
Proof. unfold LoadMergeState. frame. Qed.

Lemma IsLiveAtTarget_rel R `{!PreOrder R} is_dead v source target :
  preserves R (IsLiveAtTarget is_dead v source target).
Proof. unfold IsLiveAtTarget. frame. Qed.

Lemma EnsureInRegister_from_rel R `{!PreOrder R} D target l w :
  preserves R (EnsureInRegister_from D target l w).
Proof.
  induction l as [|i l IH]; simpl.
  - frame.
  - pose proof (target_state_rel R target). pose proof (LoadMergeState_rel R D).
    frame.
Qed.

Lemma EnsureInRegister_rel R `{!PreOrder R} N D target w :
  preserves R (EnsureInRegister N D target w).
Proof.
  unfold EnsureInRegister. pose proof (EnsureInRegister_from_rel R D target).
  frame.
Qed.

Section MergeFrames.
Variables (N : nat) (D : bool) (is_dead : Node → bool).

Lemma set_merge_operand_cells target i m k o :
  preserves (CellsOnly target) (set_merge_operand target i m k o).
Proof.
  unfold set_merge_operand. pose proof (set_target_state_cells target). frame.
Qed.

Lemma MergeRegister_cells control target pid P i :
  preserves (CellsOnly target) (MergeRegister N D is_dead control target pid P i).
Proof.
  unfold MergeRegister. cbv zeta.
  pose proof (set_merge_operand_cells target).
  pose proof (target_state_rel (CellsOnly target) target).
  pose proof (LoadMergeState_rel (CellsOnly target) D).
  pose proof (IsLiveAtTarget_rel (CellsOnly target) is_dead).
  pose proof (EnsureInRegister_rel (CellsOnly target) N D target).
  frame.
Qed.

Lemma InitializeBranchTargetRegisterValues_cells source target :
  preserves (CellsOnly target)
    (InitializeBranchTargetRegisterValues N D is_dead source target).
Proof.
  unfold InitializeBranchTargetRegisterValues.
  pose proof (set_target_state_cells target).
  pose proof (target_state_rel (CellsOnly target) target).
  pose proof (IsLiveAtTarget_rel (CellsOnly target) is_dead).
  frame.
Qed.

Lemma MergeRegisterValues_cells control target pid :
  preserves (CellsOnly target)
    (MergeRegisterValues N D is_dead control target pid).
Proof.
  unfold MergeRegisterValues.
  pose proof (InitializeBranchTargetRegisterValues_cells control target).
  pose proof (MergeRegister_cells control target pid).
  pose proof (target_state_rel (CellsOnly target) target).
  frame.
Qed.

End MergeFrames.

Lemma for_each_noop {A} (l : list A) (body : A → M unit) s :
  (∀ x, x ∈ l → body x s = Ok (tt, s)) → for_each l body s = Ok (tt, s).
Proof.
  induction l as [|x l IH]; intros H; simpl; [done|].
  unfold bind. rewrite H by (by left). apply IH. intros y Hy. apply H. by right.
Qed.

Section MergeCells.
Variables (N : nat) (D : bool) (is_dead : Node → bool).

Lemma live_at_target_cells target s t v source :
  CellsOnly target s t →
  live_at_target is_dead t v source target =
  live_at_target is_dead s v source target.
Proof.
  intros Hf. destruct (CellsOnly_fields _ _ _ Hf) as (_ & _ & _ & _ & _ & Hn & _).
  unfold live_at_target, node_at. rewrite Hn.
  pose proof (co_block _ _ _ Hf) as Hb. unfold set_register_state in Hb.
  injection Hb as -> -> -> _ _. done.
Qed.

Lemma incoming_cells target control i s t :
  CellsOnly target s t →
  incoming is_dead t control target i = incoming is_dead s control target i.
Proof.
  intros Hf. unfold incoming.
  destruct (CellsOnly_fields _ _ _ Hf) as (-> & _).
  destruct (register_values_ s !! i); [|done].
  by rewrite (live_at_target_cells _ _ _ _ _ Hf).
Qed.

Lemma has_state_cells target s t :
  CellsOnly target s t →
  has_state (block_at t target) = has_state (block_at s target).
Proof.
  intros Hf. pose proof (co_block _ _ _ Hf) as Hb.
  unfold set_register_state in Hb. by injection Hb as _ _ _ -> _.
Qed.

Lemma InitializeBranchTargetRegisterValues_spec source target s s' :
  InitializeBranchTargetRegisterValues N D is_dead source target s
    = Ok (tt, s') →
  CellsOnly target s s' ∧
  (N ≤ length (register_values_ s))%nat ∧
  ((0 < N)%nat → has_state (block_at s target) = true) ∧
  ∀ i, (i < N)%nat →
    register_state (block_at s' target) !! i =
    Some (NodeState (incoming is_dead s source target i)).
Proof.
  intros Hs. unfold InitializeBranchTargetRegisterValues in Hs.
  apply bind_Ok in Hs as ([] & s0 & Hchk & Hs).
  assert (s0 = s) as ->.
  { destruct D; [|by run].
    apply bind_Ok in Hchk as (c0 & ? & Hc0 & Hchk).
    apply target_state_Ok in Hc0 as (_ & _ & _ & ->). by run. }
  clear Hchk.
  set (I := λ (rest : list Z) (t : State),
    NoDup rest ∧ CellsOnly target s t ∧
    (∀ i, (i < N)%nat → Z.of_nat i ∉ rest →
       (i < length (register_values_ s))%nat ∧
       has_state (block_at s target) = true ∧
       register_state (block_at t target) !! i =
       Some (NodeState (incoming is_dead s source target i)))).
  eapply (for_each_inv I) in Hs.
  - destruct Hs as (_ & Hf & Hcells). split; [done|].
    assert (∀ i, (i < N)%nat → (i < length (register_values_ s))%nat ∧
              has_state (block_at s target) = true ∧
              register_state (block_at s' target) !! i =
              Some (NodeState (incoming is_dead s source target i))) as Hall.
    { intros i Hi. apply Hcells; [done|]. apply not_elem_of_nil. }
    split; [|split].
    + destruct N as [|n]; [lia|]. destruct (Hall n) as [? _]; lia.
    + intros HN. by destruct (Hall 0%nat HN) as (_ & ? & _).
    + intros i Hi. by destruct (Hall i Hi) as (_ & _ & ?).
  - clear Hs s'. intros x rest t t' (Hnd & Hf & Hcells) Hx.
    apply NoDup_cons in Hnd as [Hxr Hnd].
    apply bind_Ok in Hx as (cur & ? & Hcur & Hx).
    apply register_values_Ok in Hcur as (Hx0 & Hcur & ->).
    apply bind_Ok in Hx as (live & ? & Hlive & Hx).
    rewrite IsLiveAtTarget_Ok in Hlive. injection Hlive as <- <-.
    pose proof (set_target_state_cells target _ _ _ _ _ Hx) as Hf'.
    apply set_target_state_Ok in Hx as (Hst & _ & Hlt & ->).
    destruct (CellsOnly_fields _ _ _ Hf) as (Hrv & _).
    rewrite Hrv in Hcur.
    split; [done|]. split; [by etrans|].
    intros i Hi Hnin. rewrite block_at_insert, decide_True by done. simpl.
    destruct (decide (Z.of_nat i = x)) as [<-|Hne].
    + rewrite Nat2Z.id in *. split; [by eapply lookup_lt_Some|].
      split; [by rewrite <- (has_state_cells _ _ _ Hf)|].
      rewrite list_lookup_insert_eq by done. f_equal. f_equal.
      rewrite (live_at_target_cells _ _ _ _ _ Hf).
      unfold incoming. by rewrite Hcur.
    + rewrite list_lookup_insert_ne by lia.
      apply Hcells; [done|]. intros [?|?]%elem_of_cons; done.
  - split; [apply NoDup_indices|]. split; [reflexivity|].
    intros i Hi Hnin. by apply elem_of_indices in Hi.
Qed.

Lemma MergeRegister_same_node control target pid P i s x :
  0 <= i →
  has_state (block_at s target) = true →
  register_state (block_at s target) !! Z.to_nat i = Some (NodeState x) →
  (Z.to_nat i < length (register_values_ s))%nat →
  incoming is_dead s control target (Z.to_nat i) = x →
  MergeRegister N D is_dead control target pid P i s = Ok (tt, s).
Proof.
  intros Hi Hst Hc Hlt Hinc.
  destruct (lookup_lt_is_Some_2 _ _ Hlt) as [cur Hcur].
  unfold MergeRegister, bind, target_state, basic_block, bind.
  rewrite Hst, (proj2 (Z.leb_le 0 i)) by done. simpl. rewrite Hc.
  unfold ret, LoadMergeState, bind, DCHECK. simpl. rewrite andb_false_r.
  unfold ret, register_values. rewrite (proj2 (Z.leb_le 0 i)) by done.
  rewrite Hcur, IsLiveAtTarget_Ok. simpl.
  rewrite (incoming_eq is_dead control target i s cur Hi Hcur), Hinc.
  by rewrite bool_decide_eq_true_2.
Qed.

End MergeCells.

(** * Join states: the first edge, and the next *)

(** [MergeRegisterValues] writes nothing but the register cells of the
    target block: the register file, the free set, the stack slots, the
    nodes and the gap moves are as they were, every other block is
    untouched, and the target keeps its ids, its predecessor count and the
    number of its cells. *)
Theorem MergeRegisterValues_writes_cells_only N D is_dead control target pid
    s s' :
  MergeRegisterValues N D is_dead control target pid s = Ok (tt, s') →
  register_values_ s' = register_values_ s ∧
  free_registers_ s' = free_registers_ s ∧
  top_of_stack_ s' = top_of_stack_ s ∧
  free_slots_ s' = free_slots_ s ∧
  nodes_ s' = nodes_ s ∧
  gap_moves_ s' = gap_moves_ s ∧
  (∀ b, b ≠ target → block_at s' b = block_at s b) ∧
  set_register_state [] (block_at s' target) =
    set_register_state [] (block_at s target) ∧
  length (register_state (block_at s' target)) =
    length (register_state (block_at s target)).
Proof.
  intros Hs.
  pose proof (MergeRegisterValues_cells N D is_dead _ _ _ _ _ _ Hs) as Hf.
  destruct (CellsOnly_fields _ _ _ Hf) as (? & ? & ? & ? & _ & ? & ?).
  destruct Hf as [_ ? ? ?]. done.
Qed.

Lemma MergeRegisterValues_writes_cells_only_witness :
  ∃ s', MergeRegisterValues 2 true is_dead_past_end 30%nat 5%nat 1 merge_state
          = Ok (tt, s') ∧
    register_values_ s' = register_values_ merge_state ∧
    nodes_ s' = nodes_ merge_state ∧
    length (register_state (block_at s' 5%nat)) = 2%nat.
Proof.
  assert (∃ s', MergeRegisterValues 2 true is_dead_past_end 30%nat 5%nat 1
                  merge_state = Ok (tt, s')) as [s' Hrun]
    by (eexists; by vm_compute).
  exists s'. split; [exact Hrun|].
  destruct (MergeRegisterValues_writes_cells_only 2 true is_dead_past_end
              30%nat 5%nat 1 merge_state s' Hrun)
    as (Hv & _ & _ & _ & Hn & _ & _ & _ & Hl).
  split; [exact Hv|]. split; [exact Hn|]. rewrite Hl. reflexivity.
Defined.

(** The first edge into a join, [InitializeBranchTargetRegisterValues]:
    every register cell of the target becomes a node cell that holds the
    holder of the register if that value is live at the target, and null
    otherwise; nothing else is written. *)
Theorem InitializeBranchTargetRegisterValues_cells_are N D is_dead source
    target s s' :
  InitializeBranchTargetRegisterValues N D is_dead source target s
    = Ok (tt, s') →
  (∀ i, (i < N)%nat →
     register_state (block_at s' target) !! i =
     Some (NodeState (incoming is_dead s source target i))) ∧
  register_values_ s' = register_values_ s ∧
  free_registers_ s' = free_registers_ s ∧
  nodes_ s' = nodes_ s ∧
  (∀ b, b ≠ target → block_at s' b = block_at s b).
Proof.
  intros Hs.
  destruct (InitializeBranchTargetRegisterValues_spec N D is_dead _ _ _ _ Hs)
    as (Hf & _ & _ & Hcells).
  destruct (CellsOnly_fields _ _ _ Hf) as (? & ? & _ & _ & _ & ? & _).
  destruct Hf as [_ ? _ _]. done.
Qed.

Lemma InitializeBranchTargetRegisterValues_cells_are_witness :
  ∃ s', InitializeBranchTargetRegisterValues 2 true is_dead_past_end 30%nat
          5%nat first_edge = Ok (tt, s') ∧
    register_state (block_at s' 5%nat) =
      [NodeState (Some 10%nat); NodeState None].
Proof.
  assert (∃ s', InitializeBranchTargetRegisterValues 2 true is_dead_past_end
                  30%nat 5%nat first_edge = Ok (tt, s')) as [s' Hrun]
    by (eexists; by vm_compute).
  exists s'. split; [exact Hrun|].
  destruct (InitializeBranchTargetRegisterValues_cells_are 2 true
              is_dead_past_end 30%nat 5%nat first_edge s' Hrun)
    as (Hcells & _).
  pose proof (Hcells 0%nat ltac:(lia)) as H0.
  pose proof (Hcells 1%nat ltac:(lia)) as H1.
  vm_compute in Hrun. injection Hrun as <-. by vm_compute.
Defined.

(** Once an edge has initialized the state of a join, merging the same
    register file into it over the same edge changes nothing: each cell
    already holds what the register holds. *)
Theorem merge_after_initialize N D is_dead control target pid s s1 :
  (0 < N)%nat →
  InitializeBranchTargetRegisterValues N D is_dead control target s
    = Ok (tt, s1) →
  MergeRegisterValues N D is_dead control target pid s1 = Ok (tt, s1).
Proof.
  intros HN Hs.
  destruct (InitializeBranchTargetRegisterValues_spec N D is_dead _ _ _ _ Hs)
    as (Hf & Hlen & Hst & Hcells).
  destruct (CellsOnly_fields _ _ _ Hf) as (Hrv & _).
  assert (has_state (block_at s1 target) = true) as Hst1
    by (rewrite (has_state_cells _ _ _ Hf); auto).
  unfold MergeRegisterValues, bind, target_state, basic_block, bind.
  rewrite Hst1. simpl. change (Z.to_nat 0) with 0%nat.
  rewrite (Hcells 0%nat HN). simpl.
  apply for_each_noop. intros x Hx.
  assert (0 <= x) as Hx0 by (by eapply indices_nonneg).
  assert (Z.to_nat x < N)%nat as HxN.
  { apply elem_of_indices. by rewrite Z2Nat.id. }
  apply (MergeRegister_same_node N D is_dead control target pid _ x s1
           (incoming is_dead s control target (Z.to_nat x))); try done.
  - by apply Hcells.
  - rewrite Hrv. lia.
  - by apply incoming_cells.
Qed.

Lemma merge_after_initialize_witness :
  ∃ s1, InitializeBranchTargetRegisterValues 2 true is_dead_past_end 30%nat
          5%nat first_edge = Ok (tt, s1) ∧
    MergeRegisterValues 2 true is_dead_past_end 30%nat 5%nat 1 s1
      = Ok (tt, s1).
Proof.
  assert (∃ s', InitializeBranchTargetRegisterValues 2 true is_dead_past_end
                  30%nat 5%nat first_edge = Ok (tt, s')) as [s1 Hrun]
    by (eexists; by vm_compute).
  exists s1. split; [exact Hrun|].
  apply (merge_after_initialize 2 true is_dead_past_end 30%nat 5%nat 1
           first_edge s1); [lia|exact Hrun].
Defined.

Section Upgrade.
Variables (N : nat) (D : bool) (is_dead : Node → bool).

(** One turn of the loop of [MergeRegisterValues] on a node cell. *)
Lemma MergeRegister_node_cell control target pid P i t t' x :
  MergeRegister N D is_dead control target pid P i t = Ok (tt, t') →
  register_state (block_at t target) !! Z.to_nat i = Some (NodeState x) →
  (incoming is_dead t control target (Z.to_nat i) = x → t' = t) ∧
  (∀ v, x = Some v →
     incoming is_dead t control target (Z.to_nat i) ≠ Some v →
     register_state (block_at t' target) !! Z.to_nat i =
     Some (MergeState
             (mkMerge (Some v)
                (<[Z.to_nat pid := allocation (node_at t v)]>
                   (replicate (Z.to_nat P)
                      (REGISTER (MapIndexToRegister N i))))))) ∧
  (∀ w, x = None →
     incoming is_dead t control target (Z.to_nat i) = Some w →
     if is_spilled (node_at t w) then
       register_state (block_at t' target) !! Z.to_nat i =
       Some (MergeState
               (mkMerge (Some w)
                  (<[Z.to_nat pid := REGISTER (MapIndexToRegister N i)]>
                     (replicate (Z.to_nat P) (spill_slot (node_at t w))))))
     else
       t' = t ∧
       (D = true →
        ∃ j c, register_state (block_at t target) !! j = Some c ∧
               cell_node c = Some w)).
Proof.
  intros Hs Hcell. unfold MergeRegister in Hs.
  apply bind_Ok in Hs as (c & ? & Hc & Hs).
  apply target_state_Ok in Hc as (Hst & Hi & Hc & ->).
  rewrite Hcell in Hc. injection Hc as <-.
  apply bind_Ok in Hs as (nm & ? & Hnm & Hs).
  apply LoadMergeState_Ok in Hnm as (-> & Hnode & Hmerge).
  apply bind_Ok in Hs as (cur & ? & Hcur & Hs).
  apply register_values_Ok in Hcur as (_ & Hcur & ->).
  apply bind_Ok in Hs as (live & ? & Hlive & Hs).
  rewrite IsLiveAtTarget_Ok in Hlive. injection Hlive as <- <-.
  rewrite (incoming_eq is_dead control target i t cur Hi Hcur) in Hs.
  set (inc := incoming is_dead t control target (Z.to_nat i)) in *.
  rewrite Hnode, Hmerge in Hs. clear nm Hnode Hmerge. simpl in Hs.
  assert (∀ m k o t1,
            set_merge_operand target i m k o t = Ok (tt, t1) →
            register_state (block_at t1 target) !! Z.to_nat i =
            Some (MergeState
                    (mkMerge (merge_node m) (<[Z.to_nat k := o]> (operands m)))))
    as Hwritten.
  { intros m k o t1 Hw.
    apply set_merge_operand_Ok in Hw as (_ & _ & _ & _ & Hlt & ->).
    rewrite block_at_insert, decide_True by done. simpl.
    by rewrite list_lookup_insert_eq. }
  case_bool_decide as Hsame.
  - run. split; [done|]. split.
    + intros v -> Hne. congruence.
    + intros w -> Hw. congruence.
  - apply bind_Ok in Hs as (? & ? & Hd & Hs). apply DCHECK_Ok in Hd as [-> _].
    split; [done|].
    destruct x as [v|].
    + apply bind_Ok in Hs as (n & ? & Hn & Hs). apply node_Ok in Hn as [-> ->].
      split; [|done]. intros v' [= <-] _.
      by rewrite (Hwritten _ _ _ _ Hs).
    + split; [done|]. intros w _ Hw. rewrite Hw in Hs.
      apply bind_Ok in Hs as (n & ? & Hn & Hs). apply node_Ok in Hn as [-> ->].
      destruct (is_spilled (node_at t w)); simpl in Hs.
      * by rewrite (Hwritten _ _ _ _ Hs).
      * by apply EnsureInRegister_spec in Hs as [-> ?].
Qed.

(** The loop of [MergeRegisterValues], turn by turn: the turn of register
    [i] starts in a state that differs from the first in cells other than
    [i] only, and later turns leave cell [i] alone. *)
Lemma MergeRegisterValues_turns control target pid s s' :
  MergeRegisterValues N D is_dead control target pid s = Ok (tt, s') →
  (∃ c0, register_state (block_at s target) !! 0%nat = Some c0 ∧
         is_initialized c0 = true) →
  ∀ i, (i < N)%nat →
    ∃ t t',
      CellsOnly target s t ∧
      register_state (block_at t target) !! i =
        register_state (block_at s target) !! i ∧
      MergeRegister N D is_dead control target pid
        (predecessor_count (block_at s target)) (Z.of_nat i) t = Ok (tt, t') ∧
      register_state (block_at s' target) !! i =
        register_state (block_at t' target) !! i.
Proof.
  intros Hs (c0 & Hc0 & Hinit). unfold MergeRegisterValues in Hs.
  apply bind_Ok in Hs as (c & ? & Hc & Hs).
  apply target_state_Ok in Hc as (_ & _ & Hc & ->).
  change (Z.to_nat 0) with 0%nat in Hc. rewrite Hc0 in Hc. injection Hc as <-.
  rewrite Hinit in Hs. simpl in Hs.
  apply bind_Ok in Hs as (b & ? & Hb & Hs).
  apply basic_block_Ok in Hb as [-> ->].
  set (P := predecessor_count (block_at s target)) in *.
  set (I := λ (rest : list Z) (u : State),
    NoDup rest ∧ CellsOnly target s u ∧
    (∀ j, Z.of_nat j ∈ rest →
       register_state (block_at u target) !! j =
       register_state (block_at s target) !! j) ∧
    (∀ i, (i < N)%nat → Z.of_nat i ∉ rest →
       ∃ t t',
         CellsOnly target s t ∧
         register_state (block_at t target) !! i =
           register_state (block_at s target) !! i ∧
         MergeRegister N D is_dead control target pid P (Z.of_nat i) t
           = Ok (tt, t') ∧
         register_state (block_at u target) !! i =
           register_state (block_at t' target) !! i)).
  eapply (for_each_inv I) in Hs.
  - destruct Hs as (_ & _ & _ & Hdone). intros i Hi.
    apply Hdone; [done|]. apply not_elem_of_nil.
  - clear Hs s'. intros x rest u u' (Hnd & Hf & Hrest & Hdone) Hx.
    apply NoDup_cons in Hnd as [Hxr Hnd].
    pose proof (MergeRegister_cells N D is_dead _ _ _ _ _ _ _ _ Hx) as Hf'.
    pose proof Hx as Hx'.
    apply MergeRegister_spec in Hx' as (c & Hx0 & Hc & _ & Hother & _).
    split; [done|]. split; [by etrans|]. split.
    + intros j Hj. rewrite Hother.
      * apply Hrest. by right.
      * intros ->. rewrite Z2Nat.id in Hj by done. done.
    + intros i Hi Hnin. destruct (decide (Z.of_nat i = x)) as [<-|Hix].
      * exists u, u'. split; [done|]. split; [|done].
        apply Hrest. by left.
      * destruct (Hdone i Hi) as (t & t' & ? & ? & ? & Hlast).
        { intros [?|?]%elem_of_cons; done. }
        exists t, t'. split; [done|]. split; [done|]. split; [done|].
        rewrite Hother; [done|]. intros ->. lia.
  - split; [apply NoDup_indices|]. split; [reflexivity|]. split; [done|].
    intros i Hi Hnin. by apply elem_of_indices in Hi.
Qed.

End Upgrade.

(** * Join states: a node cell becomes a merge cell *)

(** [MergeRegisterValues] on a join whose state is initialized, for a
    register [i] whose cell is a node cell.  If the cell holds what the
    register holds (the same live value, or nothing), the cell stays.  If
    the cell holds a value [v] and the register something else, the cell
    becomes a merge cell for [v] with one operand per predecessor: the
    register [i] for every predecessor, but for this edge the current
    allocation of [v].  If the cell holds nothing and the register a live
    value [w] that is spilled, the cell becomes a merge cell for [w]: the
    spill slot of [w] for every predecessor, but register [i] for this
    edge; if [w] is not spilled, the cell stays empty. *)
Theorem MergeRegisterValues_node_cell N D is_dead control target pid s s' :
  MergeRegisterValues N D is_dead control target pid s = Ok (tt, s') →
  (∃ c0, register_state (block_at s target) !! 0%nat = Some c0 ∧
         is_initialized c0 = true) →
  ∀ i x, (i < N)%nat →
    register_state (block_at s target) !! i = Some (NodeState x) →
    (incoming is_dead s control target i = x →
     register_state (block_at s' target) !! i = Some (NodeState x)) ∧
    (∀ v, x = Some v → incoming is_dead s control target i ≠ Some v →
       register_state (block_at s' target) !! i =
       Some (MergeState
               (mkMerge (Some v)
                  (<[Z.to_nat pid := allocation (node_at s v)]>
                     (replicate
                        (Z.to_nat (predecessor_count (block_at s target)))
                        (REGISTER (Z.of_nat i))))))) ∧
    (∀ w, x = None → incoming is_dead s control target i = Some w →
       register_state (block_at s' target) !! i =
       Some (if is_spilled (node_at s w) then
               MergeState
                 (mkMerge (Some w)
                    (<[Z.to_nat pid := REGISTER (Z.of_nat i)]>
                       (replicate
                          (Z.to_nat (predecessor_count (block_at s target)))
                          (spill_slot (node_at s w)))))
             else NodeState None)).
Proof.
  intros Hs Hinit i x Hi Hcell.
  destruct (MergeRegisterValues_turns N D is_dead _ _ _ _ _ Hs Hinit i Hi)
    as (t & t' & Hf & Hct & Hturn & Hlast).
  rewrite Hcell in Hct.
  assert (Z.to_nat (Z.of_nat i) = i) as Hii by lia.
  pose proof (MergeRegister_node_cell N D is_dead _ _ _ _ _ _ _ x Hturn) as Hnc.
  rewrite Hii in Hnc. destruct (Hnc Hct) as (Hsame & Hnode & Hnone).
  rewrite (incoming_cells is_dead _ _ _ _ _ Hf) in Hsame, Hnode, Hnone.
  destruct (CellsOnly_fields _ _ _ Hf) as (_ & _ & _ & _ & _ & Hn & _).
  assert (∀ v, node_at t v = node_at s v) as Hnv
    by (intros v; unfold node_at; by rewrite Hn).
  assert (MapIndexToRegister N (Z.of_nat i) = Z.of_nat i) as Hm.
  { unfold MapIndexToRegister, allocatable.
    rewrite (proj2 (Z.leb_le 0 (Z.of_nat i))) by lia.
    by rewrite (proj2 (Z.ltb_lt (Z.of_nat i) (Z.of_nat N))) by lia. }
  rewrite Hm in Hnode, Hnone. rewrite Hlast.
  split; [|split].
  - intros Hinc. by rewrite (Hsame Hinc).
  - intros v Hv Hne. rewrite (Hnode v Hv Hne). by rewrite Hnv.
  - intros w Hx Hw. specialize (Hnone w Hx Hw). rewrite Hnv in Hnone.
    destruct (is_spilled (node_at s w)); [done|].
    destruct Hnone as [-> _]. by rewrite Hct, Hx.
Qed.

Lemma MergeRegisterValues_node_cell_witness :
  ∃ s', MergeRegisterValues 2 true is_dead_past_end 30%nat 5%nat 1 second_edge
          = Ok (tt, s') ∧
    register_state (block_at s' 5%nat) !! 0%nat =
      Some (MergeState (mkMerge (Some 10%nat) [REGISTER 0; REGISTER 1])) ∧
    register_state (block_at s' 5%nat) !! 1%nat = Some (NodeState None).
Proof.
  assert (∃ s', MergeRegisterValues 2 true is_dead_past_end 30%nat 5%nat 1
                  second_edge = Ok (tt, s')) as [s' Hrun]
    by (eexists; by vm_compute).
  exists s'. split; [exact Hrun|].
  assert (∃ c0, register_state (block_at second_edge 5%nat) !! 0%nat = Some c0 ∧
                is_initialized c0 = true) as Hinit
    by (eexists; split; reflexivity).
  pose proof (MergeRegisterValues_node_cell 2 true is_dead_past_end 30%nat
                5%nat 1 second_edge s' Hrun Hinit) as Hcells.
  split.
  - destruct (Hcells 0%nat (Some 10%nat)) as (_ & Hnode & _);
      [lia|reflexivity|].
    rewrite (Hnode 10%nat eq_refl); [reflexivity|]. vm_compute. discriminate.
  - destruct (Hcells 1%nat None) as (_ & _ & Hnone); [lia|reflexivity|].
    rewrite (Hnone 10%nat eq_refl); reflexivity.
Defined.

(** * Restoring the register file at a join *)

Global Instance Cleared_preorder : PreOrder Cleared.
Proof.
  split.
  - intros s. split; [done|]. split; [done|]. intros v. by left.
  - intros s1 s2 s3 (Hv1 & Hb1 & Hr1) (Hv2 & Hb2 & Hr2).
    split; [congruence|]. split; [congruence|]. intros v.
    destruct (Hr2 v) as [-> | ->]; [apply Hr1|by right].
Qed.

Lemma ClearRegisters_cleared v : preserves Cleared (update_node v ClearRegisters).
Proof.
  intros s a s' Hs. run. split; [done|]. split; [done|]. intros w. norm.
  destruct (decide (v = w)); [by right|by left].
Qed.

Lemma indices_range N x : x ∈ indices N → 0 <= x < Z.of_nat N.
Proof.
  intros Hx. split; [by eapply indices_nonneg|].
  assert (Z.to_nat x < N)%nat; [|lia].
  apply elem_of_indices. rewrite Z2Nat.id; [done|by eapply indices_nonneg].
Qed.

Lemma Map_index N i :
  0 <= i < Z.of_nat N →
  MapIndexToRegister N i = i ∧ MapRegisterToIndex N i = i.
Proof.
  intros Hi. unfold MapIndexToRegister, MapRegisterToIndex, allocatable.
  rewrite (proj2 (Z.leb_le 0 i)) by lia.
  by rewrite (proj2 (Z.ltb_lt i (Z.of_nat N))) by lia.
Qed.

Section Restore.
Variables (N : nat) (D : bool).

Lemma InitializeRegisterValues_spec target s s' :
  (N ≤ 255)%nat →
  length (register_values_ s) = N →
  (∀ v, 0 <= registers_with_result (node_at s v)) →
  InitializeRegisterValues N D target s = Ok (tt, s') →
  (∀ i, (i < N)%nat →
     ∃ c, register_state (block_at s target) !! i = Some c ∧
          register_values_ s' !! i = Some (cell_node c)) ∧
  Consistent N [] None s' ∧
  blocks_ s' = blocks_ s.
Proof.
  intros HN Hlen Hregs Hs. unfold InitializeRegisterValues in Hs.
  apply bind_Ok in Hs as ([] & s1 & Hclear & Hs).
  assert (Cleared s s1) as (Hv1 & Hb1 & Hr1).
  { match type of Hclear with ?m _ = _ =>
      assert (preserves Cleared m) as Hp
        by (pose proof ClearRegisters_cleared; frame) end.
    exact (Hp _ _ _ Hclear). }
  clear Hclear.
  apply bind_Ok in Hs as ([] & s2 & Hmod & Hs). apply modify_Ok in Hmod.
  set (cell := λ i, register_state (block_at s target) !! i).
  set (I := λ (rest : list Z) (t : State),
    NoDup rest ∧ (∀ x, x ∈ rest → 0 <= x < Z.of_nat N) ∧
    length (register_values_ t) = N ∧ blocks_ t = blocks_ s ∧
    0 <= free_registers_ t ∧
    (∀ v, 0 <= registers_with_result (node_at t v)) ∧
    (∀ r, 0 <= r → Z.testbit (free_registers_ t) r = true →
       (r ∉ rest) ∧ register_values_ t !! Z.to_nat r = Some None) ∧
    (∀ i, (i < N)%nat → Z.of_nat i ∉ rest →
       ∃ c, cell i = Some c ∧
         register_values_ t !! i = Some (cell_node c) ∧
         (cell_node c = None →
          Z.testbit (free_registers_ t) (Z.of_nat i) = true) ∧
         (∀ v, cell_node c = Some v →
            Z.testbit (registers_with_result (node_at t v)) (Z.of_nat i)
            = true))).
  eapply (for_each_inv I) in Hs.
  - destruct Hs as (_ & _ & Hlen' & Hb' & Hf0 & Hr0 & Hfree & Hdone).
    assert (∀ i, (i < N)%nat →
       ∃ c, cell i = Some c ∧
         register_values_ s' !! i = Some (cell_node c) ∧
         (cell_node c = None →
          Z.testbit (free_registers_ s') (Z.of_nat i) = true) ∧
         (∀ v, cell_node c = Some v →
            Z.testbit (registers_with_result (node_at s' v)) (Z.of_nat i)
            = true)) as Hall.
    { intros i Hi. apply Hdone; [done|]. apply not_elem_of_nil. }
    split; [|split; [|done]].
    + intros i Hi. destruct (Hall i Hi) as (c & ? & ? & _). eauto.
    + split; try done.
      * intros r Hr Hb. by destruct (Hfree r Hr Hb).
      * intros r Hr Hl. left. pose proof Hl as Hlt%lookup_lt_Some.
        destruct (Hall (Z.to_nat r)) as (c & _ & Hc & Hnone & _); [lia|].
        rewrite Hl in Hc. injection Hc as Hc.
        rewrite Z2Nat.id in Hnone by done. by apply Hnone.
      * intros r v Hr Hl. right. pose proof Hl as Hlt%lookup_lt_Some.
        destruct (Hall (Z.to_nat r)) as (c & _ & Hc & _ & Hsome); [lia|].
        rewrite Hl in Hc. injection Hc as Hc.
        rewrite Z2Nat.id in Hsome by done. by apply Hsome.
  - clear Hs s'. intros x rest t t'
      (Hnd & Hrange & Hlen' & Hb' & Hf0 & Hr0 & Hfree & Hdone) Hx.
    apply NoDup_cons in Hnd as [Hxr Hnd].
    assert (0 <= x < Z.of_nat N) as Hxn by (apply Hrange; by left).
    destruct (Map_index N x Hxn) as [Hmi Hmr].
    apply bind_Ok in Hx as (c & ? & Hc & Hx).
    apply target_state_Ok in Hc as (_ & _ & Hc & ->).
    assert (cell (Z.to_nat x) = Some c) as Hcx.
    { unfold cell, block_at in *. by rewrite <- Hb'. }
    apply bind_Ok in Hx as (nm & ? & Hnm & Hx).
    apply LoadMergeState_Ok in Hnm as (-> & Hnode & _). rewrite Hnode in Hx.
    assert (∀ P : State → Prop,
      (∀ i, (i < N)%nat → Z.of_nat i ∉ rest → True) → True) as _ by done.
    destruct (cell_node c) as [v|] eqn:Hcn.
    + (* the cell holds [v] *)
      rewrite Hmi in Hx. unfold SetRegister in Hx. rewrite Hmr in Hx.
      apply bind_Ok in Hx as (cur & ? & Hcur & Hx).
      apply register_values_Ok in Hcur as (_ & Hcur & ->).
      apply bind_Ok in Hx as (? & ? & Hd & Hx). apply DCHECK_Ok in Hd as [-> _].
      apply bind_Ok in Hx as ([] & t1 & Hset & Hx).
      apply set_register_values_Ok in Hset as (_ & Hlt & ->).
      apply update_node_Ok in Hx. subst t'. unfold I. simpl.
      split; [done|]. split; [intros y Hy; apply Hrange; by right|].
      split; [by rewrite length_insert|]. split; [done|]. split; [done|].
      split.
      { intros w. norm. destruct (decide (v = w)) as [<-|]; [|done].
        simpl. norm. by apply InsertInto_nonneg. }
      split.
      { intros r Hr Hb. destruct (Hfree r Hr Hb) as [Hnin Hl].
        split; [intros ?; apply Hnin; by right|].
        rewrite list_lookup_insert_ne; [done|].
        intros Heq. apply Hnin. apply elem_of_cons. left. lia. }
      intros i Hi Hnin. destruct (decide (Z.of_nat i = x)) as [<-|Hne].
      * rewrite Nat2Z.id in *. exists c. split; [done|].
        rewrite list_lookup_insert_eq by done. rewrite Hcn.
        split; [done|]. split; [done|].
        intros v' [= <-]. norm. rewrite decide_True by done. simpl. norm.
        rewrite testbit_InsertInto by lia. by rewrite Z.eqb_refl.
      * destruct (Hdone i Hi) as (c' & Hc' & Hl' & Hnone & Hsome).
        { intros [?|?]%elem_of_cons; done. }
        exists c'. split; [done|].
        rewrite list_lookup_insert_ne by lia. split; [done|].
        split; [done|]. intros v' Hv'. norm.
        destruct (decide (v = v')) as [<-|]; [|by apply Hsome].
        simpl. norm. rewrite testbit_InsertInto by lia.
        by rewrite (Hsome v Hv'), orb_true_r.
    + (* the cell is empty *)
      apply bind_Ok in Hx as (? & ? & Hd & Hx). apply DCHECK_Ok in Hd as [-> _].
      unfold FreeRegister in Hx. rewrite Hmi in Hx.
      apply bind_Ok in Hx as ([] & t1 & Hset & Hx).
      apply set_register_values_Ok in Hset as (_ & Hlt & ->).
      apply modify_Ok in Hx. subst t'. unfold I. simpl.
      split; [done|]. split; [intros y Hy; apply Hrange; by right|].
      split; [by rewrite length_insert|]. split; [done|].
      split; [by apply InsertInto_nonneg|]. split; [done|].
      split.
      { intros r Hr Hb. rewrite testbit_InsertInto in Hb by lia.
        destruct (decide (r = x)) as [->|Hne].
        - split; [done|]. by rewrite list_lookup_insert_eq.
        - rewrite (proj2 (Z.eqb_neq x r)) in Hb by done. simpl in Hb.
          destruct (Hfree r Hr Hb) as [Hnin Hl].
          split; [intros ?; apply Hnin; by right|].
          rewrite list_lookup_insert_ne; [done|]. lia. }
      intros i Hi Hnin. destruct (decide (Z.of_nat i = x)) as [<-|Hne].
      * rewrite Nat2Z.id in *. exists c. split; [done|].
        rewrite list_lookup_insert_eq by done. rewrite Hcn.
        split; [done|]. split; [|done]. intros _.
        rewrite testbit_InsertInto by lia. by rewrite Z.eqb_refl.
      * destruct (Hdone i Hi) as (c' & Hc' & Hl' & Hnone & Hsome).
        { intros [?|?]%elem_of_cons; done. }
        exists c'. split; [done|].
        rewrite list_lookup_insert_ne by lia. split; [done|].
        split; [|done]. intros Hn. rewrite testbit_InsertInto by lia.
        by rewrite (Hnone Hn), orb_true_r.
  - subst s2. unfold I. simpl. split; [apply NoDup_indices|].
    split; [apply indices_range|].
    split; [congruence|]. split; [done|]. split; [done|].
    split.
    { intros v. norm. destruct (Hr1 v) as [-> | ->]; [apply Hregs|done]. }
    split.
    { intros r Hr Hb. by rewrite Z.bits_0 in Hb. }
    intros i Hi Hnin. by apply elem_of_indices in Hi.
Qed.

End Restore.

Section RestoreFails.
Variable N : nat.

Lemma clear_loop_total l : ∀ s,
  (∀ x, x ∈ l → 0 <= x ∧ (Z.to_nat x < length (register_values_ s))%nat) →
  ∃ s1,
    for_each l (λ i, cur <- register_values i ;;
                     match cur with
                     | Some v => update_node v ClearRegisters
                     | None => ret ()
                     end) s = Ok (tt, s1) ∧
    Cleared s s1.
Proof.
  induction l as [|x l IH]; intros s Hl; simpl.
  - exists s. split; [done|reflexivity].
  - destruct (Hl x) as [Hx0 Hx]; [by left|].
    destruct (lookup_lt_is_Some_2 _ _ Hx) as [cur Hcur].
    unfold bind at 1. unfold bind at 1. unfold register_values.
    rewrite (proj2 (Z.leb_le 0 x)), Hcur by done.
    destruct cur as [v|].
    + unfold update_node, modify.
      destruct (IH (with_nodes (<[v := ClearRegisters (node_at s v)]> (nodes_ s)) s))
        as (s1 & Hs1 & Hc1).
      { intros y Hy. apply Hl. by right. }
      exists s1. split; [done|]. etrans; [|done].
      eapply ClearRegisters_cleared. unfold update_node, modify. done.
    + destruct (IH s) as (s1 & Hs1 & Hc1).
      { intros y Hy. apply Hl. by right. }
      exists s1. done.
Qed.

(** The second loop of [InitializeRegisterValues] halts on the first
    register that holds another value than its cell. *)
Lemma restore_loop_fails target i v w l : ∀ t,
  (N ≤ 255)%nat →
  length (register_values_ t) = N →
  has_state (block_at t target) = true →
  (N ≤ length (register_state (block_at t target)))%nat →
  (∀ x, x ∈ l → 0 <= x < Z.of_nat N) →
  Z.of_nat i ∈ l →
  (∃ c, register_state (block_at t target) !! i = Some c ∧
        cell_node c = Some v) →
  register_values_ t !! i = Some (Some w) → w ≠ v →
  for_each l (λ i,
    c <- target_state target i ;;
    nm <- LoadMergeState true c ;;
    match nm.1 with
    | None => DCHECK true (negb (is_merge c)) ;; FreeRegister N i
    | Some v => SetRegister N true (MapIndexToRegister N i) v
    end) t = Fatal.
Proof.
  induction l as [|x l IH]; intros t HN Hlen Hst Hcells Hl Hi (c & Hc & Hcn) Hw Hne.
  { by apply elem_of_nil in Hi. }
  assert (0 <= x < Z.of_nat N) as Hx by (apply Hl; by left).
  destruct (Map_index N x Hx) as [Hmi Hmr].
  destruct (lookup_lt_is_Some_2 (register_state (block_at t target)) (Z.to_nat x))
    as [cx Hcx]; [lia|].
  destruct (lookup_lt_is_Some_2 (register_values_ t) (Z.to_nat x))
    as [cur Hcur]; [lia|].
  simpl. unfold bind at 1. unfold bind at 1.
  unfold target_state, bind, basic_block.
  rewrite Hst, (proj2 (Z.leb_le 0 x)) by lia. simpl. rewrite Hcx.
  unfold ret. unfold LoadMergeState, bind, DCHECK. simpl.
  destruct (decide (x = Z.of_nat i)) as [->|Hxi].
  - (* the register that holds another value *)
    rewrite Nat2Z.id in *. rewrite Hc in Hcx. injection Hcx as <-.
    destruct c as [|n|m]; [done| |]; simpl in *; unfold ret.
    + rewrite Hcn, Hmi. unfold SetRegister, bind. rewrite Hmr.
      unfold register_values. rewrite (proj2 (Z.leb_le 0 _)) by lia.
      rewrite Nat2Z.id, Hw. unfold DCHECK. simpl.
      rewrite bool_decide_eq_false_2 by congruence. done.
    + rewrite Hcn, Hmi. unfold SetRegister, bind. rewrite Hmr.
      unfold register_values. rewrite (proj2 (Z.leb_le 0 _)) by lia.
      rewrite Nat2Z.id, Hw. unfold DCHECK. simpl.
      rewrite bool_decide_eq_false_2 by congruence. done.
  - (* another register: the turn returns or halts *)
    assert (Z.of_nat i ∈ l) as Hi'.
    { apply elem_of_cons in Hi as [?|?]; [lia|done]. }
    assert (∀ t', length (register_values_ t') = N →
              block_at t' target = block_at t target →
              register_values_ t' !! i = Some (Some w) →
              for_each l (λ i,
                c <- target_state target i ;;
                nm <- LoadMergeState true c ;;
                match nm.1 with
                | None => DCHECK true (negb (is_merge c)) ;; FreeRegister N i
                | Some v => SetRegister N true (MapIndexToRegister N i) v
                end) t' = Fatal) as Hnext.
    { intros t' Hlen' Hb' Hw'. apply IH; try done.
      - by rewrite Hb'.
      - by rewrite Hb'.
      - intros y Hy. apply Hl. by right.
      - exists c. by rewrite Hb'. }
    destruct cx as [|n|m]; simpl; [done| |]; unfold ret.
    + destruct n as [v'|]; simpl.
      * rewrite Hmi. unfold SetRegister, bind. rewrite Hmr.
        unfold register_values. rewrite (proj2 (Z.leb_le 0 x)) by lia.
        rewrite Hcur. unfold DCHECK. simpl.
        destruct (negb _); simpl; [done|]. unfold ret, set_register_values.
        rewrite (proj2 (Z.leb_le 0 x)) by lia.
        rewrite bool_decide_eq_true_2 by lia. simpl.
        unfold update_node, modify. apply Hnext; simpl.
        -- by rewrite length_insert.
        -- done.
        -- rewrite list_lookup_insert_ne by lia. done.
      * unfold FreeRegister, bind, ret, set_register_values.
        rewrite (proj2 (Z.leb_le 0 x)) by lia.
        rewrite bool_decide_eq_true_2 by lia. simpl. unfold modify.
        apply Hnext; simpl.
        -- by rewrite length_insert.
        -- done.
        -- rewrite list_lookup_insert_ne by lia. done.
    + destruct (merge_node m) as [v'|]; simpl.
      * rewrite Hmi. unfold SetRegister, bind. rewrite Hmr.
        unfold register_values. rewrite (proj2 (Z.leb_le 0 x)) by lia.
        rewrite Hcur. unfold DCHECK. simpl.
        destruct (negb _); simpl; [done|]. unfold ret, set_register_values.
        rewrite (proj2 (Z.leb_le 0 x)) by lia.
        rewrite bool_decide_eq_true_2 by lia. simpl.
        unfold update_node, modify. apply Hnext; simpl.
        -- by rewrite length_insert.
        -- done.
        -- rewrite list_lookup_insert_ne by lia. done.
      * done.
Qed.

End RestoreFails.

(** [InitializeRegisterValues] at the start of a block that has a join
    state: afterwards every register holds what its cell of the join state
    stands for, an empty register is in the free set and a holder has its
    register in its own set (the register file is consistent), and the
    blocks are as they were. *)
Theorem InitializeRegisterValues_restores N D target s s' :
  (N ≤ 255)%nat →
  length (register_values_ s) = N →
  (∀ v, 0 <= registers_with_result (node_at s v)) →
  InitializeRegisterValues N D target s = Ok (tt, s') →
  (∀ i, (i < N)%nat →
     ∃ c, register_state (block_at s target) !! i = Some c ∧
          register_values_ s' !! i = Some (cell_node c)) ∧
  Consistent N [] None s' ∧
  blocks_ s' = blocks_ s.
Proof. apply InitializeRegisterValues_spec. Qed.

Lemma at_join_sets v : 0 <= registers_with_result (node_at at_join v).
Proof.
  unfold node_at, at_join. simpl.
  destruct (decide (10%nat = v)) as [<-|].
  - by rewrite lookup_total_insert_eq.
  - rewrite lookup_total_insert_ne by done. by rewrite lookup_total_empty.
Defined.

Lemma InitializeRegisterValues_restores_witness :
  ∃ s', InitializeRegisterValues 2 true 5%nat at_join = Ok (tt, s') ∧
    register_values_ s' = [None; Some 10%nat] ∧
    Consistent 2 [] None s'.
Proof.
  assert (∃ s', InitializeRegisterValues 2 true 5%nat at_join = Ok (tt, s'))
    as [s' Hrun] by (eexists; by vm_compute).
  exists s'. split; [exact Hrun|].
  destruct (InitializeRegisterValues_restores 2 true 5%nat at_join s')
    as (_ & HC & _); [lia|reflexivity|exact at_join_sets|exact Hrun|].
  split; [|exact HC]. vm_compute in Hrun. injection Hrun as <-. reflexivity.
Defined.

(** In a build with assertions [InitializeRegisterValues] halts when a
    register holds a value other than the one its cell of the join state
    stands for: the first loop clears the register sets of the holders but
    leaves the holders in the register file, and [SetRegister] asserts that
    the register it writes is empty or holds the node already. *)
Theorem InitializeRegisterValues_mismatch N target s i c v w :
  (N ≤ 255)%nat →
  length (register_values_ s) = N →
  has_state (block_at s target) = true →
  (N ≤ length (register_state (block_at s target)))%nat →
  (i < N)%nat →
  register_state (block_at s target) !! i = Some c →
  cell_node c = Some v →
  register_values_ s !! i = Some (Some w) →
  w ≠ v →
  InitializeRegisterValues N true target s = Fatal.
Proof.
  intros HN Hlen Hst Hcells Hi Hc Hcn Hw Hne.
  unfold InitializeRegisterValues.
  destruct (clear_loop_total (indices N) s) as (s1 & Hs1 & Hv1 & Hb1 & _).
  { intros x Hx%indices_range. lia. }
  unfold bind at 1. rewrite Hs1.
  unfold bind at 1. unfold modify.
  assert (block_at (with_free_registers kEmptyRegList s1) target =
          block_at s target) as Hbt
    by (unfold block_at; simpl; by rewrite Hb1).
  apply (restore_loop_fails N target i v w); rewrite ?Hbt; try done.
  - simpl. congruence.
  - apply indices_range.
  - by apply elem_of_indices.
  - by exists c.
  - simpl. by rewrite Hv1.
Qed.

Lemma InitializeRegisterValues_mismatch_witness :
  InitializeRegisterValues 2 true 5%nat at_join_other = Fatal.
Proof.
  apply (InitializeRegisterValues_mismatch 2 5%nat at_join_other 0%nat
           (NodeState (Some 11%nat)) 11%nat 10%nat);
    try reflexivity; try lia; try discriminate.
Defined.

(** * Control nodes, blocks, and the whole graph *)

Lemma CellsOnly_consistent N H X target s t :
  CellsOnly target s t → Consistent N H X s → Consistent N H X t.
Proof.
  intros Hf HC.
  destruct (CellsOnly_fields _ _ _ Hf) as (Hv & Hfr & _ & _ & _ & Hn & _).
  assert (∀ v, node_at t v = node_at s v) as Hnv
    by (intros v; unfold node_at; by rewrite Hn).
  destruct HC as [? ? ? ? ? ? ?].
  split; rewrite ?Hv, ?Hfr; try done; intros; rewrite ?Hnv; eauto.
Qed.

Lemma preserves_cells_keeps {A} N H X target (m : M A) :
  preserves (CellsOnly target) m → preserves (Keeps (Consistent N H X)) m.
Proof. intros Hm s a s' Hs HC. eapply CellsOnly_consistent; [|done]. by eapply Hm. Qed.

Section ControlInvariants.
Variables (N : nat) (D : bool) (is_dead has_valid_live_range : Node → bool).
Variable g : Graph.
Local Abbreviation Inv := (Consistent N [] None).

Lemma MergeRegisterValues_inv control target pid :
  preserves (Keeps Inv) (MergeRegisterValues N D is_dead control target pid).
Proof. eapply preserves_cells_keeps, MergeRegisterValues_cells. Qed.

Lemma InitializeBranchTargetRegisterValues_inv control target :
  preserves (Keeps Inv)
    (InitializeBranchTargetRegisterValues N D is_dead control target).
Proof.
  eapply preserves_cells_keeps, InitializeBranchTargetRegisterValues_cells.
Qed.

Lemma InitializeConditionalBranchRegisters_inv control target :
  preserves (Keeps Inv)
    (InitializeConditionalBranchRegisters N D is_dead g control target).
Proof.
  unfold InitializeConditionalBranchRegisters.
  pose proof MergeRegisterValues_inv.
  pose proof InitializeBranchTargetRegisterValues_inv.
  pose proof (FreeRegisters_inv N).
  pose proof (IsLiveAtTarget_rel (Keeps Inv) is_dead).
  frame.
Qed.

Lemma phi_input_rel R `{!PreOrder R} phi pid : preserves R (phi_input phi pid).
Proof. unfold phi_input, input. frame. Qed.

Lemma InjectPhiInputs_inv phis pid :
  preserves (Keeps Inv) (InjectPhiInputs N is_dead phis pid).
Proof.
  unfold InjectPhiInputs.
  pose proof (phi_input_rel (Keeps Inv)).
  pose proof (update_node_inv N).
  pose proof (UpdateInputUse_inv N is_dead).
  frame.
Qed.

Lemma AllocateControlNode_inv p block :
  preserves (Keeps Inv) (AllocateControlNode N D is_dead g p block).
Proof.
  unfold AllocateControlNode.
  pose proof (AssignInput_inv N D). pose proof (AssignTemporaries_inv N D).
  pose proof (UpdateInputUse_inv N is_dead).
  pose proof (SpillAndClearRegisters_inv N D).
  pose proof (preserves_same_keeps N _ [] None (SpillRegisters_same N D)).
  pose proof InjectPhiInputs_inv.
  pose proof MergeRegisterValues_inv.
  pose proof InitializeConditionalBranchRegisters_inv.
  frame.
Qed.

Lemma InitializeRegisterValues_inv target :
  preserves (Keeps Inv) (InitializeRegisterValues N D target).
Proof.
  intros s [] s' Hs HC.
  destruct (InitializeRegisterValues_spec N D target s s') as (_ & ? & _);
    try done; by destruct HC.
Qed.

Lemma set_node_it_inv p : preserves (Keeps Inv) (set_node_it p).
Proof.
  unfold set_node_it. apply preserves_same_keeps, preserves_modify_same; done.
Qed.

Lemma AllocateBlock_inv block :
  preserves (Keeps Inv)
    (AllocateBlock N D is_dead has_valid_live_range g block).
Proof.
  unfold AllocateBlock.
  pose proof InitializeRegisterValues_inv.
  pose proof (AllocatePhis_inv N D).
  pose proof (AllocateNodes_inv N D is_dead has_valid_live_range).
  pose proof set_node_it_inv.
  pose proof AllocateControlNode_inv.
  frame.
Qed.

Lemma AllocateRegisters_inv :
  preserves (Keeps Inv) (AllocateRegisters N D is_dead has_valid_live_range g).
Proof. unfold AllocateRegisters. pose proof AllocateBlock_inv. frame. Qed.

End ControlInvariants.

Section FallThrough.
Variables (N : nat) (D : bool) (is_dead : Node → bool).
Variable g : Graph.
Local Abbreviation Inv := (Consistent N [] None).

Lemma live_at_target_kept s t v source target :
  blocks_ t = blocks_ s →
  node_at t v = node_at s v →
  node_id (node_at t source) = node_id (node_at s source) →
  live_at_target is_dead t (Some v) source target =
  live_at_target is_dead s (Some v) source target.
Proof.
  intros Hb Hv Hsrc. unfold live_at_target, block_at. by rewrite Hb, Hv, Hsrc.
Qed.

Lemma fall_through_loop control target s s' :
  Inv s →
  for_each (indices N) (λ i,
    cur <- register_values i ;;
    match cur with
    | None => ret tt
    | Some v =>
        live <- IsLiveAtTarget is_dead (Some v) control target ;;
        if live then ret tt else FreeRegisters N v
    end) s = Ok (tt, s') →
  Inv s' ∧ blocks_ s' = blocks_ s ∧
  (∀ k v, register_values_ s' !! k = Some (Some v) →
     register_values_ s !! k = Some (Some v) ∧
     node_at s' v = node_at s v ∧
     live_at_target is_dead s (Some v) control target = true).
Proof.
  intros HC Hs.
  set (I := λ (rest : list Z) (t : State),
    Inv t ∧ blocks_ t = blocks_ s ∧ Emptied s t ∧ kept_or_cleared s t ∧
    (∀ k v, (k < N)%nat → Z.of_nat k ∉ rest →
       register_values_ t !! k = Some (Some v) →
       live_at_target is_dead s (Some v) control target = true)).
  eapply (for_each_inv I) in Hs.
  - destruct Hs as (HC' & Hb & Hem & Hkc & Hlive). split; [done|].
    split; [done|]. intros k v Hk. split; [by apply Hem|].
    split.
    + destruct (Hkc v) as [?|[_ Hno]]; [done|]. by destruct (Hno k).
    + apply (Hlive k v); [|apply not_elem_of_nil|done].
      apply lookup_lt_Some in Hk. by rewrite (cons_length _ _ _ _ HC') in Hk.
  - clear Hs s'. intros x rest t t' (HCt & Hb & Hem & Hkc & Hlive) Hx.
    apply bind_Ok in Hx as (cur & ? & Hcur & Hx).
    apply register_values_Ok in Hcur as (Hx0 & Hcur & ->).
    assert (∀ p, node_id (node_at t p) = node_id (node_at s p)) as Hid.
    { intros p. destruct (Hkc p) as [->|[-> _]]; done. }
    destruct cur as [v|].
    + apply bind_Ok in Hx as (live & t0 & Hl & Hx).
      rewrite IsLiveAtTarget_Ok in Hl.
      assert (live = live_at_target is_dead t (Some v) control target ∧ t0 = t)
        as [-> ->] by (split; congruence).
      clear Hl.
      assert (node_at t v = node_at s v) as Hv.
      { destruct (Hkc v) as [?|[_ Hno]]; [done|].
        by destruct (Hno (Z.to_nat x)). }
      rewrite (live_at_target_kept s t v control target Hb Hv (Hid control))
        in Hx.
      destruct (live_at_target is_dead s (Some v) control target) eqn:El.
      * run. split; [done|]. split; [done|]. split; [done|]. split; [done|].
        intros k w Hk Hnin Hw.
        destruct (decide (Z.of_nat k = x)) as [<-|Hne].
        -- rewrite Nat2Z.id in Hcur. congruence.
        -- apply (Hlive k w); [done| |done].
           intros [?|?]%elem_of_cons; done.
      * destruct (FreeRegisters_cons N v t t' HCt Hx)
          as (HC' & Hn & Hno & Hnone & Hsome & _).
        assert (blocks_ t' = blocks_ t) as Hb'.
        { pose proof (FreeRegisters_low N v _ _ _ Hx) as [[_ _ _ ? _] _ _ _].
          done. }
        split; [done|]. split; [congruence|]. split.
        { intros k w Hk. by apply Hem, Hsome. }
        split.
        { intros p. unfold node_at at 1 3. rewrite Hn.
          destruct (decide (v = p)) as [<-|Hne].
          - rewrite lookup_total_insert_eq. right. split; [|done].
            fold (node_at t v). by rewrite Hv.
          - rewrite lookup_total_insert_ne by done. fold (node_at t p).
            destruct (Hkc p) as [?|[? Hnop]]; [by left|right].
            split; [done|]. intros k Hk. apply Hsome in Hk. by destruct (Hnop k). }
        intros k w Hk Hnin Hw.
        destruct (decide (Z.of_nat k = x)) as [<-|Hne].
        -- rewrite Nat2Z.id in Hcur. pose proof (Hsome _ _ Hw) as Hw'.
           assert (w = v) as -> by congruence. by destruct (Hno k).
        -- apply (Hlive k w); [done| |by apply Hsome].
           intros [?|?]%elem_of_cons; done.
    + run. split; [done|]. split; [done|]. split; [done|]. split; [done|].
      intros k w Hk Hnin Hw.
      destruct (decide (Z.of_nat k = x)) as [<-|Hne].
      * rewrite Nat2Z.id in Hcur. congruence.
      * apply (Hlive k w); [done| |done]. intros [?|?]%elem_of_cons; done.
  - split; [done|]. split; [done|]. split; [reflexivity|].
    split; [intros p; by left|].
    intros k v Hk Hnin. by apply elem_of_indices in Hk.
Qed.

End FallThrough.

(** * Phi inputs *)

Global Instance InputsSame_preorder : PreOrder InputsSame.
Proof.
  split.
  - by intros s p.
  - intros s1 s2 s3 H12 H23 p. by rewrite H23, H12.
Qed.

Lemma update_node_inputs p f :
  (∀ n, inputs (f n) = inputs n) → preserves InputsSame (update_node p f).
Proof.
  intros Hf s a s' Hs. run. intros q. norm.
  destruct (decide (p = q)) as [<-|]; [apply Hf|done].
Qed.

Lemma modify_inputs f :
  (∀ s, nodes_ (f s) = nodes_ s) → preserves InputsSame (modify f).
Proof. intros Hf s a s' Hs. run. intros q. unfold node_at. by rewrite Hf. Qed.

Lemma set_register_values_inputs i v :
  preserves InputsSame (set_register_values i v).
Proof. intros s a s' Hs. run. by intros q. Qed.



Lemma branch_start_consistent : Consistent 2 [] None branch_start.
Proof.
  by destruct (initial_state_consistent 2 branch_nodes branch_blocks)
    as [HC _]; [lia|done|].
Defined.

Lemma before_branch_consistent : Consistent 2 [] None before_branch.
Proof.
  apply (AllocateNodes_inv 2 true is_dead_past_end has_live_range_end
           [10%nat] branch_start tt before_branch);
    [|exact branch_start_consistent].
  vm_compute. reflexivity.
Defined.

(** Every step of the allocation keeps the register file consistent (a
    register is in the free set exactly when it is empty, and a holder has
    its register in its own register set): the step of a node, the
    placement of the phis, the step of a control node with its merges, a
    whole block, which starts by restoring the state of a join, and so the
    allocation of a whole graph. *)
Theorem register_file_stays_consistent N D is_dead has_valid_live_range g :
  (∀ p s s', Consistent N [] None s →
     AllocateNode N D is_dead has_valid_live_range p s = Ok (tt, s') →
     Consistent N [] None s') ∧
  (∀ phis s s', Consistent N [] None s →
     AllocatePhis N D phis s = Ok (tt, s') → Consistent N [] None s') ∧
  (∀ p block s s', Consistent N [] None s →
     AllocateControlNode N D is_dead g p block s = Ok (tt, s') →
     Consistent N [] None s') ∧
  (∀ block s s', Consistent N [] None s →
     AllocateBlock N D is_dead has_valid_live_range g block s = Ok (tt, s') →
     Consistent N [] None s') ∧
  (∀ s s', Consistent N [] None s →
     AllocateRegisters N D is_dead has_valid_live_range g s = Ok (tt, s') →
     Consistent N [] None s' ∧
     (∀ i, (i < N)%nat →
        Z.testbit (free_registers_ s') (Z.of_nat i) = true ↔
        register_values_ s' !! i = Some None) ∧
     (∀ i v, register_values_ s' !! i = Some (Some v) →
        Z.testbit (registers_with_result (node_at s' v)) (Z.of_nat i) = true)).
Proof.
  split; [|split; [|split; [|split]]].
  - intros p s s' HC Hs. by eapply AllocateNode_inv.
  - intros phis s s' HC Hs. by eapply AllocatePhis_inv.
  - intros p block s s' HC Hs. by eapply AllocateControlNode_inv.
  - intros block s s' HC Hs. by eapply AllocateBlock_inv.
  - intros s s' HC Hs.
    pose proof (AllocateRegisters_inv N D is_dead has_valid_live_range g
                  _ _ _ Hs HC) as HC'.
    split; [done|]. split.
    + intros i Hi. split.
      * intros Hb. rewrite <- (Nat2Z.id i) at 1.
        apply (cons_free_empty _ _ _ _ HC'); [lia|done].
      * intros Hl.
        destruct (cons_empty_free _ _ _ _ HC' (Z.of_nat i))
          as [|[]%elem_of_nil]; [lia|by rewrite Nat2Z.id|done].
    + intros i v Hl.
      destruct (cons_held _ _ _ _ HC' (Z.of_nat i) v) as [|]; try done; [lia|].
      by rewrite Nat2Z.id.
Qed.

Lemma register_file_stays_consistent_witness :
  ∃ s', AllocateRegisters 2 true is_dead_past_end has_live_range_end
          branch_graph branch_start = Ok (tt, s') ∧
    Consistent 2 [] None s'.
Proof.
  assert (∃ s', AllocateRegisters 2 true is_dead_past_end has_live_range_end
                  branch_graph branch_start = Ok (tt, s')) as [s' Hrun]
    by (eexists; by vm_compute).
  exists s'. split; [exact Hrun|].
  exact (proj1 (proj2 (proj2 (proj2 (proj2
           (register_file_stays_consistent 2 true is_dead_past_end
              has_live_range_end branch_graph))))
           branch_start s' branch_start_consistent Hrun)).
Defined.

(** A conditional branch into a fall-through block (not empty, and
    without a join state), [InitializeConditionalBranchRegisters]: the
    registers whose holder is not live at the target are freed.  Every
    register that is still held afterwards was held by the same value
    before, and that value is live at the target; the register file stays
    consistent, and no join state is written. *)
Theorem fall_through_frees_dead_holders N D is_dead g control target s s' :
  Consistent N [] None s →
  is_empty_block (shape_at g target) = false →
  has_state (block_at s target) = false →
  InitializeConditionalBranchRegisters N D is_dead g control target s
    = Ok (tt, s') →
  Consistent N [] None s' ∧
  blocks_ s' = blocks_ s ∧
  (∀ k v, register_values_ s' !! k = Some (Some v) →
     register_values_ s !! k = Some (Some v) ∧
     node_at s' v = node_at s v ∧
     live_at_target is_dead s (Some v) control target = true) ∧
  (D = true →
   node_id (node_at s control) + 1 = first_id (block_at s target)).
Proof.
  intros HC Hempty Hst Hs. unfold InitializeConditionalBranchRegisters in Hs.
  rewrite Hempty in Hs.
  apply bind_Ok in Hs as (t & ? & Ht & Hs). apply basic_block_Ok in Ht as [-> ->].
  rewrite Hst in Hs.
  apply bind_Ok in Hs as (c & ? & Hc & Hs). apply node_Ok in Hc as [-> ->].
  apply bind_Ok in Hs as (? & ? & Hd & Hs). apply DCHECK_Ok in Hd as [-> Hd].
  destruct (fall_through_loop N is_dead control target s s' HC Hs)
    as (HC' & Hb & Hheld).
  split; [done|]. split; [done|]. split; [done|].
  intros HD. apply Z.eqb_eq. by apply Hd.
Qed.

Lemma fall_through_frees_dead_holders_witness :
  ∃ s', InitializeConditionalBranchRegisters 2 true is_dead_past_end
          branch_graph 100%nat 1%nat before_branch = Ok (tt, s') ∧
    Consistent 2 [] None s' ∧
    ∀ k v, register_values_ s' !! k = Some (Some v) →
      live_at_target is_dead_past_end before_branch (Some v) 100%nat 1%nat
      = true.
Proof.
  assert (∃ s', InitializeConditionalBranchRegisters 2 true is_dead_past_end
                  branch_graph 100%nat 1%nat before_branch = Ok (tt, s'))
    as [s' Hrun] by (eexists; by vm_compute).
  exists s'. split; [exact Hrun|].
  destruct (fall_through_frees_dead_holders 2 true is_dead_past_end
              branch_graph 100%nat 1%nat before_branch s'
              before_branch_consistent eq_refl eq_refl Hrun)
    as (HC & _ & Hheld & _).
  split; [exact HC|]. intros k v Hk. by destruct (Hheld k v Hk) as (_ & _ & ?).
Defined.



(** * What the allocation of a graph never changes *)

Global Instance Progress_preorder : PreOrder Progress.
Proof.
  split.
  - intros s. by split.
  - intros s1 s2 s3 [A1 B1 C1 D1 E1 F1] [A2 B2 C2 D2 E2 F2].
    split; intros; try congruence; try lia.
    by etrans.
Qed.

Lemma Step_Progress s s' : Step s s' → Progress s s'.
Proof.
  intros [A B C E F]. split; try done; intros b; unfold block_at; by rewrite E.
Qed.

Lemma CellsOnly_Progress target s s' : CellsOnly target s s' → Progress s s'.
Proof.
  intros Hc. destruct (CellsOnly_fields _ _ _ Hc) as (Hv & _ & Ht & _ & _ & Hn & Hg).
  destruct Hc as [_ Ho Hb Hl].
  split.
  - intros p. unfold node_at. by rewrite Hn.
  - by rewrite Hv.
  - by rewrite Ht.
  - by rewrite Hg.
  - intros b. destruct (decide (b = target)) as [->|Hne]; [done|by rewrite Ho].
  - intros b. destruct (decide (b = target)) as [->|Hne]; [done|by rewrite Ho].
Qed.

Lemma preserves_Step_Progress {A} (m : M A) :
  preserves Step m → preserves Progress m.
Proof. intros H s a s' Hm. by apply Step_Progress, (H s a). Qed.

Lemma preserves_CellsOnly_Progress {A} target (m : M A) :
  preserves (CellsOnly target) m → preserves Progress m.
Proof. intros H s a s' Hm. by eapply CellsOnly_Progress, (H s a). Qed.

Section GraphProgress.
Variables (N : nat) (D : bool) (is_dead has_valid_live_range : Node → bool).
Variable g : Graph.

Lemma InitializeRegisterValues_low target :
  preserves LowStep (InitializeRegisterValues N D target).
Proof.
  unfold InitializeRegisterValues.
  pose proof (target_state_rel LowStep target).
  pose proof (LoadMergeState_rel LowStep D).
  frame.
Qed.

Lemma InjectPhiInputs_step phis pid :
  preserves Step (InjectPhiInputs N is_dead phis pid).
Proof.
  unfold InjectPhiInputs. pose proof (phi_input_rel Step). frame.
Qed.

Lemma InitializeConditionalBranchRegisters_progress control target :
  preserves Progress
    (InitializeConditionalBranchRegisters N D is_dead g control target).
Proof.
  unfold InitializeConditionalBranchRegisters.
  pose proof (λ c t pid, preserves_CellsOnly_Progress t _
                (MergeRegisterValues_cells N D is_dead c t pid)).
  pose proof (λ c t, preserves_CellsOnly_Progress t _
                (InitializeBranchTargetRegisterValues_cells N D is_dead c t)).
  pose proof (λ v, preserves_Step_Progress _
                (preserves_LowStep_Step _ (FreeRegisters_low N v))).
  pose proof (IsLiveAtTarget_rel Progress is_dead).
  frame.
Qed.

Lemma AllocateControlNode_progress p block :
  preserves Progress (AllocateControlNode N D is_dead g p block).
Proof.
  unfold AllocateControlNode.
  pose proof (λ p k, preserves_Step_Progress _ (AssignInput_step N D p k)).
  pose proof (λ p, preserves_Step_Progress _ (AssignTemporaries_step N D p)).
  pose proof (λ u i, preserves_Step_Progress _ (UpdateInputUse_step N is_dead u i)).
  pose proof (preserves_Step_Progress _
                (preserves_LowStep_Step _ (SpillAndClearRegisters_low N D))).
  pose proof (preserves_Step_Progress _
                (preserves_LowStep_Step _ (SpillRegisters_low N D))).
  pose proof (λ phis pid, preserves_Step_Progress _ (InjectPhiInputs_step phis pid)).
  pose proof (λ c t pid, preserves_CellsOnly_Progress t _
                (MergeRegisterValues_cells N D is_dead c t pid)).
  pose proof InitializeConditionalBranchRegisters_progress.
  frame.
Qed.

Lemma AllocateBlock_progress block :
  preserves Progress (AllocateBlock N D is_dead has_valid_live_range g block).
Proof.
  unfold AllocateBlock.
  pose proof (λ t, preserves_Step_Progress _
                (preserves_LowStep_Step _ (InitializeRegisterValues_low t))).
  pose proof (λ phis, preserves_Step_Progress _ (AllocatePhis_step N D phis)).
  assert (∀ l, preserves Progress
            (AllocateNodes N D is_dead has_valid_live_range l)).
  { intros l. apply preserves_Step_Progress. unfold AllocateNodes.
    pose proof (AllocateNode_step N D is_dead has_valid_live_range). frame. }
  assert (∀ p, preserves Progress (set_node_it p)).
  { intros p. apply preserves_Step_Progress. unfold set_node_it. frame. }
  pose proof AllocateControlNode_progress.
  frame.
Qed.

Lemma AllocateRegisters_progress :
  preserves Progress (AllocateRegisters N D is_dead has_valid_live_range g).
Proof. unfold AllocateRegisters. pose proof AllocateBlock_progress. frame. Qed.

End GraphProgress.

(** The allocation of a whole graph, with the frame size it hands to the
    graph.  It never changes the id, the opcode, the properties, the end of
    the live range, the number of inputs, their producers or their use ids
    of any node; it keeps the size of the register file; the frame size it
    returns is the top of the stack, which never shrinks; gap moves are only
    appended; and of a block it writes nothing but the contents of the
    register cells, whose number stays. *)
Theorem allocation_only_adds N D is_dead has_valid_live_range g s slots s' :
  StraightForwardRegisterAllocator N D is_dead has_valid_live_range g s
    = Ok (slots, s') →
  slots = top_of_stack_ s' ∧
  top_of_stack_ s <= slots ∧
  (∀ p, node_id (node_at s' p) = node_id (node_at s p) ∧
        opcode (node_at s' p) = opcode (node_at s p) ∧
        is_call (node_at s' p) = is_call (node_at s p) ∧
        can_deopt (node_at s' p) = can_deopt (node_at s p) ∧
        end_id (node_at s' p) = end_id (node_at s p) ∧
        num_temporaries_needed (node_at s' p) =
          num_temporaries_needed (node_at s p) ∧
        ((λ i, (input_node i, next_use_id i)) <$> inputs (node_at s' p)) =
        ((λ i, (input_node i, next_use_id i)) <$> inputs (node_at s p))) ∧
  length (register_values_ s') = length (register_values_ s) ∧
  gap_moves_ s `prefix_of` gap_moves_ s' ∧
  (∀ b, set_register_state [] (block_at s' b) =
        set_register_state [] (block_at s b) ∧
        length (register_state (block_at s' b)) =
        length (register_state (block_at s b))).
Proof.
  intros Hs. unfold StraightForwardRegisterAllocator in Hs.
  apply bind_Ok in Hs as ([] & s1 & Hrun & Hs).
  apply bind_Ok in Hs as (? & ? & Hg & Hs). apply get_Ok in Hg as [-> ->].
  apply ret_Ok in Hs as [Hsl Hss]. subst slots s1.
  destruct (AllocateRegisters_progress N D is_dead has_valid_live_range g
              _ _ _ Hrun) as [Hst Hl Ht Hm Hb Hc].
  split; [done|]. split; [done|]. split.
  { intros p. specialize (Hst p). unfold static in Hst.
    by injection Hst as -> -> -> -> -> -> ->. }
  done.
Qed.

Lemma allocation_only_adds_witness :
  StraightForwardRegisterAllocator 2 true is_dead_past_end
    has_live_range_end branch_graph branch_start = Ok (0, branch_end) ∧
  gap_moves_ branch_end = [mkGapMove None (REGISTER 1) (REGISTER 0)] ∧
  node_id (node_at branch_end 20%nat) = 7.
Proof.
  assert (StraightForwardRegisterAllocator 2 true is_dead_past_end
            has_live_range_end branch_graph branch_start = Ok (0, branch_end))
    as Hrun by (vm_compute; reflexivity).
  split; [exact Hrun|].
  destruct (allocation_only_adds 2 true is_dead_past_end has_live_range_end
              branch_graph branch_start 0 branch_end Hrun)
    as (_ & _ & Hnodes & _ & _ & _).
  split; [vm_compute; reflexivity|].
  destruct (Hnodes 20%nat) as (Hid & _). rewrite Hid. reflexivity.
Defined.

(** * Stack slots lie below the frame size *)

Lemma update_node_below p f :
  (∀ n, spill_or_hint (f n) = spill_or_hint n) →
  (∀ n, result (f n) = result n) →
  preserves (Keeps Below) (update_node p f).
Proof.
  intros Hsp Hres s a s' Hs [Ht Hf Hs1 Hr Hx]. run.
  split; simpl; try done; intros q index; norm; case_decide; subst;
    rewrite ?Hsp, ?Hres; eauto.
Qed.

Lemma SetNoSpillOrHint_below p :
  preserves (Keeps Below) (update_node p SetNoSpillOrHint).
Proof.
  intros s a s' Hs [Ht Hf Hs1 Hr Hx]. run.
  split; simpl; try done; intros q index; norm; case_decide; subst;
    simpl; eauto; done.
Qed.

Lemma SetAllocated_below p o s :
  (∀ index, o = STACK_SLOT index → index < top_of_stack_ s) →
  (∀ index, o = Unallocated (FIXED_SLOT index) → index < 0) →
  Below s →
  Below (with_nodes (<[p := SetAllocated o (node_at s p)]> (nodes_ s)) s).
Proof.
  intros Ho Hox [Ht Hf Hs1 Hr Hx].
  split; simpl; try done; intros q index; norm; case_decide; subst;
    simpl; eauto.
Qed.

Lemma Spill_to_below p o s :
  (∀ index, o = STACK_SLOT index → index < top_of_stack_ s) →
  Below s →
  Below (with_nodes (<[p := Spill_to o (node_at s p)]> (nodes_ s)) s).
Proof.
  intros Ho [Ht Hf Hs1 Hr Hx].
  split; simpl; try done; intros q index; norm; case_decide; subst;
    simpl; eauto.
Qed.

Lemma modify_below f :
  (∀ s, top_of_stack_ (f s) = top_of_stack_ s) →
  (∀ s, free_slots_ (f s) = free_slots_ s) →
  (∀ s, nodes_ (f s) = nodes_ s) →
  preserves (Keeps Below) (modify f).
Proof.
  intros H1 H2 H3 s a s' Hs [Ht Hf Hs1 Hr Hx]. run.
  split; unfold node_at; rewrite ?H1, ?H2, ?H3; done.
Qed.

Lemma set_register_values_below i v :
  preserves (Keeps Below) (set_register_values i v).
Proof. intros s a s' Hs [Ht Hf Hs1 Hr Hx]. run. by split. Qed.

Lemma bind_SetAllocated_below (m : M Operand) p :
  preserves (Keeps Below) m →
  (∀ s o s', m s = Ok (o, s') → IsRegister o = true) →
  preserves (Keeps Below) (o <- m ;; update_node p (SetAllocated o)).
Proof.
  intros Hm Hreg s a s' Hs HB.
  apply bind_Ok in Hs as (o & s1 & Ho & Hs).
  pose proof (Hreg _ _ _ Ho) as Hr. pose proof (Hm _ _ _ Ho HB) as HB1.
  apply update_node_Ok in Hs. subst s'.
  apply SetAllocated_below; [| |done]; intros index ->; done.
Qed.

Lemma CellsOnly_below target s s' : CellsOnly target s s' → Below s → Below s'.
Proof.
  intros Hc [Ht Hf Hs1 Hr Hx].
  destruct (CellsOnly_fields _ _ _ Hc) as (_ & _ & Htop & Hfree & _ & Hn & _).
  split; unfold node_at; rewrite ?Htop, ?Hfree, ?Hn; done.
Qed.

Lemma preserves_cells_below {A} target (m : M A) :
  preserves (CellsOnly target) m → preserves (Keeps Below) m.
Proof. intros Hm s a s' Hs HB. eapply CellsOnly_below; [|done]. by eapply Hm. Qed.

Section SlotsBelow.
Variables (N : nat) (D : bool).

Lemma AllocateSpillSlot_below v : preserves (Keeps Below) (AllocateSpillSlot D v).
Proof.
  unfold AllocateSpillSlot. intros s a s' Hs HB.
  apply bind_Ok in Hs as (n & ? & Hn & Hs). apply node_Ok in Hn as [-> ->].
  apply bind_Ok in Hs as (? & ? & Hd & Hs). apply DCHECK_Ok in Hd as [-> _].
  apply bind_Ok in Hs as (? & ? & Hg & Hs). apply get_Ok in Hg as [-> ->].
  destruct HB as [Ht Hf Hs1 Hr Hx].
  destruct (free_slots_ s) as [|back rest] eqn:Hfree.
  - run. apply Spill_to_below.
    + intros index [= <-]. simpl. lia.
    + split; simpl; try lia; try done.
      * rewrite Hfree. by intros y ?%elem_of_nil.
      * intros p index Hp. specialize (Hs1 p index Hp). lia.
      * intros p index Hp. specialize (Hr p index Hp). lia.
  - run. apply Spill_to_below.
    + intros index [= <-]. simpl. apply Hf. by left.
    + split; simpl; try done.
      intros y Hy. apply Hf. by right.
Qed.

Lemma Spill_below v : preserves (Keeps Below) (Spill D v).
Proof. unfold Spill. pose proof AllocateSpillSlot_below. frame. Qed.

Lemma AddMoveBeforeCurrentNode_below a b :
  preserves (Keeps Below) (AddMoveBeforeCurrentNode a b).
Proof. unfold AddMoveBeforeCurrentNode. by apply modify_below. Qed.

Lemma TakeAny_below : preserves (Keeps Below) TakeAny.
Proof. unfold TakeAny. pose proof modify_below. frame. Qed.

Lemma SetRegister_below r v : preserves (Keeps Below) (SetRegister N D r v).
Proof.
  unfold SetRegister.
  pose proof set_register_values_below. pose proof update_node_below.
  frame.
Qed.

Lemma FreeRegister_below i : preserves (Keeps Below) (FreeRegister N i).
Proof.
  unfold FreeRegister.
  pose proof set_register_values_below. pose proof modify_below.
  frame.
Qed.

Lemma FreeRegisters_below v : preserves (Keeps Below) (FreeRegisters N v).
Proof.
  unfold FreeRegisters.
  pose proof FreeRegister_below. pose proof update_node_below.
  frame.
Qed.

Lemma Free_below r : preserves (Keeps Below) (Free N D r).
Proof.
  unfold Free.
  pose proof set_register_values_below. pose proof update_node_below.
  pose proof Spill_below. pose proof TakeAny_below. pose proof SetRegister_below.
  pose proof AddMoveBeforeCurrentNode_below.
  frame.
Qed.

Lemma furthest_from_below l u i : preserves (Keeps Below) (furthest_from l u i).
Proof. revert u i. induction l; intros; simpl; frame. Qed.

Lemma FreeSomeRegister_below : preserves (Keeps Below) (FreeSomeRegister N).
Proof.
  unfold FreeSomeRegister.
  pose proof furthest_from_below. pose proof FreeRegister_below.
  frame.
Qed.

Lemma TryAllocateRegister_below v :
  preserves (Keeps Below) (TryAllocateRegister N D v).
Proof.
  unfold TryAllocateRegister.
  pose proof TakeAny_below. pose proof SetRegister_below.
  frame.
Qed.

Lemma AllocateRegister_below v : preserves (Keeps Below) (AllocateRegister N D v).
Proof.
  unfold AllocateRegister.
  pose proof FreeSomeRegister_below. pose proof TryAllocateRegister_below.
  frame.
Qed.

Lemma ForceAllocate_below r v : preserves (Keeps Below) (ForceAllocate N D r v).
Proof.
  unfold ForceAllocate.
  pose proof Free_below. pose proof SetRegister_below. pose proof modify_below.
  frame.
Qed.

Lemma SpillRegisters_below : preserves (Keeps Below) (SpillRegisters N D).
Proof. unfold SpillRegisters. pose proof Spill_below. frame. Qed.

Lemma SpillAndClearRegisters_below :
  preserves (Keeps Below) (SpillAndClearRegisters N D).
Proof.
  unfold SpillAndClearRegisters.
  pose proof Spill_below. pose proof FreeRegisters_below.
  pose proof FreeRegister_below. pose proof update_node_below.
  pose proof set_register_values_below. pose proof modify_below.
  frame.
Qed.

Lemma AssignedRegister_rel R `{!PreOrder R} i : preserves R (AssignedRegister D i).
Proof. unfold AssignedRegister. frame. Qed.

Lemma AssignInput_below p k : preserves (Keeps Below) (AssignInput N D p k).
Proof.
  unfold AssignInput, input.
  pose proof ForceAllocate_below. pose proof AllocateRegister_below.
  pose proof update_node_below. pose proof AddMoveBeforeCurrentNode_below.
  frame.
Qed.

Lemma AssignTemporaries_below p :
  preserves (Keeps Below) (AssignTemporaries N D p).
Proof.
  unfold AssignTemporaries.
  pose proof FreeSomeRegister_below. pose proof update_node_below.
  frame.
Qed.

Lemma AllocateRegister_register v s o s' :
  AllocateRegister N D v s = Ok (o, s') → IsRegister o = true.
Proof.
  unfold AllocateRegister. intros Hs.
  apply bind_Ok in Hs as (? & ? & Hg & Hs). apply get_Ok in Hg as [-> ->].
  apply bind_Ok in Hs as ([] & s1 & _ & Hs).
  apply bind_Ok in Hs as (o' & s2 & Hto & Hs).
  apply bind_Ok in Hs as (? & ? & Hd & Hs). apply DCHECK_Ok in Hd as [-> _].
  destruct (TryAllocateRegister_spec N D _ _ _ _ Hto)
    as [(_ & Ho & _)|(_ & Ho & _)]; rewrite Ho in Hs; simpl in Hs.
  - unfold bad_cast in Hs. by destruct D.
  - by apply ret_Ok in Hs as [-> _].
Qed.

Lemma ForceAllocate_SetAllocated_below r v p :
  preserves (Keeps Below)
    (o <- ForceAllocate N D r v ;; update_node p (SetAllocated o)).
Proof.
  apply bind_SetAllocated_below; [apply ForceAllocate_below|].
  intros s o s' Hs. by rewrite (ForceAllocate_register N D _ _ _ _ _ Hs).
Qed.

Lemma AllocateRegister_SetAllocated_below v p :
  preserves (Keeps Below)
    (o <- AllocateRegister N D v ;; update_node p (SetAllocated o)).
Proof.
  apply bind_SetAllocated_below; [apply AllocateRegister_below|].
  apply AllocateRegister_register.
Qed.

Section Liveness.
Variables (is_dead has_valid_live_range : Node → bool).

Lemma UpdateInputUse_below u i :
  preserves (Keeps Below) (UpdateInputUse N is_dead u i).
Proof.
  intros s [] s' Hs HB. unfold UpdateInputUse in Hs.
  apply bind_Ok in Hs as (n & ? & Hn & Hs). apply node_Ok in Hn as [-> ->].
  destruct (is_dead (node_at s (input_node i))); [by run|].
  apply bind_Ok in Hs as ([] & s1 & Hup & Hs).
  pose proof (update_node_below (input_node i) (set_next_use (next_use_id i))
                (λ _, eq_refl) (λ _, eq_refl) _ _ _ Hup HB) as HB1.
  apply bind_Ok in Hs as (n & ? & Hn & Hs). apply node_Ok in Hn as [-> ->].
  destruct (is_dead (node_at s1 (input_node i))); [|by run].
  apply bind_Ok in Hs as ([] & s2 & Hfree & Hs).
  pose proof (FreeRegisters_below _ _ _ _ Hfree HB1) as HB2.
  apply bind_Ok in Hs as (n & ? & Hn & Hs). apply node_Ok in Hn as [-> ->].
  destruct (spill_or_hint (node_at s2 (input_node i))) as [| | |index] eqn:Hslot;
    try (by run).
  destruct (index >? 0); simpl in Hs; [|by run].
  apply modify_Ok in Hs. subst s'.
  destruct HB2 as [Ht Hf Hs1 Hr Hx]. split; simpl; try done.
  intros x [->|Hin]%elem_of_cons; [by eapply Hs1|by apply Hf].
Qed.

Lemma AllocateNodeResult_below p :
  preserves (Keeps Below)
    (AllocateNodeResult N D is_dead has_valid_live_range p).
Proof.
  intros s [] s' Hs HB. unfold AllocateNodeResult in Hs.
  apply bind_Ok in Hs as (n & ? & Hn & Hs). apply node_Ok in Hn as [-> ->].
  apply bind_Ok in Hs as (? & ? & Hd & Hs). apply DCHECK_Ok in Hd as [-> _].
  apply bind_Ok in Hs as ([] & s1 & Hup & Hs).
  pose proof (SetNoSpillOrHint_below _ _ _ _ Hup HB) as HB1.
  pose proof ForceAllocate_SetAllocated_below as HF.
  pose proof AllocateRegister_SetAllocated_below as HA.
  pose proof FreeRegisters_below as HFR.
  pose proof (AssignedRegister_rel (Keeps Below)) as HAR.
  destruct (result (node_at s p)) as [|policy| |] eqn:Hres;
    try (unfold bad_cast in Hs; destruct D; discriminate Hs).
  destruct policy as [index| | | | | | | |];
    try (match type of Hs with
         | ?m _ = _ =>
             assert (preserves (Keeps Below) m) as Hm
               by (unfold input; repeat (first [solve [eauto 2] | frame1]))
         end; by apply (Hm _ _ _ Hs)).
  pose proof (below_fixed _ HB _ _ Hres) as Hneg.
  apply bind_Ok in Hs as (? & ? & Hd & Hs). apply DCHECK_Ok in Hd as [-> _].
  apply bind_Ok in Hs as (? & ? & Hd & Hs). apply DCHECK_Ok in Hd as [-> _].
  apply bind_Ok in Hs as ([] & s2 & Hup2 & Hs).
  apply update_node_Ok in Hup2. apply update_node_Ok in Hs. subst s' s2.
  pose proof (below_top _ HB1) as Htop.
  apply Spill_to_below; [intros ? [= <-]; simpl; lia|].
  apply SetAllocated_below; [intros ? [= <-]; lia|done|done].
Qed.

Lemma AllocateNode_below p :
  preserves (Keeps Below) (AllocateNode N D is_dead has_valid_live_range p).
Proof.
  unfold AllocateNode.
  pose proof AssignInput_below. pose proof AssignTemporaries_below.
  pose proof UpdateInputUse_below. pose proof SpillAndClearRegisters_below.
  pose proof SpillRegisters_below. pose proof AllocateNodeResult_below.
  frame.
Qed.

Lemma AllocateNodes_below l :
  preserves (Keeps Below) (AllocateNodes N D is_dead has_valid_live_range l).
Proof.
  unfold AllocateNodes. pose proof AllocateNode_below.
  pose proof modify_below. frame.
Qed.

End Liveness.

Lemma TryAllocateToInput_below phi :
  preserves (Keeps Below) (TryAllocateToInput N D phi).
Proof.
  unfold TryAllocateToInput.
  apply preserves_bind; [apply _|frame|]. intros n.
  pose proof ForceAllocate_SetAllocated_below as HF.
  pose proof (AssignedRegister_rel (Keeps Below)) as HAR.
  induction (inputs n) as [|i l IH]; simpl; [frame|].
  repeat (first [solve [eauto 2] | frame1]).
Qed.

Lemma phi_to_free_register_below phi :
  preserves (Keeps Below) (phi_to_free_register N D phi).
Proof.
  intros s [] s' Hs HB. unfold phi_to_free_register in Hs.
  apply bind_Ok in Hs as (n & ? & Hn & Hs). apply node_Ok in Hn as [-> ->].
  destruct (IsAllocated (result (node_at s phi))); [by run|].
  apply bind_Ok in Hs as (o & s1 & Hto & Hs).
  pose proof (TryAllocateRegister_below _ _ _ _ Hto HB) as HB1.
  destruct (TryAllocateRegister_spec N D _ _ _ _ Hto)
    as [(_ & Ho & _)|(_ & Ho & _)]; rewrite Ho in Hs; simpl in Hs; [by run|].
  apply update_node_Ok in Hs. subst s'.
  by apply SetAllocated_below.
Qed.

Lemma phi_to_stack_slot_below phi :
  preserves (Keeps Below) (phi_to_stack_slot D phi).
Proof.
  intros s [] s' Hs HB. unfold phi_to_stack_slot in Hs.
  apply bind_Ok in Hs as (n & ? & Hn & Hs). apply node_Ok in Hn as [-> ->].
  destruct (IsAllocated (result (node_at s phi))); [by run|].
  apply bind_Ok in Hs as ([] & s1 & Hsp & Hs).
  pose proof (AllocateSpillSlot_below _ _ _ _ Hsp HB) as HB1.
  pose proof (AllocateSpillSlot_spilled D _ _ _ Hsp) as Hal.
  apply bind_Ok in Hs as (n & ? & Hn & Hs). apply node_Ok in Hn as [-> ->].
  apply update_node_Ok in Hs. subst s'.
  apply SetAllocated_below; [| |done]; unfold spill_slot in *.
  - intros index Hi. by eapply (below_spill _ HB1).
  - intros index Hi. by rewrite Hi in Hal.
Qed.

Lemma AllocatePhis_below phis : preserves (Keeps Below) (AllocatePhis N D phis).
Proof.
  unfold AllocatePhis, phi_to_input.
  pose proof TryAllocateToInput_below. pose proof SetNoSpillOrHint_below.
  pose proof phi_to_free_register_below. pose proof phi_to_stack_slot_below.
  frame.
Qed.

Section Graphs.
Variables (is_dead has_valid_live_range : Node → bool) (g : Graph).

Lemma InitializeRegisterValues_below target :
  preserves (Keeps Below) (InitializeRegisterValues N D target).
Proof.
  unfold InitializeRegisterValues.
  pose proof (target_state_rel (Keeps Below) target).
  pose proof (LoadMergeState_rel (Keeps Below) D).
  pose proof update_node_below. pose proof modify_below.
  pose proof FreeRegister_below. pose proof SetRegister_below.
  frame.
Qed.

Lemma InitializeConditionalBranchRegisters_below control target :
  preserves (Keeps Below)
    (InitializeConditionalBranchRegisters N D is_dead g control target).
Proof.
  unfold InitializeConditionalBranchRegisters.
  pose proof (λ c t pid, preserves_cells_below t _
                (MergeRegisterValues_cells N D is_dead c t pid)).
  pose proof (λ c t, preserves_cells_below t _
                (InitializeBranchTargetRegisterValues_cells N D is_dead c t)).
  pose proof FreeRegisters_below.
  pose proof (IsLiveAtTarget_rel (Keeps Below) is_dead).
  frame.
Qed.

Lemma InjectPhiInputs_below phis pid :
  preserves (Keeps Below) (InjectPhiInputs N is_dead phis pid).
Proof.
  unfold InjectPhiInputs.
  pose proof (phi_input_rel (Keeps Below)).
  pose proof update_node_below. pose proof (UpdateInputUse_below is_dead).
  frame.
Qed.

Lemma AllocateControlNode_below p block :
  preserves (Keeps Below) (AllocateControlNode N D is_dead g p block).
Proof.
  unfold AllocateControlNode.
  pose proof AssignInput_below. pose proof AssignTemporaries_below.
  pose proof (UpdateInputUse_below is_dead).
  pose proof SpillAndClearRegisters_below. pose proof SpillRegisters_below.
  pose proof InjectPhiInputs_below.
  pose proof (λ c t pid, preserves_cells_below t _
                (MergeRegisterValues_cells N D is_dead c t pid)).
  pose proof InitializeConditionalBranchRegisters_below.
  frame.
Qed.

Lemma AllocateBlock_below block :
  preserves (Keeps Below)
    (AllocateBlock N D is_dead has_valid_live_range g block).
Proof.
  unfold AllocateBlock.
  pose proof InitializeRegisterValues_below. pose proof AllocatePhis_below.
  pose proof (AllocateNodes_below is_dead has_valid_live_range).
  assert (∀ p, preserves (Keeps Below) (set_node_it p)).
  { intros p. unfold set_node_it. by apply modify_below. }
  pose proof AllocateControlNode_below.
  frame.
Qed.

Lemma AllocateRegisters_below :
  preserves (Keeps Below)
    (AllocateRegisters N D is_dead has_valid_live_range g).
Proof. unfold AllocateRegisters. pose proof AllocateBlock_below. frame. Qed.

End Graphs.
End SlotsBelow.

Lemma initial_state_below N nodes blocks :
  forallb (λ kn, no_slot kn.2) (map_to_list nodes) = true →
  Below (initial_state N nodes blocks).
Proof.
  intros Hnodes.
  assert (∀ p, no_slot (node_at (initial_state N nodes blocks) p) = true) as Hn.
  { intros p. unfold node_at. simpl. rewrite lookup_total_alt.
    destruct (nodes !! p) as [n|] eqn:Hp; [|done]. simpl.
    rewrite forallb_forall in Hnodes.
    apply (Hnodes (p, n)). apply list_elem_of_In. by apply elem_of_map_to_list. }
  split; simpl; try done.
  - by intros x ?%elem_of_nil.
  - intros p index Hp. specialize (Hn p). unfold no_slot in Hn.
    by rewrite Hp in Hn.
  - intros p index Hp. specialize (Hn p). unfold no_slot in Hn.
    rewrite Hp in Hn. by rewrite andb_false_r in Hn.
  - intros p index Hp. specialize (Hn p). unfold no_slot in Hn.
    rewrite Hp in Hn. apply andb_true_iff in Hn as [_ Hn]. by apply Z.ltb_lt.
Qed.

(** The frame is large enough.  When the allocation of a graph starts
    with every stack slot in use below the top of the stack (as in the
    initial state, where no slot is in use), and fixed slots are asked for
    with negative indices only, then in the end every spill slot of a node,
    every result that is a stack slot and every slot of the free list has an
    index below the frame size that the allocator hands to the graph. *)
Theorem stack_slots_fit_frame N D is_dead has_valid_live_range g s slots s' :
  Below s →
  StraightForwardRegisterAllocator N D is_dead has_valid_live_range g s
    = Ok (slots, s') →
  0 <= slots ∧
  (∀ p index, spill_or_hint (node_at s' p) = STACK_SLOT index → index < slots) ∧
  (∀ p index, result (node_at s' p) = STACK_SLOT index → index < slots) ∧
  (∀ index, index ∈ free_slots_ s' → index < slots).
Proof.
  intros HB Hs. unfold StraightForwardRegisterAllocator in Hs.
  apply bind_Ok in Hs as ([] & s1 & Hrun & Hs).
  apply bind_Ok in Hs as (? & ? & Hg & Hs). apply get_Ok in Hg as [-> ->].
  apply ret_Ok in Hs as [Hsl Hss]. subst slots s1.
  destruct (AllocateRegisters_below N D is_dead has_valid_live_range g
              _ _ _ Hrun HB) as [Ht Hf Hs1 Hr Hx].
  done.
Qed.

Lemma stack_slots_fit_frame_witness :
  StraightForwardRegisterAllocator 2 true is_dead_past_end
    has_live_range_end spill_graph spill_start = Ok (1, spill_end) ∧
  spill_or_hint (node_at spill_end 10%nat) = STACK_SLOT 0 ∧
  ∀ p index, spill_or_hint (node_at spill_end p) = STACK_SLOT index → index < 1.
Proof.
  assert (StraightForwardRegisterAllocator 2 true is_dead_past_end
            has_live_range_end spill_graph spill_start = Ok (1, spill_end))
    as Hrun by (vm_compute; reflexivity).
  split; [exact Hrun|].
  destruct (stack_slots_fit_frame 2 true is_dead_past_end has_live_range_end
              spill_graph spill_start 1 spill_end
              (initial_state_below 2 spill_nodes _ eq_refl) Hrun)
    as (_ & Hspill & _ & _).
  split; [vm_compute; reflexivity|exact Hspill].
Defined.

(** * Inputs *)

Global Instance Quiet_preorder : PreOrder Quiet.
Proof.
  split.
  - intros s. split; [reflexivity|done].
  - intros s1 s2 s3 [A1 B1] [A2 B2]. split; [by etrans|congruence].
Qed.

Lemma update_node_quiet p f :
  (∀ n, inputs (f n) = inputs n) → preserves Quiet (update_node p f).
Proof.
  intros Hf s a s' Hs. split; [by eapply update_node_inputs|]. by run.
Qed.

Lemma modify_quiet f :
  (∀ s, nodes_ (f s) = nodes_ s) → (∀ s, node_it_ (f s) = node_it_ s) →
  preserves Quiet (modify f).
Proof.
  intros H1 H2 s a s' Hs. split; [by eapply modify_inputs|]. run. apply H2.
Qed.

Lemma set_register_values_quiet i v : preserves Quiet (set_register_values i v).
Proof.
  intros s a s' Hs. split; [by eapply set_register_values_inputs|]. by run.
Qed.

Section QuietSteps.
Variables (N : nat) (D : bool).

Lemma ForceAllocate_quiet r v : preserves Quiet (ForceAllocate N D r v).
Proof.
  unfold ForceAllocate, Free, Spill, AllocateSpillSlot, SetRegister, TakeAny,
    AddMoveBeforeCurrentNode.
  pose proof update_node_quiet. pose proof modify_quiet.
  pose proof set_register_values_quiet.
  frame.
Qed.

Lemma furthest_from_quiet l u i : preserves Quiet (furthest_from l u i).
Proof. revert u i. induction l; intros; simpl; frame. Qed.

Lemma AllocateRegister_quiet v : preserves Quiet (AllocateRegister N D v).
Proof.
  unfold AllocateRegister, TryAllocateRegister, FreeSomeRegister, FreeRegister,
    SetRegister, TakeAny.
  pose proof update_node_quiet. pose proof modify_quiet.
  pose proof set_register_values_quiet. pose proof furthest_from_quiet.
  frame.
Qed.

(** The end of [AssignInput]: the gap move, when the operand differs from
    the location. *)
Lemma AssignInput_finish p k i location o s0 s1 s' :
  inputs (node_at s0 p) !! k = Some i →
  Quiet s0 s1 →
  gap_moves_ s0 `prefix_of` gap_moves_ s1 →
  (i' <- input p k ;;
   let allocated := operand i' in
   if bool_decide (location ≠ allocated)
   then AddMoveBeforeCurrentNode location allocated
   else ret tt)
    (with_nodes (<[p := input_SetAllocated k o (node_at s1 p)]> (nodes_ s1)) s1)
    = Ok (tt, s') →
  ∃ moves,
    inputs (node_at s' p) !! k =
      Some (mkInput (input_node i) (next_use_id i) o) ∧
    (∀ j, j ≠ k → inputs (node_at s' p) !! j = inputs (node_at s0 p) !! j) ∧
    gap_moves_ s1 = gap_moves_ s0 ++ moves ∧
    gap_moves_ s' =
      gap_moves_ s0 ++ moves ++
      (if decide (location = o) then []
       else [mkGapMove (node_it_ s0) location o]).
Proof.
  intros Hi [Hin Hit] [moves Hmoves] Hs. exists moves.
  set (s2 := with_nodes _ s1) in *.
  assert (inputs (node_at s2 p) !! k =
          Some (mkInput (input_node i) (next_use_id i) o)) as Hk.
  { unfold s2. norm. rewrite decide_True by done. unfold input_SetAllocated.
    simpl. by rewrite list_lookup_alter_eq, Hin, Hi. }
  assert (∀ j, j ≠ k → inputs (node_at s2 p) !! j = inputs (node_at s0 p) !! j)
    as Hj.
  { intros j Hne. unfold s2. norm. rewrite decide_True by done.
    unfold input_SetAllocated. simpl.
    by rewrite list_lookup_alter_ne, Hin by done. }
  apply bind_Ok in Hs as (i' & ? & Hi' & Hs). unfold input in Hi'.
  apply bind_Ok in Hi' as (n & ? & Hn & Hi'). apply node_Ok in Hn as [-> ->].
  rewrite Hk in Hi'. apply ret_Ok in Hi' as [-> ->]. simpl in Hs.
  case_bool_decide as Hloc.
  - unfold AddMoveBeforeCurrentNode in Hs. apply modify_Ok in Hs. subst s'.
    norm. split; [done|]. split; [done|]. split; [done|]. simpl.
    rewrite decide_False by done. rewrite Hmoves, Hit. by rewrite app_assoc.
  - apply ret_Ok in Hs as [_ ->].
    split; [done|]. split; [done|]. split; [done|]. simpl.
    rewrite decide_True by (by destruct (decide (location = o))).
    by rewrite app_nil_r.
Qed.

End QuietSteps.

(** [AssignInput] on input [k] of the node [p]: the input had an
    unallocated operand; it keeps its producer and its use id, and gets as
    operand the location the producer had (for a register-or-slot policy,
    and for a must-have-register policy when that location is a register),
    the register named by a fixed-register policy, or some register (for a
    must-have-register policy).  The other inputs of [p] stay.  When the
    operand differs from the location the producer had, one gap move from
    that location to the operand is added before the current node, after the
    gap moves of the evictions on the way; else none. *)
Theorem AssignInput_assigns N D p k s s' :
  AssignInput N D p k s = Ok (tt, s') →
  ∃ i policy o moves,
    inputs (node_at s p) !! k = Some i ∧
    operand i = Unallocated policy ∧
    inputs (node_at s' p) !! k =
      Some (mkInput (input_node i) (next_use_id i) o) ∧
    (∀ j, j ≠ k → inputs (node_at s' p) !! j = inputs (node_at s p) !! j) ∧
    assigned policy (allocation (node_at s (input_node i))) o moves ∧
    gap_moves_ s' =
      gap_moves_ s ++ moves ++
      (if decide (allocation (node_at s (input_node i)) = o) then []
       else [mkGapMove (node_it_ s)
               (allocation (node_at s (input_node i))) o]).
Proof.
  intros Hs. unfold AssignInput in Hs.
  apply bind_Ok in Hs as (i & ? & Hi & Hs). unfold input in Hi.
  apply bind_Ok in Hi as (n & ? & Hn & Hi). apply node_Ok in Hn as [-> ->].
  destruct (inputs (node_at s p) !! k) as [i0|] eqn:Hk; [|done].
  apply ret_Ok in Hi as [-> ->].
  destruct (operand i0) as [|policy| |] eqn:Hop;
    try (unfold bad_cast in Hs; destruct D; discriminate Hs).
  apply bind_Ok in Hs as (n & ? & Hn & Hs). apply node_Ok in Hn as [-> ->].
  apply bind_Ok in Hs as ([] & s2 & Hset & Hs).
  set (location := allocation (node_at s (input_node i0))) in *.
  exists i0, policy.
  assert (∀ (m : M Operand) o s1,
            preserves Quiet m → preserves LowStep m →
            m s = Ok (o, s1) →
            update_node p (input_SetAllocated k o) s1 = Ok (tt, s2) →
            ∃ moves,
              inputs (node_at s' p) !! k =
                Some (mkInput (input_node i0) (next_use_id i0) o) ∧
              (∀ j, j ≠ k →
                 inputs (node_at s' p) !! j = inputs (node_at s p) !! j) ∧
              gap_moves_ s1 = gap_moves_ s ++ moves ∧
              gap_moves_ s' =
                gap_moves_ s ++ moves ++
                (if decide (location = o) then []
                 else [mkGapMove (node_it_ s) location o])) as Hvia.
  { intros m o s1 Hq Hl Hm Hup. apply update_node_Ok in Hup. subst s2.
    eapply AssignInput_finish; [done|by eapply Hq| |done].
    apply (step_moves _ _ (low_step _ _ (Hl _ _ _ Hm))). }
  assert (∀ o, update_node p (input_SetAllocated k o) s = Ok (tt, s2) →
            inputs (node_at s' p) !! k =
              Some (mkInput (input_node i0) (next_use_id i0) o) ∧
            (∀ j, j ≠ k →
               inputs (node_at s' p) !! j = inputs (node_at s p) !! j) ∧
            gap_moves_ s' =
              gap_moves_ s ++ [] ++
              (if decide (location = o) then []
               else [mkGapMove (node_it_ s) location o])) as Hdirect.
  { intros o Hup.
    destruct (Hvia (ret o) o s) as (moves & ? & ? & Hm & Hg); try done.
    - apply preserves_ret, _.
    - apply preserves_ret, _.
    - assert (moves = []) as ->; [|done].
      apply (app_inv_head (gap_moves_ s)). by rewrite app_nil_r. }
  destruct policy as [index| | | |r|r| | |j]; simpl in Hset;
    try (unfold bad_cast in Hset; destruct D; discriminate Hset);
    try discriminate Hset.
  - destruct (Hdirect _ Hset) as (? & ? & ?). by exists location, [].
  - destruct (Hdirect _ Hset) as (? & ? & ?). by exists location, [].
  - apply bind_Ok in Hset as (o & s1 & Ho & Hset).
    pose proof (ForceAllocate_register N D _ _ _ _ _ Ho) as ->.
    destruct (Hvia _ _ _ (ForceAllocate_quiet N D r (input_node i0))
                (ForceAllocate_low N D r (input_node i0)) Ho Hset)
      as (moves & ? & ? & ? & ?).
    by exists (REGISTER r), moves.
  - destruct (IsRegister location) eqn:Hreg.
    + destruct (Hdirect _ Hset) as (? & ? & ?). by exists location, [].
    + apply bind_Ok in Hset as (o & s1 & Ho & Hset).
      pose proof (AllocateRegister_register N D _ _ _ _ Ho) as Hor.
      destruct (Hvia _ _ _ (AllocateRegister_quiet N D (input_node i0))
                  (AllocateRegister_low N D (input_node i0)) Ho Hset)
        as (moves & ? & ? & ? & ?).
      exists o, moves. split; [done|]. split; [done|]. split; [done|].
      split; [done|]. split; [|done]. split; [done|].
      intros Hr. unfold location in Hreg. congruence.
Qed.

Lemma AssignInput_assigns_witness :
  ∃ s', AssignInput 2 true 13%nat 0%nat before_call = Ok (tt, s') ∧
    inputs (node_at s' 13%nat) !! 0%nat = Some (mkInput 10%nat 3 (REGISTER 0)) ∧
    gap_moves_ s' = gap_moves_ before_call.
Proof.
  assert (∃ s', AssignInput 2 true 13%nat 0%nat before_call = Ok (tt, s'))
    as [s' Hrun] by (eexists; by vm_compute).
  exists s'. split; [exact Hrun|].
  destruct (AssignInput_assigns 2 true 13%nat 0%nat before_call s' Hrun)
    as (i & policy & o & moves & Hi & Hp & Hi' & _ & Ha & Hg).
  vm_compute in Hi. injection Hi as <-. simpl in Hp. injection Hp as <-.
  destruct Ha as [-> ->]. split; [exact Hi'|].
  rewrite Hg. rewrite decide_True by reflexivity. by rewrite !app_nil_r.
Defined.

(** * The result of a node, and the last use of a value *)

Section Results.
Variables (N : nat) (D : bool) (is_dead has_valid_live_range : Node → bool).
Local Abbreviation Inv := (Consistent N [] None).

Lemma AllocateRegister_holds v s o s' :
  Inv s → AllocateRegister N D v s = Ok (o, s') →
  ∃ r, o = REGISTER r ∧ 0 <= r < Z.of_nat N ∧
       register_values_ s' !! Z.to_nat r = Some (Some v) ∧ Inv s'.
Proof.
  intros HC Hs.
  pose proof (AllocateRegister_inv N D v _ _ _ Hs HC) as HC'.
  unfold AllocateRegister in Hs.
  apply bind_Ok in Hs as (? & ? & Hg & Hs). apply get_Ok in Hg as [-> ->].
  apply bind_Ok in Hs as ([] & s1 & Hfree & Hs).
  assert (Inv s1) as HC1.
  { destruct (free_registers_ s =? kEmptyRegList); simpl in Hfree.
    - by apply (FreeSomeRegister_inv N _ _ _ Hfree).
    - by apply ret_Ok in Hfree as [_ ->]. }
  apply bind_Ok in Hs as (o' & s2 & Hto & Hs).
  apply bind_Ok in Hs as (? & ? & Hd & Hs). apply DCHECK_Ok in Hd as [-> _].
  destruct (TryAllocateRegister_spec N D _ _ _ _ Hto)
    as [(_ & Ho & _)|(Hne & Ho & Hv)]; rewrite Ho in Hs; simpl in Hs.
  { unfold bad_cast in Hs. by destruct D. }
  apply ret_Ok in Hs as [-> ->].
  destruct (first_reg_spec (free_registers_ s1)
              (cons_free_nonneg _ _ _ _ HC1) Hne) as [Hx Hb].
  pose proof (cons_free_empty _ _ _ _ HC1 _ Hx Hb) as Hl.
  pose proof Hl as Hlt%lookup_lt_Some.
  rewrite (cons_length _ _ _ _ HC1) in Hlt.
  set (reg := first_reg (free_registers_ s1)) in *.
  assert (MapRegisterToIndex N reg = reg) as Hm.
  { unfold MapRegisterToIndex, allocatable.
    rewrite (proj2 (Z.leb_le 0 reg)), (proj2 (Z.ltb_lt reg (Z.of_nat N)));
      [done|lia|lia]. }
  exists reg. split; [done|]. split; [lia|]. split; [|done].
  rewrite Hv, Hm. apply list_lookup_insert_eq.
  rewrite (cons_length _ _ _ _ HC1). lia.
Qed.

(** The end of [AllocateNodeResult], once the result is a register that
    the node holds. *)
Lemma AllocateNodeResult_finish p r s2 s' :
  Inv s2 → result (node_at s2 p) = REGISTER r → 0 <= r < Z.of_nat N →
  register_values_ s2 !! Z.to_nat r = Some (Some p) →
  (n <- node p ;;
   if negb (has_valid_live_range n) && IsRegister (result n) then
     DCHECK D (has_register n) ;;
     FreeRegisters N p ;;
     n' <- node p ;;
     DCHECK D (negb (has_register n')) ;;
     DCHECK D (is_dead n')
   else ret tt) s2 = Ok (tt, s') →
  Inv s' ∧ placed N has_valid_live_range p r s'.
Proof.
  intros HC Hres Hr Hheld Hs.
  apply bind_Ok in Hs as (n & ? & Hn & Hs). apply node_Ok in Hn as [-> ->].
  rewrite Hres in Hs. simpl in Hs. rewrite andb_true_r in Hs.
  destruct (has_valid_live_range (node_at s2 p)) eqn:Hlive; simpl in Hs.
  - apply ret_Ok in Hs as [_ ->]. split; [done|].
    split; [done|]. split; [done|]. left. split; [done|]. split; [|done].
    by destruct (cons_held _ _ _ _ HC r p (proj1 Hr) Hheld).
  - apply bind_Ok in Hs as (? & ? & Hd & Hs). apply DCHECK_Ok in Hd as [-> _].
    apply bind_Ok in Hs as ([] & s3 & Hfree & Hs).
    destruct (FreeRegisters_cons N p _ _ HC Hfree) as (HC3 & Hn3 & Hno & _).
    apply bind_Ok in Hs as (n & ? & Hn & Hs). apply node_Ok in Hn as [-> ->].
    apply bind_Ok in Hs as (? & ? & Hd & Hs). apply DCHECK_Ok in Hd as [-> _].
    apply DCHECK_Ok in Hs as [-> _].
    assert (node_at s3 p = ClearRegisters (node_at s2 p)) as Hp.
    { unfold node_at at 1. rewrite Hn3. apply lookup_total_insert_eq. }
    split; [done|]. split; [by rewrite Hp|]. split; [done|].
    right. by exists (node_at s2 p).
Qed.

Lemma AllocateNodeResult_spec p s s' :
  Inv s →
  AllocateNodeResult N D is_dead has_valid_live_range p s = Ok (tt, s') →
  ∃ policy,
    result (node_at s p) = Unallocated policy ∧ Inv s' ∧
    result_placed N D has_valid_live_range p policy s s'.
Proof.
  intros HC Hs. unfold AllocateNodeResult in Hs.
  apply bind_Ok in Hs as (n & ? & Hn & Hs). apply node_Ok in Hn as [-> ->].
  apply bind_Ok in Hs as (? & ? & Hd & Hs). apply DCHECK_Ok in Hd as [-> _].
  apply bind_Ok in Hs as ([] & s1 & Hup & Hs).
  pose proof (update_node_inv N p SetNoSpillOrHint (λ _, eq_refl) _ _ _ Hup HC)
    as HC1.
  apply update_node_Ok in Hup.
  assert (inputs (node_at s1 p) = inputs (node_at s p)) as Hin.
  { rewrite Hup. norm. by rewrite decide_True. }
  assert (∀ (m : M Operand) r o s1' s2,
            m s1 = Ok (o, s1') → o = REGISTER r → Inv s1' →
            0 <= r < Z.of_nat N →
            register_values_ s1' !! Z.to_nat r = Some (Some p) →
            update_node p (SetAllocated o) s1' = Ok (tt, s2) →
            Inv s2 ∧ result (node_at s2 p) = REGISTER r ∧
            register_values_ s2 !! Z.to_nat r = Some (Some p)) as Hset.
  { intros m r o s1' s2 _ -> HC' Hr Hheld Hu.
    pose proof (update_node_inv N p (SetAllocated (REGISTER r)) (λ _, eq_refl)
                  _ _ _ Hu HC') as HC2.
    apply update_node_Ok in Hu. subst s2. split; [done|]. split; [|done].
    norm. by rewrite decide_True. }
  assert (∀ r o s1', ForceAllocate N D r p s1 = Ok (o, s1') →
            o = REGISTER r ∧ Inv s1' ∧ 0 <= r < Z.of_nat N ∧
            register_values_ s1' !! Z.to_nat r = Some (Some p)) as Hforce.
  { intros r o s1' Hf.
    pose proof (ForceAllocate_register N D _ _ _ _ _ Hf) as ->.
    pose proof (ForceAllocate_inv N D r p _ _ _ Hf HC1) as HC'.
    destruct (ForceAllocate_spec N D r p s1 _ s1' HC1 Hf) as [He _].
    destruct (MapRegisterToIndex_valid _ _ _ _ (cons_count _ _ _ _ HC')
                (cons_length _ _ _ _ HC') He) as [Hm Hr].
    rewrite Hm in He. done. }
  destruct (result (node_at s p)) as [|policy| |] eqn:Hres;
    try (unfold bad_cast in Hs; destruct D; discriminate Hs).
  exists policy. split; [done|].
  destruct policy as [index| | | |r|r| | |k].
  - apply bind_Ok in Hs as (? & ? & Hd & Hs). apply DCHECK_Ok in Hd as [-> Hd1].
    apply bind_Ok in Hs as (? & ? & Hd & Hs). apply DCHECK_Ok in Hd as [-> Hd2].
    apply bind_Ok in Hs as ([] & s2 & Hup2 & Hs).
    pose proof (update_node_inv N p (SetAllocated (STACK_SLOT index))
                  (λ _, eq_refl) _ _ _ Hup2 HC1) as HC2.
    pose proof (update_node_inv N p (Spill_to (STACK_SLOT index))
                  (λ _, eq_refl) _ _ _ Hs HC2) as HC3.
    apply update_node_Ok in Hup2. apply update_node_Ok in Hs.
    assert (node_at s' p =
            Spill_to (STACK_SLOT index)
              (SetAllocated (STACK_SLOT index)
                 (SetNoSpillOrHint (node_at s p)))) as Hp.
    { rewrite Hs. norm. rewrite decide_True by done.
      rewrite Hup2. norm. rewrite decide_True by done.
      rewrite Hup. norm. by rewrite decide_True. }
    assert (register_values_ s' = register_values_ s ∧
            free_registers_ s' = free_registers_ s) as [Hv Hf]
      by (by rewrite Hs, Hup2, Hup).
    split; [done|]. simpl. rewrite Hp. simpl.
    split; [done|]. split; [done|]. split; [done|]. split; [done|].
    intros HD. split; [by apply Z.ltb_lt, Hd2|by apply Hd1].
  - apply bind_Ok in Hs as (? & ? & Hx & _). discriminate Hx.
  - apply bind_Ok in Hs as (? & ? & Hx & _). discriminate Hx.
  - apply bind_Ok in Hs as (? & ? & Hx & _). discriminate Hx.
  - apply bind_Ok in Hs as ([] & s2 & Hm & Hs).
    apply bind_Ok in Hm as (o & s1' & Hf & Hu).
    destruct (Hforce _ _ _ Hf) as (-> & HC' & Hr & Hheld).
    destruct (Hset _ r _ _ _ Hf eq_refl HC' Hr Hheld Hu) as (HC2 & Hres2 & Hh2).
    by destruct (AllocateNodeResult_finish p r s2 s' HC2 Hres2 Hr Hh2 Hs).
  - apply bind_Ok in Hs as (? & ? & Hx & _). discriminate Hx.
  - apply bind_Ok in Hs as ([] & s2 & Hm & Hs).
    apply bind_Ok in Hm as (o & s1' & Hf & Hu).
    destruct (AllocateRegister_holds p _ _ _ HC1 Hf) as (r & -> & Hr & Hheld & HC').
    destruct (Hset _ r _ _ _ Hf eq_refl HC' Hr Hheld Hu) as (HC2 & Hres2 & Hh2).
    destruct (AllocateNodeResult_finish p r s2 s' HC2 Hres2 Hr Hh2 Hs).
    split; [done|]. by exists r.
  - apply bind_Ok in Hs as (? & ? & Hx & _). discriminate Hx.
  - apply bind_Ok in Hs as ([] & s2 & Hm & Hs).
    apply bind_Ok in Hm as (i & ? & Hi & Hm). unfold input in Hi.
    apply bind_Ok in Hi as (n & ? & Hn & Hi). apply node_Ok in Hn as [-> ->].
    rewrite Hin in Hi.
    destruct (inputs (node_at s p) !! k) as [i0|] eqn:Hk; [|done].
    apply ret_Ok in Hi as [-> ->].
    apply bind_Ok in Hm as (r & ? & Har & Hm). unfold AssignedRegister in Har.
    destruct (operand i0) as [| |code|] eqn:Hop;
      try (unfold bad_cast in Har; destruct D; discriminate Har).
    apply ret_Ok in Har as [-> ->].
    apply bind_Ok in Hm as (o & s1' & Hf & Hu).
    destruct (Hforce _ _ _ Hf) as (-> & HC' & Hr & Hheld).
    destruct (Hset _ code _ _ _ Hf eq_refl HC' Hr Hheld Hu)
      as (HC2 & Hres2 & Hh2).
    destruct (AllocateNodeResult_finish p code s2 s' HC2 Hres2 Hr Hh2 Hs).
    split; [done|]. by exists i0, code.
Qed.

(** A use of a value that is not dead yet, [UpdateInputUse(use, input)],
    in a consistent register file: the next use of the producer becomes the
    use id of the input.  If the producer is still live after that, nothing
    else changes.  If this was its last use, its register set is emptied
    and no register holds it any more.  In both cases registers are only
    emptied, and the register file stays consistent. *)
Theorem UpdateInputUse_live u i s s' :
  Inv s →
  is_dead (node_at s (input_node i)) = false →
  UpdateInputUse N is_dead u i s = Ok (tt, s') →
  Inv s' ∧
  next_use (node_at s' (input_node i)) = next_use_id i ∧
  (∀ k v, register_values_ s' !! k = Some (Some v) →
          register_values_ s !! k = Some (Some v)) ∧
  (is_dead (set_next_use (next_use_id i) (node_at s (input_node i))) = false →
   s' = with_nodes
          (<[input_node i :=
               set_next_use (next_use_id i) (node_at s (input_node i))]>
             (nodes_ s)) s) ∧
  (is_dead (set_next_use (next_use_id i) (node_at s (input_node i))) = true →
   registers_with_result (node_at s' (input_node i)) = kEmptyRegList ∧
   ∀ k, register_values_ s' !! k ≠ Some (Some (input_node i))).
Proof.
  intros HC Hlive Hs.
  pose proof (UpdateInputUse_inv N is_dead u i _ _ _ Hs HC) as HC'.
  unfold UpdateInputUse in Hs.
  apply bind_Ok in Hs as (n & ? & Hn & Hs). apply node_Ok in Hn as [-> ->].
  rewrite Hlive in Hs.
  apply bind_Ok in Hs as ([] & s1 & Hup & Hs).
  pose proof (update_node_inv N (input_node i) (set_next_use (next_use_id i))
                (λ _, eq_refl) _ _ _ Hup HC) as HC1.
  apply update_node_Ok in Hup.
  apply bind_Ok in Hs as (n & ? & Hn & Hs). apply node_Ok in Hn as [-> ->].
  assert (node_at s1 (input_node i) =
          set_next_use (next_use_id i) (node_at s (input_node i))) as Hn1.
  { rewrite Hup. norm. by rewrite decide_True. }
  rewrite Hn1 in Hs.
  destruct (is_dead (set_next_use _ _)) eqn:Hdead.
  - apply bind_Ok in Hs as ([] & s2 & Hfree & Hs).
    destruct (FreeRegisters_cons N _ _ _ HC1 Hfree)
      as (HC2 & Hn2 & Hno & _ & Hsome & _).
    assert (node_at s2 (input_node i) =
            ClearRegisters (node_at s1 (input_node i))) as Hp.
    { unfold node_at at 1. rewrite Hn2. apply lookup_total_insert_eq. }
    apply bind_Ok in Hs as (n & ? & Hn & Hs). apply node_Ok in Hn as [-> ->].
    assert (node_at s' (input_node i) = node_at s2 (input_node i) ∧
            register_values_ s' = register_values_ s2) as [Hsame Hv].
    { destruct (spill_or_hint (node_at s2 (input_node i))) as [| | |index];
        try (by apply ret_Ok in Hs as [_ ->]).
      destruct (index >? 0); simpl in Hs; by run. }
    split; [done|]. split; [by rewrite Hsame, Hp, Hn1|]. split.
    { intros k v Hk. rewrite Hv in Hk. apply Hsome in Hk. by rewrite Hup in Hk. }
    split; [done|]. intros _. split; [by rewrite Hsame, Hp|].
    intros k. rewrite Hv. apply Hno.
  - apply ret_Ok in Hs as [_ ->].
    split; [done|]. split; [by rewrite Hn1|]. split.
    { intros k v Hk. by rewrite Hup in Hk. }
    split; [done|]. done.
Qed.

End Results.

(** [AllocateNodeResult(node)]: the result of the node had an unallocated
    operand, and is placed by its policy.  A fixed slot becomes the result
    and the spill slot, and no register is touched (with assertions on, the
    node is an initial value and the index is negative).  A fixed register,
    some register (must-have-register), or the register of the input named
    by same-as-input becomes the result; it is a register of the file, and
    the node holds it afterwards, unless the node has no valid live range:
    then its registers are freed at once and no register holds it.  The
    register file stays consistent. *)
Theorem AllocateNodeResult_places N D is_dead has_valid_live_range p s s' :
  Consistent N [] None s →
  AllocateNodeResult N D is_dead has_valid_live_range p s = Ok (tt, s') →
  ∃ policy,
    result (node_at s p) = Unallocated policy ∧
    Consistent N [] None s' ∧
    result_placed N D has_valid_live_range p policy s s'.
Proof. apply AllocateNodeResult_spec. Qed.

Lemma AllocateNodeResult_places_witness :
  ∃ s', AllocateNodeResult 2 true is_dead_past_end has_live_range_end 13%nat
          before_call = Ok (tt, s') ∧
    result (node_at s' 13%nat) = REGISTER 0 ∧
    register_values_ s' !! Z.to_nat 0 = Some (Some 13%nat).
Proof.
  assert (∃ s', AllocateNodeResult 2 true is_dead_past_end has_live_range_end
                  13%nat before_call = Ok (tt, s')) as [s' Hrun]
    by (eexists; by vm_compute).
  exists s'. split; [exact Hrun|].
  destruct (AllocateNodeResult_places 2 true is_dead_past_end
              has_live_range_end 13%nat before_call s'
              before_call_consistent Hrun) as (policy & Hp & _ & Hplaced).
  vm_compute in Hp. injection Hp as <-.
  destruct Hplaced as (Hres & _ & [(Hheld & _)|(n & _ & _ & Hno)]).
  - by split.
  - exfalso. apply (Hno 0%nat). vm_compute in Hrun. injection Hrun as <-. by vm_compute.
Defined.

Lemma UpdateInputUse_live_witness :
  ∃ s', UpdateInputUse 2 is_dead_past_end 2 (mkInput 10%nat 6 Invalid)
          before_call = Ok (tt, s') ∧
    register_values_ before_call !! 0%nat = Some (Some 10%nat) ∧
    register_values_ s' !! 0%nat ≠ Some (Some 10%nat).
Proof.
  assert (∃ s', UpdateInputUse 2 is_dead_past_end 2 (mkInput 10%nat 6 Invalid)
                  before_call = Ok (tt, s')) as [s' Hrun]
    by (eexists; by vm_compute).
  exists s'. split; [exact Hrun|]. split; [by vm_compute|].
  destruct (UpdateInputUse_live 2 is_dead_past_end 2 (mkInput 10%nat 6 Invalid)
              before_call s' before_call_consistent eq_refl Hrun)
    as (_ & _ & _ & _ & Hlast).
  destruct Hlast as [_ Hno]; [by vm_compute|]. apply Hno.
Defined.

(** * Every value gets a location *)

Lemma modify_results f :
  (∀ s, nodes_ (f s) = nodes_ s) → preserves ResultsStay (modify f).
Proof. intros Hf s a s' Hs q Hq. run. unfold node_at. by rewrite Hf. Qed.

Lemma bind_SetAllocated_results (m : M Operand) p :
  preserves ResultsStay m →
  (∀ s o s', m s = Ok (o, s') → IsRegister o = true) →
  preserves ResultsStay (o <- m ;; update_node p (SetAllocated o)).
Proof.
  intros Hm Hreg s a s' Hs.
  apply bind_Ok in Hs as (o & s1 & Ho & Hs).
  pose proof (Hreg _ _ _ Ho) as Hr.
  etrans; [by eapply Hm|].
  eapply SetAllocated_results; [|done]. by destruct o.
Qed.

Lemma preserves_cells_results {A} target (m : M A) :
  preserves (CellsOnly target) m → preserves ResultsStay m.
Proof.
  intros Hm s a s' Hs q Hq.
  destruct (CellsOnly_fields _ _ _ (Hm _ _ _ Hs)) as (_ & _ & _ & _ & _ & Hn & _).
  unfold node_at. by rewrite Hn.
Qed.

Lemma result_placed_allocated N D has_valid_live_range p policy s s' :
  result_placed N D has_valid_live_range p policy s s' →
  IsAllocated (result (node_at s' p)) = true.
Proof.
  destruct policy; simpl; try done.
  - by intros (-> & _).
  - by intros (-> & _).
  - by intros (r & -> & _).
  - by intros (i & r & _ & _ & -> & _).
Qed.

Section Complete.
Variables (N : nat) (D : bool) (is_dead has_valid_live_range : Node → bool).
Variable g : Graph.
Local Abbreviation Inv := (Consistent N [] None).

Lemma ForceAllocate_SetAllocated_results r v p :
  preserves ResultsStay
    (o <- ForceAllocate N D r v ;; update_node p (SetAllocated o)).
Proof.
  apply bind_SetAllocated_results;
    [apply preserves_low_results, ForceAllocate_low|].
  intros s o s' Hs. by rewrite (ForceAllocate_register N D _ _ _ _ _ Hs).
Qed.

Lemma AllocateRegister_SetAllocated_results v p :
  preserves ResultsStay
    (o <- AllocateRegister N D v ;; update_node p (SetAllocated o)).
Proof.
  apply bind_SetAllocated_results;
    [apply preserves_low_results, AllocateRegister_low|].
  apply AllocateRegister_register.
Qed.

Lemma UpdateInputUse_results u i :
  preserves ResultsStay (UpdateInputUse N is_dead u i).
Proof.
  unfold UpdateInputUse.
  pose proof update_node_results. pose proof modify_results.
  pose proof (λ v, preserves_low_results _ (FreeRegisters_low N v)).
  frame.
Qed.

Lemma AssignInput_results p k : preserves ResultsStay (AssignInput N D p k).
Proof.
  unfold AssignInput, input.
  pose proof update_node_results.
  pose proof (λ r v, preserves_low_results _ (ForceAllocate_low N D r v)).
  pose proof (λ v, preserves_low_results _ (AllocateRegister_low N D v)).
  pose proof (λ a b, preserves_low_results _ (AddMoveBeforeCurrentNode_low a b)).
  frame.
Qed.

Lemma AssignTemporaries_results p :
  preserves ResultsStay (AssignTemporaries N D p).
Proof.
  unfold AssignTemporaries.
  pose proof update_node_results.
  pose proof (preserves_low_results _ (FreeSomeRegister_low N)).
  frame.
Qed.

Lemma AllocateNodeResult_results p :
  preserves ResultsStay
    (AllocateNodeResult N D is_dead has_valid_live_range p).
Proof.
  unfold AllocateNodeResult, input.
  pose proof ForceAllocate_SetAllocated_results as HF.
  pose proof AllocateRegister_SetAllocated_results as HA.
  pose proof (λ v, preserves_low_results _ (FreeRegisters_low N v)).
  pose proof (AssignedRegister_rel D ResultsStay).
  pose proof update_node_results. pose proof SetAllocated_results.
  repeat (first [solve [eauto 2] | frame1]).
Qed.

Lemma AllocateNode_results p :
  preserves ResultsStay (AllocateNode N D is_dead has_valid_live_range p).
Proof.
  unfold AllocateNode.
  pose proof AssignInput_results. pose proof AssignTemporaries_results.
  pose proof UpdateInputUse_results. pose proof AllocateNodeResult_results.
  pose proof (preserves_low_results _ (SpillRegisters_low N D)).
  pose proof (preserves_low_results _ (SpillAndClearRegisters_low N D)).
  frame.
Qed.

Lemma TryAllocateToInput_results phi :
  preserves ResultsStay (TryAllocateToInput N D phi).
Proof.
  unfold TryAllocateToInput.
  apply preserves_bind; [apply _|frame|]. intros n.
  pose proof ForceAllocate_SetAllocated_results as HF.
  pose proof (AssignedRegister_rel D ResultsStay).
  induction (inputs n) as [|i l IH]; simpl; [frame|].
  repeat (first [solve [eauto 2] | frame1]).
Qed.

Lemma phi_to_free_register_results phi :
  preserves ResultsStay (phi_to_free_register N D phi).
Proof.
  intros s [] s' Hs. unfold phi_to_free_register in Hs.
  apply bind_Ok in Hs as (n & ? & Hn & Hs). apply node_Ok in Hn as [-> ->].
  destruct (IsAllocated (result (node_at s phi))); [run; reflexivity|].
  apply bind_Ok in Hs as (o & s1 & Hto & Hs).
  pose proof (preserves_low_results _ (TryAllocateRegister_low N D phi)
                _ _ _ Hto) as H1.
  destruct (IsAllocated o) eqn:Ho; [|by run].
  etrans; [done|]. by eapply SetAllocated_results.
Qed.

Lemma phi_to_stack_slot_results phi :
  preserves ResultsStay (phi_to_stack_slot D phi).
Proof.
  intros s [] s' Hs. unfold phi_to_stack_slot in Hs.
  apply bind_Ok in Hs as (n & ? & Hn & Hs). apply node_Ok in Hn as [-> ->].
  destruct (IsAllocated (result (node_at s phi))); [run; reflexivity|].
  apply bind_Ok in Hs as ([] & s1 & Hsp & Hs).
  apply bind_Ok in Hs as (n & ? & Hn & Hs). apply node_Ok in Hn as [-> ->].
  etrans; [exact (AllocateSpillSlot_results D _ _ _ _ Hsp)|].
  eapply SetAllocated_results; [|done].
  exact (AllocateSpillSlot_spilled D _ _ _ Hsp).
Qed.

Lemma AllocatePhis_results phis : preserves ResultsStay (AllocatePhis N D phis).
Proof.
  unfold AllocatePhis, phi_to_input.
  pose proof TryAllocateToInput_results. pose proof update_node_results.
  pose proof phi_to_free_register_results. pose proof phi_to_stack_slot_results.
  frame.
Qed.

Lemma AllocateControlNode_results p block :
  preserves ResultsStay (AllocateControlNode N D is_dead g p block).
Proof.
  unfold AllocateControlNode, InitializeConditionalBranchRegisters,
    InjectPhiInputs.
  pose proof AssignInput_results. pose proof AssignTemporaries_results.
  pose proof UpdateInputUse_results.
  pose proof (preserves_low_results _ (SpillRegisters_low N D)).
  pose proof (preserves_low_results _ (SpillAndClearRegisters_low N D)).
  pose proof (λ v, preserves_low_results _ (FreeRegisters_low N v)).
  pose proof (λ c t pid, preserves_cells_results t _
                (MergeRegisterValues_cells N D is_dead c t pid)).
  pose proof (λ c t, preserves_cells_results t _
                (InitializeBranchTargetRegisterValues_cells N D is_dead c t)).
  pose proof (IsLiveAtTarget_rel ResultsStay is_dead).
  pose proof (phi_input_rel ResultsStay).
  pose proof update_node_results.
  frame.
Qed.

(** The step of a value node leaves it with an allocated result. *)
Lemma AllocateNode_allocates p s s' :
  Inv s →
  AllocateNode N D is_dead has_valid_live_range p s = Ok (tt, s') →
  IsValueNode (node_at s p) = true →
  IsAllocated (result (node_at s' p)) = true.
Proof.
  intros HC Hs Hvalue. unfold AllocateNode in Hs.
  pose proof (AssignInput_inv N D) as I1.
  pose proof (AssignTemporaries_inv N D) as I2.
  pose proof (UpdateInputUse_inv N is_dead) as I3.
  pose proof (SpillAndClearRegisters_inv N D) as I4.
  pose proof (preserves_same_keeps N _ [] None (SpillRegisters_same N D)) as I5.
  pose proof (AssignInput_step N D) as S1.
  pose proof (AssignTemporaries_step N D) as S2.
  pose proof (UpdateInputUse_step N is_dead) as S3.
  pose proof (preserves_LowStep_Step _ (SpillAndClearRegisters_low N D)) as S4.
  pose proof (preserves_LowStep_Step _ (SpillRegisters_low N D)) as S5.
  assert (∀ (m : M unit) (t t' : State),
            preserves (Keeps Inv) m → preserves Step m →
            Inv t → IsValueNode (node_at t p) = true →
            m t = Ok (tt, t') →
            Inv t' ∧ IsValueNode (node_at t' p) = true) as Hpiece.
  { intros m t t' Hi Hst HCt Hv Hm. split; [by eapply Hi|].
    pose proof (step_static _ _ (Hst _ _ _ Hm) p) as Hstat.
    unfold static in Hstat. injection Hstat as _ Hop _ _ _ _ _.
    unfold IsValueNode in *. by rewrite Hop. }
  apply bind_Ok in Hs as (n & ? & Hn & Hs). apply node_Ok in Hn as [-> ->].
  apply bind_Ok in Hs as ([] & s1 & H1 & Hs).
  match type of H1 with ?m _ = _ =>
    destruct (Hpiece m _ _ ltac:(frame) ltac:(frame) HC Hvalue H1) as [HC1 Hv1] end.
  apply bind_Ok in Hs as ([] & s2 & H2 & Hs).
  match type of H2 with ?m _ = _ =>
    destruct (Hpiece m _ _ ltac:(frame) ltac:(frame) HC1 Hv1 H2) as [HC2 Hv2] end.
  apply bind_Ok in Hs as (n & ? & Hn & Hs). apply node_Ok in Hn as [-> ->].
  apply bind_Ok in Hs as ([] & s3 & H3 & Hs).
  match type of H3 with ?m _ = _ =>
    destruct (Hpiece m _ _ ltac:(frame) ltac:(frame) HC2 Hv2 H3) as [HC3 Hv3] end.
  apply bind_Ok in Hs as (n & ? & Hn & Hs). apply node_Ok in Hn as [-> ->].
  apply bind_Ok in Hs as ([] & s4 & H4 & Hs).
  match type of H4 with ?m _ = _ =>
    destruct (Hpiece m _ _ ltac:(frame) ltac:(frame) HC3 Hv3 H4) as [HC4 Hv4] end.
  apply bind_Ok in Hs as (n & ? & Hn & Hs). apply node_Ok in Hn as [-> ->].
  apply bind_Ok in Hs as ([] & s5 & H5 & Hs).
  match type of H5 with ?m _ = _ =>
    destruct (Hpiece m _ _ ltac:(frame) ltac:(frame) HC4 Hv4 H5) as [HC5 Hv5] end.
  apply bind_Ok in Hs as (n & ? & Hn & Hs). apply node_Ok in Hn as [-> ->].
  rewrite Hv5 in Hs. simpl in Hs.
  destruct (AllocateNodeResult_spec N D is_dead has_valid_live_range p _ _
              HC5 Hs) as (policy & _ & _ & Hplaced).
  by eapply result_placed_allocated.
Qed.

Lemma IsValueNode_static s t p :
  static (node_at t p) = static (node_at s p) →
  IsValueNode (node_at t p) = IsValueNode (node_at s p).
Proof.
  unfold static. intros Hstat. injection Hstat as _ Hop _ _ _ _ _.
  unfold IsValueNode. by rewrite Hop.
Qed.

Lemma AllocateNodes_allocates l s s' :
  Inv s →
  AllocateNodes N D is_dead has_valid_live_range l s = Ok (tt, s') →
  ∀ p, p ∈ l → IsValueNode (node_at s p) = true →
       IsAllocated (result (node_at s' p)) = true.
Proof.
  intros HC Hs. unfold AllocateNodes in Hs.
  set (I := λ (rest : list ptr) (t : State),
    Inv t ∧ Step s t ∧
    ∀ p, p ∈ l → p ∈ rest ∨
         (IsValueNode (node_at s p) = true →
          IsAllocated (result (node_at t p)) = true)).
  eapply (for_each_inv I) in Hs.
  - destruct Hs as (_ & _ & Hdone). intros p Hp.
    by destruct (Hdone p Hp) as [?%elem_of_nil|?].
  - clear Hs s'. intros x rest t t' (HCt & Hst & Hdone) Hx.
    apply bind_Ok in Hx as ([] & t1 & Hmod & Hx). apply modify_Ok in Hmod.
    assert (Inv t1) as HC1.
    { rewrite Hmod. eapply Consistent_same; [|done]. by split. }
    assert (∀ q, node_at t1 q = node_at t q) as Hn1 by (by rewrite Hmod).
    assert (Step t t') as Hstep.
    { etrans; [|exact (AllocateNode_step N D _ _ x _ _ _ Hx)].
      rewrite Hmod. by split. }
    split; [by eapply AllocateNode_inv|]. split; [by etrans|].
    intros p Hp. destruct (decide (p = x)) as [->|Hne].
    + right. intros Hv. eapply AllocateNode_allocates; [done|done|].
      rewrite Hn1. rewrite <- Hv. apply IsValueNode_static.
      apply (step_static _ _ Hst).
    + destruct (Hdone p Hp) as [[?|?]%elem_of_cons|Hal]; [done|by left|].
      right. intros Hv.
      apply (AllocateNode_results x _ _ _ Hx). rewrite Hn1. by apply Hal.
  - split; [done|]. split; [reflexivity|]. intros p Hp. by left.
Qed.

Lemma AllocateBlock_allocates b s s' :
  Inv s →
  AllocateBlock N D is_dead has_valid_live_range g b s = Ok (tt, s') →
  ResultsStay s s' ∧ block_allocated g s s' b.
Proof.
  intros HC Hs. unfold AllocateBlock in Hs.
  apply bind_Ok in Hs as (t & ? & Ht & Hs). apply basic_block_Ok in Ht as [-> ->].
  apply bind_Ok in Hs as ([] & s1 & Hinit & Hs).
  assert (Inv s1 ∧ LowStep s s1) as [HC1 Hlow1].
  { destruct (has_state (block_at s b)); simpl in Hinit.
    - split; [by eapply InitializeRegisterValues_inv|].
      by eapply InitializeRegisterValues_low.
    - apply ret_Ok in Hinit as [_ ->]. split; [done|reflexivity]. }
  apply bind_Ok in Hs as ([] & s2 & Hphis & Hs).
  assert (Inv s2 ∧ Step s1 s2 ∧ ResultsStay s1 s2 ∧
          ∀ phis phi, block_phis (shape_at g b) = Some phis → phi ∈ phis →
            IsAllocated (result (node_at s2 phi)) = true)
    as (HC2 & Hstep2 & Hres2 & Hal2).
  { destruct (block_phis (shape_at g b)) as [phis|].
    - split; [by eapply AllocatePhis_inv|].
      split; [by eapply AllocatePhis_step|].
      split; [by eapply AllocatePhis_results|].
      intros ? phi [= <-] Hphi.
      by eapply (AllocatePhis_all_allocated N D).
    - apply ret_Ok in Hphis as [_ ->].
      split; [done|]. split; [reflexivity|]. split; [reflexivity|]. done. }
  apply bind_Ok in Hs as ([] & s3 & Hnodes & Hs).
  pose proof (AllocateNodes_allocates _ _ _ HC2 Hnodes) as Hal3.
  assert (ResultsStay s2 s3) as Hres3.
  { unfold AllocateNodes in Hnodes.
    match type of Hnodes with ?m _ = _ =>
      assert (preserves ResultsStay m) as Hp
        by (pose proof AllocateNode_results; pose proof modify_results; frame)
    end.
    exact (Hp _ _ _ Hnodes). }
  apply bind_Ok in Hs as ([] & s4 & Hit & Hs).
  unfold set_node_it in Hit. apply modify_Ok in Hit.
  assert (∀ q, node_at s4 q = node_at s3 q) as Hn4 by (by rewrite Hit).
  pose proof (AllocateControlNode_results _ _ _ _ _ Hs) as Hres5.
  assert (ResultsStay s3 s') as Hres35.
  { intros q Hq. apply Hres5. by rewrite Hn4. }
  split.
  { assert (ResultsStay s s1) as Hres1
      by (intros q Hq; by rewrite (low_result _ _ Hlow1)).
    etrans; [done|]. etrans; [done|]. by etrans. }
  split.
  - intros phis phi Hsome Hphi. apply Hres35, Hres3. by eapply Hal2.
  - intros p Hp Hv. apply Hres35, Hal3; [done|].
    rewrite <- Hv. etrans; [apply IsValueNode_static, (step_static _ _ Hstep2)|].
    apply IsValueNode_static, (step_static _ _ (low_step _ _ Hlow1)).
Qed.

Lemma AllocateRegisters_allocates s s' :
  Inv s →
  AllocateRegisters N D is_dead has_valid_live_range g s = Ok (tt, s') →
  ∀ b, b ∈ graph_blocks g → block_allocated g s s' b.
Proof.
  intros HC Hs. unfold AllocateRegisters in Hs.
  set (I := λ (rest : list ptr) (t : State),
    Inv t ∧ Progress s t ∧
    ∀ b, b ∈ graph_blocks g → b ∈ rest ∨ block_allocated g s t b).
  eapply (for_each_inv I) in Hs.
  - destruct Hs as (_ & _ & Hdone). intros b Hb.
    by destruct (Hdone b Hb) as [?%elem_of_nil|?].
  - clear Hs s'. intros x rest t t' (HCt & Hpr & Hdone) Hx.
    destruct (AllocateBlock_allocates _ _ _ HCt Hx) as [Hres Hblock].
    split; [by eapply AllocateBlock_inv|].
    split; [etrans; [done|by eapply AllocateBlock_progress]|].
    intros b Hb. destruct (decide (b = x)) as [->|Hne].
    + right. destruct Hblock as [Hphis Hnodes]. split; [done|].
      intros p Hp Hv. apply Hnodes; [done|]. rewrite <- Hv.
      apply IsValueNode_static, (pr_static _ _ Hpr).
    + destruct (Hdone b Hb) as [[?|?]%elem_of_cons|[Hphis Hnodes]];
        [done|by left|].
      right. split.
      * intros phis phi ? ?. by eapply Hres, Hphis.
      * intros p ? ?. by apply Hres, Hnodes.
  - split; [done|]. split; [reflexivity|]. intros b Hb. by left.
Qed.

End Complete.

(** Every value gets a location.  When the allocation of a graph, started
    in a consistent register file, comes to its end, every phi of every
    block and every value node of every block has an allocated result
    operand: a register or a stack slot. *)
Theorem allocation_is_complete N D is_dead has_valid_live_range g s s' :
  Consistent N [] None s →
  AllocateRegisters N D is_dead has_valid_live_range g s = Ok (tt, s') →
  ∀ b, b ∈ graph_blocks g →
    (∀ phis phi, block_phis (shape_at g b) = Some phis → phi ∈ phis →
       IsAllocated (result (node_at s' phi)) = true) ∧
    (∀ p, p ∈ block_nodes (shape_at g b) →
       IsValueNode (node_at s p) = true →
       IsAllocated (result (node_at s' p)) = true).
Proof. apply AllocateRegisters_allocates. Qed.

Lemma allocation_is_complete_witness :
  AllocateRegisters 2 true is_dead_past_end has_live_range_end branch_graph
    branch_start = Ok (tt, branch_end) ∧
  IsAllocated (result (node_at branch_end 20%nat)) = true ∧
  IsAllocated (result (node_at branch_end 12%nat)) = true.
Proof.
  assert (AllocateRegisters 2 true is_dead_past_end has_live_range_end
            branch_graph branch_start = Ok (tt, branch_end)) as Hrun
    by (vm_compute; reflexivity).
  split; [exact Hrun|].
  pose proof (allocation_is_complete 2 true is_dead_past_end
                has_live_range_end branch_graph branch_start branch_end
                branch_start_consistent Hrun) as Hall.
  split.
  - destruct (Hall 3%nat) as [Hphis _];
      [do 3 apply list_elem_of_further; apply list_elem_of_here|].
    apply (Hphis [20%nat]); [reflexivity|by left].
  - destruct (Hall 2%nat) as [_ Hnodes];
      [do 2 apply list_elem_of_further; apply list_elem_of_here|].
    apply Hnodes; [by left|reflexivity].
Defined.
